(** * Slack-Pack: a shallow embedding of the placement engine, the box
    storages, the detail generators and the driver.

    Numbers.  The Python code computes on floats; this development reads
    every float as the real number it stands for ([R]), so that [+], [-],
    [min], [max], [pow] and [sqrt] are the exact operations.  Integers
    ([n0], indices, counters, sizes of caches) are [Z].

    Effects.  Methods mutate [self] and the list of placed details and may
    raise; they are modelled in a state monad whose state survives a raised
    exception, as a Python object does. *)

From Stdlib Require Import Reals Lra Lia ZArith List String Bool Permutation Sorted.
From Stdlib Require Import DecimalString DecimalZ.
Import ListNotations.
Open Scope R_scope.

Set Implicit Arguments.

(** ** Python values and exceptions *)

Inductive exn : Type :=
| AlgorithmExecutionException (message : string)
| ZeroDivisionError
| IndexError (message : string)
| ValueError (message : string)
| AttributeError (message : string)
| DatabaseError (message : string).

Inductive outcome (A : Type) : Type :=
| Ret (a : A)
| Raise (e : exn).
Arguments Ret {A} a.
Arguments Raise {A} e.

(** A method over a mutable world [W]: it returns or raises, and in both
    cases leaves a world behind. *)
Definition M (W A : Type) : Type := W -> outcome A * W.

Definition ret {W A} (a : A) : M W A := fun w => (Ret a, w).
Definition raise {W A} (e : exn) : M W A := fun w => (Raise e, w).
Definition bind {W A B} (c : M W A) (k : A -> M W B) : M W B :=
  fun w => match c w with
           | (Ret a, w') => k a w'
           | (Raise e, w') => (Raise e, w')
           end.
Definition get {W} : M W W := fun w => (Ret w, w).
Definition put {W} (w : W) : M W unit := fun _ => (Ret tt, w).
Definition modify {W} (f : W -> W) : M W unit := fun w => (Ret tt, f w).
Definition of_outcome {W A} (o : outcome A) : M W A := fun w => (o, w).

Declare Scope py_scope.
Delimit Scope py_scope with py.
Notation "x <- c ;; k" := (bind c (fun x => k))
  (at level 100, c at next level, right associativity) : py_scope.
Notation "c ;;; k" := (bind c (fun _ => k))
  (at level 100, right associativity) : py_scope.
Open Scope py_scope.

(** Run a method of a component [V] kept inside the world [W]. *)
Definition zoom {W V A} (proj : W -> V) (inj : W -> V -> W) (c : M V A) : M W A :=
  fun w => let (r, v) := c (proj w) in (r, inj w v).

(** Comparisons of floats, as booleans. *)
Definition Rltb (a b : R) : bool := if Rlt_dec a b then true else false.
Definition Rleb (a b : R) : bool := if Rle_dec a b then true else false.
Definition Rgtb (a b : R) : bool := Rltb b a.
Definition Rgeb (a b : R) : bool := Rleb b a.

(** [1 / k] on a Python int [k], then [pow(_, gamma)].  The engine and the
    partitioned storage only ever take [k >= 1] (an index of a detail), where
    [pow] of the positive base [1 / k] is the real power. *)
Definition inv_pow (k : Z) (gamma : R) : outcome R :=
  if (k =? 0)%Z then Raise ZeroDivisionError
  else Ret (Rpower (1 / IZR k) gamma).

(** [str(n)] of a Python int. *)
Definition str (n : Z) : string := NilZero.string_of_int (Z.to_int n).

(** ** detail/detail.py *)

Record Detail : Type := mkDetail {
  bottom_left : R * R;
  top_right : R * R;
  name : string;
  detail_type : string
}.

Definition width (d : Detail) : R := fst (top_right d) - fst (bottom_left d).
Definition height (d : Detail) : R := snd (top_right d) - snd (bottom_left d).

(** [Detail.__eq__]: the four attributes are equal. *)
Definition Detail_eq_dec (a b : Detail) : {a = b} + {a <> b}.
Proof.
  decide equality; try apply string_dec;
    decide equality; apply Req_dec_T.
Defined.

(** [list.remove(x)]: drops the first element equal to [x]; raises
    [ValueError] when there is none. *)
Fixpoint remove_first (x : Detail) (l : list Detail) : option (list Detail) :=
  match l with
  | [] => None
  | y :: l' =>
      if Detail_eq_dec x y then Some l'
      else match remove_first x l' with
           | Some r => Some (y :: r)
           | None => None
           end
  end.

Definition list_remove (x : Detail) (l : list Detail) : outcome (list Detail) :=
  match remove_first x l with
  | Some r => Ret r
  | None => Raise (ValueError "list.remove(x): x not in list")
  end.

(** ** sortedcontainers.SortedSet with [key=cmp_to_key(_detail_comparator)]

    A [SortedSet] is a hash set (membership by [Detail.__eq__]) together with
    a list sorted by the key.  Both storages use the comparator
    [min(d2.width, d2.height) - min(d1.width, d1.height)] on details, so the
    list is in descending order of the smaller side and index 0 is the
    largest box. *)

Definition min_size (d : Detail) : R := Rmin (width d) (height d).

Module SortedSet.

Definition t : Type := list Detail.

Definition empty : t := [].

(** The comparator on two details (neither is [None] inside a set). *)
Definition cmp (detail1 detail2 : Detail) : R := min_size detail2 - min_size detail1.

(** [SortedKeyList.add] places the value at [bisect_right] of its key: before
    the first element [y] with [key(x) < key(y)], that is [cmp x y < 0], and
    so after every element of equal key. *)
Fixpoint insort (x : Detail) (l : list Detail) : list Detail :=
  match l with
  | [] => [x]
  | y :: l' => if Rltb (cmp x y) 0 then x :: y :: l' else y :: insort x l'
  end.

(** [SortedSet.add]: nothing happens when an equal value is in the set. *)
Definition add (x : Detail) (s : t) : t :=
  if in_dec Detail_eq_dec x s then s else insort x s.

Definition len (s : t) : Z := Z.of_nat (List.length s).

(** [s[0]], only evaluated under [len(s) > 0] in the sources. *)
Definition first (s : t) : option Detail := hd_error s.

(** [s.pop(0)]: raises [IndexError] on an empty set. *)
Definition pop0 : M t Detail :=
  fun s => match s with
           | [] => (Raise (IndexError "pop index out of range"), s)
           | x :: s' => (Ret x, s')
           end.

End SortedSet.

(** ** storage/abstract_box_storage.py *)

Class BoxStorage (S : Type) : Type := {
  add_box : Detail -> M S unit;
  get_max_box : M S (option Detail);
  pop_max_box : M S (option Detail)
}.

(** ** storage/in_memory_box_storage.py *)

Module InMemoryBoxStorage.

Record t : Type := mk { boxes : SortedSet.t }.

Definition init : t := {| boxes := SortedSet.empty |}.

Definition add_box (detail : Detail) : M t unit :=
  modify (fun self => {| boxes := SortedSet.add detail (boxes self) |}).

Definition get_max_box : M t (option Detail) :=
  self <- get ;;
  if (SortedSet.len (boxes self) >? 0)%Z then ret (SortedSet.first (boxes self))
  else ret None.

Definition pop_max_box : M t (option Detail) :=
  self <- get ;;
  if (SortedSet.len (boxes self) >? 0)%Z
  then x <- zoom boxes (fun _ b => {| boxes := b |}) SortedSet.pop0 ;; ret (Some x)
  else ret None.

End InMemoryBoxStorage.

#[export] Instance InMemory_BoxStorage : BoxStorage InMemoryBoxStorage.t := {
  add_box := InMemoryBoxStorage.add_box;
  get_max_box := InMemoryBoxStorage.get_max_box;
  pop_max_box := InMemoryBoxStorage.pop_max_box
}.

(** ** algorithm/slack_pack_algorithm.py

    The engine is written over any [BoxStorage].  [statistic_listeners] is the
    constructor's default, the empty list: [_notify_statistic_listeners] then
    loops over nothing, so the four event notifications are left out. *)

Module SlackPackAlgorithm.

Definition DETAIL_PREFIX : string := "D".
Definition DETAIL_NAME : string := "detail".
Definition NORMAL_BOX_PREFIX : string := "B".
Definition NORMAL_BOX_TYPE_1_NAME : string := "normal_box_1".
Definition NORMAL_BOX_TYPE_2_NAME : string := "normal_box_2".
Definition ENDPOINT_PREFIX : string := "E".
Definition ENDPOINT_TYPE_1_NAME : string := "endpoint_1".
Definition ENDPOINT_TYPE_2_NAME : string := "endpoint_2".
Definition LRP_PREFIX : string := "LRP".
Definition LRP_NAME : string := "lrp".

Record t (S : Type) : Type := mk {
  gamma : R;
  n0 : Z;
  max_placed : Z;
  box_storage : S;
  update_placed_details : bool;
  lrp : option Detail;
  active_box : option Detail;
  active_box_first_detail_index : Z;
  is_active_box_horizontal : bool;
  last_placed_index : Z;
  endpoints_placed : Z;
  active_box_from : option string
}.

Section Engine.
Context {S : Type} {BS : BoxStorage S}.

(** [__init__], with [update_placed_details] given explicitly. *)
Definition init (gamma : R) (n0 max_placed : Z) (box_storage : S)
  (update_placed_details : bool) : t S :=
  {| gamma := gamma; n0 := n0; max_placed := max_placed;
     box_storage := box_storage;
     update_placed_details := update_placed_details;
     lrp := None; active_box := None;
     active_box_first_detail_index := n0 - 1;
     is_active_box_horizontal := false;
     last_placed_index := n0 - 1;
     endpoints_placed := 1;
     active_box_from := None |}.

(** Assignments to the attributes of [self]. *)
Definition set_box_storage (self : t S) (v : S) : t S :=
  mk (gamma self) (n0 self) (max_placed self) v (update_placed_details self)
     (lrp self) (active_box self) (active_box_first_detail_index self)
     (is_active_box_horizontal self) (last_placed_index self)
     (endpoints_placed self) (active_box_from self).
Definition set_lrp (v : option Detail) (self : t S) : t S :=
  mk (gamma self) (n0 self) (max_placed self) (box_storage self)
     (update_placed_details self) v (active_box self)
     (active_box_first_detail_index self) (is_active_box_horizontal self)
     (last_placed_index self) (endpoints_placed self) (active_box_from self).
Definition set_active_box (v : option Detail) (self : t S) : t S :=
  mk (gamma self) (n0 self) (max_placed self) (box_storage self)
     (update_placed_details self) (lrp self) v
     (active_box_first_detail_index self) (is_active_box_horizontal self)
     (last_placed_index self) (endpoints_placed self) (active_box_from self).
Definition set_active_box_first_detail_index (v : Z) (self : t S) : t S :=
  mk (gamma self) (n0 self) (max_placed self) (box_storage self)
     (update_placed_details self) (lrp self) (active_box self) v
     (is_active_box_horizontal self) (last_placed_index self)
     (endpoints_placed self) (active_box_from self).
Definition set_is_active_box_horizontal (v : bool) (self : t S) : t S :=
  mk (gamma self) (n0 self) (max_placed self) (box_storage self)
     (update_placed_details self) (lrp self) (active_box self)
     (active_box_first_detail_index self) v (last_placed_index self)
     (endpoints_placed self) (active_box_from self).
Definition set_last_placed_index (v : Z) (self : t S) : t S :=
  mk (gamma self) (n0 self) (max_placed self) (box_storage self)
     (update_placed_details self) (lrp self) (active_box self)
     (active_box_first_detail_index self) (is_active_box_horizontal self) v
     (endpoints_placed self) (active_box_from self).
Definition set_endpoints_placed (v : Z) (self : t S) : t S :=
  mk (gamma self) (n0 self) (max_placed self) (box_storage self)
     (update_placed_details self) (lrp self) (active_box self)
     (active_box_first_detail_index self) (is_active_box_horizontal self)
     (last_placed_index self) v (active_box_from self).
Definition set_active_box_from (v : option string) (self : t S) : t S :=
  mk (gamma self) (n0 self) (max_placed self) (box_storage self)
     (update_placed_details self) (lrp self) (active_box self)
     (active_box_first_detail_index self) (is_active_box_horizontal self)
     (last_placed_index self) (endpoints_placed self) v.

(** The world of [place_next]: the engine and the caller's list
    [placed_details], which the engine mutates in place. *)
Definition world : Type := t S * list Detail.

Definition self : M world (t S) := fun w => (Ret (fst w), w).
Definition assign (f : t S -> t S) : M world unit :=
  modify (fun w => (f (fst w), snd w)).
Definition placed_details : M world (list Detail) := fun w => (Ret (snd w), w).
Definition set_placed_details (l : list Detail) : M world unit :=
  modify (fun w => (fst w, l)).
Definition storage {A} (c : M S A) : M world A :=
  zoom (fun w => box_storage (fst w))
       (fun w s => (set_box_storage (fst w) s, snd w)) c.

(** Reading an attribute of an object that may be [None]. *)
Definition deref (o : option Detail) : M world Detail :=
  match o with
  | Some d => ret d
  | None => raise (AttributeError "'NoneType' object has no attribute")
  end.

Definition _check_if_lrp_none : M world unit :=
  s <- self ;;
  match lrp s with
  | Some _ => ret tt
  | None =>
      l <- placed_details ;;
      match l with
      | [] => raise (IndexError "list index out of range")
      | d :: _ => assign (set_lrp (Some d))
      end
  end.

Definition _check_active_box_size (detail : R * R) : M world unit :=
  s <- self ;;
  match active_box s with
  | None => ret tt
  | Some ab =>
      required_gap <- of_outcome (inv_pow (active_box_first_detail_index s) (gamma s)) ;;
      let total_length := fst detail + required_gap in
      if (is_active_box_horizontal s && Rgtb total_length (width ab))
         || (negb (is_active_box_horizontal s) && Rgtb total_length (height ab))
      then
        storage (add_box ab) ;;;
        assign (set_active_box None) ;;;
        s' <- self ;;
        assign (set_endpoints_placed (endpoints_placed s' + 1))
      else ret tt
  end.

Definition _choose_active_box_from_box : M world unit :=
  popped <- storage pop_max_box ;;
  assign (set_active_box popped) ;;;
  ab <- deref popped ;;
  assign (set_active_box_from (Some (detail_type ab))) ;;;
  assign (set_is_active_box_horizontal (Rgeb (width ab) (height ab))).

Definition _cut_new_strip (detail : R * R) : M world unit :=
  s <- self ;;
  l <- deref (lrp s) ;;
  assign (set_active_box_from (Some (detail_type l))) ;;;
  required_gap <- of_outcome (inv_pow (last_placed_index s + 1) (gamma s)) ;;
  if Rgtb (snd detail + required_gap) (Rmax (width l) (height l))
     || Rgtb (fst detail + required_gap) (Rmin (width l) (height l))
  then raise (AlgorithmExecutionException "Unable to cut a new stripe, LRP is too small")
  else
    let horizontal := Rleb (width l) (height l) in
    assign (set_is_active_box_horizontal horizontal) ;;;
    let active_box_bottom_left :=
      if horizontal then bottom_left l
      else (fst (top_right l) - snd detail - required_gap, snd (bottom_left l)) in
    let active_box_top_right :=
      if horizontal
      then (fst (top_right l), snd (bottom_left l) + snd detail + required_gap)
      else top_right l in
    let new_lrp_bottom_left :=
      if horizontal
      then (fst (bottom_left l), snd (bottom_left l) + snd detail + required_gap)
      else bottom_left l in
    let new_lrp_top_right :=
      if horizontal then top_right l
      else (fst (top_right l) - snd detail - required_gap, snd (top_right l)) in
    let active_box := mkDetail active_box_bottom_left active_box_top_right
                        (ENDPOINT_PREFIX ++ str (endpoints_placed s))
                        ENDPOINT_TYPE_1_NAME in
    let new_lrp := mkDetail new_lrp_bottom_left new_lrp_top_right LRP_PREFIX LRP_NAME in
    (if update_placed_details s
     then
       p <- placed_details ;;
       p' <- of_outcome (list_remove l p) ;;
       set_placed_details (p' ++ [active_box] ++ [new_lrp])
     else ret tt) ;;;
    assign (set_active_box (Some active_box)) ;;;
    assign (set_lrp (Some new_lrp)).

Definition _choose_active_box (detail : R * R) : M world unit :=
  s <- self ;;
  match active_box s with
  | Some _ => ret tt
  | None =>
      assign (set_active_box_first_detail_index (last_placed_index s + 1)) ;;;
      max_box <- storage get_max_box ;;
      let max_box_size :=
        match max_box with
        | Some b => Rmin (width b) (height b)
        | None => -1
        end in
      required_gap <- of_outcome (inv_pow (last_placed_index s + 1) (gamma s)) ;;
      let total_length := snd detail + required_gap in
      if Rleb total_length max_box_size
      then _choose_active_box_from_box
      else _cut_new_strip detail
  end.

Definition _get_normal_box_type (s : t S) : string :=
  match active_box_from s with
  | Some from => if String.eqb from LRP_NAME then NORMAL_BOX_TYPE_1_NAME
                 else NORMAL_BOX_TYPE_2_NAME
  | None => NORMAL_BOX_TYPE_2_NAME
  end.

Definition _get_endpoint_type (s : t S) : string :=
  match active_box_from s with
  | Some from => if String.eqb from LRP_NAME || String.eqb from ENDPOINT_TYPE_1_NAME
                 then ENDPOINT_TYPE_1_NAME
                 else ENDPOINT_TYPE_2_NAME
  | None => ENDPOINT_TYPE_2_NAME
  end.

(** The three pieces an active box [ab] is cut into by a detail. *)
Definition cut_pieces (horizontal : bool) (ab : Detail) (detail : R * R)
  : (R * R * (R * R)) * (R * R * (R * R)) * (R * R * (R * R)) :=
  if horizontal then
    ((bottom_left ab,
      (fst (bottom_left ab) + fst detail, snd (bottom_left ab) + snd detail)),
     ((fst (bottom_left ab), snd (bottom_left ab) + snd detail),
      (fst (bottom_left ab) + fst detail, snd (top_right ab))),
     ((fst (bottom_left ab) + fst detail, snd (bottom_left ab)),
      top_right ab))
  else
    (((fst (top_right ab) - snd detail, snd (bottom_left ab)),
      (fst (top_right ab), snd (bottom_left ab) + fst detail)),
     (bottom_left ab,
      (fst (top_right ab) - snd detail, snd (bottom_left ab) + fst detail)),
     ((fst (bottom_left ab), snd (bottom_left ab) + fst detail),
      top_right ab)).

Definition _place_detail_in_active_box (detail : R * R) : M world unit :=
  s0 <- self ;;
  let normal_box_type := _get_normal_box_type s0 in
  let endpoint_type := _get_endpoint_type s0 in
  assign (set_last_placed_index (last_placed_index s0 + 1)) ;;;
  s <- self ;;
  ab <- deref (active_box s) ;;
  let '(pd, nb, ep) := cut_pieces (is_active_box_horizontal s) ab detail in
  let placed_detail := mkDetail (fst pd) (snd pd)
                         (DETAIL_PREFIX ++ str (last_placed_index s)) DETAIL_NAME in
  let normal_box := mkDetail (fst nb) (snd nb)
                      (NORMAL_BOX_PREFIX ++ str (last_placed_index s)) normal_box_type in
  let endpoint := mkDetail (fst ep) (snd ep)
                    (ENDPOINT_PREFIX ++ str (endpoints_placed s)) endpoint_type in
  (if update_placed_details s
   then
     p <- placed_details ;;
     p' <- of_outcome (list_remove ab p) ;;
     set_placed_details (p' ++ [placed_detail] ++ [normal_box] ++ [endpoint])
   else ret tt) ;;;
  assign (set_active_box (Some endpoint)) ;;;
  storage (add_box normal_box).

Definition place_next (detail : R * R) : M world unit :=
  _check_if_lrp_none ;;;
  _check_active_box_size detail ;;;
  _choose_active_box detail ;;;
  _place_detail_in_active_box detail.

End Engine.
End SlackPackAlgorithm.

(** ** algorithm/abstract_algorithm.py *)

Class Algorithm (A : Type) : Type := {
  place_next : R * R -> M (A * list Detail) unit
}.

#[export] Instance SlackPack_Algorithm {S} `{BoxStorage S}
  : Algorithm (SlackPackAlgorithm.t S) := {
  place_next := SlackPackAlgorithm.place_next
}.

(** ** detail/detail_generator.py *)

Class DetailGenerator (G : Type) : Type := {
  next : M G (R * R);
  get_base_size : M G (R * R)
}.

(** [1 / d] on a Python int. *)
Definition inv (d : Z) : outcome R :=
  if (d =? 0)%Z then Raise ZeroDivisionError else Ret (1 / IZR d).

(** [math.sqrt]. *)
Definition math_sqrt (x : R) : outcome R :=
  if Rltb x 0 then Raise (ValueError "math domain error") else Ret (sqrt x).

(** [range(a, b)]. *)
Definition range (a b : Z) : list Z :=
  map (fun k => (a + Z.of_nat k)%Z) (seq 0 (Z.to_nat (b - a))).

Module HarmonicSquareDetailGenerator.

Record t : Type := mk { n0 : Z; denominator : Z }.

Definition init (n0 : Z) : t := {| n0 := n0; denominator := n0 |}.

Definition next : M t (R * R) :=
  self <- get ;;
  x <- of_outcome (inv (denominator self)) ;;
  let detail := (x, x) in
  put {| n0 := n0 self; denominator := denominator self + 1 |} ;;;
  ret detail.

Definition get_base_size : M t (R * R) :=
  self <- get ;;
  let base_size :=
    fold_left (fun acc i => acc - (1 / IZR i) ^ 2) (range 1 (n0 self)) (PI ^ 2 / 6) in
  base_size <- of_outcome (math_sqrt base_size) ;;
  ret (base_size, base_size).

End HarmonicSquareDetailGenerator.

#[export] Instance HarmonicSquare_DetailGenerator
  : DetailGenerator HarmonicSquareDetailGenerator.t := {
  next := HarmonicSquareDetailGenerator.next;
  get_base_size := HarmonicSquareDetailGenerator.get_base_size
}.

Module HarmonicRectangleDetailGenerator.

Record t : Type := mk { n0 : Z; denominator : Z; is_width_smaller : bool }.

Definition init (n0 : Z) (is_width_smaller : bool) : t :=
  {| n0 := n0; denominator := n0; is_width_smaller := is_width_smaller |}.

Definition next : M t (R * R) :=
  self <- get ;;
  detail <-
    (if is_width_smaller self
     then a <- of_outcome (inv (denominator self + 1)) ;;
          b <- of_outcome (inv (denominator self)) ;;
          ret (a, b)
     else a <- of_outcome (inv (denominator self)) ;;
          b <- of_outcome (inv (denominator self + 1)) ;;
          ret (a, b)) ;;
  put {| n0 := n0 self; denominator := denominator self + 1;
         is_width_smaller := is_width_smaller self |} ;;;
  ret detail.

Definition get_base_size : M t (R * R) :=
  self <- get ;;
  x <- of_outcome (inv (n0 self)) ;;
  base_size <- of_outcome (math_sqrt x) ;;
  ret (base_size, base_size).

End HarmonicRectangleDetailGenerator.

#[export] Instance HarmonicRectangle_DetailGenerator
  : DetailGenerator HarmonicRectangleDetailGenerator.t := {
  next := HarmonicRectangleDetailGenerator.next;
  get_base_size := HarmonicRectangleDetailGenerator.get_base_size
}.

(** ** core/detail_placer.py *)

Module DetailPlacer.

Record t (A G : Type) : Type := mk {
  algorithm : A;
  detail_generator : G;
  base_detail : Detail;
  max_placed : Z
}.

Section Driver.
Context {A G : Type} {AL : Algorithm A} {DG : DetailGenerator G}.

(** The world of [run_algorithm]: the algorithm, the generator and the local
    list [placed_details]. *)
Definition world : Type := A * G * list Detail.

Definition draw : M world (R * R) :=
  zoom (fun w : world => snd (fst w))
       (fun w g => (fst (fst w), g, snd w)) next.

Definition place (detail : R * R) : M world unit :=
  zoom (fun w : world => (fst (fst w), snd w))
       (fun w al => (fst al, snd (fst w), snd al)) (place_next detail).

(** The [for] loop over the iterator.  Every round draws a detail first; the
    round that finds [num_placed >= max_placed] breaks.  [fuel] bounds the
    number of rounds; the result is [false] only when it ran out. *)
Fixpoint loop (fuel : nat) (max_placed num_placed : Z) : M world bool :=
  match fuel with
  | O => ret false
  | Datatypes.S fuel' =>
      detail <- draw ;;
      if (num_placed <? max_placed)%Z
      then place detail ;;; loop fuel' max_placed (num_placed + 1)%Z
      else ret true
  end.

(** [run_algorithm]: the [try] swallows every exception and the [finally]
    returns the list as it is then.  The result is [None] only if the loop ran
    out of fuel, which [max_placed + 1] rounds never do. *)
Definition run_algorithm (self : t A G) : option (list Detail) * t A G :=
  let placed_details := [base_detail self] in
  let fuel := Datatypes.S (Z.to_nat (max_placed self)) in
  let '(r, (a, g, placed_details')) :=
    loop fuel (max_placed self) 0%Z (algorithm self, detail_generator self, placed_details) in
  let self' := mk a g (base_detail self) (max_placed self) in
  match r with
  | Ret false => (None, self')
  | _ => (Some placed_details', self')
  end.

End Driver.
End DetailPlacer.

(** ** The [boxes] table of the database-backed storages

    A row has the columns [id], the four coordinates, [min_size], [name] and
    [detail_type].  The table is read as the list of its rows in insertion
    order with the next value of the autoincremented [id]; a failing
    connection is not modelled.  [ORDER BY min_size DESC] leaves the order of
    rows of equal [min_size] to the database: it is taken stable here. *)

Record Row : Type := mkRow {
  id : Z;
  bottom_left_x : R;
  bottom_left_y : R;
  top_right_x : R;
  top_right_y : R;
  min_size_col : R;
  name_col : string;
  detail_type_col : string
}.

(** The dictionary built for a detail in [_update_to_add_cache], with the
    [id] the database assigns. *)
Definition row_of_detail (i : Z) (detail : Detail) : Row :=
  {| id := i;
     bottom_left_x := fst (bottom_left detail);
     bottom_left_y := snd (bottom_left detail);
     top_right_x := fst (top_right detail);
     top_right_y := snd (top_right detail);
     min_size_col := Rmin (width detail) (height detail);
     name_col := name detail;
     detail_type_col := detail_type detail |}.

Definition _row_to_detail (row : Row) : Detail :=
  mkDetail (bottom_left_x row, bottom_left_y row)
           (top_right_x row, top_right_y row)
           (name_col row) (detail_type_col row).

(** [ORDER BY min_size DESC]. *)
Fixpoint insert_desc (r : Row) (l : list Row) : list Row :=
  match l with
  | [] => [r]
  | y :: l' => if Rltb (min_size_col y) (min_size_col r) then r :: y :: l'
               else y :: insert_desc r l'
  end.

Definition order_by_min_size_desc (l : list Row) : list Row :=
  fold_left (fun acc r => insert_desc r acc) l [].

(** [LIMIT n]. *)
Definition limit (n : Z) (l : list Row) : list Row := firstn (Z.to_nat n) l.

(** [WHERE name IN names], negated: the rows a [DELETE] leaves. *)
Definition name_in (names : list string) (r : Row) : bool :=
  if in_dec string_dec (name_col r) names then true else false.

Module Table.

Record t : Type := mk { rows : list Row; next_id : Z }.

Definition empty : t := {| rows := []; next_id := 1 |}.

Definition insert (detail : Detail) (self : t) : t :=
  {| rows := rows self ++ [row_of_detail (next_id self) detail];
     next_id := next_id self + 1 |}.

Definition insert_all (details : list Detail) (self : t) : t :=
  fold_left (fun tb d => insert d tb) details self.

Definition delete_names (names : list string) (self : t) : t :=
  {| rows := filter (fun r => negb (name_in names r)) (rows self);
     next_id := next_id self |}.

End Table.

(** The comparator of the hybrid storages takes [None] too and then answers
    with an infinity. *)
Inductive xfloat : Type :=
| Finite (r : R)
| PosInf
| NegInf.

Definition xge0 (x : xfloat) : bool :=
  match x with
  | Finite r => Rgeb r 0
  | PosInf => true
  | NegInf => false
  end.

Definition _detail_comparator (detail1 detail2 : option Detail) : xfloat :=
  match detail1, detail2 with
  | None, None => Finite 0
  | None, Some _ => PosInf
  | Some _, None => NegInf
  | Some d1, Some d2 => Finite (Rmin (width d2) (height d2) - Rmin (width d1) (height d1))
  end.

(** [values[:k]] and [values[k:]] of a list, and the batches
    [values[i:i + k]] for [i] in [range(0, len(values), k)].  The recursion
    of [batches_upto] is on the number of rounds left: a list of [n] values
    has at most [n] batches when [k >= 1]. *)
Fixpoint slice_to {A : Type} (k : Z) (values : list A) : list A :=
  match values with
  | [] => []
  | x :: rest => if (0 <? k)%Z then x :: slice_to (k - 1) rest else []
  end.

Fixpoint slice_from {A : Type} (k : Z) (values : list A) : list A :=
  match values with
  | [] => []
  | x :: rest => if (0 <? k)%Z then slice_from (k - 1) rest else values
  end.

Fixpoint batches_upto {A : Type} (rounds : nat) (k : Z) (values : list A)
  : list (list A) :=
  match rounds, values with
  | _, [] => []
  | O, _ => []
  | Datatypes.S rounds', _ =>
      slice_to k values :: batches_upto rounds' k (slice_from k values)
  end.

Definition batches {A : Type} (k : Z) (values : list A) : list (list A) :=
  batches_upto (List.length values) k values.

(** What the cached storages ask of their table.  [HybridBoxStorage] and
    [HybridPartitionedBoxStorage] are the same class text over two tables:
    they differ in the table's declaration and in how [_update_max_cache]
    fetches its rows.  [execute_insert] is one executed insert of a batch of
    rows together with its commit: the batch is in the table, or the
    statement raises and the table is as before. *)
Class BoxesTable (T : Type) : Type := {
  execute_insert : list Detail -> M T unit;
  execute_delete : list string -> M T unit;
  fetch_max_rows : Z -> M T (list Row)
}.

Module CachedStorage.

Record t (T : Type) : Type := mk {
  cache_size : Z;
  to_add_cache : SortedSet.t;
  max_cache : SortedSet.t;
  to_delete_cache : list Detail;
  table : T
}.

Section Methods.
Context {T : Type} {BT : BoxesTable T}.

Definition set_to_add_cache (v : SortedSet.t) (self : t T) : t T :=
  mk (cache_size self) v (max_cache self) (to_delete_cache self) (table self).
Definition set_max_cache (v : SortedSet.t) (self : t T) : t T :=
  mk (cache_size self) (to_add_cache self) v (to_delete_cache self) (table self).
Definition set_to_delete_cache (v : list Detail) (self : t T) : t T :=
  mk (cache_size self) (to_add_cache self) (max_cache self) v (table self).
Definition set_table (self : t T) (v : T) : t T :=
  mk (cache_size self) (to_add_cache self) (max_cache self) (to_delete_cache self) v.

Definition session {A} (c : M T A) : M (t T) A := zoom (@table T) set_table c.

Definition BATCH_SIZE : Z := 1000000.

(** One [session.execute(insert(self.boxes_table), batch)] with its
    [session.commit()] per batch: a batch that the table refuses raises, and
    the rows of the batches before it stay committed. *)
Fixpoint insert_batches (batch_list : list (list Detail)) : M T unit :=
  match batch_list with
  | [] => ret tt
  | batch :: rest => execute_insert batch ;;; insert_batches rest
  end.

(** The rows are inserted in the order of the sorted set, in batches of
    [BATCH_SIZE]. *)
Definition _update_to_add_cache : M (t T) unit :=
  self <- get ;;
  let values := to_add_cache self in
  session (insert_batches (batches BATCH_SIZE values)) ;;;
  modify (set_to_add_cache SortedSet.empty).

Definition _update_to_delete_cache : M (t T) unit :=
  self <- get ;;
  let detail_names := map name (to_delete_cache self) in
  session (execute_delete detail_names) ;;;
  modify (set_to_delete_cache []).

Definition _update_max_cache : M (t T) unit :=
  modify (set_max_cache SortedSet.empty) ;;;
  self <- get ;;
  rows <- session (fetch_max_rows (cache_size self)) ;;
  modify (fun self =>
    fold_left (fun s row => set_max_cache (SortedSet.add (_row_to_detail row) (max_cache s)) s)
              rows self).

Definition _update_caches : M (t T) unit :=
  _update_to_add_cache ;;;
  _update_to_delete_cache ;;;
  _update_max_cache.

Definition add_box (detail : Detail) : M (t T) unit :=
  modify (fun self => set_to_add_cache (SortedSet.add detail (to_add_cache self)) self) ;;;
  self <- get ;;
  if (SortedSet.len (to_add_cache self) >? cache_size self)%Z
  then _update_caches
  else ret tt.

Definition head_or_none (s : SortedSet.t) : option Detail :=
  if (SortedSet.len s >? 0)%Z then SortedSet.first s else None.

Definition get_max_box : M (t T) (option Detail) :=
  self <- get ;;
  let max_from_to_add_cache := head_or_none (to_add_cache self) in
  let max_from_max_cache := head_or_none (max_cache self) in
  if xge0 (_detail_comparator max_from_to_add_cache max_from_max_cache)
  then ret max_from_max_cache
  else ret max_from_to_add_cache.

Definition pop_max_box : M (t T) (option Detail) :=
  self <- get ;;
  let max_from_to_add_cache := head_or_none (to_add_cache self) in
  let max_from_max_cache := head_or_none (max_cache self) in
  if xge0 (_detail_comparator max_from_to_add_cache max_from_max_cache)
  then
    x <- zoom (@max_cache T) (fun s v => set_max_cache v s) SortedSet.pop0 ;;
    modify (fun s => set_to_delete_cache (to_delete_cache s ++ [x]) s) ;;;
    s <- get ;;
    (if (SortedSet.len (max_cache s) =? 0)%Z then _update_caches else ret tt) ;;;
    ret max_from_max_cache
  else
    zoom (@to_add_cache T) (fun s v => set_to_add_cache v s) SortedSet.pop0 ;;;
    ret max_from_to_add_cache.

Definition init (cache_size : Z) (table : T) : t T :=
  {| cache_size := cache_size;
     to_add_cache := SortedSet.empty;
     max_cache := SortedSet.empty;
     to_delete_cache := [];
     table := table |}.

End Methods.
End CachedStorage.

#[export] Instance Cached_BoxStorage {T} `{BoxesTable T}
  : BoxStorage (CachedStorage.t T) := {
  add_box := CachedStorage.add_box;
  get_max_box := CachedStorage.get_max_box;
  pop_max_box := CachedStorage.pop_max_box
}.

(** ** storage/hybrid_box_storage.py *)

Module HybridBoxStorage.

#[export] Instance boxes_table : BoxesTable Table.t := {
  execute_insert := fun details => modify (Table.insert_all details);
  execute_delete := fun names => modify (Table.delete_names names);
  fetch_max_rows := fun cache_size =>
    tb <- get ;; ret (limit cache_size (order_by_min_size_desc (Table.rows tb)))
}.

Definition t : Type := CachedStorage.t Table.t.

(** [__init__]: the table is dropped and created anew. *)
Definition init (cache_size : Z) : t := CachedStorage.init cache_size Table.empty.

End HybridBoxStorage.

(** ** storage/hybrid_partitioned_box_storage.py

    The table is declared [PARTITION BY RANGE (min_size)]; partition [i]
    holds the rows with [start <= min_size < end] for the i-th range, and
    PostgreSQL refuses a row that no partition takes. *)

Module HybridPartitionedBoxStorage.

(** [_create_partition_ranges], on the attribute [partition_ranges]. *)
Definition partition_range (n0 : Z) (gamma : R) (boxes_in_partition number_of_partitions i : Z)
  : outcome (R * R) :=
  let first_n := (n0 + i * boxes_in_partition)%Z in
  let last_n := (n0 + (i + 1) * boxes_in_partition)%Z in
  match inv_pow last_n gamma with
  | Raise e => Raise e
  | Ret min_detail =>
      match inv_pow first_n gamma with
      | Raise e => Raise e
      | Ret max_detail =>
          let max_detail := if (i =? 0)%Z then 1 else max_detail in
          let min_detail := if (i =? number_of_partitions - 1)%Z then 0 else min_detail in
          Ret (min_detail, max_detail)
      end
  end.

Fixpoint append_ranges (n0 : Z) (gamma : R) (boxes_in_partition number_of_partitions : Z)
  (indices : list Z) : M (list (R * R)) unit :=
  match indices with
  | [] => ret tt
  | i :: rest =>
      rg <- of_outcome (partition_range n0 gamma boxes_in_partition number_of_partitions i) ;;
      modify (fun partition_ranges => partition_ranges ++ [rg]) ;;;
      append_ranges n0 gamma boxes_in_partition number_of_partitions rest
  end.

Definition _create_partition_ranges (n0 : Z) (gamma : R) (max_placed boxes_in_partition : Z)
  : M (list (R * R)) unit :=
  if (boxes_in_partition =? 0)%Z then raise ZeroDivisionError
  else
    let number_of_partitions := (max_placed / boxes_in_partition + 1)%Z in
    append_ranges n0 gamma boxes_in_partition number_of_partitions
                  (range 0 number_of_partitions).

Record table : Type := mkTable {
  partition_ranges : list (R * R);
  boxes : Table.t
}.

Definition in_partition (rg : R * R) (r : Row) : bool :=
  Rleb (fst rg) (min_size_col r) && Rltb (min_size_col r) (snd rg).

(** The [while] loop of [_update_max_cache] over the partitions in order. *)
Fixpoint select_partitions (ranges : list (R * R)) (remaining_cache_size : Z)
  (rows : list Row) : list Row :=
  match ranges with
  | [] => []
  | rg :: rest =>
      if (remaining_cache_size >? 0)%Z then
        let fetched := limit remaining_cache_size
                         (order_by_min_size_desc (filter (in_partition rg) rows)) in
        fetched ++ select_partitions rest
                     (remaining_cache_size - Z.of_nat (List.length fetched)) rows
      else []
  end.

#[export] Instance boxes_table : BoxesTable table := {
  execute_insert := fun details =>
    tb <- get ;;
    if forallb (fun d => existsb (fun rg => in_partition rg (row_of_detail 0 d))
                                 (partition_ranges tb)) details
    then put (mkTable (partition_ranges tb) (Table.insert_all details (boxes tb)))
    else raise (DatabaseError "no partition of relation found for row");
  execute_delete := fun names =>
    modify (fun tb => mkTable (partition_ranges tb) (Table.delete_names names (boxes tb)));
  fetch_max_rows := fun cache_size =>
    tb <- get ;;
    ret (select_partitions (partition_ranges tb) cache_size (Table.rows (boxes tb)))
}.

Definition t : Type := CachedStorage.t table.

Definition init (n0 : Z) (gamma : R) (max_placed boxes_in_partition cache_size : Z)
  : outcome t :=
  match _create_partition_ranges n0 gamma max_placed boxes_in_partition [] with
  | (Ret _, ranges) => Ret (CachedStorage.init cache_size (mkTable ranges Table.empty))
  | (Raise e, _) => Raise e
  end.

End HybridPartitionedBoxStorage.

(** Both classes implement [BoxStorage] with the methods above. *)
#[export] Instance Hybrid_BoxStorage : BoxStorage HybridBoxStorage.t :=
  @Cached_BoxStorage Table.t HybridBoxStorage.boxes_table.

#[export] Instance HybridPartitioned_BoxStorage
  : BoxStorage HybridPartitionedBoxStorage.t :=
  @Cached_BoxStorage HybridPartitionedBoxStorage.table
    HybridPartitionedBoxStorage.boxes_table.

(** ** storage/database_box_storage.py

    Every operation is a statement on the table: [add_box] inserts a row,
    [get_max_box] reads the first row by [min_size] descending, and
    [pop_max_box] deletes that row by its [id]. *)

Module DatabaseBoxStorage.

Definition t : Type := Table.t.

(** [__init__]: the table is dropped and created anew. *)
Definition init : t := Table.empty.

(** [query.order_by(min_size.desc()).first()]. *)
Definition first_by_min_size (self : t) : option Row :=
  hd_error (limit 1 (order_by_min_size_desc (Table.rows self))).

(** [query.filter_by(id=i).delete()]. *)
Definition delete_id (i : Z) (self : t) : t :=
  {| Table.rows := filter (fun r => negb (id r =? i)%Z) (Table.rows self);
     Table.next_id := Table.next_id self |}.

Definition add_box (detail : Detail) : M t unit :=
  modify (Table.insert detail).

Definition get_max_box : M t (option Detail) :=
  self <- get ;;
  match first_by_min_size self with
  | Some max_box => ret (Some (_row_to_detail max_box))
  | None => ret None
  end.

Definition pop_max_box : M t (option Detail) :=
  self <- get ;;
  match first_by_min_size self with
  | Some max_box =>
      modify (delete_id (id max_box)) ;;;
      ret (Some (_row_to_detail max_box))
  | None => ret None
  end.

End DatabaseBoxStorage.

#[export] Instance Database_BoxStorage : BoxStorage DatabaseBoxStorage.t := {
  add_box := DatabaseBoxStorage.add_box;
  get_max_box := DatabaseBoxStorage.get_max_box;
  pop_max_box := DatabaseBoxStorage.pop_max_box
}.

(** ** detail/detail_functions.py *)

Definition find_all_neighbours (details : list Detail) (target_detail : Detail)
  : list Detail :=
  let '(target_bottom_left_x, target_bottom_left_y) := bottom_left target_detail in
  let '(target_top_right_x, target_top_right_y) := top_right target_detail in
  filter (fun detail =>
            (Rleb target_bottom_left_x (fst (top_right detail))
             && Rgeb target_top_right_x (fst (bottom_left detail)))
            && (Rleb target_bottom_left_y (snd (top_right detail))
                && Rgeb target_top_right_y (snd (bottom_left detail))))
         details.

(** A Python [set] of details: membership is by [Detail.__eq__].  The
    elements are kept here in the order of their insertion; [list(s)] gives
    them in the order of the hash table, which the language leaves open. *)
Definition set_add (x : Detail) (s : list Detail) : list Detail :=
  if in_dec Detail_eq_dec x s then s else s ++ [x].

Definition set_update (s xs : list Detail) : list Detail :=
  fold_left (fun acc x => set_add x acc) xs s.

(** [range(depth)] is empty for [depth <= 0]. *)
Definition find_neighbours_of_depth (details : list Detail) (target_detail : Detail)
  (depth : Z) : list Detail :=
  let selected_details := [target_detail] in
  Nat.iter (Z.to_nat depth)
    (fun selected_details =>
       let current_details := selected_details in
       fold_left (fun selected_details detail =>
                    set_update selected_details (find_all_neighbours details detail))
                 current_details selected_details)
    selected_details.

(** A [dict] from [str] to [int], in the order of insertion of its keys. *)
Fixpoint dict_get (k : string) (d : list (string * Z)) : option Z :=
  match d with
  | [] => None
  | (k', v) :: d' => if string_dec k k' then Some v else dict_get k d'
  end.

Fixpoint dict_set (k : string) (v : Z) (d : list (string * Z)) : list (string * Z) :=
  match d with
  | [] => [(k, v)]
  | (k', v') :: d' =>
      if string_dec k k' then (k', v) :: d' else (k', v') :: dict_set k v d'
  end.

Definition count_detail_types (details : list Detail) : list (string * Z) :=
  fold_left (fun detail_counts detail =>
               match dict_get (detail_type detail) detail_counts with
               | Some n => dict_set (detail_type detail) (n + 1)%Z detail_counts
               | None => dict_set (detail_type detail) 1%Z detail_counts
               end)
            details [].

(** ** statistic/output.py

    The files are read as a map from paths to contents.  [open(path, 'w')]
    and [open(path, 'a')] create a missing file; that the file cannot be
    opened (no such directory, no permission) is not modelled. *)

Definition files : Type := string -> option string.

Definition newline : string := String (Ascii.ascii_of_nat 10) EmptyString.

(** [with open(path, 'w') as f: f.write(text)]. *)
Definition write_file (path text : string) (fs : files) : files :=
  fun p => if String.eqb p path then Some text else fs p.

(** [with open(path, 'a') as f: f.write(text)]. *)
Definition append_file (path text : string) (fs : files) : files :=
  fun p => if String.eqb p path
           then Some (match fs path with
                      | Some old => old ++ text
                      | None => text
                      end)%string
           else fs p.

Module FileOutputHandler.

Definition APPEND : string := "append".
Definition OVERWRITE : string := "overwrite".

Record t : Type := mk {
  file_path : string;
  mode : string;
  first_write : bool
}.

Definition init (file_path mode : string) : t :=
  {| file_path := file_path; mode := mode; first_write := true |}.

Definition write (message : string) : M (t * files) unit :=
  w <- get ;;
  let self := fst w in
  if String.eqb (mode self) APPEND then
    put (self, append_file (file_path self) (message ++ newline) (snd w))
  else if String.eqb (mode self) OVERWRITE then
    if first_write self then
      put (mk (file_path self) (mode self) false,
           write_file (file_path self) (message ++ newline) (snd w))
    else
      put (self, append_file (file_path self) (message ++ newline) (snd w))
  else raise (ValueError ("Invalid mode: " ++ mode self)).

End FileOutputHandler.

(** * Vocabulary of the statements *)

(** The engine [s] with the flag [update_placed_details] set to [b]. *)
Definition with_update {S : Type} (b : bool) (s : SlackPackAlgorithm.t S)
  : SlackPackAlgorithm.t S :=
  SlackPackAlgorithm.mk (SlackPackAlgorithm.gamma s) (SlackPackAlgorithm.n0 s)
    (SlackPackAlgorithm.max_placed s) (SlackPackAlgorithm.box_storage s) b
    (SlackPackAlgorithm.lrp s) (SlackPackAlgorithm.active_box s)
    (SlackPackAlgorithm.active_box_first_detail_index s)
    (SlackPackAlgorithm.is_active_box_horizontal s)
    (SlackPackAlgorithm.last_placed_index s)
    (SlackPackAlgorithm.endpoints_placed s)
    (SlackPackAlgorithm.active_box_from s).

(** A unit box that is the active box of an engine over the in-memory
    storage, used to run single steps on concrete values. *)
Definition unit_box : Detail := mkDetail (0, 0) (1, 1) "E1" "endpoint_1".

Definition unit_engine : SlackPackAlgorithm.t InMemoryBoxStorage.t :=
  SlackPackAlgorithm.mk 1 1 1 InMemoryBoxStorage.init true
    (Some (mkDetail (0, 1) (1, 2) "LRP" "lrp")) (Some unit_box) 1 true 1 1
    (Some "lrp"%string).

(** ** The run with and the run without updates of the list *)

Section FrameVocabulary.
Context {S : Type} {BS : BoxStorage S}.
Import SlackPackAlgorithm.




End FrameVocabulary.

(** ** Storages that keep their boxes *)

(** Descending order of the smaller side. *)
Definition sorted_desc (l : list Detail) : Prop :=
  StronglySorted (fun a b => min_size b <= min_size a) l.

(** What the engine relies on in a storage: [stores s C] reads "the storage
    [s] holds exactly the boxes [C]". *)
Class LawfulStorage (S : Type) {BS : BoxStorage S} : Type := {
  stores : S -> list Detail -> Prop;
  add_box_lawful : forall s C d,
    stores s C ->
    exists s', add_box d s = (Ret tt, s') /\
               (stores s' (d :: C) \/ (In d C /\ stores s' C));
  get_max_box_lawful : forall s C,
    stores s C ->
    exists o, get_max_box s = (Ret o, s) /\
              match o with
              | None => C = []
              | Some b => In b C /\ forall x, In x C -> min_size x <= min_size b
              end;
  pop_max_box_lawful : forall s C b,
    stores s C ->
    get_max_box s = (Ret (Some b), s) ->
    exists s' C', pop_max_box s = (Ret (Some b), s') /\
                  stores s' C' /\ Permutation C (b :: C')
}.
Arguments LawfulStorage S {BS}.

(** ** Worlds of the engine that are in order *)

Definition option_list {A : Type} (o : option A) : list A :=
  match o with Some a => [a] | None => [] end.

(** The error of [_cut_new_strip]. *)
Definition LRPTooSmall : exn :=
  AlgorithmExecutionException "Unable to cut a new stripe, LRP is too small".

Section EngineVocabulary.
Context {S : Type} {BS : BoxStorage S} {LS : LawfulStorage S}.
Import SlackPackAlgorithm.

(** The LRP of the next call: [self.lrp], or the first placed detail while
    [self.lrp] is still [None]. *)
Definition current_lrp (w : @world S) : option Detail :=
  match lrp (fst w) with
  | Some l => Some l
  | None => hd_error (snd w)
  end.

(** The length of a box along the axis details are laid on, and across. *)
Definition major (horizontal : bool) (ab : Detail) : R :=
  if horizontal then width ab else height ab.
Definition minor (horizontal : bool) (ab : Detail) : R :=
  if horizontal then height ab else width ab.

(** The structure every call of [place_next] keeps: there is an LRP, the
    indices are those of details ([n0 >= 1]), the storage holds some boxes [C],
    and, when the list is kept up to date, it contains the LRP, the active box
    and the stored boxes, each on its own. *)
Definition engine_inv (w : @world S) : Prop :=
  exists l C rest,
    current_lrp w = Some l /\
    stores (box_storage (fst w)) C /\
    (0 <= last_placed_index (fst w))%Z /\
    (active_box (fst w) <> None -> (0 < active_box_first_detail_index (fst w))%Z) /\
    (update_placed_details (fst w) = true ->
     Permutation (snd w) (l :: option_list (active_box (fst w)) ++ C ++ rest)).

(** The gap asked before the detail of index [k]. *)
Definition gap (gamma : R) (k : Z) : R := Rpower (1 / IZR k) gamma.

(** [place_next] comes to cut a stripe for the detail [d]: the first two
    steps leave the world [w1] without an active box, and the largest stored
    box, if any, is smaller than the height of [d] plus the gap. *)
Definition reaches_cut (d : R * R) (w w1 : @world S) : Prop :=
  bind _check_if_lrp_none (fun _ => _check_active_box_size d) w = (Ret tt, w1) /\
  active_box (fst w1) = None /\
  exists o, get_max_box (box_storage (fst w1)) = (Ret o, box_storage (fst w1)) /\
            match o with
            | Some b => min_size b
            | None => -1
            end < snd d + gap (gamma (fst w1)) (last_placed_index (fst w1) + 1).

(** The precondition of the cut fails in [w1]. *)
Definition cut_impossible (d : R * R) (w1 : @world S) : Prop :=
  exists l, lrp (fst w1) = Some l /\
    let g := gap (gamma (fst w1)) (last_placed_index (fst w1) + 1) in
    (snd d + g > Rmax (width l) (height l) \/
     fst d + g > Rmin (width l) (height l)).

(** No active box accepts the detail [d]: there is none, or the detail's
    width plus the gap of the box's first detail is more than the length of
    the active box along its axis. *)
Definition no_active_box_accepts (d : R * R) (w : @world S) : Prop :=
  forall ab, active_box (fst w) = Some ab ->
    fst d + gap (gamma (fst w)) (active_box_first_detail_index (fst w))
      > major (is_active_box_horizontal (fst w)) ab.

(** No stored box is large enough for [d]: the smaller side of every box the
    storage holds, and of the active box that is stored for not accepting
    [d], is less than the detail's height plus the gap of the next detail. *)
Definition no_stored_box_fits (d : R * R) (w : @world S) : Prop :=
  exists C, stores (box_storage (fst w)) C /\
    forall x, In x (option_list (active_box (fst w)) ++ C) ->
      min_size x < snd d + gap (gamma (fst w)) (last_placed_index (fst w) + 1).

(** The precondition of the cut fails for [d] on the LRP of the call. *)
Definition lrp_too_small_for (d : R * R) (w : @world S) : Prop :=
  exists l, current_lrp w = Some l /\
    let g := gap (gamma (fst w)) (last_placed_index (fst w) + 1) in
    (snd d + g > Rmax (width l) (height l) \/
     fst d + g > Rmin (width l) (height l)).

(** The stripe cut from the LRP [l] for the detail [d] under the gap [g], and
    what is left of the LRP. *)
Definition stripe_of (l : Detail) (d : R * R) (g : R) (endpoints : Z) : Detail :=
  if Rleb (width l) (height l)
  then mkDetail (bottom_left l)
         (fst (top_right l), snd (bottom_left l) + snd d + g)
         ("E" ++ str endpoints) "endpoint_1"
  else mkDetail (fst (top_right l) - snd d - g, snd (bottom_left l))
         (top_right l)
         ("E" ++ str endpoints) "endpoint_1".

Definition rest_of_lrp (l : Detail) (d : R * R) (g : R) : Detail :=
  if Rleb (width l) (height l)
  then mkDetail (fst (bottom_left l), snd (bottom_left l) + snd d + g)
         (top_right l) "LRP" "lrp"
  else mkDetail (bottom_left l)
         (fst (top_right l) - snd d - g, snd (top_right l)) "LRP" "lrp".

(** The three pieces of the active box [ab] around the detail [d]. *)
Definition placed_detail_of (horizontal : bool) (ab : Detail) (d : R * R) (n : Z)
  : Detail :=
  if horizontal
  then mkDetail (bottom_left ab)
         (fst (bottom_left ab) + fst d, snd (bottom_left ab) + snd d)
         ("D" ++ str n) "detail"
  else mkDetail (fst (top_right ab) - snd d, snd (bottom_left ab))
         (fst (top_right ab), snd (bottom_left ab) + fst d)
         ("D" ++ str n) "detail".

Definition normal_box_of (horizontal : bool) (ab : Detail) (d : R * R) (n : Z)
  (type : string) : Detail :=
  if horizontal
  then mkDetail (fst (bottom_left ab), snd (bottom_left ab) + snd d)
         (fst (bottom_left ab) + fst d, snd (top_right ab))
         ("B" ++ str n) type
  else mkDetail (bottom_left ab)
         (fst (top_right ab) - snd d, snd (bottom_left ab) + fst d)
         ("B" ++ str n) type.

Definition endpoint_of (horizontal : bool) (ab : Detail) (d : R * R) (endpoints : Z)
  (type : string) : Detail :=
  if horizontal
  then mkDetail (fst (bottom_left ab) + fst d, snd (bottom_left ab))
         (top_right ab) ("E" ++ str endpoints) type
  else mkDetail (fst (bottom_left ab), snd (bottom_left ab) + fst d)
         (top_right ab) ("E" ++ str endpoints) type.

End EngineVocabulary.

(** A sheet of side 1 and the engine as constructed for it over the
    in-memory storage, with [gamma = 1] and [n0 = 1]. *)
Definition unit_sheet : Detail := mkDetail (0, 0) (1, 1) "LRP" "lrp".

Definition fresh_engine : SlackPackAlgorithm.t InMemoryBoxStorage.t :=
  SlackPackAlgorithm.init 1 1 1 InMemoryBoxStorage.init true.

(** ** Counting the calls of [place_next]

    An algorithm paired with a counter that every call of [place_next]
    advances, whatever the call does. *)
#[export] Instance Counted_Algorithm {A : Type} {AL : Algorithm A}
  : Algorithm (A * Z) := {
  place_next := fun d w =>
    let '(r, (a', P')) := place_next d (fst (fst w), snd w) in
    (r, ((a', snd (fst w) + 1)%Z, P'))
}.

(** A sheet of side 3 and the driver for one harmonic square on it. *)
Definition wide_sheet : Detail := mkDetail (0, 0) (3, 3) "LRP" "lrp".

Definition one_square_placer
  : DetailPlacer.t (SlackPackAlgorithm.t InMemoryBoxStorage.t)
                   HarmonicSquareDetailGenerator.t :=
  DetailPlacer.mk fresh_engine (HarmonicSquareDetailGenerator.init 1) wide_sheet 1.

(** ** Partition ranges *)

(** The ceiling of [m / b] for a positive [b]. *)
Definition ceil_div (m b : Z) : Z := ((m + b - 1) / b)%Z.

(** The range the partitioned storage gives partition [i] of [P]. *)
Definition expected_range (n0 : Z) (gamma : R) (B P i : Z) : R * R :=
  (if (i =? P - 1)%Z then 0 else Rpower (1 / IZR (n0 + (i + 1) * B)) gamma,
   if (i =? 0)%Z then 1 else Rpower (1 / IZR (n0 + i * B)) gamma).

(** ** Sums of inverse squares *)

(** The sum of [f k] over [k < n]. *)
Fixpoint sum_upto (f : nat -> R) (n : nat) : R :=
  match n with
  | O => 0
  | Datatypes.S m => sum_upto f m + f m
  end.

Definition inv_sq (i : nat) : R := (1 / INR i) ^ 2.

(** [1/1^2 + ... + 1/N^2]. *)
Definition inv_sq_sum (N : nat) : R := sum_upto (fun k => inv_sq (Datatypes.S k)) N.

(** The same sum over the odd numbers [1, 3, ..., 2m-1]. *)
Definition odd_inv_sq_sum (m : nat) : R := sum_upto (fun k => inv_sq (2 * k + 1)) m.

Definition csc2 (x : R) : R := 1 / (sin x) ^ 2.

(** The odd multiples of [PI / 2^(n+2)] below [PI / 2]. *)
Definition dyadic_point (n k : nat) : R := INR (2 * k + 1) * PI / 2 ^ (n + 2).

Definition csc2_sum (n : nat) : R := sum_upto (fun k => csc2 (dyadic_point n k)) (2 ^ n).

(** ** Calling a generator several times *)

(** [k] calls in a row, results dropped. *)
Fixpoint repeat_call {G A : Type} (c : M G A) (k : nat) : M G unit :=
  match k with
  | O => ret tt
  | Datatypes.S k' => c ;;; repeat_call c k'
  end.

(** ** Storages against the plain set of boxes present *)

(** [L] without the first occurrence of [b]. *)
Definition remove_present (b : Detail) (L : list Detail) : list Detail :=
  match remove_first b L with
  | Some r => r
  | None => L
  end.

(** [o] is what a max-priority set holding [L] answers: nothing when [L] is
    empty, else a box of [L] whose smaller side is the largest. *)
Definition max_of (L : list Detail) (o : option Detail) : Prop :=
  match o with
  | None => L = []
  | Some b => In b L /\ forall x, In x L -> min_size x <= min_size b
  end.

Section Refinement.
Context {S : Type} {BS : BoxStorage S}.
Variable admissible : Detail -> Prop.
Variable init : S.

(** The states of a storage after any sequence of [add_box], [get_max_box]
    and [pop_max_box] starting from [init], with the boxes added and not yet
    popped ([L]) and the names added so far ([N]).  A box is added under a
    name not used before; a [pop_max_box] that returns a box takes it out of
    [L]. *)
Inductive reaches : S -> list Detail -> list string -> Prop :=
| reaches_init : reaches init [] []
| reaches_add s L N d s' :
    reaches s L N -> admissible d -> ~ In (name d) N ->
    add_box d s = (Ret tt, s') ->
    reaches s' (d :: L) (name d :: N)
| reaches_get s L N o s' :
    reaches s L N -> get_max_box s = (Ret o, s') -> reaches s' L N
| reaches_pop s L N b s' :
    reaches s L N -> pop_max_box s = (Ret (Some b), s') ->
    reaches s' (remove_present b L) N
| reaches_pop_empty s N r s' :
    reaches s [] N -> pop_max_box s = (r, s') -> reaches s' [] N.

(** What the storage owes in a state with the boxes [L] present:
    [get_max_box] answers like the max-priority set and changes nothing,
    [pop_max_box] returns the same box when there is one, and a new box
    can be added. *)
Definition answers_like_set (s : S) (L : list Detail) (N : list string) : Prop :=
  (exists o, get_max_box s = (Ret o, s) /\ max_of L o /\
             (L <> [] -> exists s', pop_max_box s = (Ret o, s'))) /\
  (forall d, admissible d -> ~ In (name d) N ->
             exists s', add_box d s = (Ret tt, s')).

Definition refines_max_priority_set : Prop :=
  forall s L N, reaches s L N -> answers_like_set s L N.

End Refinement.

(** [L] with [d] put in.  The boxes present form a set: a box equal to one
    present (the same corners, name and type, as [Detail.__eq__] compares) is
    not put in a second time. *)
Definition set_insert (d : Detail) (L : list Detail) : list Detail :=
  if in_dec Detail_eq_dec d L then L else d :: L.

Section FreeRefinement.
Context {S : Type} {BS : BoxStorage S}.
Variable init : S.

(** The states of a storage after any sequence of [add_box], [get_max_box]
    and [pop_max_box] starting from [init], with the set [L] of the boxes
    added and not yet popped.  Nothing is asked of the boxes added or of
    their names. *)
Inductive reaches_freely : S -> list Detail -> Prop :=
| freely_init : reaches_freely init []
| freely_add s L d s' :
    reaches_freely s L -> add_box d s = (Ret tt, s') ->
    reaches_freely s' (set_insert d L)
| freely_get s L o s' :
    reaches_freely s L -> get_max_box s = (Ret o, s') -> reaches_freely s' L
| freely_pop s L b s' :
    reaches_freely s L -> pop_max_box s = (Ret (Some b), s') ->
    reaches_freely s' (remove_present b L)
| freely_pop_none s L s' :
    reaches_freely s L -> pop_max_box s = (Ret None, s') -> reaches_freely s' L.

(** What the storage owes in a state with the boxes [L] present:
    [get_max_box] answers like the max-priority set and changes nothing,
    [pop_max_box] returns the same answer, and every box can be added.  No
    operation raises, so the states above are all the states there are. *)
Definition answers_like_set_freely (s : S) (L : list Detail) : Prop :=
  (exists o, get_max_box s = (Ret o, s) /\ max_of L o /\
             exists s', pop_max_box s = (Ret o, s')) /\
  (forall d, exists s', add_box d s = (Ret tt, s')).

Definition refines_max_priority_set_freely : Prop :=
  forall s L, reaches_freely s L -> answers_like_set_freely s L.

End FreeRefinement.

(** The invariant of the in-memory storage with the set [L] present. *)
Definition in_memory_set_inv (s : InMemoryBoxStorage.t) (L : list Detail) : Prop :=
  Permutation (InMemoryBoxStorage.boxes s) L /\
  sorted_desc (InMemoryBoxStorage.boxes s) /\
  NoDup L.

(** What the cached storages rely on in their table: [table_details t] are
    the boxes of its rows, [table_ok] is what the table keeps, and
    [table_takes] says which boxes it accepts. *)
Class LawfulTable (T : Type) {BT : BoxesTable T} : Type := {
  table_details : T -> list Detail;
  table_ok : T -> Prop;
  table_takes : Detail -> Prop;
  execute_insert_lawful : forall t ds,
    table_ok t -> Forall table_takes ds ->
    exists t', execute_insert ds t = (Ret tt, t') /\ table_ok t' /\
               forall x, In x (table_details t') <->
                         In x (table_details t) \/ In x ds;
  execute_delete_lawful : forall t names,
    table_ok t ->
    exists t', execute_delete names t = (Ret tt, t') /\ table_ok t' /\
               forall x, In x (table_details t') <->
                         In x (table_details t) /\ ~ In (name x) names;
  fetch_max_rows_lawful : forall t n,
    table_ok t ->
    exists rows, fetch_max_rows n t = (Ret rows, t) /\
      let ds := map _row_to_detail rows in
      incl ds (table_details t) /\
      (forall x y, In x (table_details t) -> ~ In x ds -> In y ds ->
                   min_size x <= min_size y) /\
      ((1 <= n)%Z -> table_details t <> [] -> ds <> [])
}.
Arguments LawfulTable T {BT}.

Section CachedInvariant.
Context {T : Type} {BT : BoxesTable T} {LT : LawfulTable T}.
Import CachedStorage.

(** The part of the invariant that does not speak of [max_cache]: the
    pending boxes are sorted, distinct and acceptable; names tell the boxes
    of the caches and the table apart; the boxes marked for deletion are rows;
    and the boxes present are the pending ones and the rows not marked. *)
Definition base_inv (s : t T) (L : list Detail) (N : list string) : Prop :=
  let A := to_add_cache s in
  let Del := to_delete_cache s in
  let Rws := table_details (table s) in
  (1 <= cache_size s)%Z /\
  table_ok (table s) /\
  sorted_desc A /\ NoDup A /\ Forall table_takes A /\
  (forall x y, In x (A ++ Rws) -> In y (A ++ Rws) -> name x = name y -> x = y) /\
  (forall x, In x A -> ~ In x Rws) /\
  (forall x, In x (A ++ Rws) -> In (name x) N) /\
  incl Del Rws /\
  NoDup L /\
  (forall x, In x L <-> In x A \/ (In x Rws /\ ~ In x Del)).

(** The part about [max_cache]: sorted and distinct rows that are not
    marked, at least as large as every other unmarked row, and empty only
    when no unmarked row is left. *)
Definition max_cache_inv (s : t T) : Prop :=
  let Mx := max_cache s in
  let Del := to_delete_cache s in
  let Rws := table_details (table s) in
  sorted_desc Mx /\ NoDup Mx /\ incl Mx Rws /\
  (forall x, In x Mx -> ~ In x Del) /\
  (forall x y, In x Rws -> ~ In x Del -> ~ In x Mx -> In y Mx ->
               min_size x <= min_size y) /\
  (Mx = [] -> forall x, In x Rws -> In x Del).

Definition cached_inv (s : t T) (L : list Detail) (N : list string) : Prop :=
  base_inv s L N /\ max_cache_inv s.

End CachedInvariant.
(** ** The partitions of the partitioned table *)

(** Ranges listed from the largest sizes down: a later range ends where an
    earlier one starts, or below. *)
Definition ranges_desc (rs : list (R * R)) : Prop :=
  StronglySorted (fun a b => snd b <= fst a) rs.

(** Some partition takes the row. *)
Definition takes_row (rs : list (R * R)) (r : Row) : Prop :=
  existsb (fun rg => HybridPartitionedBoxStorage.in_partition rg r) rs = true.

(** The ranges [_create_partition_ranges] leaves in the attribute. *)
Definition created_ranges (n0 : Z) (gamma : R) (max_placed B : Z) : list (R * R) :=
  let P := (max_placed / B + 1)%Z in
  map (expected_range n0 gamma B P) (range 0 P).

(** A square box of the given side and name in the corner of the sheet. *)
Definition square_box (side : R) (nm : string) : Detail :=
  mkDetail (0, 0) (side, side) nm SlackPackAlgorithm.NORMAL_BOX_TYPE_1_NAME.

(** ** The calls the engine makes to its storage

    A storage paired with the log of the calls made to it: every method
    runs the method of the storage and appends its call to the log. *)
Inductive storage_call : Type :=
| Called_add_box (detail : Detail)
| Called_get_max_box (result : outcome (option Detail))
| Called_pop_max_box (result : outcome (option Detail)).

Definition logged {S A : Type} (c : M S A) (entry : outcome A -> storage_call)
  : M (S * list storage_call) A :=
  fun sl => let (r, s') := c (fst sl) in (r, (s', snd sl ++ [entry r])).

#[export] Instance Logged_BoxStorage {S : Type} {BS : BoxStorage S}
  : BoxStorage (S * list storage_call) := {
  add_box := fun d => logged (add_box d) (fun _ => Called_add_box d);
  get_max_box := logged get_max_box Called_get_max_box;
  pop_max_box := logged pop_max_box Called_pop_max_box
}.

(** The error of [max_cache.pop(0)] on an empty [max_cache]. *)
Definition pop_index_error : exn := IndexError "pop index out of range".

(** An engine over the hybrid storage, before its first detail. *)
Definition hybrid_engine : SlackPackAlgorithm.t HybridBoxStorage.t :=
  SlackPackAlgorithm.init 1 1 1 (HybridBoxStorage.init 1) true.

(** ** The geometry of the placements list *)

(** The rectangle [c] lies in [outer]: its corners are in order and within
    the corners of [outer]. *)
Definition lies_inside (outer c : Detail) : Prop :=
  (fst (bottom_left outer) <= fst (bottom_left c) /\
   fst (bottom_left c) <= fst (top_right c) /\
   fst (top_right c) <= fst (top_right outer)) /\
  (snd (bottom_left outer) <= snd (bottom_left c) /\
   snd (bottom_left c) <= snd (top_right c) /\
   snd (top_right c) <= snd (top_right outer)).

(** The point [(x, y)] is an interior point of [c]. *)
Definition interior (c : Detail) (x y : R) : Prop :=
  (fst (bottom_left c) < x < fst (top_right c)) /\
  (snd (bottom_left c) < y < snd (top_right c)).

Definition share_interior (a b : Detail) : Prop :=
  exists x y, interior a x y /\ interior b x y.

Definition area (c : Detail) : R := width c * height c.

Definition total_area (l : list Detail) : R :=
  fold_right (fun c acc => area c + acc) 0 l.

(** I1, I2 and I3 of a placements list on a sheet. *)
Definition disjoint_interiors (P : list Detail) : Prop :=
  ForallOrdPairs (fun a b => ~ share_interior a b) P.

Definition all_inside (sheet : Detail) (P : list Detail) : Prop :=
  Forall (lies_inside sheet) P.

Definition area_conserved (sheet : Detail) (P : list Detail) : Prop :=
  total_area P = area sheet.

(** The details from index [n] on are sizes, no higher than [cap] and than
    the detail before, and no wider than their height plus the gap of a box
    chosen for them. *)
Fixpoint details_fit (gamma : R) (n : Z) (cap : R) (ds : list (R * R)) : Prop :=
  match ds with
  | [] => True
  | d :: rest =>
      0 <= fst d /\ 0 <= snd d /\ snd d <= cap /\
      fst d <= snd d + gap gamma n /\
      details_fit gamma (n + 1) (snd d) rest
  end.

Section RunVocabulary.
Context {S : Type} {BS : BoxStorage S} {LS : LawfulStorage S}.
Import SlackPackAlgorithm.

(** [place_next] on one detail after the other, up to the first error. *)
Fixpoint place_all (ds : list (R * R)) : M (@world S) unit :=
  match ds with
  | [] => ret tt
  | d :: rest => place_next d ;;; place_all rest
  end.

(** What the calls keep besides the structure of the world: the list is
    kept up to date, I1 to I3 hold, and the active box is at least [cap]
    across. *)
Definition geometry_inv (sheet : Detail) (cap : R) (w : @world S) : Prop :=
  engine_inv w /\
  update_placed_details (fst w) = true /\
  disjoint_interiors (snd w) /\
  all_inside sheet (snd w) /\
  area_conserved sheet (snd w) /\
  (forall ab, active_box (fst w) = Some ab ->
     cap <= minor (is_active_box_horizontal (fst w)) ab).

End RunVocabulary.

(** The sheet of side 9/2 and the two details of the run on it. *)
Definition sheet_9_2 : Detail := mkDetail (0, 0) (9 / 2, 9 / 2) "LRP" "lrp".

(** The rectangles of the run of the details [(3, 1)] and [(5/2, 9/10)] on
    that sheet with [gamma = 1] and [n0 = 1]. *)
Definition run_stripe : Detail := mkDetail (0, 0) (9 / 2, 2) "E1" "endpoint_1".
Definition run_lrp : Detail := mkDetail (0, 2) (9 / 2, 9 / 2) "LRP" "lrp".
Definition run_D1 : Detail := mkDetail (0, 0) (3, 1) "D1" "detail".
Definition run_B1 : Detail := mkDetail (0, 1) (3, 2) "B1" "normal_box_1".
Definition run_E1 : Detail := mkDetail (3, 0) (9 / 2, 2) "E1" "endpoint_1".
Definition run_D2 : Detail := mkDetail (18 / 5, 0) (9 / 2, 5 / 2) "D2" "detail".
Definition run_B2 : Detail := mkDetail (3, 0) (18 / 5, 5 / 2) "B2" "normal_box_2".
Definition run_E2 : Detail := mkDetail (3, 5 / 2) (9 / 2, 2) "E2" "endpoint_1".

(** The engine after the first and after the second call of that run. *)
Definition run_engine_1 : SlackPackAlgorithm.t InMemoryBoxStorage.t :=
  SlackPackAlgorithm.mk 1 1 2 (InMemoryBoxStorage.mk [run_B1]) true
    (Some run_lrp) (Some run_E1) 1 true 1 1 (Some "lrp"%string).

Definition run_engine_2 : SlackPackAlgorithm.t InMemoryBoxStorage.t :=
  SlackPackAlgorithm.mk 1 1 2
    (InMemoryBoxStorage.mk (SortedSet.add run_B2 [run_B1])) true
    (Some run_lrp) (Some run_E2) 2 false 2 2 (Some "endpoint_1"%string).

(** The rectangles of the run of the harmonic squares [(1, 1)] and
    [(1/2, 1/2)] on the sheet of side 3 with [gamma = 1] and [n0 = 1]. *)
Definition squares_stripe : Detail := mkDetail (0, 0) (3, 2) "E1" "endpoint_1".
Definition squares_lrp : Detail := mkDetail (0, 2) (3, 3) "LRP" "lrp".
Definition squares_D1 : Detail := mkDetail (0, 0) (1, 1) "D1" "detail".
Definition squares_B1 : Detail := mkDetail (0, 1) (1, 2) "B1" "normal_box_1".
Definition squares_E1 : Detail := mkDetail (1, 0) (3, 2) "E1" "endpoint_1".
Definition squares_D2 : Detail := mkDetail (1, 0) (3 / 2, 1 / 2) "D2" "detail".
Definition squares_B2 : Detail := mkDetail (1, 1 / 2) (3 / 2, 2) "B2" "normal_box_1".
Definition squares_E2 : Detail := mkDetail (3 / 2, 0) (3, 2) "E1" "endpoint_1".

(** The engine of that run after its first call, over the storage [st]. *)
Definition squares_engine_1 {S : Type} (st : S) : SlackPackAlgorithm.t S :=
  SlackPackAlgorithm.mk 1 1 2 st true
    (Some squares_lrp) (Some squares_E1) 1 true 1 1 (Some "lrp"%string).

(** The engine of that run after its second call, over the storage [st]. *)
Definition squares_engine_2 {S : Type} (st : S) : SlackPackAlgorithm.t S :=
  SlackPackAlgorithm.mk 1 1 2 st true
    (Some squares_lrp) (Some squares_E2) 1 true 2 1 (Some "lrp"%string).

(** ** The details of a generator and their area *)

(** The results of [k] calls in a row. *)
Fixpoint collect {G A : Type} (c : M G A) (k : nat) : M G (list A) :=
  match k with
  | O => ret []
  | Datatypes.S k' => x <- c ;; xs <- collect c k' ;; ret (x :: xs)
  end.

Definition details_area (ds : list (R * R)) : R :=
  fold_right (fun d acc => fst d * snd d + acc) 0 ds.

(** The smaller side [v] is within the range: [FOR VALUES FROM (start) TO
    (end)] takes [start <= v < end]. *)
Definition in_range (rg : R * R) (v : R) : Prop := fst rg <= v < snd rg.

(** ** Storages after any sequence of operations *)

Section AfterOperations.
Context {S : Type} {BS : BoxStorage S}.
Variable init : S.

(** The states of a storage after any calls of its three methods, whatever
    they returned or raised. *)
Inductive after_operations : S -> Prop :=
| after_init : after_operations init
| after_add_box s d r s' :
    after_operations s -> add_box d s = (r, s') -> after_operations s'
| after_get_max_box s r s' :
    after_operations s -> get_max_box s = (r, s') -> after_operations s'
| after_pop_max_box s r s' :
    after_operations s -> pop_max_box s = (r, s') -> after_operations s'.

End AfterOperations.

(** The caches of the hybrid storage within the bound [cs]. *)
Definition hybrid_bounded (cs : Z) (s : HybridBoxStorage.t) : Prop :=
  CachedStorage.cache_size s = cs /\
  (SortedSet.len (CachedStorage.to_add_cache s) <= cs)%Z /\
  (SortedSet.len (CachedStorage.max_cache s)
   + Z.of_nat (List.length (CachedStorage.to_delete_cache s)) <= cs)%Z.

(** ** Neighbours *)

(** The point [(x, y)] is a point of the rectangle [c], border included. *)
Definition point_of (c : Detail) (x y : R) : Prop :=
  (fst (bottom_left c) <= x <= fst (top_right c)) /\
  (snd (bottom_left c) <= y <= snd (top_right c)).

Definition share_point (a b : Detail) : Prop :=
  exists x y, point_of a x y /\ point_of b x y.

(** The corners of [c] are in order. *)
Definition corners_in_order (c : Detail) : Prop :=
  fst (bottom_left c) <= fst (top_right c) /\
  snd (bottom_left c) <= snd (top_right c).

(** [x] is reached from [t] in [k] steps, each from a detail to one of its
    neighbours among [details]. *)
Inductive neighbour_chain (details : list Detail) (t : Detail) : nat -> Detail -> Prop :=
| chain_here : neighbour_chain details t 0 t
| chain_step k x y :
    neighbour_chain details t k x ->
    In y (find_all_neighbours details x) ->
    neighbour_chain details t (Datatypes.S k) y.

(** The number of the details of type [ty]. *)
Definition details_of_type (ty : string) (details : list Detail) : Z :=
  Z.of_nat (count_occ string_dec (map detail_type details) ty).

Definition dict_keys (d : list (string * Z)) : list string := map fst d.
Definition dict_values (d : list (string * Z)) : list Z := map snd d.

(** The strings of [l] that are not in [seen], each at its first place. *)
Fixpoint first_occurrences (seen l : list string) : list string :=
  match l with
  | [] => []
  | x :: l' =>
      if in_dec string_dec x seen then first_occurrences seen l'
      else x :: first_occurrences (seen ++ [x]) l'
  end.

Definition sum_values (d : list (string * Z)) : Z :=
  fold_right Z.add 0%Z (dict_values d).

(** ** The names of the boxes given to the storage *)

(** The boxes of the [add_box] calls of a log, in order, and their names. *)
Definition added_boxes (log : list storage_call) : list Detail :=
  flat_map (fun c => match c with
                     | Called_add_box d => [d]
                     | _ => []
                     end) log.

Definition added_names (log : list storage_call) : list string :=
  map name (added_boxes log).

(** A normal box and an endpoint, by name and type. *)
Definition is_normal_box (d : Detail) : Prop :=
  (exists i, name d = (SlackPackAlgorithm.NORMAL_BOX_PREFIX ++ str i)%string) /\
  (detail_type d = SlackPackAlgorithm.NORMAL_BOX_TYPE_1_NAME \/
   detail_type d = SlackPackAlgorithm.NORMAL_BOX_TYPE_2_NAME).

Definition is_endpoint (d : Detail) : Prop :=
  (exists k, name d = (SlackPackAlgorithm.ENDPOINT_PREFIX ++ str k)%string) /\
  (detail_type d = SlackPackAlgorithm.ENDPOINT_TYPE_1_NAME \/
   detail_type d = SlackPackAlgorithm.ENDPOINT_TYPE_2_NAME).

(** The names [L] differ from each other and are names of normal boxes of
    details up to [last] and of endpoints below [ep]. *)
Definition names_known (L : list string) (last ep : Z) : Prop :=
  NoDup L /\
  forall nm, In nm L ->
    (exists i, (i <= last)%Z /\
               nm = (SlackPackAlgorithm.NORMAL_BOX_PREFIX ++ str i)%string) \/
    (exists k, (k < ep)%Z /\
               nm = (SlackPackAlgorithm.ENDPOINT_PREFIX ++ str k)%string).

(** What the engine keeps between two calls of [place_next] about the names
    it has given to its storage: they are known for the details placed and
    the endpoints counted so far, the boxes given are normal boxes and
    endpoints, and the active box is the endpoint of the next name. *)
Definition names_in_order {S : Type} (s : SlackPackAlgorithm.t (S * list storage_call))
  : Prop :=
  names_known (added_names (snd (SlackPackAlgorithm.box_storage s)))
    (SlackPackAlgorithm.last_placed_index s) (SlackPackAlgorithm.endpoints_placed s) /\
  Forall (fun d => is_normal_box d \/ is_endpoint d)
    (added_boxes (snd (SlackPackAlgorithm.box_storage s))) /\
  (forall ab, SlackPackAlgorithm.active_box s = Some ab ->
     name ab = (SlackPackAlgorithm.ENDPOINT_PREFIX
                ++ str (SlackPackAlgorithm.endpoints_placed s))%string /\
     is_endpoint ab).

(** ** Messages written to a file *)

(** [write] on one message after the other, up to the first error. *)
Fixpoint write_all (messages : list string) : M (FileOutputHandler.t * files) unit :=
  match messages with
  | [] => ret tt
  | m :: rest => FileOutputHandler.write m ;;; write_all rest
  end.

(** The messages, each on a line of its own. *)
Fixpoint lines_of (messages : list string) : string :=
  match messages with
  | [] => EmptyString
  | m :: rest => ((m ++ newline) ++ lines_of rest)%string
  end.

(** The content of a file, empty when there is none. *)
Definition content (fs : files) (path : string) : string :=
  match fs path with Some c => c | None => EmptyString end.

(** ** The types of the rectangles of the placements list *)

(** A normal box or an endpoint, by type. *)
Definition is_box (d : Detail) : Prop :=
  In (detail_type d)
     [SlackPackAlgorithm.NORMAL_BOX_TYPE_1_NAME; SlackPackAlgorithm.NORMAL_BOX_TYPE_2_NAME;
      SlackPackAlgorithm.ENDPOINT_TYPE_1_NAME; SlackPackAlgorithm.ENDPOINT_TYPE_2_NAME].

(** One of the six types of the engine. *)
Definition known_type (d : Detail) : Prop :=
  detail_type d = SlackPackAlgorithm.DETAIL_NAME \/
  detail_type d = SlackPackAlgorithm.LRP_NAME \/
  is_box d.

Section TypedVocabulary.
Context {S : Type} {BS : BoxStorage S} {LS : LawfulStorage S}.
Import SlackPackAlgorithm.

(** The world after [n] details placed by an engine started at [n0] that
    keeps the list up to date: the LRP is of type [lrp], the active box and
    the stored boxes are normal boxes and endpoints, and the list holds [n]
    rectangles of type [detail] and one of type [lrp] among rectangles of
    the six types. *)
Definition typed_inv (n0 : Z) (n : nat) (w : @world S) : Prop :=
  update_placed_details (fst w) = true /\
  (1 <= n0)%Z /\
  last_placed_index (fst w) = (n0 - 1 + Z.of_nat n)%Z /\
  (active_box (fst w) <> None -> (0 < active_box_first_detail_index (fst w))%Z) /\
  (exists l, current_lrp w = Some l /\ detail_type l = LRP_NAME) /\
  (exists C, stores (box_storage (fst w)) C /\ Forall is_box C) /\
  (forall ab, active_box (fst w) = Some ab -> is_box ab) /\
  details_of_type DETAIL_NAME (snd w) = Z.of_nat n /\
  details_of_type LRP_NAME (snd w) = 1%Z /\
  Forall known_type (snd w).

End TypedVocabulary.

(** ** The engine over a storage that is a max-priority set *)

Section ContractVocabulary.
Context {S : Type} {BS : BoxStorage S}.
Variable init : S.

(** The storage of the engine [s] is reached from [init] by calls that add
    each box under a new name. *)
Definition storage_reached (s : SlackPackAlgorithm.t S) : Prop :=
  exists L N, reaches (fun _ => True) init (SlackPackAlgorithm.box_storage s) L N.

(** It is reached under names that are known for the counters of [s]. *)
Definition names_reached (s : SlackPackAlgorithm.t S) : Prop :=
  exists L N,
    reaches (fun _ => True) init (SlackPackAlgorithm.box_storage s) L N /\
    names_known N (SlackPackAlgorithm.last_placed_index s)
      (SlackPackAlgorithm.endpoints_placed s).

(** Between two calls of [place_next]: the storage is reached under names
    that are known, and the active box is named as the next endpoint. *)
Definition contract_inv (s : SlackPackAlgorithm.t S) : Prop :=
  names_reached s /\
  (forall ab, SlackPackAlgorithm.active_box s = Some ab ->
     name ab = (SlackPackAlgorithm.ENDPOINT_PREFIX
                ++ str (SlackPackAlgorithm.endpoints_placed s))%string).

End ContractVocabulary.

(** * Properties *)

(** ** Booleans of comparisons *)

Lemma Rltb_true a b : Rltb a b = true <-> a < b.
Proof. unfold Rltb; destruct (Rlt_dec a b); split; intros; try easy; lra. Qed.
Lemma Rltb_false a b : Rltb a b = false <-> b <= a.
Proof. unfold Rltb; destruct (Rlt_dec a b); split; intros; try easy; lra. Qed.
Lemma Rleb_true a b : Rleb a b = true <-> a <= b.
Proof. unfold Rleb; destruct (Rle_dec a b); split; intros; try easy; lra. Qed.
Lemma Rleb_false a b : Rleb a b = false <-> b < a.
Proof. unfold Rleb; destruct (Rle_dec a b); split; intros; try easy; lra. Qed.

Lemma Rpower_one_l (g : R) : Rpower 1 g = 1.
Proof. unfold Rpower. rewrite ln_1, Rmult_0_r. apply exp_0. Qed.

Lemma Rpower_pos (x g : R) : 0 < Rpower x g.
Proof. unfold Rpower. apply exp_pos. Qed.

Lemma remove_first_self (x : Detail) (l : list Detail) :
  remove_first x (x :: l) = Some l.
Proof. simpl. destruct (Detail_eq_dec x x); [reflexivity | contradiction]. Qed.

(** Unfolding of the monad's operations. *)
Ltac unfold_m :=
  unfold bind, ret, raise, get, put, modify, of_outcome, zoom in *; simpl in *.

(** Decide a boolean comparison of reals in the goal from the context. *)
Ltac decide_R :=
  repeat match goal with
  | |- context [Rltb ?a ?b] =>
      first [ rewrite (proj2 (Rltb_true a b)) by lra
            | rewrite (proj2 (Rltb_false a b)) by lra ]
  | |- context [Rleb ?a ?b] =>
      first [ rewrite (proj2 (Rleb_true a b)) by lra
            | rewrite (proj2 (Rleb_false a b)) by lra ]
  end.

(** ** The steps of the engine *)

Section EngineSteps.
Context {S : Type} {BS : BoxStorage S}.
Import SlackPackAlgorithm.


(** C1 (as the code has it).  When an active box [ab] exists and the width
    of the detail plus the gap [(1 / active_box_first_detail_index) ^ gamma]
    exceeds the length of [ab] along its axis, the retirement step hands [ab]
    to [add_box] of the storage, then sets [active_box] to [None] and adds one
    to [endpoints_placed]; the placements list and the other attributes stay
    as they are. *)
Theorem retire_active_box_adds_to_storage
  (s : t S) (P : list Detail) (w h : R) (ab : Detail) :
  active_box s = Some ab ->
  active_box_first_detail_index s <> 0%Z ->
  w + Rpower (1 / IZR (active_box_first_detail_index s)) (gamma s)
    > (if is_active_box_horizontal s then width ab else height ab) ->
  _check_active_box_size (w, h) (s, P) =
    match add_box ab (box_storage s) with
    | (Ret _, st) =>
        (Ret tt,
         (set_endpoints_placed (endpoints_placed s + 1)
            (set_active_box None (set_box_storage s st)), P))
    | (Raise e, st) => (Raise e, (set_box_storage s st, P))
    end.
Proof.
  intros Hab Hidx Hlen.
  unfold _check_active_box_size, self, assign, storage, inv_pow.
  unfold_m. rewrite Hab.
  destruct (Z.eqb_spec (active_box_first_detail_index s) 0) as [E | _];
    [contradiction |].
  simpl. unfold Rgtb.
  destruct (is_active_box_horizontal s); simpl.
  - rewrite (proj2 (Rltb_true _ _)) by lra. simpl.
    destruct (add_box ab (box_storage s)) as [[u | e] st]; reflexivity.
  - rewrite (proj2 (Rltb_true _ _)) by lra. simpl.
    destruct (add_box ab (box_storage s)) as [[u | e] st]; reflexivity.
Qed.

End EngineSteps.

(** C1, witness: the unit box is retired by a detail of width 1 under the
    gap [(1/1)^1 = 1]. *)
Lemma retire_active_box_adds_to_storage_witness :
  SlackPackAlgorithm._check_active_box_size (1, 1) (unit_engine, [unit_box]) =
    match add_box unit_box (SlackPackAlgorithm.box_storage unit_engine) with
    | (Ret _, st) =>
        (Ret tt,
         (SlackPackAlgorithm.set_endpoints_placed
            (SlackPackAlgorithm.endpoints_placed unit_engine + 1)
            (SlackPackAlgorithm.set_active_box None
               (SlackPackAlgorithm.set_box_storage unit_engine st)), [unit_box]))
    | (Raise e, st) =>
        (Raise e, (SlackPackAlgorithm.set_box_storage unit_engine st, [unit_box]))
    end.
Proof.
  apply (@retire_active_box_adds_to_storage _ _ unit_engine [unit_box] 1 1 unit_box).
  - reflexivity.
  - simpl. lia.
  - simpl. unfold width. simpl.
    replace (1 / 1) with 1 by lra. rewrite Rpower_one_l. lra.
Defined.

(** C1, counterexample: on the in-memory storage the retirement step of the
    unit box changes the storage, which then holds the retired box. *)
Lemma retire_discards_counterexample :
  ~ (forall (s : SlackPackAlgorithm.t InMemoryBoxStorage.t) (P : list Detail)
            (w h : R) (ab : Detail),
        SlackPackAlgorithm.active_box s = Some ab ->
        SlackPackAlgorithm.active_box_first_detail_index s <> 0%Z ->
        w + Rpower (1 / IZR (SlackPackAlgorithm.active_box_first_detail_index s))
                   (SlackPackAlgorithm.gamma s)
          > (if SlackPackAlgorithm.is_active_box_horizontal s
             then width ab else height ab) ->
        SlackPackAlgorithm.box_storage
          (fst (snd (SlackPackAlgorithm._check_active_box_size (w, h) (s, P))))
        = SlackPackAlgorithm.box_storage s).
Proof.
  intro Hclaim.
  specialize (Hclaim unit_engine [unit_box] 1 1 unit_box eq_refl).
  assert (Hg : Rpower (1 / 1) 1 = 1)
    by (replace (1 / 1) with 1 by lra; apply Rpower_one_l).
  simpl in Hclaim.
  assert (Hne : 1%Z <> 0%Z) by lia.
  specialize (Hclaim Hne).
  unfold width in Hclaim. simpl in Hclaim. rewrite Hg in Hclaim.
  assert (Hgt : 1 + 1 > 1 - 0) by lra.
  specialize (Hclaim Hgt).
  unfold SlackPackAlgorithm._check_active_box_size, SlackPackAlgorithm.self,
    SlackPackAlgorithm.assign, SlackPackAlgorithm.storage, inv_pow in Hclaim.
  unfold_m. rewrite Hg in Hclaim. unfold Rgtb, width in Hclaim. simpl in Hclaim.
  rewrite (proj2 (Rltb_true _ _)) in Hclaim by lra.
  simpl in Hclaim. unfold InMemoryBoxStorage.add_box in Hclaim.
  unfold_m. discriminate Hclaim.
Qed.

(** ** Frame property of [update_placed_details] *)

Section Frame.
Context {S : Type} {BS : BoxStorage S}.
Import SlackPackAlgorithm.

Lemma with_update_twice (b : bool) (s : t S) :
  update_placed_details s = b -> with_update b (with_update (negb b) s) = s.
Proof. destruct s; simpl; intros; subst; reflexivity. Qed.























End Frame.


(** ** The sorted set and the in-memory storage *)

Lemma insort_perm (x : Detail) (l : list Detail) :
  Permutation (SortedSet.insort x l) (x :: l).
Proof.
  induction l as [| y l IH]; simpl; [reflexivity |].
  destruct (Rltb (SortedSet.cmp x y) 0); [reflexivity |].
  rewrite IH. apply perm_swap.
Qed.

Lemma insort_sorted (x : Detail) (l : list Detail) :
  sorted_desc l -> sorted_desc (SortedSet.insort x l).
Proof.
  unfold sorted_desc. induction l as [| y l IH]; simpl; intros Hs.
  - constructor; constructor.
  - inversion Hs as [| ? ? Hl Hy]; subst.
    destruct (Rltb (SortedSet.cmp x y) 0) eqn:E.
    + apply Rltb_true in E. unfold SortedSet.cmp in E.
      constructor; [assumption |].
      constructor; [lra |].
      rewrite Forall_forall in *. intros z Hz. specialize (Hy z Hz). lra.
    + apply Rltb_false in E. unfold SortedSet.cmp in E.
      constructor; [apply IH; assumption |].
      rewrite Forall_forall in *. intros z Hz.
      apply (Permutation_in _ (insort_perm x l)) in Hz.
      destruct Hz as [<- | Hz]; [lra | apply Hy; assumption].
Qed.

Lemma sorted_desc_head (b : Detail) (l : list Detail) :
  sorted_desc (b :: l) -> forall x, In x (b :: l) -> min_size x <= min_size b.
Proof.
  intros Hs x [<- | Hx]; [lra |].
  inversion Hs as [| ? ? _ Hb]; subst.
  rewrite Forall_forall in Hb. apply Hb, Hx.
Qed.

Lemma sorted_desc_tail (b : Detail) (l : list Detail) :
  sorted_desc (b :: l) -> sorted_desc l.
Proof. intros Hs. inversion Hs; assumption. Qed.

Lemma add_cases (x : Detail) (s : SortedSet.t) :
  (In x s /\ SortedSet.add x s = s) \/
  (~ In x s /\ SortedSet.add x s = SortedSet.insort x s).
Proof. unfold SortedSet.add. destruct (in_dec Detail_eq_dec x s); auto. Qed.

Lemma add_sorted (x : Detail) (s : SortedSet.t) :
  sorted_desc s -> sorted_desc (SortedSet.add x s).
Proof.
  intros Hs. destruct (add_cases x s) as [[_ ->] | [_ ->]];
    [assumption | apply insort_sorted, Hs].
Qed.

Lemma len_pos (x : Detail) (l : list Detail) :
  (SortedSet.len (x :: l) >? 0)%Z = true.
Proof. unfold SortedSet.len. simpl List.length. apply Z.gtb_lt. lia. Qed.

#[export, refine] Instance InMemory_Lawful : LawfulStorage InMemoryBoxStorage.t := {
  stores := fun s C => Permutation (InMemoryBoxStorage.boxes s) C
                       /\ sorted_desc (InMemoryBoxStorage.boxes s)
}.
Proof.
  - intros [bx] C d [Hp Hs]. simpl in *.
    eexists. split; [reflexivity |]. simpl.
    destruct (add_cases d bx) as [[Hin E] | [Hin E]]; rewrite E.
    + right. split; [eapply Permutation_in; eassumption | auto].
    + left. split; [| apply insort_sorted, Hs].
      rewrite insort_perm. constructor. exact Hp.
  - intros [bx] C [Hp Hs]. simpl in *.
    unfold InMemoryBoxStorage.get_max_box. unfold_m.
    destruct bx as [| b bx].
    + exists None. split; [reflexivity |].
      apply Permutation_nil. exact Hp.
    + rewrite len_pos. exists (Some b). split; [reflexivity |]. split.
      * eapply Permutation_in; [exact Hp | left; reflexivity].
      * intros x Hx. apply (sorted_desc_head Hs).
        eapply Permutation_in; [symmetry; exact Hp | exact Hx].
  - intros [bx] C b [Hp Hs]. simpl in *.
    unfold InMemoryBoxStorage.get_max_box, InMemoryBoxStorage.pop_max_box.
    unfold_m. destruct bx as [| b' bx].
    + simpl. intros Hget. discriminate Hget.
    + rewrite len_pos. simpl. intros Hget. injection Hget as ->.
      eexists. exists bx. split; [reflexivity |]. simpl.
      split; [split; [reflexivity | eapply sorted_desc_tail; eassumption] |].
      symmetry. exact Hp.
Defined.

(** ** The steps of [place_next] on worlds in order *)

(** Permutations of lists of details, by counting occurrences. *)
Ltac perm_count :=
  let x := fresh "x" in
  apply (proj2 (Permutation_count_occ Detail_eq_dec _ _)); intros x;
  repeat match goal with
  | H : Permutation _ _ |- _ =>
      let H' := fresh "Hc" in
      pose proof (proj1 (Permutation_count_occ Detail_eq_dec _ _) H x) as H';
      clear H
  end;
  repeat rewrite count_occ_app in *; cbn [count_occ] in *;
  repeat rewrite count_occ_app in *; cbn [count_occ] in *;
  repeat match goal with
  | |- context [Detail_eq_dec ?a x] => destruct (Detail_eq_dec a x)
  | H : context [Detail_eq_dec ?a x] |- _ => destruct (Detail_eq_dec a x)
  end;
  lia.

Section EngineInvariant.
Context {S : Type} {BS : BoxStorage S} {LS : LawfulStorage S}.
Import SlackPackAlgorithm.

Lemma inv_pow_pos (k : Z) (g : R) : (0 < k)%Z -> inv_pow k g = Ret (gap g k).
Proof.
  intros Hk. unfold inv_pow. destruct (Z.eqb_spec k 0); [lia | reflexivity].
Qed.

Lemma gap_pos (g : R) (k : Z) : 0 < gap g k.
Proof. apply Rpower_pos. Qed.

Lemma set_lrp_same (s : t S) (l : Detail) :
  lrp s = Some l -> set_lrp (Some l) s = s.
Proof. destruct s; simpl; intros ->; reflexivity. Qed.

Lemma check_if_lrp_none_spec (s : t S) (P : list Detail) (l : Detail) :
  current_lrp (s, P) = Some l ->
  _check_if_lrp_none (s, P) = (Ret tt, (set_lrp (Some l) s, P)).
Proof.
  unfold current_lrp, _check_if_lrp_none, self, placed_details, assign.
  unfold_m. destruct (lrp s) as [l' |] eqn:E.
  - intros [= ->]. rewrite (set_lrp_same _ E). reflexivity.
  - destruct P as [| x P]; simpl; [discriminate |]. intros [= ->]. reflexivity.
Qed.

(** The retirement step: nothing happens without an active box or when the
    detail fits; otherwise the box goes to the storage. *)
Lemma check_active_box_size_keep (s : t S) (P : list Detail) (d : R * R) (ab : Detail) :
  active_box s = Some ab ->
  (0 < active_box_first_detail_index s)%Z ->
  fst d + gap (gamma s) (active_box_first_detail_index s)
    <= major (is_active_box_horizontal s) ab ->
  _check_active_box_size d (s, P) = (Ret tt, (s, P)).
Proof.
  intros Hab Hidx Hfit. unfold _check_active_box_size, self. unfold_m.
  rewrite Hab, (inv_pow_pos _ Hidx). simpl. unfold Rgtb, major in *.
  destruct (is_active_box_horizontal s); simpl;
    rewrite (proj2 (Rltb_false _ _)) by lra; reflexivity.
Qed.

Lemma check_active_box_size_none (s : t S) (P : list Detail) (d : R * R) :
  active_box s = None -> _check_active_box_size d (s, P) = (Ret tt, (s, P)).
Proof.
  intros Hab. unfold _check_active_box_size, self. unfold_m. rewrite Hab. reflexivity.
Qed.

Lemma check_active_box_size_retire (s : t S) (P : list Detail) (d : R * R) (ab : Detail) :
  active_box s = Some ab ->
  active_box_first_detail_index s <> 0%Z ->
  fst d + gap (gamma s) (active_box_first_detail_index s)
    > major (is_active_box_horizontal s) ab ->
  _check_active_box_size d (s, P) =
    match add_box ab (box_storage s) with
    | (Ret _, st) =>
        (Ret tt,
         (set_endpoints_placed (endpoints_placed s + 1)
            (set_active_box None (set_box_storage s st)), P))
    | (Raise e, st) => (Raise e, (set_box_storage s st, P))
    end.
Proof.
  intros Hab Hidx Hlen.
  unfold _check_active_box_size, self, assign, storage, inv_pow.
  unfold_m. rewrite Hab.
  destruct (Z.eqb_spec (active_box_first_detail_index s) 0) as [E | _];
    [contradiction |].
  simpl. unfold Rgtb, major, gap in *.
  destruct (is_active_box_horizontal s); simpl;
    rewrite (proj2 (Rltb_true _ _)) by lra; simpl;
    destruct (add_box ab (box_storage s)) as [[u | e] st]; reflexivity.
Qed.

Lemma remove_first_perm (x : Detail) (l : list Detail) :
  In x l -> exists l0, remove_first x l = Some l0 /\ Permutation l (x :: l0).
Proof.
  induction l as [| y l IH]; simpl; [contradiction |].
  intros Hin. destruct (Detail_eq_dec x y) as [-> | Hne].
  - exists l. split; reflexivity.
  - destruct Hin as [-> | Hin]; [contradiction |].
    destruct (IH Hin) as (l0 & -> & Hp). exists (y :: l0). split; [reflexivity |].
    rewrite Hp. apply perm_swap.
Qed.

Lemma remove_first_some_perm (x : Detail) (l l0 : list Detail) :
  remove_first x l = Some l0 -> Permutation l (x :: l0).
Proof.
  revert l0. induction l as [| y l IH]; simpl; intros l0; [discriminate |].
  destruct (Detail_eq_dec x y) as [-> | Hne].
  - intros [= ->]. reflexivity.
  - destruct (remove_first x l) as [r |]; [| discriminate].
    intros [= <-]. rewrite (IH r eq_refl). apply perm_swap.
Qed.

(** Placing into the active box, as an equation. *)
Lemma place_detail_in_active_box_eq
  (s : t S) (P : list Detail) (d : R * R) (ab : Detail) :
  active_box s = Some ab ->
  let n := (last_placed_index s + 1)%Z in
  let hz := is_active_box_horizontal s in
  let D := placed_detail_of hz ab d n in
  let B := normal_box_of hz ab d n (_get_normal_box_type s) in
  let E := endpoint_of hz ab d (endpoints_placed s) (_get_endpoint_type s) in
  _place_detail_in_active_box d (s, P) =
    if update_placed_details s then
      match remove_first ab P with
      | Some P0 =>
          let (r, st) := add_box B (box_storage s) in
          (r, (set_box_storage (set_active_box (Some E) (set_last_placed_index n s)) st,
               P0 ++ [D; B; E]))
      | None =>
          (Raise (ValueError "list.remove(x): x not in list"),
           (set_last_placed_index n s, P))
      end
    else
      let (r, st) := add_box B (box_storage s) in
      (r, (set_box_storage (set_active_box (Some E) (set_last_placed_index n s)) st, P)).
Proof.
  intros Hab. destruct d as [w h].
  destruct ab as [[x0 y0] [x1 y1] nm ty].
  unfold _place_detail_in_active_box, self, assign, placed_details,
    set_placed_details, storage, deref, list_remove,
    placed_detail_of, normal_box_of, endpoint_of.
  unfold_m. rewrite Hab. simpl.
  destruct (update_placed_details s); simpl;
  destruct (is_active_box_horizontal s); simpl;
    try (destruct (remove_first _ P); simpl);
    try match goal with |- context [add_box ?b ?st] => destruct (add_box b st) end;
    reflexivity.
Qed.

Lemma choose_active_box_keep (s : t S) (P : list Detail) (d : R * R) (ab : Detail) :
  active_box s = Some ab -> _choose_active_box d (s, P) = (Ret tt, (s, P)).
Proof.
  intros Hab. unfold _choose_active_box, self. unfold_m. rewrite Hab. reflexivity.
Qed.

Lemma set_box_storage_same (s : t S) : set_box_storage s (box_storage s) = s.
Proof. destruct s; reflexivity. Qed.

(** Taking the largest stored box. *)
Lemma choose_active_box_pop
  (s : t S) (P : list Detail) (d : R * R) (b : Detail) (st' : S) :
  active_box s = None ->
  (0 <= last_placed_index s)%Z ->
  let k := (last_placed_index s + 1)%Z in
  get_max_box (box_storage s) = (Ret (Some b), box_storage s) ->
  snd d + gap (gamma s) k <= min_size b ->
  pop_max_box (box_storage s) = (Ret (Some b), st') ->
  _choose_active_box d (s, P) =
    (Ret tt,
     (set_is_active_box_horizontal (Rgeb (width b) (height b))
        (set_active_box_from (Some (detail_type b))
           (set_active_box (Some b)
              (set_box_storage (set_active_box_first_detail_index k s) st'))), P)).
Proof.
  intros Hab Hlp k Hget Hfit Hpop.
  unfold _choose_active_box, _choose_active_box_from_box, self, assign, storage, deref.
  unfold_m. rewrite Hab. simpl. rewrite Hget. simpl.
  rewrite inv_pow_pos by lia. simpl.
  unfold min_size in Hfit. fold k.
  rewrite (proj2 (Rleb_true _ _)) by exact Hfit.
  simpl. rewrite Hpop. simpl. reflexivity.
Qed.

(** Cutting a stripe, or failing to. *)
Lemma choose_active_box_cut
  (s : t S) (P : list Detail) (d : R * R) (o : option Detail) (l : Detail) :
  active_box s = None ->
  (0 <= last_placed_index s)%Z ->
  let k := (last_placed_index s + 1)%Z in
  let g := gap (gamma s) k in
  get_max_box (box_storage s) = (Ret o, box_storage s) ->
  match o with Some b => min_size b | None => -1 end < snd d + g ->
  lrp s = Some l ->
  let s1 := set_active_box_from (Some (detail_type l))
              (set_active_box_first_detail_index k s) in
  let s2 := set_is_active_box_horizontal (Rleb (width l) (height l)) s1 in
  let s3 := set_lrp (Some (rest_of_lrp l d g))
              (set_active_box (Some (stripe_of l d g (endpoints_placed s))) s2) in
  _choose_active_box d (s, P) =
    if Rgtb (snd d + g) (Rmax (width l) (height l))
       || Rgtb (fst d + g) (Rmin (width l) (height l))
    then (Raise LRPTooSmall, (s1, P))
    else if update_placed_details s then
      match remove_first l P with
      | Some P0 =>
          (Ret tt, (s3, P0 ++ [stripe_of l d g (endpoints_placed s); rest_of_lrp l d g]))
      | None => (Raise (ValueError "list.remove(x): x not in list"), (s2, P))
      end
    else (Ret tt, (s3, P)).
Proof.
  intros Hab Hlp k g Hget Hsmall Hl s1 s2 s3.
  unfold _choose_active_box, _cut_new_strip, self, assign, storage, deref,
    placed_details, set_placed_details, list_remove.
  unfold_m. rewrite Hab. simpl. rewrite Hget. simpl.
  rewrite inv_pow_pos by lia. simpl. fold k. fold g.
  assert (Hno : Rleb (snd d + g)
                  match o with Some b => Rmin (width b) (height b) | None => -1 end
                = false).
  { apply Rleb_false. destruct o; exact Hsmall. }
  rewrite Hno. simpl. rewrite Hl. simpl.
  rewrite inv_pow_pos by lia. simpl. fold k. fold g.
  destruct (Rgtb (snd d + g) (Rmax (width l) (height l))
            || Rgtb (fst d + g) (Rmin (width l) (height l))); [reflexivity |].
  simpl. subst s3 s2 s1. unfold stripe_of, rest_of_lrp.
  destruct (update_placed_details s) eqn:Hupd; simpl.
  - destruct (remove_first l P) eqn:Hrem; simpl.
    + destruct (Rleb (width l) (height l)); reflexivity.
    + reflexivity.
  - destruct (Rleb (width l) (height l)); reflexivity.
Qed.

(** The first two steps on a world in order. *)
Lemma retire_phase (s : t S) (P : list Detail) (d : R * R) :
  engine_inv (s, P) ->
  exists l s1,
    current_lrp (s, P) = Some l /\
    bind _check_if_lrp_none (fun _ => _check_active_box_size d) (s, P)
      = (Ret tt, (s1, P)) /\
    engine_inv (s1, P) /\
    lrp s1 = Some l /\
    ((s1 = set_lrp (Some l) s /\
      forall ab, active_box s = Some ab ->
        fst d + gap (gamma s) (active_box_first_detail_index s)
          <= major (is_active_box_horizontal s) ab)
     \/
     (exists ab st,
        active_box s = Some ab /\
        fst d + gap (gamma s) (active_box_first_detail_index s)
          > major (is_active_box_horizontal s) ab /\
        s1 = set_endpoints_placed (endpoints_placed s + 1)
               (set_active_box None (set_box_storage (set_lrp (Some l) s) st)))).
Proof.
  intros (l & C & rest & Hl & Hst & Hlp & Hidx & Hperm). simpl in *.
  exists l. unfold bind. rewrite (check_if_lrp_none_spec _ _ Hl).
  set (s0 := set_lrp (Some l) s).
  assert (Hinv0 : forall a st' C' rest',
            stores st' C' ->
            (a <> None -> (0 < active_box_first_detail_index s)%Z) ->
            (update_placed_details s = true ->
               Permutation P (l :: option_list a ++ C' ++ rest')) ->
            forall s', lrp s' = Some l -> box_storage s' = st' ->
              last_placed_index s' = last_placed_index s ->
              active_box s' = a ->
              active_box_first_detail_index s' = active_box_first_detail_index s ->
              update_placed_details s' = update_placed_details s ->
              engine_inv (s', P)).
  { intros a st' C' rest' Hst' Hidx' Hperm' s' E1 E2 E3 E4 E5 E6.
    exists l, C', rest'. unfold current_lrp. simpl.
    rewrite E1, E2, E3, E4, E5, E6. auto. }
  destruct (active_box s) as [ab |] eqn:Hab.
  - specialize (Hidx ltac:(discriminate)).
    destruct (Rle_dec (fst d + gap (gamma s) (active_box_first_detail_index s))
                      (major (is_active_box_horizontal s) ab)) as [Hfit | Hbig].
    + exists s0. split; [exact Hl |]. split.
      { apply (check_active_box_size_keep s0 P d (ab:=ab));
          [exact Hab | exact Hidx | exact Hfit]. }
      split.
      { apply (Hinv0 (Some ab) (box_storage s) C rest); auto. }
      split; [reflexivity |].
      left. split; [reflexivity |]. intros ab' [= <-]. exact Hfit.
    + apply Rnot_le_gt in Hbig.
      destruct (add_box_lawful _ _ ab Hst) as (st' & Eadd & Hst').
      eexists. split; [exact Hl |]. split.
      { rewrite (check_active_box_size_retire s0 P d (ab:=ab));
          [| exact Hab | simpl; lia | exact Hbig].
        simpl. rewrite Eadd. reflexivity. }
      split.
      { destruct Hst' as [Hst' | [Hin Hst']].
        - apply (Hinv0 None st' (ab :: C) rest); auto; try contradiction.
        - apply (Hinv0 None st' C (ab :: rest)); auto; try contradiction.
          intros Hu. rewrite (Hperm Hu). constructor. simpl.
          apply (Permutation_middle C rest ab). }
      split; [reflexivity |].
      right. exists ab, st'. split; [reflexivity |]. split; [exact Hbig |].
      reflexivity.
  - exists s0. split; [exact Hl |]. split.
    { apply check_active_box_size_none. exact Hab. }
    split.
    { apply (Hinv0 None (box_storage s) C rest); auto. }
    split; [reflexivity |].
    left. split; [reflexivity |]. intros ab' Habs. discriminate Habs.
Qed.

(** The choice of an active box on a world in order, case by case. *)
Lemma choose_phase (s : t S) (P : list Detail) (d : R * R) (l : Detail) :
  engine_inv (s, P) ->
  lrp s = Some l ->
  0 <= snd d ->
  active_box s = None ->
  let k := (last_placed_index s + 1)%Z in
  let g := gap (gamma s) k in
  exists o, get_max_box (box_storage s) = (Ret o, box_storage s) /\
  ((exists b st',
      o = Some b /\ snd d + g <= min_size b /\
      let s' := set_is_active_box_horizontal (Rgeb (width b) (height b))
                  (set_active_box_from (Some (detail_type b))
                     (set_active_box (Some b)
                        (set_box_storage (set_active_box_first_detail_index k s) st'))) in
      _choose_active_box d (s, P) = (Ret tt, (s', P)) /\ engine_inv (s', P))
   \/
   (match o with Some b => min_size b | None => -1 end < snd d + g /\
    (snd d + g > Rmax (width l) (height l) \/ fst d + g > Rmin (width l) (height l)) /\
    exists s', _choose_active_box d (s, P) = (Raise LRPTooSmall, (s', P)))
   \/
   (match o with Some b => min_size b | None => -1 end < snd d + g /\
    snd d + g <= Rmax (width l) (height l) /\
    fst d + g <= Rmin (width l) (height l) /\
    let stripe := stripe_of l d g (endpoints_placed s) in
    let s' := set_lrp (Some (rest_of_lrp l d g))
                (set_active_box (Some stripe)
                   (set_is_active_box_horizontal (Rleb (width l) (height l))
                      (set_active_box_from (Some (detail_type l))
                         (set_active_box_first_detail_index k s)))) in
    exists P',
      (if update_placed_details s
       then exists P0, remove_first l P = Some P0 /\
                       P' = P0 ++ [stripe; rest_of_lrp l d g]
       else P' = P) /\
      _choose_active_box d (s, P) = (Ret tt, (s', P')) /\ engine_inv (s', P'))).
Proof.
  intros (l0 & C & rest & Hl0 & Hst & Hlp & Hidx & Hperm) Hl Hh Hab k g.
  simpl in *. unfold current_lrp in Hl0. simpl in Hl0. rewrite Hl in Hl0.
  injection Hl0 as <-. rewrite Hab in Hperm. simpl in Hperm.
  destruct (get_max_box_lawful _ _ Hst) as (o & Hget & Ho).
  exists o. split; [exact Hget |].
  assert (Hg : 0 < g) by apply gap_pos.
  destruct (Rle_dec (snd d + g) match o with Some b => min_size b | None => -1 end)
    as [Hfit | Hsmall].
  - left. destruct o as [b |]; [| lra].
    destruct Ho as [Hin Hmax].
    destruct (pop_max_box_lawful C Hst Hget) as (st' & C' & Hpop & Hst' & HC).
    exists b, st'. split; [reflexivity |]. split; [exact Hfit |].
    split.
    + apply choose_active_box_pop; assumption.
    + exists l, C', rest. unfold current_lrp. simpl. rewrite Hl.
      repeat split; auto; try lia.
      intros Hu. rewrite (Hperm Hu). constructor.
      change (b :: C' ++ rest) with ((b :: C') ++ rest).
      apply Permutation_app_tail. exact HC.
  - right. apply Rnot_le_lt in Hsmall.
    pose proof (@choose_active_box_cut s P d o l Hab Hlp Hget Hsmall Hl) as Hcut.
    fold k in Hcut. fold g in Hcut. cbv zeta in Hcut.
    destruct (Rgtb (snd d + g) (Rmax (width l) (height l))
              || Rgtb (fst d + g) (Rmin (width l) (height l))) eqn:Hbad.
    + left. split; [exact Hsmall |]. split.
      * apply orb_true_iff in Hbad. unfold Rgtb in Hbad.
        destruct Hbad as [Hb | Hb]; apply Rltb_true in Hb; [left | right]; lra.
      * eexists. exact Hcut.
    + right. apply orb_false_iff in Hbad. unfold Rgtb in Hbad.
      destruct Hbad as [Hb1 Hb2]. apply Rltb_false in Hb1, Hb2.
      split; [exact Hsmall |]. split; [exact Hb1 |]. split; [exact Hb2 |].
      cbv zeta.
      destruct (update_placed_details s) eqn:Hu.
      * specialize (Hperm eq_refl).
        destruct (@remove_first_perm l P) as (P0 & Hrem & HP0).
        { eapply Permutation_in; [symmetry; exact Hperm | left; reflexivity]. }
        rewrite Hrem in Hcut. eexists. split; [exists P0; split; [exact Hrem | reflexivity] |].
        split; [exact Hcut |].
        exists (rest_of_lrp l d g), C, rest. unfold current_lrp. simpl.
        repeat split; auto; try lia.
        intros _. rewrite HP0 in Hperm. apply Permutation_cons_inv in Hperm.
        rewrite Hperm.
        rewrite <- Permutation_middle. rewrite Permutation_app_comm. simpl.
        apply perm_swap.
      * exists P. split; [reflexivity |]. split; [exact Hcut |].
        exists (rest_of_lrp l d g), C, rest. unfold current_lrp. simpl.
        repeat split; auto; try lia. intros Habs. congruence.
Qed.

(** Placing the detail on a world in order. *)
Lemma place_phase (s : t S) (P : list Detail) (d : R * R) (ab l : Detail) :
  engine_inv (s, P) ->
  lrp s = Some l ->
  active_box s = Some ab ->
  let n := (last_placed_index s + 1)%Z in
  let hz := is_active_box_horizontal s in
  let D := placed_detail_of hz ab d n in
  let B := normal_box_of hz ab d n (_get_normal_box_type s) in
  let E := endpoint_of hz ab d (endpoints_placed s) (_get_endpoint_type s) in
  exists st' P',
    (if update_placed_details s
     then exists P0, remove_first ab P = Some P0 /\ P' = P0 ++ [D; B; E]
     else P' = P) /\
    let s' := set_box_storage (set_active_box (Some E) (set_last_placed_index n s)) st' in
    _place_detail_in_active_box d (s, P) = (Ret tt, (s', P')) /\
    engine_inv (s', P').
Proof.
  intros (l0 & C & rest & Hl0 & Hst & Hlp & Hidx & Hperm) Hl Hab n hz D B E.
  simpl in *. unfold current_lrp in Hl0. simpl in Hl0. rewrite Hl in Hl0.
  injection Hl0 as <-.
  rewrite Hab in Hperm. simpl in Hperm.
  specialize (Hidx ltac:(congruence)).
  pose proof (place_detail_in_active_box_eq s P d Hab) as Heq.
  cbv zeta in Heq. fold n hz in Heq. fold D B E in Heq.
  destruct (add_box_lawful _ _ B Hst) as (st' & Eadd & Hst').
  rewrite Eadd in Heq.
  exists st'.
  assert (Hfin : forall P' C' rest',
            stores st' C' ->
            (update_placed_details s = true ->
               Permutation P' (l :: E :: C' ++ rest')) ->
            engine_inv
              (set_box_storage (set_active_box (Some E) (set_last_placed_index n s)) st',
               P')).
  { intros P' C' rest' HC' HP'. exists l, C', rest'. unfold current_lrp. simpl.
    rewrite Hl. repeat split; auto. subst n. lia. }
  destruct (update_placed_details s) eqn:Hu.
  - specialize (Hperm eq_refl).
    destruct (@remove_first_perm ab P) as (P0 & Hrem & HP0).
    { eapply Permutation_in; [symmetry; exact Hperm | right; left; reflexivity]. }
    rewrite Hrem in Heq. eexists. split; [exists P0; split; [exact Hrem | reflexivity] |].
    split; [exact Heq |].
    assert (HP0' : Permutation P0 (l :: C ++ rest)).
    { apply Permutation_cons_inv with (a := ab). rewrite <- HP0, Hperm. apply perm_swap. }
    destruct Hst' as [Hst' | [Hin Hst']].
    + apply (Hfin _ (B :: C) (D :: rest) Hst'). intros _. clear - HP0'. perm_count.
    + apply (Hfin _ C (D :: B :: rest) Hst'). intros _. clear - HP0'. perm_count.
  - exists P. split; [reflexivity |]. split; [exact Heq |].
    destruct Hst' as [Hst' | [Hin Hst']].
    + apply (Hfin _ (B :: C) rest Hst'). intros Habs. discriminate Habs.
    + apply (Hfin _ C rest Hst'). intros Habs. discriminate Habs.
Qed.

Lemma place_next_unfold (d : R * R) (w : @world S) :
  place_next d w =
    bind (bind _check_if_lrp_none (fun _ => _check_active_box_size d))
         (fun _ => bind (_choose_active_box d)
                     (fun _ => _place_detail_in_active_box d)) w.
Proof.
  unfold place_next, bind. destruct (_check_if_lrp_none w) as [[u | e] w0];
    [| reflexivity].
  destruct (_check_active_box_size d w0) as [[u' | e] w1]; reflexivity.
Qed.

Lemma engine_inv_init (gamma : R) (n0 max_placed : Z) (st : S) (flag : bool)
  (sheet : Detail) :
  (1 <= n0)%Z -> stores st [] ->
  engine_inv (init gamma n0 max_placed st flag, [sheet]).
Proof.
  intros Hn Hst. exists sheet, [], []. unfold current_lrp. simpl.
  repeat split; auto; try lia. intros Habs. contradiction.
Qed.

(** A call of [place_next] on a world in order either returns, and the world
    is in order again, or comes to cut a stripe and finds the LRP too small;
    the list is then as before the call. *)
Lemma place_next_outcome (w : @world S) (d : R * R) :
  engine_inv w -> 0 <= snd d ->
  (exists w', place_next d w = (Ret tt, w') /\ engine_inv w') \/
  (exists w' w1, place_next d w = (Raise LRPTooSmall, w') /\ snd w' = snd w /\
                 reaches_cut d w w1 /\ cut_impossible d w1).
Proof.
  destruct w as [s P]. intros Hinv Hh.
  destruct (@retire_phase s P d Hinv) as (l & s1 & Hl & HA & Hinv1 & Hl1 & Hcase).
  assert (Hpn : place_next d (s, P) =
                bind (_choose_active_box d)
                     (fun _ => _place_detail_in_active_box d) (s1, P)).
  { rewrite place_next_unfold. unfold bind at 1. rewrite HA. reflexivity. }
  rewrite Hpn. clear Hpn. unfold bind at 1. unfold bind at 1.
  destruct (active_box s1) as [ab |] eqn:Hab1.
  - rewrite (@choose_active_box_keep s1 P d ab Hab1).
    destruct (@place_phase s1 P d ab l Hinv1 Hl1 Hab1) as (st' & P' & _ & HC & Hinv').
    left. eexists. split; [exact HC | exact Hinv'].
  - destruct (@choose_phase s1 P d l Hinv1 Hl1 Hh Hab1) as (o & Hget & [Hpop | [Hfail | Hcut]]).
    + destruct Hpop as (b & st' & -> & Hfit & HB & Hinv2). cbv zeta in HB, Hinv2.
      rewrite HB.
      match type of Hinv2 with engine_inv (?s2, _) =>
        destruct (@place_phase s2 P d b l Hinv2 Hl1 eq_refl) as (st2 & P' & _ & HC & Hinv')
      end.
      left. eexists. split; [exact HC | exact Hinv'].
    + destruct Hfail as (Hsm & Hbad & s' & HB).
      right. exists (s', P), (s1, P). rewrite HB.
      split; [reflexivity |]. split; [reflexivity |]. split.
      * split; [exact HA |]. split; [exact Hab1 |]. exists o. split; assumption.
      * exists l. split; [exact Hl1 |]. exact Hbad.
    + destruct Hcut as (Hsm & Hok1 & Hok2 & P' & HP' & HB & Hinv2).
      cbv zeta in HB, Hinv2. rewrite HB.
      match type of Hinv2 with engine_inv (?s2, _) =>
        destruct (@place_phase s2 P' d _ _ Hinv2 eq_refl eq_refl)
          as (st2 & P'' & _ & HC & Hinv')
      end.
      left. eexists. split; [exact HC | exact Hinv'].
Qed.

Lemma place_next_too_small (w w1 : @world S) (d : R * R) :
  engine_inv w -> reaches_cut d w w1 -> cut_impossible d w1 ->
  exists w', place_next d w = (Raise LRPTooSmall, w').
Proof.
  destruct w as [s P], w1 as [s1 P1].
  intros Hinv (HA & Hab & o & Hget & Hsm) (l & Hl & Hbad). simpl in *.
  destruct (@retire_phase s P d Hinv) as (l' & s1' & _ & HA' & Hinv1 & _ & _).
  rewrite HA in HA'. injection HA' as <- <-.
  destruct Hinv1 as (_ & _ & _ & _ & _ & Hlp & _). simpl in Hlp.
  rewrite place_next_unfold. unfold bind at 1. rewrite HA. cbv beta iota.
  unfold bind at 1.
  rewrite (@choose_active_box_cut s1 P1 d o l Hab Hlp Hget Hsm Hl).
  assert (Hb : Rgtb (snd d + gap (gamma s1) (last_placed_index s1 + 1))
                   (Rmax (width l) (height l))
               || Rgtb (fst d + gap (gamma s1) (last_placed_index s1 + 1))
                    (Rmin (width l) (height l)) = true).
  { apply orb_true_iff. unfold Rgtb.
    destruct Hbad as [Hb | Hb]; [left | right]; apply Rltb_true; lra. }
  rewrite Hb. eexists. reflexivity.
Qed.

(** What the largest stored box says of all of them. *)
Lemma max_box_below (st : S) (C : list Detail) (o : option Detail) (bound : R) :
  stores st C -> get_max_box st = (Ret o, st) -> -1 < bound ->
  (match o with Some b => min_size b | None => -1 end < bound <->
   forall x, In x C -> min_size x < bound).
Proof.
  intros Hst Hget Hb.
  destruct (get_max_box_lawful _ _ Hst) as (o' & Hget' & Ho).
  rewrite Hget in Hget'. injection Hget' as <-.
  destruct o as [b |].
  - destruct Ho as [Hin Hmax]. split.
    + intros Hlt x Hx. specialize (Hmax x Hx). lra.
    + intros Hall. apply Hall, Hin.
  - subst C. split; [intros _ x [] | intros _; exact Hb].
Qed.

(** Coming to the cut and failing there, said on the world of the call. *)
Lemma cut_conditions (w : @world S) (d : R * R) :
  engine_inv w -> 0 <= snd d ->
  ((exists w1, reaches_cut d w w1 /\ cut_impossible d w1) <->
   (no_active_box_accepts d w /\ no_stored_box_fits d w /\ lrp_too_small_for d w)).
Proof.
  destruct w as [s P]. intros Hinv Hh.
  pose proof Hinv as (l & C & rest & Hl & Hst & Hlp & Hidx & Hperm).
  cbn [fst snd] in Hst, Hlp, Hidx, Hperm.
  set (bound := snd d + gap (gamma s) (last_placed_index s + 1)).
  assert (Hbound : -1 < bound).
  { subst bound. pose proof (gap_pos (gamma s) (last_placed_index s + 1)). lra. }
  set (s0 := set_lrp (Some l) s).
  assert (Hsteps : forall s1,
            bind _check_if_lrp_none (fun _ => _check_active_box_size d) (s, P)
              = (Ret tt, (s1, P)) ->
            lrp s1 = Some l -> gamma s1 = gamma s ->
            last_placed_index s1 = last_placed_index s ->
            active_box s1 = None ->
            forall C1, stores (box_storage s1) C1 ->
              (forall x, In x C1 <-> In x (option_list (active_box s) ++ C)) ->
            ((exists w1, reaches_cut d (s, P) w1 /\ cut_impossible d w1) <->
             ((forall x, In x (option_list (active_box s) ++ C) -> min_size x < bound) /\
              lrp_too_small_for d (s, P)))).
  { intros s1 HA Hl1 Hg1 Hi1 Hab1 C1 Hst1 HC1.
    destruct (get_max_box_lawful _ _ Hst1) as (o & Hget & _).
    pose proof (@max_box_below (box_storage s1) C1 o bound Hst1 Hget Hbound) as Hmax.
    unfold lrp_too_small_for. cbn [fst snd]. rewrite Hl. fold bound.
    split.
    - intros ([s1' P1'] & (HA' & _ & o' & Hget' & Hsm) & (l' & Hl' & Hbad)).
      rewrite HA in HA'. injection HA' as <- <-. cbn [fst snd] in *.
      rewrite Hget in Hget'. injection Hget' as <-.
      rewrite Hl1 in Hl'. injection Hl' as <-.
      rewrite Hg1, Hi1 in Hsm, Hbad. fold bound in Hsm.
      split.
      + intros x Hx. apply (proj1 Hmax Hsm). apply HC1, Hx.
      + exists l. split; [reflexivity | exact Hbad].
    - intros (Hall & l' & [= <-] & Hbad).
      exists (s1, P). split.
      + split; [exact HA |]. split; [exact Hab1 |]. exists o. split; [exact Hget |].
        cbn [fst snd]. rewrite Hg1, Hi1. fold bound. apply (proj2 Hmax).
        intros x Hx. apply Hall, HC1, Hx.
      + exists l. cbn [fst snd]. split; [exact Hl1 |]. rewrite Hg1, Hi1. exact Hbad. }
  assert (Hstored : forall Q : Prop,
            ((forall x, In x (option_list (active_box s) ++ C) -> min_size x < bound) /\ Q)
            <-> (no_stored_box_fits d (s, P) /\ Q)).
  { intros Q. unfold no_stored_box_fits. cbn [fst snd]. fold bound. split.
    - intros [Hall HQ]. split; [| exact HQ]. exists C. split; [exact Hst | exact Hall].
    - intros [(C0 & Hst0 & Hall0) HQ]. split; [| exact HQ].
      destruct (get_max_box_lawful _ _ Hst) as (o & Hget & _).
      pose proof (@max_box_below (box_storage s) C o bound Hst Hget Hbound) as H1.
      pose proof (@max_box_below (box_storage s) C0 o bound Hst0 Hget Hbound) as H2.
      intros x Hx. apply in_app_or in Hx. destruct Hx as [Hx | Hx].
      + apply Hall0. apply in_or_app. left. exact Hx.
      + apply (proj1 H1); [| exact Hx]. apply (proj2 H2).
        intros y Hy. apply Hall0. apply in_or_app. right. exact Hy. }
  unfold no_active_box_accepts. cbn [fst snd].
  destruct (active_box s) as [ab |] eqn:Hab.
  - specialize (Hidx ltac:(discriminate)).
    destruct (Rle_dec (fst d + gap (gamma s) (active_box_first_detail_index s))
                      (major (is_active_box_horizontal s) ab)) as [Hfit | Hbig].
    + (* the active box is kept *)
      assert (HA : bind _check_if_lrp_none (fun _ => _check_active_box_size d) (s, P)
                   = (Ret tt, (s0, P))).
      { unfold bind. rewrite (check_if_lrp_none_spec _ _ Hl).
        apply (check_active_box_size_keep s0 P d (ab:=ab));
          [exact Hab | exact Hidx | exact Hfit]. }
      split.
      * intros ([s1 P1] & (HA' & Hnone & _) & _).
        rewrite HA in HA'. injection HA' as <- <-. cbn [fst] in Hnone.
        subst s0. cbn in Hnone. congruence.
      * intros (Hno & _). specialize (Hno ab eq_refl). lra.
    + apply Rnot_le_gt in Hbig.
      destruct (add_box_lawful _ _ ab Hst) as (st' & Eadd & Hst').
      set (s1 := set_endpoints_placed (endpoints_placed s + 1)
                   (set_active_box None (set_box_storage s0 st'))).
      assert (HA : bind _check_if_lrp_none (fun _ => _check_active_box_size d) (s, P)
                   = (Ret tt, (s1, P))).
      { unfold bind. rewrite (check_if_lrp_none_spec _ _ Hl).
        change (set_lrp (Some l) s) with s0.
        rewrite (check_active_box_size_retire s0 P d (ab:=ab));
          [| exact Hab | simpl; lia | exact Hbig].
        simpl. rewrite Eadd. reflexivity. }
      assert (HC1 : exists C1, stores (box_storage s1) C1 /\
                      forall x, In x C1 <-> In x (option_list (Some ab) ++ C)).
      { destruct Hst' as [Hst' | [Hin Hst']].
        - exists (ab :: C). split; [exact Hst' | reflexivity].
        - exists C. split; [exact Hst' |]. intros x. cbn [option_list app In].
          split; [auto | intros [<- | Hx]; assumption]. }
      destruct HC1 as (C1 & Hst1 & HC1).
      rewrite (Hsteps s1 HA eq_refl eq_refl eq_refl eq_refl C1 Hst1 HC1).
      rewrite Hstored. split; [intros H; split; [| exact H] | intros [_ H]; exact H].
      intros ab' [= <-]. exact Hbig.
  - assert (HA : bind _check_if_lrp_none (fun _ => _check_active_box_size d) (s, P)
                 = (Ret tt, (s0, P))).
    { unfold bind. rewrite (check_if_lrp_none_spec _ _ Hl).
      apply check_active_box_size_none. exact Hab. }
    rewrite (Hsteps s0 HA eq_refl eq_refl eq_refl Hab C Hst ltac:(reflexivity)).
    rewrite Hstored. split; [intros H; split; [| exact H] | intros [_ H]; exact H].
    intros ab' Habs. discriminate Habs.
Qed.

End EngineInvariant.

(** ** The loop of the driver *)

Section DriverFacts.
Context {A G : Type} {AL : Algorithm A} {DG : DetailGenerator G}.
Import DetailPlacer.

Lemma loop_draw_raises (fuel : nat) (mp n : Z) (a : A) (g g' : G)
  (P : list Detail) (e : exn) :
  next g = (Raise e, g') ->
  loop (Datatypes.S fuel) mp n (a, g, P) = (Raise e, (a, g', P)).
Proof.
  intros Hd. simpl. unfold bind, draw, zoom. simpl. rewrite Hd. reflexivity.
Qed.

Lemma loop_breaks (fuel : nat) (mp n : Z) (a : A) (g g' : G)
  (P : list Detail) (d : R * R) :
  next g = (Ret d, g') -> (mp <= n)%Z ->
  loop (Datatypes.S fuel) mp n (a, g, P) = (Ret true, (a, g', P)).
Proof.
  intros Hd Hn. simpl. unfold bind, draw, zoom. simpl. rewrite Hd.
  destruct (Z.ltb_spec n mp); [lia | reflexivity].
Qed.

Lemma loop_place_raises (fuel : nat) (mp n : Z) (a a' : A) (g g' : G)
  (P P' : list Detail) (d : R * R) (e : exn) :
  next g = (Ret d, g') -> (n < mp)%Z ->
  place_next d (a, P) = (Raise e, (a', P')) ->
  loop (Datatypes.S fuel) mp n (a, g, P) = (Raise e, (a', g', P')).
Proof.
  intros Hd Hn Hp. simpl. unfold bind, draw, place, zoom. simpl. rewrite Hd.
  destruct (Z.ltb_spec n mp); [| lia]. simpl. rewrite Hp. reflexivity.
Qed.

Lemma loop_place_returns (fuel : nat) (mp n : Z) (a a' : A) (g g' : G)
  (P P' : list Detail) (d : R * R) :
  next g = (Ret d, g') -> (n < mp)%Z ->
  place_next d (a, P) = (Ret tt, (a', P')) ->
  loop (Datatypes.S fuel) mp n (a, g, P) = loop fuel mp (n + 1) (a', g', P').
Proof.
  intros Hd Hn Hp. simpl. unfold bind, draw, place, zoom. simpl. rewrite Hd.
  destruct (Z.ltb_spec n mp); [| lia]. simpl. rewrite Hp. reflexivity.
Qed.

(** The loop does not run out of fuel. *)
Lemma loop_fuel_suffices (fuel : nat) (mp n : Z) (w : world) :
  (Z.to_nat (mp - n) < fuel)%nat -> fst (loop fuel mp n w) <> Ret false.
Proof.
  revert n w. induction fuel as [| fuel IH]; intros n [[a g] P] Hf; [lia |].
  simpl. unfold bind, draw, place, zoom. simpl.
  destruct (next g) as [[d | e] g']; simpl; [| discriminate].
  destruct (Z.ltb_spec n mp) as [Hlt | Hge]; simpl; [| discriminate].
  destruct (place_next d (a, P)) as [[u | e] [a' P']]; simpl; [| discriminate].
  apply IH. lia.
Qed.

Lemma run_algorithm_returns (self : t A G) :
  fst (run_algorithm self) =
    Some (snd (snd (loop (Datatypes.S (Z.to_nat (max_placed self))) (max_placed self) 0
                      (algorithm self, detail_generator self, [base_detail self])))).
Proof.
  unfold run_algorithm.
  pose proof (@loop_fuel_suffices (Datatypes.S (Z.to_nat (max_placed self)))
                (max_placed self) 0
                (algorithm self, detail_generator self, [base_detail self])) as Hf.
  destruct (loop _ _ _ _) as [r [[a g] P]]. simpl in *.
  destruct r as [[|] | e]; try reflexivity.
  exfalso. apply Hf; [| reflexivity]. rewrite Z.sub_0_r. lia.
Qed.

End DriverFacts.

(** ** The error of the engine *)

Section EngineError.
Context {S : Type} {BS : BoxStorage S} {LS : LawfulStorage S}.
Import SlackPackAlgorithm.

(** C4 (amended).  Over a storage that keeps its boxes, on a world in order
    and for a detail of height at least 0, [place_next] raises "LRP is too
    small" exactly when no active box accepts the detail, no stored box is
    large enough for it, and the precondition of the cut fails on the LRP; it
    raises nothing else, and the list is then as it was before the call; a
    round of the driver's loop in which this happens ends the loop with that
    list, which is what [run_algorithm] returns.  The worlds in order are
    those of the engine's runs: the world made by the constructor for
    [n0 >= 1] over an empty storage is in order, and so is the world after a
    call that returns. *)
Theorem lrp_too_small_is_the_error (w : @world S) (d : R * R) :
  engine_inv w -> 0 <= snd d ->
  ((exists w', place_next d w = (Raise LRPTooSmall, w')) <->
   (no_active_box_accepts d w /\ no_stored_box_fits d w /\ lrp_too_small_for d w)) /\
  (forall e w', place_next d w = (Raise e, w') ->
                e = LRPTooSmall /\ snd w' = snd w) /\
  (forall (G : Type) (DG : DetailGenerator G) (g g' : G) (fuel : nat) (mp n : Z) w',
     next g = (Ret d, g') -> (n < mp)%Z ->
     place_next d w = (Raise LRPTooSmall, w') ->
     DetailPlacer.loop (Datatypes.S fuel) mp n (fst w, g, snd w)
       = (Raise LRPTooSmall, (fst w', g', snd w))) /\
  (forall (G : Type) (DG : DetailGenerator G) (p : DetailPlacer.t (t S) G),
     fst (DetailPlacer.run_algorithm p) =
       Some (snd (snd (DetailPlacer.loop
                         (Datatypes.S (Z.to_nat (DetailPlacer.max_placed p)))
                         (DetailPlacer.max_placed p) 0
                         (DetailPlacer.algorithm p, DetailPlacer.detail_generator p,
                          [DetailPlacer.base_detail p]))))) /\
  (forall w', place_next d w = (Ret tt, w') -> engine_inv w') /\
  (forall (gamma : R) (n0 max_placed : Z) (st : S) (flag : bool) (sheet : Detail),
     (1 <= n0)%Z -> stores st [] ->
     engine_inv (init gamma n0 max_placed st flag, [sheet])).
Proof.
  intros Hinv Hh.
  assert (Honly : forall e w', place_next d w = (Raise e, w') ->
                    e = LRPTooSmall /\ snd w' = snd w).
  { intros e w' He.
    destruct (@place_next_outcome _ _ _ w d Hinv Hh) as [(w2 & E & _) | (w2 & w1 & E & HP & _)];
      rewrite E in He; [discriminate |].
    injection He as <- <-. split; [reflexivity | exact HP]. }
  split; [| split; [exact Honly | split; [| split; [| split]]]].
  - rewrite <- (@cut_conditions _ _ _ w d Hinv Hh). split.
    + intros (w' & He).
      destruct (@place_next_outcome _ _ _ w d Hinv Hh) as [(w2 & E & _) | (w2 & w1 & E & _ & H1 & H2)];
        [rewrite E in He; discriminate |].
      exists w1. split; assumption.
    + intros (w1 & H1 & H2). exact (@place_next_too_small _ _ _ w w1 d Hinv H1 H2).
  - intros G DG g g' fuel mp n w' Hd Hn He.
    destruct (Honly _ _ He) as [_ HP]. destruct w as [s P], w' as [s' P'].
    simpl in *. subst P'.
    apply (@loop_place_raises _ _ SlackPack_Algorithm DG fuel mp n s s' g g' P P d LRPTooSmall Hd Hn He).
  - intros G DG p. apply run_algorithm_returns.
  - intros w' E.
    destruct (@place_next_outcome _ _ _ w d Hinv Hh) as [(w2 & E2 & Hinv2) | (w2 & w1 & E2 & _)];
      rewrite E2 in E; [| discriminate].
    injection E as <-. exact Hinv2.
  - intros gamma0 n1 mp st flag sheet Hn Hst. apply engine_inv_init; assumption.
Qed.

End EngineError.

(** C4, witness: the unit sheet is too small for a detail of side 1 under
    the gap [(1/1)^1 = 1]. *)
Lemma lrp_too_small_is_the_error_witness :
  ((exists w', SlackPackAlgorithm.place_next (1, 1) (fresh_engine, [unit_sheet])
               = (Raise LRPTooSmall, w')) <->
   (no_active_box_accepts (1, 1) (fresh_engine, [unit_sheet]) /\
    no_stored_box_fits (1, 1) (fresh_engine, [unit_sheet]) /\
    lrp_too_small_for (1, 1) (fresh_engine, [unit_sheet]))) /\
  (forall e w', SlackPackAlgorithm.place_next (1, 1) (fresh_engine, [unit_sheet])
                = (Raise e, w') ->
                e = LRPTooSmall /\ snd w' = snd (fresh_engine, [unit_sheet])) /\
  (forall (G : Type) (DG : DetailGenerator G) (g g' : G) (fuel : nat) (mp n : Z) w',
     next g = (Ret (1, 1), g') -> (n < mp)%Z ->
     SlackPackAlgorithm.place_next (1, 1) (fresh_engine, [unit_sheet])
       = (Raise LRPTooSmall, w') ->
     DetailPlacer.loop (Datatypes.S fuel) mp n
       (fst (fresh_engine, [unit_sheet]), g, snd (fresh_engine, [unit_sheet]))
       = (Raise LRPTooSmall, (fst w', g', snd (fresh_engine, [unit_sheet])))) /\
  (forall (G : Type) (DG : DetailGenerator G)
          (p : DetailPlacer.t (SlackPackAlgorithm.t InMemoryBoxStorage.t) G),
     fst (DetailPlacer.run_algorithm p) =
       Some (snd (snd (DetailPlacer.loop
                         (Datatypes.S (Z.to_nat (DetailPlacer.max_placed p)))
                         (DetailPlacer.max_placed p) 0
                         (DetailPlacer.algorithm p, DetailPlacer.detail_generator p,
                          [DetailPlacer.base_detail p]))))) /\
  (forall w', SlackPackAlgorithm.place_next (1, 1) (fresh_engine, [unit_sheet])
              = (Ret tt, w') -> engine_inv w') /\
  (forall (gamma : R) (n0 max_placed : Z) (st : InMemoryBoxStorage.t) (flag : bool)
          (sheet : Detail),
     (1 <= n0)%Z -> stores st [] ->
     engine_inv (SlackPackAlgorithm.init gamma n0 max_placed st flag, [sheet])).
Proof.
  apply (@lrp_too_small_is_the_error _ _ InMemory_Lawful
           (fresh_engine, [unit_sheet]) (1, 1)).
  - apply engine_inv_init; [lia |]. split; [reflexivity | constructor].
  - simpl. lra.
Defined.


(** ** The driver *)

Section CountedDriver.
Context {A G : Type} {AL : Algorithm A} {DG : DetailGenerator G}.
Import DetailPlacer.

(** The loop over the counted algorithm does what the loop does, and its
    counter advances by at most the number of rounds left to place. *)
Lemma loop_counted (fuel : nat) (mp n c : Z) (a : A) (g : G) (P : list Detail) :
  exists r a' c' g' P',
    loop (AL := Counted_Algorithm) fuel mp n ((a, c), g, P) = (r, ((a', c'), g', P')) /\
    loop fuel mp n (a, g, P) = (r, (a', g', P')) /\
    (c <= c' <= c + Z.max 0 (mp - n))%Z.
Proof.
  revert n c a g P. induction fuel as [| fuel IH]; intros n c a g P.
  - exists (Ret false), a, c, g, P. simpl. unfold ret. repeat split; lia.
  - simpl. unfold bind, draw, place, zoom. simpl.
    destruct (next g) as [[d | e] g']; simpl.
    + destruct (Z.ltb_spec n mp) as [Hlt | Hge]; simpl.
      * destruct (place_next d (a, P)) as [[u | e] [a' P']] eqn:Hp; simpl.
        -- destruct (IH (n + 1)%Z (c + 1)%Z a' g' P')
             as (r & a2 & c2 & g2 & P2 & E1 & E2 & Hc).
           exists r, a2, c2, g2, P2. unfold bind, draw, place, zoom in *.
           rewrite E1, E2. repeat split; lia.
        -- exists (Raise e), a', (c + 1)%Z, g', P'. repeat split; lia.
      * exists (Ret true), a, c, g', P. unfold ret. repeat split; lia.
    + exists (Raise e), a, c, g', P. repeat split; lia.
Qed.

End CountedDriver.

Section FirstCall.
Context {S : Type} {BS : BoxStorage S} {LS : LawfulStorage S}.
Import SlackPackAlgorithm.

(** The first call on a sheet that is large enough: one stripe is cut and
    the detail is placed into it. *)
Lemma first_call_places (gamma : R) (n0 mp : Z) (st : S) (sheet : Detail) (d : R * R) :
  (1 <= n0)%Z -> stores st [] -> 0 <= snd d ->
  let g := gap gamma n0 in
  snd d + g <= Rmax (width sheet) (height sheet) ->
  fst d + g <= Rmin (width sheet) (height sheet) ->
  let hz := Rleb (width sheet) (height sheet) in
  let stripe := stripe_of sheet d g 1 in
  exists s' tyB tyE,
    place_next d (init gamma n0 mp st true, [sheet]) =
      (Ret tt,
       (s', [rest_of_lrp sheet d g;
             placed_detail_of hz stripe d n0;
             normal_box_of hz stripe d n0 tyB;
             endpoint_of hz stripe d 1 tyE])).
Proof.
  intros Hn Hst Hh g Hmax Hmin hz stripe.
  set (s0 := init gamma n0 mp st true).
  rewrite place_next_unfold. unfold bind at 1. unfold bind at 1.
  rewrite (@check_if_lrp_none_spec _ s0 [sheet] sheet eq_refl).
  rewrite check_active_box_size_none by reflexivity.
  unfold bind.
  destruct (get_max_box_lawful _ _ Hst) as (o & Hget & Ho).
  destruct o as [b |]; [destruct Ho as [[] _] |].
  assert (Hg : 0 < g) by apply gap_pos.
  assert (Hk : (n0 - 1 + 1)%Z = n0) by lia.
  set (sA := set_lrp (Some sheet) s0).
  pose proof (@choose_active_box_cut _ _ sA [sheet] d None sheet eq_refl) as Hcut.
  simpl in Hcut. rewrite Hk in Hcut. fold g in Hcut.
  specialize (Hcut ltac:(lia) Hget ltac:(lra) eq_refl).
  unfold Rgtb in Hcut.
  rewrite (proj2 (Rltb_false _ _)) in Hcut by exact Hmax.
  rewrite (proj2 (Rltb_false _ _)) in Hcut by exact Hmin.
  simpl in Hcut. destruct (Detail_eq_dec sheet sheet) as [_ | Hne]; [| contradiction].
  simpl in Hcut. rewrite Hcut. clear Hcut.
  match goal with |- context [_place_detail_in_active_box d (?s3, ?P3)] =>
    rewrite (@place_detail_in_active_box_eq _ _ s3 P3 d stripe eq_refl)
  end.
  simpl. rewrite Hk.
  destruct (Detail_eq_dec stripe (stripe_of sheet d g 1))
    as [_ | Hne]; [| contradiction].
  fold hz.
  match goal with |- context [add_box ?B st] =>
    destruct (add_box_lawful _ _ B Hst) as (st' & Eadd & _); rewrite Eadd
  end.
  eexists. eexists. eexists. reflexivity.
Qed.

End FirstCall.

Section DriverRuns.
Context {A G : Type} {AL : Algorithm A} {DG : DetailGenerator G}.
Import DetailPlacer.

Lemma run_algorithm_zero (p : t A G) :
  (max_placed p <= 0)%Z -> fst (run_algorithm p) = Some [base_detail p].
Proof.
  intros Hmp. rewrite run_algorithm_returns.
  set (fuel := Z.to_nat (max_placed p)).
  destruct (next (detail_generator p)) as [[d | e] g'] eqn:Hd.
  - rewrite (@loop_breaks _ _ AL DG fuel (max_placed p) 0 (algorithm p) _ g'
               [base_detail p] d Hd Hmp). reflexivity.
  - rewrite (@loop_draw_raises _ _ AL DG fuel (max_placed p) 0 (algorithm p) _ g'
               [base_detail p] e Hd).
    reflexivity.
Qed.

Lemma run_algorithm_counted (p : t A G) :
  exists P c a g,
    run_algorithm (AL := Counted_Algorithm)
      (mk (algorithm p, 0%Z) (detail_generator p) (base_detail p) (max_placed p))
      = (Some P, mk (a, c) g (base_detail p) (max_placed p)) /\
    fst (run_algorithm p) = Some P /\
    (0 <= c <= Z.max 0 (max_placed p))%Z.
Proof.
  pose proof (run_algorithm_returns p) as Hret.
  pose proof (@loop_fuel_suffices A G AL DG
                (Datatypes.S (Z.to_nat (max_placed p))) (max_placed p) 0
                (algorithm p, detail_generator p, [base_detail p])) as Hfuel.
  unfold run_algorithm. cbn [algorithm detail_generator base_detail max_placed].
  destruct (loop_counted (Datatypes.S (Z.to_nat (max_placed p))) (max_placed p) 0 0
              (algorithm p) (detail_generator p) [base_detail p])
    as (r & a' & c' & g' & P' & E1 & E2 & Hc).
  rewrite E1. rewrite E2 in Hret, Hfuel. simpl in Hret, Hfuel.
  exists P', c', a', g'.
  split; [| split; [exact Hret | rewrite Z.sub_0_r in Hc; lia]].
  destruct r as [[|] | e]; try reflexivity.
  exfalso. apply Hfuel; [rewrite Z.sub_0_r; lia | reflexivity].
Qed.

End DriverRuns.

Section OneRound.
Context {S G : Type} {BS : BoxStorage S} {LS : LawfulStorage S} {DG : DetailGenerator G}.
Import SlackPackAlgorithm.

(** One detail on a sheet that is large enough: the list returned holds what
    is left of the LRP and the three pieces of the stripe. *)
Lemma run_algorithm_one (gamma : R) (n0 mp : Z) (st : S) (sheet : Detail)
  (g g' : G) (d : R * R) :
  (1 <= n0)%Z -> stores st [] -> next g = (Ret d, g') -> 0 <= snd d ->
  let gp := gap gamma n0 in
  snd d + gp <= Rmax (width sheet) (height sheet) ->
  fst d + gp <= Rmin (width sheet) (height sheet) ->
  let hz := Rleb (width sheet) (height sheet) in
  let stripe := stripe_of sheet d gp 1 in
  exists tyB tyE,
    fst (DetailPlacer.run_algorithm
           (DetailPlacer.mk (init gamma n0 mp st true) g sheet 1)) =
      Some [rest_of_lrp sheet d gp;
            placed_detail_of hz stripe d n0;
            normal_box_of hz stripe d n0 tyB;
            endpoint_of hz stripe d 1 tyE].
Proof.
  intros Hn Hst Hd Hh gp Hmax Hmin hz stripe.
  destruct (@first_call_places _ _ _ gamma n0 mp st sheet d Hn Hst Hh Hmax Hmin)
    as (s' & tyB & tyE & Hcall).
  exists tyB, tyE. rewrite run_algorithm_returns. simpl DetailPlacer.max_placed.
  simpl DetailPlacer.algorithm. simpl DetailPlacer.detail_generator.
  simpl DetailPlacer.base_detail.
  change (Z.to_nat 1) with 1%nat.
  rewrite (@loop_place_returns _ _ SlackPack_Algorithm DG 1 1 0 _ s' g g'
             [sheet] _ d Hd ltac:(lia) Hcall).
  destruct (next g') as [[d2 | e] g2] eqn:Hd2.
  - rewrite (@loop_breaks _ _ SlackPack_Algorithm DG 0 1 (0 + 1) s' g' g2 _ d2 Hd2
               ltac:(lia)).
    reflexivity.
  - rewrite (@loop_draw_raises _ _ SlackPack_Algorithm DG 0 1 (0 + 1) s' g' g2 _ e Hd2).
    reflexivity.
Qed.

End OneRound.

(** C6 (as the code has it).  [run_algorithm] starts from the list
    [[sheet]] and always returns a list; it calls [place_next] at most
    [max_placed] times; when a call raises, the loop ends and the list as the
    call left it is returned; with [max_placed <= 0] the result is [[sheet]];
    with [max_placed = 1], an empty storage and a sheet that the first detail
    fits with its gap, the result holds what is left of the LRP after one
    stripe cut and the three pieces around the one placed detail.  (The sheet
    itself leaves the list with the first stripe cut.) *)
Theorem run_algorithm_driver :
  (forall (A G : Type) (AL : Algorithm A) (DG : DetailGenerator G)
          (p : DetailPlacer.t A G),
     fst (DetailPlacer.run_algorithm p) =
       Some (snd (snd (DetailPlacer.loop
                         (Datatypes.S (Z.to_nat (DetailPlacer.max_placed p)))
                         (DetailPlacer.max_placed p) 0
                         (DetailPlacer.algorithm p, DetailPlacer.detail_generator p,
                          [DetailPlacer.base_detail p]))))) /\
  (forall (A G : Type) (AL : Algorithm A) (DG : DetailGenerator G)
          (p : DetailPlacer.t A G),
     exists P c a g,
       DetailPlacer.run_algorithm (AL := Counted_Algorithm)
         (DetailPlacer.mk (DetailPlacer.algorithm p, 0%Z)
            (DetailPlacer.detail_generator p) (DetailPlacer.base_detail p)
            (DetailPlacer.max_placed p))
         = (Some P, DetailPlacer.mk (a, c) g (DetailPlacer.base_detail p)
                      (DetailPlacer.max_placed p)) /\
       fst (DetailPlacer.run_algorithm p) = Some P /\
       (0 <= c <= Z.max 0 (DetailPlacer.max_placed p))%Z) /\
  (forall (A G : Type) (AL : Algorithm A) (DG : DetailGenerator G)
          (fuel : nat) (mp n : Z) (a a' : A) (g g' : G) (P P' : list Detail)
          (d : R * R) (e : exn),
     next g = (Ret d, g') -> (n < mp)%Z ->
     place_next d (a, P) = (Raise e, (a', P')) ->
     DetailPlacer.loop (Datatypes.S fuel) mp n (a, g, P) = (Raise e, (a', g', P'))) /\
  (forall (A G : Type) (AL : Algorithm A) (DG : DetailGenerator G)
          (p : DetailPlacer.t A G),
     (DetailPlacer.max_placed p <= 0)%Z ->
     fst (DetailPlacer.run_algorithm p) = Some [DetailPlacer.base_detail p]) /\
  (forall (S G : Type) (BS : BoxStorage S) (LS : LawfulStorage S)
          (DG : DetailGenerator G) (gamma : R) (n0 mp : Z) (st : S)
          (sheet : Detail) (g g' : G) (d : R * R),
     (1 <= n0)%Z -> stores st [] -> next g = (Ret d, g') -> 0 <= snd d ->
     let gp := gap gamma n0 in
     snd d + gp <= Rmax (width sheet) (height sheet) ->
     fst d + gp <= Rmin (width sheet) (height sheet) ->
     let hz := Rleb (width sheet) (height sheet) in
     let stripe := stripe_of sheet d gp 1 in
     exists tyB tyE,
       fst (DetailPlacer.run_algorithm
              (DetailPlacer.mk (SlackPackAlgorithm.init gamma n0 mp st true) g sheet 1)) =
         Some [rest_of_lrp sheet d gp;
               placed_detail_of hz stripe d n0;
               normal_box_of hz stripe d n0 tyB;
               endpoint_of hz stripe d 1 tyE]).
Proof.
  split; [| split; [| split; [| split]]].
  - intros. apply run_algorithm_returns.
  - intros. apply run_algorithm_counted.
  - intros A G AL DG fuel mp n a a' g g' P P' d e. apply loop_place_raises.
  - intros. apply run_algorithm_zero. assumption.
  - intros S G BS LS DG gamma n0 mp st sheet g g' d. apply run_algorithm_one.
Qed.

Lemma harmonic_square_first :
  next (HarmonicSquareDetailGenerator.init 1)
    = (Ret (1, 1), HarmonicSquareDetailGenerator.mk 1 2).
Proof.
  simpl. unfold HarmonicSquareDetailGenerator.next, inv. unfold_m.
  replace (1 / 1) with 1 by lra. reflexivity.
Qed.

Lemma gap_one (g : R) : gap g 1 = 1.
Proof. unfold gap. replace (1 / 1) with 1 by lra. apply Rpower_one_l. Qed.

Lemma wide_sheet_sides : width wide_sheet = 3 /\ height wide_sheet = 3.
Proof. unfold width, height. simpl. split; lra. Qed.

(** C6, counterexample: after one harmonic square on the sheet of side 3
    the list no longer starts with the sheet. *)
Lemma first_element_is_sheet_counterexample :
  ~ (forall p : DetailPlacer.t (SlackPackAlgorithm.t InMemoryBoxStorage.t)
                               HarmonicSquareDetailGenerator.t,
       exists P, fst (DetailPlacer.run_algorithm p) = Some P /\
                 hd_error P = Some (DetailPlacer.base_detail p)).
Proof.
  intros Hclaim. destruct (Hclaim one_square_placer) as (P & HP & Hhd).
  destruct wide_sheet_sides as [Hw Hh].
  destruct (@run_algorithm_one _ _ _ InMemory_Lawful _ 1 1 1 InMemoryBoxStorage.init
              wide_sheet _ _ (1, 1) ltac:(lia)
              (conj (Permutation_refl _) (SSorted_nil _))
              harmonic_square_first ltac:(simpl; lra))
    as (tyB & tyE & Hrun).
  - rewrite gap_one, Hw, Hh. simpl. unfold Rmax. destruct (Rle_dec 3 3); lra.
  - rewrite gap_one, Hw, Hh. simpl. unfold Rmin. destruct (Rle_dec 3 3); lra.
  - unfold one_square_placer, fresh_engine in HP. rewrite Hrun in HP.
    injection HP as <-. simpl in Hhd. injection Hhd as Hhd.
    unfold rest_of_lrp in Hhd. rewrite Hw, Hh, gap_one in Hhd.
    rewrite (proj2 (Rleb_true 3 3)) in Hhd by lra.
    unfold wide_sheet in Hhd. simpl in Hhd.
    injection Hhd as Hy. lra.
Qed.

(** C6, witness: one harmonic square, [n0 = 1], [gamma = 1], on the sheet of
    side 3. *)
Lemma run_algorithm_driver_witness :
  let gp := gap 1 1 in
  let hz := Rleb (width wide_sheet) (height wide_sheet) in
  let stripe := stripe_of wide_sheet (1, 1) gp 1 in
  exists tyB tyE,
    fst (DetailPlacer.run_algorithm one_square_placer) =
      Some [rest_of_lrp wide_sheet (1, 1) gp;
            placed_detail_of hz stripe (1, 1) 1;
            normal_box_of hz stripe (1, 1) 1 tyB;
            endpoint_of hz stripe (1, 1) 1 tyE].
Proof.
  destruct run_algorithm_driver as (_ & _ & _ & _ & Hone).
  destruct wide_sheet_sides as [Hw Hh].
  apply (Hone _ _ _ InMemory_Lawful _ 1 1%Z 1%Z InMemoryBoxStorage.init
           wide_sheet (HarmonicSquareDetailGenerator.init 1)
           (HarmonicSquareDetailGenerator.mk 1 2) (1, 1)).
  - lia.
  - split; [reflexivity | constructor].
  - exact harmonic_square_first.
  - simpl. lra.
  - rewrite gap_one, Hw, Hh. simpl. unfold Rmax. destruct (Rle_dec 3 3); lra.
  - rewrite gap_one, Hw, Hh. simpl. unfold Rmin. destruct (Rle_dec 3 3); lra.
Defined.

(** ** The ranges of the partitioned storage *)

Lemma append_ranges_spec (n0 : Z) (gamma : R) (B P : Z) (indices : list Z)
  (acc : list (R * R)) :
  (1 <= n0)%Z -> (1 <= B)%Z -> Forall (fun i => (0 <= i)%Z) indices ->
  HybridPartitionedBoxStorage.append_ranges n0 gamma B P indices acc =
    (Ret tt, acc ++ map (expected_range n0 gamma B P) indices).
Proof.
  intros Hn HB. revert acc. induction indices as [| i rest IH]; intros acc Hall.
  - simpl. unfold ret. rewrite app_nil_r. reflexivity.
  - inversion Hall as [| ? ? Hi Hrest]; subst.
    simpl. unfold bind, of_outcome, modify.
    unfold HybridPartitionedBoxStorage.partition_range, inv_pow.
    destruct (Z.eqb_spec (n0 + (i + 1) * B) 0) as [E | _]; [nia |].
    destruct (Z.eqb_spec (n0 + i * B) 0) as [E | _]; [nia |].
    rewrite (IH _ Hrest). rewrite <- app_assoc. reflexivity.
Qed.

Lemma range_nth (a b i : Z) :
  (0 <= i < b - a)%Z -> nth_error (range a b) (Z.to_nat i) = Some (a + i)%Z.
Proof.
  intros Hi. unfold range. rewrite nth_error_map.
  rewrite nth_error_seq.
  destruct (Nat.ltb_spec (Z.to_nat i) (Z.to_nat (b - a))) as [_ | Hge]; [| lia].
  simpl. f_equal. lia.
Qed.

Lemma range_nonneg (b : Z) : Forall (fun i => (0 <= i)%Z) (range 0 b).
Proof.
  unfold range. apply Forall_forall. intros x Hx.
  apply in_map_iff in Hx. destruct Hx as (k & <- & _). lia.
Qed.

Lemma range_length (a b : Z) : List.length (range a b) = Z.to_nat (b - a).
Proof. unfold range. rewrite length_map, length_seq. reflexivity. Qed.

(** C7 (as the code has it).  For [n0 >= 1], [max_placed >= 0] and
    [B >= 1] the storage creates [P = max_placed // B + 1] partition ranges,
    one more than the ceiling of [max_placed / B] when [B] divides
    [max_placed] and the ceiling itself otherwise; range [i] is
    [[(1/(n0+(i+1)B))^gamma, (1/(n0+iB))^gamma)], with the upper bound of
    range 0 raised to 1 and the lower bound of range [P-1] lowered to 0. *)
Theorem create_partition_ranges_spec (n0 : Z) (gamma : R) (max_placed B : Z) :
  (1 <= n0)%Z -> (0 <= max_placed)%Z -> (1 <= B)%Z ->
  let P := (max_placed / B + 1)%Z in
  exists ranges,
    HybridPartitionedBoxStorage._create_partition_ranges n0 gamma max_placed B []
      = (Ret tt, ranges) /\
    Z.of_nat (List.length ranges) = P /\
    P = (ceil_div max_placed B + (if (max_placed mod B =? 0)%Z then 1 else 0))%Z /\
    forall i, (0 <= i < P)%Z ->
      nth_error ranges (Z.to_nat i) = Some (expected_range n0 gamma B P i).
Proof.
  intros Hn Hm HB P.
  assert (HP : (1 <= P)%Z).
  { subst P. pose proof (Z.div_pos max_placed B Hm ltac:(lia)). lia. }
  exists (map (expected_range n0 gamma B P) (range 0 P)).
  split; [| split; [| split]].
  - unfold HybridPartitionedBoxStorage._create_partition_ranges.
    destruct (Z.eqb_spec B 0) as [E | _]; [lia |]. fold P.
    rewrite (append_ranges_spec gamma P [] Hn HB (range_nonneg P)). reflexivity.
  - rewrite length_map, range_length. lia.
  - subst P. unfold ceil_div.
    pose proof (Z.div_mod max_placed B ltac:(lia)) as Hdm.
    pose proof (Z.mod_pos_bound max_placed B ltac:(lia)) as Hmod.
    set (q := (max_placed / B)%Z) in *. set (r := (max_placed mod B)%Z) in *.
    destruct (Z.eqb_spec r 0) as [E | E].
    + assert (Hq : ((max_placed + B - 1) / B = q)%Z).
      { symmetry. apply (Z.div_unique _ _ q (B - 1)); nia. }
      rewrite Hq. lia.
    + assert (Hq : ((max_placed + B - 1) / B = q + 1)%Z).
      { symmetry. apply (Z.div_unique _ _ (q + 1) (r - 1)); nia. }
      rewrite Hq. lia.
  - intros i Hi. rewrite nth_error_map, range_nth by lia. simpl. reflexivity.
Qed.

(** C7, witness: [n0 = 1], [gamma = 1], [max_placed = 3], [B = 2]. *)
Lemma create_partition_ranges_spec_witness :
  let P := (3 / 2 + 1)%Z in
  exists ranges,
    HybridPartitionedBoxStorage._create_partition_ranges 1 1 3 2 []
      = (Ret tt, ranges) /\
    Z.of_nat (List.length ranges) = P /\
    P = (ceil_div 3 2 + (if (3 mod 2 =? 0)%Z then 1 else 0))%Z /\
    forall i, (0 <= i < P)%Z ->
      nth_error ranges (Z.to_nat i) = Some (expected_range 1 1 2 P i).
Proof.
  apply (@create_partition_ranges_spec 1 1 3 2); lia.
Defined.

(** C7, counterexample: with [max_placed = 1] and [B = 1] there are two
    ranges, not the ceiling of 1/1. *)
Lemma partition_count_counterexample :
  ~ (forall (n0 : Z) (gamma : R) (max_placed B : Z),
       (1 <= n0)%Z -> 0 < gamma -> (1 <= max_placed)%Z -> (1 <= B)%Z ->
       exists ranges,
         HybridPartitionedBoxStorage._create_partition_ranges n0 gamma max_placed B []
           = (Ret tt, ranges) /\
         Z.of_nat (List.length ranges) = ceil_div max_placed B).
Proof.
  intros Hclaim.
  destruct (Hclaim 1%Z 1 1%Z 1%Z ltac:(lia) ltac:(lra) ltac:(lia) ltac:(lia))
    as (ranges & Hrun & Hlen).
  assert (Hrun' : HybridPartitionedBoxStorage._create_partition_ranges 1 1 1 1 []
                  = (Ret tt, [] ++ map (expected_range 1 1 1 2) (range 0 2))).
  { unfold HybridPartitionedBoxStorage._create_partition_ranges.
    change (1 =? 0)%Z with false. cbv iota.
    change (1 / 1 + 1)%Z with 2%Z.
    apply append_ranges_spec; [lia | lia | apply range_nonneg]. }
  rewrite Hrun' in Hrun.
  injection Hrun as <-.
  unfold ceil_div, range in Hlen. simpl in Hlen. discriminate Hlen.
Qed.

(** ** The partial sums of the inverse squares stay below [PI^2 / 6] *)

Lemma sum_upto_ext (f g : nat -> R) (n : nat) :
  (forall k, (k < n)%nat -> f k = g k) -> sum_upto f n = sum_upto g n.
Proof.
  induction n as [| n IH]; intros Hfg; simpl; [reflexivity |].
  rewrite IH, Hfg by (intros; try apply Hfg; lia). reflexivity.
Qed.

Lemma sum_upto_le (f g : nat -> R) (n : nat) :
  (forall k, (k < n)%nat -> f k <= g k) -> sum_upto f n <= sum_upto g n.
Proof.
  induction n as [| n IH]; intros Hfg; simpl; [lra |].
  specialize (IH ltac:(intros; apply Hfg; lia)).
  specialize (Hfg n ltac:(lia)). lra.
Qed.

Lemma sum_upto_plus (f g : nat -> R) (n : nat) :
  sum_upto (fun k => f k + g k) n = sum_upto f n + sum_upto g n.
Proof. induction n as [| n IH]; simpl; [lra | rewrite IH; lra]. Qed.

Lemma sum_upto_scal (c : R) (f : nat -> R) (n : nat) :
  sum_upto (fun k => c * f k) n = c * sum_upto f n.
Proof. induction n as [| n IH]; simpl; [lra | rewrite IH; lra]. Qed.

Lemma sum_upto_split (f : nat -> R) (n m : nat) :
  sum_upto f (n + m) = sum_upto f n + sum_upto (fun k => f (n + k)%nat) m.
Proof.
  induction m as [| m IH]; simpl.
  - rewrite Nat.add_0_r. lra.
  - rewrite Nat.add_succ_r. simpl. rewrite IH. lra.
Qed.

Lemma sum_upto_rev (f : nat -> R) (n : nat) :
  sum_upto (fun k => f (n - 1 - k)%nat) n = sum_upto f n.
Proof.
  revert f. induction n as [| n IH]; intros f; simpl; [reflexivity |].
  replace (n - 0 - n)%nat with 0%nat by lia.
  rewrite (sum_upto_ext (fun k => f (n - 0 - k)%nat)
             (fun k => (fun j => f (Datatypes.S j)) (n - 1 - k)%nat))
    by (intros k Hk; f_equal; lia).
  rewrite (IH (fun j => f (Datatypes.S j))).
  clear IH. induction n as [| n IH]; simpl; [lra |].
  simpl in IH. lra.
Qed.

Lemma sum_upto_nonneg (f : nat -> R) (n : nat) :
  (forall k, 0 <= f k) -> 0 <= sum_upto f n.
Proof.
  intros Hf. induction n as [| n IH]; simpl; [lra |]. specialize (Hf n). lra.
Qed.

Lemma sum_upto_mono (f : nat -> R) (n m : nat) :
  (forall k, 0 <= f k) -> (n <= m)%nat -> sum_upto f n <= sum_upto f m.
Proof.
  intros Hf Hnm. replace m with (n + (m - n))%nat by lia.
  rewrite sum_upto_split.
  pose proof (sum_upto_nonneg (fun k => f (n + k)%nat) (m - n) ltac:(intros; apply Hf)).
  lra.
Qed.

Lemma csc2_half (x : R) :
  0 < x < PI -> csc2 x = (csc2 (x / 2) + csc2 (PI / 2 - x / 2)) / 4.
Proof.
  intros [H0 H1]. unfold csc2. rewrite sin_shift.
  assert (Hs : 0 < sin (x / 2)) by (apply sin_gt_0; lra).
  assert (Hc : 0 < cos (x / 2)) by (apply cos_gt_0; lra).
  replace x with (2 * (x / 2)) at 1 by lra. rewrite sin_2a.
  pose proof (sin2_cos2 (x / 2)) as H. unfold Rsqr in H.
  set (s := sin (x / 2)) in *. set (c := cos (x / 2)) in *.
  replace (1 / s ^ 2 + 1 / c ^ 2) with ((s * s + c * c) / (s ^ 2 * c ^ 2))
    by (field; split; lra).
  rewrite H. field. split; lra.
Qed.

Lemma csc2_lower (x : R) : 0 < x < PI -> 1 / x ^ 2 <= csc2 x.
Proof.
  intros [H0 H1]. unfold csc2.
  assert (Hs : 0 < sin x) by (apply sin_gt_0; lra).
  pose proof (sin_lt_x x H0) as Hlt.
  assert (Hsq : (sin x) ^ 2 <= x ^ 2) by nra.
  assert (Hsp : 0 < (sin x) ^ 2) by nra.
  unfold Rdiv. rewrite !Rmult_1_l.
  apply Rinv_le_contravar; assumption.
Qed.

Lemma dyadic_point_bounds (n k : nat) :
  (k < 2 ^ n)%nat -> 0 < dyadic_point n k < PI / 2.
Proof.
  intros Hk. unfold dyadic_point.
  assert (Hp : 0 < 2 ^ (n + 2)) by (apply pow_lt; lra).
  pose proof PI_RGT_0 as Hpi.
  assert (Hi : 0 < INR (2 * k + 1)) by (apply lt_0_INR; lia).
  assert (Hlt : INR (2 * k + 1) < 2 ^ (n + 1)).
  { replace (2 ^ (n + 1)) with (INR (2 ^ (n + 1))) by (rewrite pow_INR; reflexivity).
    apply lt_INR.
    replace (2 ^ (n + 1))%nat with (2 * 2 ^ n)%nat
      by (rewrite Nat.pow_add_r; simpl; lia).
    lia. }
  split.
  - apply Rdiv_lt_0_compat; [nra | exact Hp].
  - replace (2 ^ (n + 2)) with (2 * 2 ^ (n + 1))
      by (replace (n + 2)%nat with (Datatypes.S (n + 1)) by lia; reflexivity).
    assert (Hq : 0 < 2 ^ (n + 1)) by (apply pow_lt; lra).
    apply (Rmult_lt_reg_r (2 * 2 ^ (n + 1))); [lra |].
    unfold Rdiv. rewrite Rmult_assoc, Rinv_l by lra. nra.
Qed.

Lemma dyadic_point_half (n k : nat) :
  dyadic_point n k / 2 = dyadic_point (n + 1) k.
Proof.
  unfold dyadic_point.
  replace (n + 1 + 2)%nat with (Datatypes.S (n + 2)) by lia. simpl pow.
  assert (Hp : 0 < 2 ^ (n + 2)) by (apply pow_lt; lra).
  field. lra.
Qed.

Lemma dyadic_point_mirror (n k : nat) :
  (k < 2 ^ n)%nat ->
  PI / 2 - dyadic_point n k / 2
    = dyadic_point (n + 1) (2 ^ n + (2 ^ n - 1 - k)).
Proof.
  intros Hk. rewrite dyadic_point_half. unfold dyadic_point.
  assert (Hp : 0 < 2 ^ (n + 1 + 2)) by (apply pow_lt; lra).
  assert (E : INR (2 * (2 ^ n + (2 ^ n - 1 - k)) + 1) + INR (2 * k + 1)
              = 2 ^ (n + 2)).
  { rewrite <- plus_INR.
    replace (2 * (2 ^ n + (2 ^ n - 1 - k)) + 1 + (2 * k + 1))%nat
      with (2 ^ (n + 2))%nat.
    - rewrite pow_INR. reflexivity.
    - rewrite Nat.pow_add_r. simpl. lia. }
  replace (2 ^ (n + 1 + 2)) with (2 * 2 ^ (n + 2)) in *
    by (replace (n + 1 + 2)%nat with (Datatypes.S (n + 2)) by lia; reflexivity).
  apply (Rmult_eq_reg_r (2 * 2 ^ (n + 2))); [| lra].
  field_simplify; [| lra | lra]. nra.
Qed.

Lemma csc2_sum_step (n : nat) : csc2_sum (n + 1) = 4 * csc2_sum n.
Proof.
  unfold csc2_sum.
  replace (2 ^ (n + 1))%nat with (2 ^ n + 2 ^ n)%nat
    by (rewrite Nat.pow_add_r; simpl; lia).
  rewrite sum_upto_split.
  rewrite <- (sum_upto_rev (fun k => csc2 (dyadic_point (n + 1) (2 ^ n + k))) (2 ^ n)).
  rewrite <- sum_upto_plus, <- sum_upto_scal.
  apply sum_upto_ext. intros k Hk.
  pose proof (@dyadic_point_bounds n k Hk) as Hb.
  rewrite (@csc2_half (dyadic_point n k)) by (pose proof PI_RGT_0; lra).
  rewrite (@dyadic_point_mirror n k Hk), dyadic_point_half. lra.
Qed.

Lemma csc2_sum_value (n : nat) : csc2_sum n = 2 * 4 ^ n.
Proof.
  induction n as [| n IH].
  - assert (E : dyadic_point 0 0 = PI / 4) by (unfold dyadic_point; simpl; lra).
    unfold csc2_sum. simpl sum_upto. rewrite E. unfold csc2. rewrite sin_PI4.
    assert (H2 : 0 < sqrt 2) by (apply sqrt_lt_R0; lra).
    assert (Hs : sqrt 2 * sqrt 2 = 2) by (apply sqrt_sqrt; lra).
    replace ((1 / sqrt 2) ^ 2) with (1 / (sqrt 2 * sqrt 2)) by (field; lra).
    rewrite Hs. simpl. lra.
  - replace (Datatypes.S n) with (n + 1)%nat by lia.
    rewrite csc2_sum_step, IH, pow_add. simpl. lra.
Qed.

Lemma pow_4_2 (n : nat) : 4 ^ n = 2 ^ n * 2 ^ n.
Proof. induction n as [| n IH]; simpl; [lra | rewrite IH; lra]. Qed.

Lemma inv_sq_nonneg (i : nat) : 0 <= inv_sq i.
Proof. unfold inv_sq. apply pow2_ge_0. Qed.

Lemma odd_inv_sq_sum_dyadic (n : nat) : odd_inv_sq_sum (2 ^ n) <= PI ^ 2 / 8.
Proof.
  pose proof PI_RGT_0 as Hpi.
  assert (Hq : 0 < 2 ^ n) by (apply pow_lt; lra).
  assert (Hle : sum_upto (fun k => (16 * 4 ^ n / PI ^ 2) * inv_sq (2 * k + 1)) (2 ^ n)
                <= csc2_sum n).
  { unfold csc2_sum. apply sum_upto_le. intros k Hk.
    pose proof (@dyadic_point_bounds n k Hk) as Hb.
    eapply Rle_trans; [| apply csc2_lower; lra].
    unfold dyadic_point, inv_sq.
    assert (Hi : 0 < INR (2 * k + 1)) by (apply lt_0_INR; lia).
    replace (2 ^ (n + 2)) with (4 * 2 ^ n) by (rewrite pow_add; simpl; lra).
    rewrite pow_4_2. apply Req_le. field. repeat split; lra. }
  rewrite sum_upto_scal, csc2_sum_value, pow_4_2 in Hle.
  fold (odd_inv_sq_sum (2 ^ n)) in Hle.
  set (O := odd_inv_sq_sum (2 ^ n)) in *. set (q := 2 ^ n) in *.
  assert (Hpq : 0 < 16 * (q * q) / PI ^ 2).
  { apply Rdiv_lt_0_compat; nra. }
  apply (Rmult_le_reg_l (16 * (q * q) / PI ^ 2)); [exact Hpq |].
  eapply Rle_trans; [exact Hle |]. apply Req_le. field. lra.
Qed.

Lemma odd_inv_sq_sum_bound (m : nat) : odd_inv_sq_sum m <= PI ^ 2 / 8.
Proof.
  eapply Rle_trans; [| apply (odd_inv_sq_sum_dyadic m)].
  unfold odd_inv_sq_sum. apply sum_upto_mono.
  - intros k. apply inv_sq_nonneg.
  - apply Nat.lt_le_incl, Nat.pow_gt_lin_r. lia.
Qed.

Lemma inv_sq_double (i : nat) : (0 < i)%nat -> inv_sq (2 * i) = inv_sq i / 4.
Proof.
  intros Hi. unfold inv_sq. rewrite mult_INR. simpl INR.
  assert (H : 0 < INR i) by (apply lt_0_INR; lia).
  field. lra.
Qed.

Lemma sum_upto_S (f : nat -> R) (n : nat) :
  sum_upto f (Datatypes.S n) = sum_upto f n + f n.
Proof. reflexivity. Qed.

Lemma inv_sq_sum_even (m : nat) :
  inv_sq_sum (2 * m) = odd_inv_sq_sum m + inv_sq_sum m / 4.
Proof.
  induction m as [| m IH].
  - unfold inv_sq_sum, odd_inv_sq_sum. simpl. lra.
  - replace (2 * Datatypes.S m)%nat with (Datatypes.S (Datatypes.S (2 * m))) by lia.
    unfold inv_sq_sum, odd_inv_sq_sum in *.
    rewrite !sum_upto_S, IH.
    replace (Datatypes.S (Datatypes.S (2 * m))) with (2 * Datatypes.S m)%nat by lia.
    rewrite inv_sq_double by lia.
    replace (Datatypes.S (2 * m)) with (2 * m + 1)%nat by lia. lra.
Qed.

Lemma inv_sq_sum_odd (m : nat) :
  inv_sq_sum (2 * m + 1) = odd_inv_sq_sum (Datatypes.S m) + inv_sq_sum m / 4.
Proof.
  replace (2 * m + 1)%nat with (Datatypes.S (2 * m)) by lia.
  unfold inv_sq_sum at 1. rewrite sum_upto_S. fold (inv_sq_sum (2 * m)).
  rewrite inv_sq_sum_even. unfold odd_inv_sq_sum. rewrite sum_upto_S.
  replace (Datatypes.S (2 * m)) with (2 * m + 1)%nat by lia. lra.
Qed.

(** Every partial sum of the inverse squares is at most [PI^2 / 6]. *)
Lemma inv_sq_sum_bound (N : nat) : inv_sq_sum N <= PI ^ 2 / 6.
Proof.
  induction N as [N IH] using lt_wf_ind.
  destruct N as [| N'].
  - unfold inv_sq_sum. simpl. pose proof (pow2_ge_0 PI). lra.
  - destruct (Nat.Even_or_Odd (Datatypes.S N')) as [[m Hm] | [m Hm]]; rewrite Hm.
    + rewrite inv_sq_sum_even.
      pose proof (odd_inv_sq_sum_bound m). pose proof (IH m ltac:(lia)). lra.
    + rewrite inv_sq_sum_odd.
      pose proof (odd_inv_sq_sum_bound (Datatypes.S m)).
      pose proof (IH m ltac:(lia)). lra.
Qed.

(** ** The harmonic generators *)

Lemma square_next_eq (n0 d : Z) :
  (1 <= d)%Z ->
  HarmonicSquareDetailGenerator.next (HarmonicSquareDetailGenerator.mk n0 d)
    = (Ret (1 / IZR d, 1 / IZR d), HarmonicSquareDetailGenerator.mk n0 (d + 1)).
Proof.
  intros Hd. unfold HarmonicSquareDetailGenerator.next, inv. unfold_m.
  destruct (Z.eqb_spec d 0); [lia | reflexivity].
Qed.

Lemma square_repeat_next (n0 d : Z) (j : nat) :
  (1 <= d)%Z ->
  repeat_call HarmonicSquareDetailGenerator.next j (HarmonicSquareDetailGenerator.mk n0 d)
    = (Ret tt, HarmonicSquareDetailGenerator.mk n0 (d + Z.of_nat j)).
Proof.
  revert d. induction j as [| j IH]; intros d Hd.
  - simpl. unfold ret. rewrite Z.add_0_r. reflexivity.
  - cbn [repeat_call]. unfold bind. rewrite square_next_eq by exact Hd.
    rewrite IH by lia. do 2 f_equal. lia.
Qed.

Lemma rectangle_next_eq (n0 d : Z) (b : bool) :
  (1 <= d)%Z ->
  HarmonicRectangleDetailGenerator.next (HarmonicRectangleDetailGenerator.mk n0 d b)
    = (Ret (if b then (1 / IZR (d + 1), 1 / IZR d) else (1 / IZR d, 1 / IZR (d + 1))),
       HarmonicRectangleDetailGenerator.mk n0 (d + 1) b).
Proof.
  intros Hd. unfold HarmonicRectangleDetailGenerator.next, inv. unfold_m.
  destruct b; simpl;
    destruct (Z.eqb_spec d 0); try lia;
    destruct (Z.eqb_spec (d + 1) 0); try lia; reflexivity.
Qed.

Lemma rectangle_repeat_next (n0 d : Z) (b : bool) (j : nat) :
  (1 <= d)%Z ->
  repeat_call HarmonicRectangleDetailGenerator.next j
    (HarmonicRectangleDetailGenerator.mk n0 d b)
    = (Ret tt, HarmonicRectangleDetailGenerator.mk n0 (d + Z.of_nat j) b).
Proof.
  revert d. induction j as [| j IH]; intros d Hd.
  - simpl. unfold ret. rewrite Z.add_0_r. reflexivity.
  - cbn [repeat_call]. unfold bind. rewrite rectangle_next_eq by exact Hd.
    rewrite IH by lia. do 2 f_equal. lia.
Qed.

(** The loop of [get_base_size] subtracts the inverse squares one by one. *)
Lemma base_size_loop (a : R) (m : nat) :
  fold_left (fun acc i => acc - (1 / IZR i) ^ 2)
            (map (fun k => (1 + Z.of_nat k)%Z) (seq 0 m)) a
    = a - inv_sq_sum m.
Proof.
  induction m as [| m IH].
  - simpl. unfold inv_sq_sum. simpl. lra.
  - rewrite seq_S, map_app, fold_left_app, IH. cbn [Nat.add map fold_left].
    unfold inv_sq_sum. rewrite sum_upto_S. unfold inv_sq.
    replace (IZR (1 + Z.of_nat m)) with (INR (Datatypes.S m)).
    + lra.
    + rewrite S_INR, plus_IZR, <- INR_IZR_INZ. lra.
Qed.

Lemma square_base_size_eq (n0 d : Z) :
  HarmonicSquareDetailGenerator.get_base_size (HarmonicSquareDetailGenerator.mk n0 d)
    = (Ret (sqrt (PI ^ 2 / 6 - inv_sq_sum (Z.to_nat (n0 - 1))),
            sqrt (PI ^ 2 / 6 - inv_sq_sum (Z.to_nat (n0 - 1)))),
       HarmonicSquareDetailGenerator.mk n0 d).
Proof.
  unfold HarmonicSquareDetailGenerator.get_base_size, math_sqrt, range. unfold_m.
  rewrite base_size_loop.
  pose proof (inv_sq_sum_bound (Z.to_nat (n0 - 1))) as Hb.
  rewrite (proj2 (Rltb_false _ _)) by lra. reflexivity.
Qed.

Lemma rectangle_base_size_eq (n0 d : Z) (b : bool) :
  (1 <= n0)%Z ->
  HarmonicRectangleDetailGenerator.get_base_size
    (HarmonicRectangleDetailGenerator.mk n0 d b)
    = (Ret (sqrt (1 / IZR n0), sqrt (1 / IZR n0)),
       HarmonicRectangleDetailGenerator.mk n0 d b).
Proof.
  intros Hn. unfold HarmonicRectangleDetailGenerator.get_base_size, math_sqrt, inv.
  unfold_m. destruct (Z.eqb_spec n0 0); [lia |]. simpl.
  assert (Hp : 0 < 1 / IZR n0).
  { apply Rdiv_lt_0_compat; [lra | apply IZR_lt; lia]. }
  rewrite (proj2 (Rltb_false _ _)) by lra. reflexivity.
Qed.

(** C9.  For [n0 >= 1] and [k >= 1], the [k]-th call of [next] on the
    square generator returns [(1/(n0+k-1), 1/(n0+k-1))] and on the rectangle
    generator [(1/(n0+k), 1/(n0+k-1))] or [(1/(n0+k-1), 1/(n0+k))] by
    [is_width_smaller]; [get_base_size] returns the side
    [sqrt (PI^2/6 - (1/1^2 + ... + 1/(n0-1)^2))], respectively [sqrt (1/n0)],
    twice, after any number [j] of calls of [next], and leaves the generator
    as those calls left it. *)
Theorem harmonic_generators (n0 : Z) :
  (1 <= n0)%Z ->
  (forall k : nat, (1 <= k)%nat ->
     let d := (n0 + Z.of_nat k - 1)%Z in
     bind (repeat_call next (k - 1)) (fun _ => next)
          (HarmonicSquareDetailGenerator.init n0)
       = (Ret (1 / IZR d, 1 / IZR d), HarmonicSquareDetailGenerator.mk n0 (d + 1))) /\
  (forall (b : bool) (k : nat), (1 <= k)%nat ->
     let d := (n0 + Z.of_nat k - 1)%Z in
     bind (repeat_call next (k - 1)) (fun _ => next)
          (HarmonicRectangleDetailGenerator.init n0 b)
       = (Ret (if b then (1 / IZR (d + 1), 1 / IZR d)
               else (1 / IZR d, 1 / IZR (d + 1))),
          HarmonicRectangleDetailGenerator.mk n0 (d + 1) b)) /\
  (forall j : nat,
     let side := sqrt (PI ^ 2 / 6 - inv_sq_sum (Z.to_nat (n0 - 1))) in
     bind (repeat_call next j) (fun _ => get_base_size)
          (HarmonicSquareDetailGenerator.init n0)
       = (Ret (side, side), HarmonicSquareDetailGenerator.mk n0 (n0 + Z.of_nat j))) /\
  (forall (b : bool) (j : nat),
     let side := sqrt (1 / IZR n0) in
     bind (repeat_call next j) (fun _ => get_base_size)
          (HarmonicRectangleDetailGenerator.init n0 b)
       = (Ret (side, side),
          HarmonicRectangleDetailGenerator.mk n0 (n0 + Z.of_nat j) b)).
Proof.
  intros Hn. split; [| split; [| split]].
  - intros k Hk d. unfold bind. simpl next.
    unfold HarmonicSquareDetailGenerator.init.
    rewrite square_repeat_next by exact Hn.
    rewrite square_next_eq by lia.
    subst d.
    replace (n0 + Z.of_nat (k - 1))%Z with (n0 + Z.of_nat k - 1)%Z by lia.
    reflexivity.
  - intros b k Hk d. unfold bind. simpl next.
    unfold HarmonicRectangleDetailGenerator.init.
    rewrite rectangle_repeat_next by exact Hn.
    rewrite rectangle_next_eq by lia.
    subst d.
    replace (n0 + Z.of_nat (k - 1))%Z with (n0 + Z.of_nat k - 1)%Z by lia.
    reflexivity.
  - intros j side. unfold bind. simpl next. simpl get_base_size.
    unfold HarmonicSquareDetailGenerator.init.
    rewrite square_repeat_next by exact Hn.
    apply square_base_size_eq.
  - intros b j side. unfold bind. simpl next. simpl get_base_size.
    unfold HarmonicRectangleDetailGenerator.init.
    rewrite rectangle_repeat_next by exact Hn.
    apply rectangle_base_size_eq. exact Hn.
Qed.

(** C9, witness: [n0 = 1]. *)
Lemma harmonic_generators_witness :
  (forall k : nat, (1 <= k)%nat ->
     let d := (1 + Z.of_nat k - 1)%Z in
     bind (repeat_call next (k - 1)) (fun _ => next)
          (HarmonicSquareDetailGenerator.init 1)
       = (Ret (1 / IZR d, 1 / IZR d), HarmonicSquareDetailGenerator.mk 1 (d + 1))) /\
  (forall (b : bool) (k : nat), (1 <= k)%nat ->
     let d := (1 + Z.of_nat k - 1)%Z in
     bind (repeat_call next (k - 1)) (fun _ => next)
          (HarmonicRectangleDetailGenerator.init 1 b)
       = (Ret (if b then (1 / IZR (d + 1), 1 / IZR d)
               else (1 / IZR d, 1 / IZR (d + 1))),
          HarmonicRectangleDetailGenerator.mk 1 (d + 1) b)) /\
  (forall j : nat,
     let side := sqrt (PI ^ 2 / 6 - inv_sq_sum (Z.to_nat (1 - 1))) in
     bind (repeat_call next j) (fun _ => get_base_size)
          (HarmonicSquareDetailGenerator.init 1)
       = (Ret (side, side), HarmonicSquareDetailGenerator.mk 1 (1 + Z.of_nat j))) /\
  (forall (b : bool) (j : nat),
     let side := sqrt (1 / IZR 1) in
     bind (repeat_call next j) (fun _ => get_base_size)
          (HarmonicRectangleDetailGenerator.init 1 b)
       = (Ret (side, side),
          HarmonicRectangleDetailGenerator.mk 1 (1 + Z.of_nat j) b)).
Proof.
  apply (@harmonic_generators 1). lia.
Defined.

(** ** The in-memory storage is a max-priority set *)

Lemma remove_present_perm (b : Detail) (L : list Detail) :
  In b L -> Permutation L (b :: remove_present b L).
Proof.
  intros Hin. unfold remove_present.
  destruct (remove_first_perm b L Hin) as (L0 & -> & Hp). exact Hp.
Qed.

Lemma max_of_perm (L L' : list Detail) (o : option Detail) :
  Permutation L L' -> max_of L o -> max_of L' o.
Proof.
  intros Hp. destruct o as [b |]; simpl.
  - intros [Hin Hmax]. split.
    + eapply Permutation_in; eassumption.
    + intros x Hx. apply Hmax. eapply Permutation_in; [symmetry |]; eassumption.
  - intros ->. apply Permutation_nil. exact Hp.
Qed.

Lemma max_of_sorted (l : list Detail) :
  sorted_desc l -> max_of l (hd_error l).
Proof.
  destruct l as [| b l]; simpl; [reflexivity |].
  intros Hs. split; [left; reflexivity |]. apply (@sorted_desc_head b l Hs).
Qed.

Lemma in_memory_get (s : InMemoryBoxStorage.t) :
  get_max_box s = (Ret (hd_error (InMemoryBoxStorage.boxes s)), s).
Proof.
  change (get_max_box s) with (InMemoryBoxStorage.get_max_box s).
  destruct s as [[| b l]]; unfold InMemoryBoxStorage.get_max_box, bind, get, ret;
    cbn [InMemoryBoxStorage.boxes].
  - reflexivity.
  - rewrite len_pos. reflexivity.
Qed.

Lemma in_memory_pop (s : InMemoryBoxStorage.t) :
  pop_max_box s = (Ret (hd_error (InMemoryBoxStorage.boxes s)),
                   InMemoryBoxStorage.mk (tl (InMemoryBoxStorage.boxes s))).
Proof.
  change (pop_max_box s) with (InMemoryBoxStorage.pop_max_box s).
  destruct s as [[| b l]]; unfold InMemoryBoxStorage.pop_max_box, bind, get, ret, zoom;
    cbn [InMemoryBoxStorage.boxes].
  - reflexivity.
  - rewrite len_pos. reflexivity.
Qed.

Lemma in_memory_reaches_freely_inv (s : InMemoryBoxStorage.t) (L : list Detail) :
  reaches_freely InMemoryBoxStorage.init s L -> in_memory_set_inv s L.
Proof.
  induction 1 as [| s L d s' _ IH Hadd | s L o s' _ IH Hget
                  | s L b s' _ IH Hpop | s L s' _ IH Hpop]; unfold in_memory_set_inv in *.
  - split; [reflexivity | split; constructor].
  - destruct IH as (Hp & Hs & Hnd).
    change (add_box d s) with (InMemoryBoxStorage.add_box d s) in Hadd.
    unfold InMemoryBoxStorage.add_box, modify in Hadd.
    injection Hadd as <-. cbn [InMemoryBoxStorage.boxes]. unfold set_insert.
    split; [| split].
    + destruct (add_cases d (InMemoryBoxStorage.boxes s)) as [[Hin ->] | [Hin ->]];
        destruct (in_dec Detail_eq_dec d L) as [HL | HL].
      * exact Hp.
      * exfalso. apply HL. eapply Permutation_in; eassumption.
      * exfalso. apply Hin. eapply Permutation_in; [symmetry |]; eassumption.
      * rewrite insort_perm. constructor. exact Hp.
    + apply add_sorted, Hs.
    + destruct (in_dec Detail_eq_dec d L) as [HL | HL]; [exact Hnd |].
      constructor; assumption.
  - rewrite in_memory_get in Hget. injection Hget as _ <-. exact IH.
  - destruct IH as (Hp & Hs & Hnd). rewrite in_memory_pop in Hpop.
    injection Hpop as Hb <-. cbn [InMemoryBoxStorage.boxes].
    destruct (InMemoryBoxStorage.boxes s) as [| b' l] eqn:E; [discriminate |].
    simpl in Hb. injection Hb as ->. simpl tl.
    assert (Hin : In b L) by (eapply Permutation_in; [exact Hp | left; reflexivity]).
    pose proof (@remove_present_perm b L Hin) as HL.
    split; [| split].
    + apply Permutation_cons_inv with (a := b). rewrite Hp. exact HL.
    + apply (@sorted_desc_tail b l Hs).
    + apply (Permutation_NoDup HL) in Hnd. inversion Hnd; assumption.
  - destruct IH as (Hp & Hs & Hnd). rewrite in_memory_pop in Hpop.
    injection Hpop as Hb <-. cbn [InMemoryBoxStorage.boxes].
    destruct (InMemoryBoxStorage.boxes s) as [| b' l] eqn:E; [| discriminate].
    simpl. split; [exact Hp | split; [constructor | exact Hnd]].
Qed.

Lemma in_memory_refines_freely :
  refines_max_priority_set_freely InMemoryBoxStorage.init.
Proof.
  intros s L Hr. destruct (@in_memory_reaches_freely_inv s L Hr) as (Hp & Hs & Hnd).
  split.
  - exists (hd_error (InMemoryBoxStorage.boxes s)).
    split; [apply in_memory_get |]. split.
    + apply (@max_of_perm _ _ _ Hp), max_of_sorted, Hs.
    + eexists. apply in_memory_pop.
  - intros d. eexists. reflexivity.
Qed.

(** ** The cached storages over a lawful table *)

Lemma add_in (d x : Detail) (s : SortedSet.t) :
  In x (SortedSet.add d s) <-> x = d \/ In x s.
Proof.
  destruct (add_cases d s) as [[Hin ->] | [Hin ->]].
  - split; [auto | intros [-> | H]; assumption].
  - split.
    + intros H. apply (Permutation_in _ (insort_perm d s)) in H.
      destruct H as [<- | H]; auto.
    + intros H. apply (Permutation_in _ (Permutation_sym (insort_perm d s))).
      destruct H as [-> | H]; [left; reflexivity | right; exact H].
Qed.

Lemma add_nodup (d : Detail) (s : SortedSet.t) :
  NoDup s -> NoDup (SortedSet.add d s).
Proof.
  intros Hnd. destruct (add_cases d s) as [[Hin ->] | [Hin ->]]; [exact Hnd |].
  apply (Permutation_NoDup (Permutation_sym (insort_perm d s))).
  constructor; assumption.
Qed.

(** The set built by adding the boxes of the fetched rows one by one. *)
Lemma add_all_spec (ds : list Detail) (acc : SortedSet.t) :
  sorted_desc acc -> NoDup acc ->
  let r := fold_left (fun a d => SortedSet.add d a) ds acc in
  sorted_desc r /\ NoDup r /\ (forall x, In x r <-> In x acc \/ In x ds).
Proof.
  revert acc. induction ds as [| d ds IH]; intros acc Hs Hnd; simpl.
  - repeat split; auto. intros [H | []]; exact H.
  - destruct (IH (SortedSet.add d acc) (@add_sorted d acc Hs) (@add_nodup d acc Hnd))
      as (Hs' & Hnd' & Hin').
    repeat split; auto.
    + intros Hx. apply Hin' in Hx. rewrite add_in in Hx.
      destruct Hx as [[-> | Hx] | Hx]; auto.
    + intros Hx. apply Hin'. rewrite add_in.
      destruct Hx as [Hx | [-> | Hx]]; auto.
Qed.

(** ** The batches of a flush *)

Lemma slice_to_from (A : Type) (k : Z) (l : list A) :
  slice_to k l ++ slice_from k l = l.
Proof.
  revert k. induction l as [| x l IH]; intros k; cbn [slice_to slice_from]; [reflexivity |].
  destruct (0 <? k)%Z; [| reflexivity]. cbn [app]. rewrite IH. reflexivity.
Qed.

Lemma slice_from_length (A : Type) (k : Z) (l : list A) :
  (List.length (slice_from k l) <= List.length l)%nat.
Proof.
  revert k. induction l as [| x l IH]; intros k; cbn [slice_from]; [lia |].
  destruct (0 <? k)%Z; [| lia]. specialize (IH (k - 1)%Z). cbn [List.length]. lia.
Qed.

Lemma slice_to_all (A : Type) (k : Z) (l : list A) :
  (Z.of_nat (List.length l) <= k)%Z -> slice_to k l = l /\ slice_from k l = [].
Proof.
  revert k. induction l as [| x l IH]; intros k Hk; cbn [slice_to slice_from];
    [split; reflexivity |].
  cbn [List.length] in Hk.
  destruct (Z.ltb_spec 0 k) as [_ | Hle]; [| lia].
  destruct (IH (k - 1)%Z ltac:(lia)) as [-> ->]. split; reflexivity.
Qed.

Lemma batches_upto_concat (A : Type) (k : Z) (rounds : nat) (l : list A) :
  (1 <= k)%Z -> (List.length l <= rounds)%nat ->
  List.concat (batches_upto rounds k l) = l.
Proof.
  intros Hk. revert l. induction rounds as [| rounds IH]; intros l Hl.
  - destruct l; [reflexivity | cbn [List.length] in Hl; lia].
  - destruct l as [| x l]; [reflexivity |].
    cbn [batches_upto List.concat]. rewrite IH; [apply slice_to_from |].
    cbn [slice_from]. destruct (Z.ltb_spec 0 k) as [_ | Hle]; [| lia].
    pose proof (slice_from_length (k - 1) l). cbn [List.length] in Hl. lia.
Qed.

Lemma batches_concat (A : Type) (k : Z) (l : list A) :
  (1 <= k)%Z -> List.concat (batches k l) = l.
Proof. intros Hk. apply batches_upto_concat; [exact Hk | lia]. Qed.

Lemma batches_one (A : Type) (k : Z) (l : list A) :
  l <> [] -> (Z.of_nat (List.length l) <= k)%Z -> batches k l = [l].
Proof.
  intros Hne Hk. unfold batches. destruct l as [| x l]; [contradiction |].
  cbn [List.length batches_upto].
  destruct (@slice_to_all A k (x :: l) Hk) as [-> ->].
  destruct (List.length l); reflexivity.
Qed.

Lemma batch_size_pos : (1 <= CachedStorage.BATCH_SIZE)%Z.
Proof. unfold CachedStorage.BATCH_SIZE. lia. Qed.

Section CachedFacts.
Context {T : Type} {BT : BoxesTable T} {LT : LawfulTable T}.
Import CachedStorage.

(** The batches of acceptable boxes are inserted one after the other. *)
Lemma insert_batches_lawful (bs : list (list Detail)) (tb : T) :
  table_ok tb -> Forall table_takes (List.concat bs) ->
  exists tb', insert_batches bs tb = (Ret tt, tb') /\ table_ok tb' /\
              forall x, In x (table_details tb') <->
                        In x (table_details tb) \/ In x (List.concat bs).
Proof.
  revert tb. induction bs as [| b bs IH]; intros tb Hok Hds.
  - exists tb. split; [reflexivity |]. split; [exact Hok |]. intros x. simpl. tauto.
  - cbn [List.concat] in Hds. apply Forall_app in Hds. destruct Hds as [Hb Hrest].
    destruct (@execute_insert_lawful T BT LT tb b Hok Hb) as (t1 & E1 & Hok1 & Hin1).
    destruct (IH t1 Hok1 Hrest) as (t2 & E2 & Hok2 & Hin2).
    exists t2. split; [| split; [exact Hok2 |]].
    + cbn [insert_batches]. unfold bind. rewrite E1. exact E2.
    + intros x. rewrite Hin2, Hin1. cbn [List.concat]. rewrite in_app_iff. tauto.
Qed.

Lemma flush_inserts_lawful (ds : list Detail) (tb : T) :
  table_ok tb -> Forall table_takes ds ->
  exists tb', insert_batches (batches BATCH_SIZE ds) tb = (Ret tt, tb') /\ table_ok tb' /\
              forall x, In x (table_details tb') <-> In x (table_details tb) \/ In x ds.
Proof.
  intros Hok Hds.
  pose proof (@batches_concat Detail BATCH_SIZE ds batch_size_pos) as Hc.
  destruct (@insert_batches_lawful (batches BATCH_SIZE ds) tb Hok) as (tb' & E & Hok' & Hin).
  { rewrite Hc. exact Hds. }
  exists tb'. split; [exact E |]. split; [exact Hok' |]. rewrite Hc in Hin. exact Hin.
Qed.

Lemma fold_add_rows (rows : list Row) (s : t T) :
  fold_left (fun s row =>
               set_max_cache (SortedSet.add (_row_to_detail row) (max_cache s)) s)
            rows s
  = set_max_cache
      (fold_left (fun a d => SortedSet.add d a) (map _row_to_detail rows) (max_cache s))
      s.
Proof.
  revert s. induction rows as [| r rows IH]; intros s; simpl.
  - destruct s; reflexivity.
  - rewrite IH. destruct s; reflexivity.
Qed.

(** The synchronisation of the caches with the table. *)
Lemma update_caches_spec (s : t T) (L : list Detail) (N : list string) :
  base_inv s L N ->
  exists s', _update_caches s = (Ret tt, s') /\ cached_inv s' L N /\
             to_add_cache s' = [].
Proof.
  intros (Hcs & Hok & HsA & HndA & HtA & Hnames & Hdisj & HN & HDel & HndL & HL).
  cbv zeta in *.
  destruct (@flush_inserts_lawful (to_add_cache s) (table s) Hok HtA)
    as (t1 & E1 & Hok1 & Hin1).
  destruct (@execute_delete_lawful T BT LT t1 (map name (to_delete_cache s)) Hok1)
    as (t2 & E2 & Hok2 & Hin2).
  destruct (@fetch_max_rows_lawful T BT LT t2 (cache_size s) Hok2)
    as (rows & E3 & Hincl & Htop & Hne). cbv zeta in *.
  set (ds := map _row_to_detail rows) in *.
  destruct (@add_all_spec ds [] ltac:(constructor) ltac:(constructor))
    as (HsM & HndM & HinM).
  set (Mx := fold_left (fun a d => SortedSet.add d a) ds []) in *.
  assert (HR2 : forall x, In x (table_details t2) <->
                  In x (to_add_cache s) \/
                  (In x (table_details (table s)) /\ ~ In x (to_delete_cache s))).
  { intros x. rewrite Hin2, Hin1. split.
    - intros [[Hx | Hx] Hn]; [| left; exact Hx].
      right. split; [exact Hx |]. intros Hd. apply Hn. apply in_map, Hd.
    - intros [Hx | [Hx Hd]].
      + split; [right; exact Hx |]. intros Hn.
        apply in_map_iff in Hn. destruct Hn as (y & Hy & HyD).
        apply (Hdisj x Hx). 
        rewrite <- (Hnames y x); [apply HDel, HyD | | | exact Hy];
          apply in_or_app; [right; apply HDel, HyD | left; exact Hx].
      + split; [left; exact Hx |]. intros Hn.
        apply in_map_iff in Hn. destruct Hn as (y & Hy & HyD).
        apply Hd. rewrite <- (Hnames y x); [exact HyD | | | exact Hy];
          apply in_or_app; right; [apply HDel, HyD | exact Hx]. }
  eexists. split; [| split].
  - unfold _update_caches, _update_to_add_cache, _update_to_delete_cache,
      _update_max_cache, session, bind, get, modify, zoom.
    cbn [table set_table set_to_add_cache set_max_cache set_to_delete_cache
         to_add_cache to_delete_cache cache_size max_cache].
    rewrite E1. cbn [table set_table set_to_add_cache set_max_cache
                     set_to_delete_cache to_add_cache to_delete_cache cache_size max_cache].
    rewrite E2. cbn [table set_table set_to_add_cache set_max_cache
                     set_to_delete_cache to_add_cache to_delete_cache cache_size max_cache].
    rewrite E3. cbn [table set_table set_to_add_cache set_max_cache
                     set_to_delete_cache to_add_cache to_delete_cache cache_size max_cache].
    rewrite fold_add_rows.
    cbn [table set_table set_to_add_cache set_max_cache
         set_to_delete_cache to_add_cache to_delete_cache cache_size max_cache].
    reflexivity.
  - split.
    + unfold base_inv.
      cbn [table set_table set_to_add_cache set_max_cache
           set_to_delete_cache to_add_cache to_delete_cache cache_size max_cache].
      split; [exact Hcs |]. split; [exact Hok2 |].
      split; [constructor |]. split; [constructor |]. split; [constructor |].
      split.
      { intros x y Hx Hy. simpl in Hx, Hy. rewrite HR2 in Hx, Hy.
        apply Hnames; apply in_or_app; tauto. }
      split; [intros x [] |].
      split.
      { intros x Hx. simpl in Hx. rewrite HR2 in Hx. apply HN, in_or_app. tauto. }
      split; [intros x [] |].
      split; [exact HndL |].
      intros x. split.
      * intros Hx. right. split; [apply HR2, HL, Hx | intros []].
      * intros [[] | [Hx _]]. apply HL, HR2, Hx.
    + unfold max_cache_inv.
      cbn [table set_table set_to_add_cache set_max_cache
           set_to_delete_cache to_add_cache to_delete_cache cache_size max_cache].
      fold ds. fold Mx.
      assert (HMx : forall x, In x Mx <-> In x ds)
        by (intros x; rewrite HinM; simpl; tauto).
      split; [exact HsM |]. split; [exact HndM |].
      split; [intros x Hx; apply Hincl, HMx, Hx |].
      split; [intros x _ [] |].
      split.
      { intros x y Hx _ HnM Hy. apply (Htop x y Hx); [rewrite <- HMx; exact HnM |].
        apply HMx, Hy. }
      intros HE x Hx. exfalso. change (Mx = []) in HE.
      assert (Hall : forall z, ~ In z ds).
      { intros z Hz. apply HMx in Hz. rewrite HE in Hz. exact Hz. }
      assert (Hds : ds = []).
      { clear - Hall. destruct ds as [| d0 ds0]; [reflexivity |].
        exfalso. apply (Hall d0). left. reflexivity. }
      apply (Hne Hcs); [| exact Hds]. intros Hnil. rewrite Hnil in Hx. exact Hx.
  - reflexivity.
Qed.

Lemma head_or_none_eq (l : SortedSet.t) : head_or_none l = hd_error l.
Proof.
  unfold head_or_none. destruct l as [| x l]; [reflexivity |].
  rewrite len_pos. reflexivity.
Qed.

Lemma remove_present_in (b : Detail) (L : list Detail) :
  NoDup L -> In b L ->
  NoDup (remove_present b L) /\
  forall x, In x (remove_present b L) <-> In x L /\ x <> b.
Proof.
  intros Hnd Hin. pose proof (@remove_present_perm b L Hin) as Hp.
  pose proof (Permutation_NoDup Hp Hnd) as Hnd'.
  inversion Hnd' as [| ? ? Hnb Hnr]; subst. split; [exact Hnr |].
  intros x. split.
  - intros Hx. split.
    + eapply Permutation_in; [symmetry; exact Hp | right; exact Hx].
    + intros ->. contradiction.
  - intros [Hx Hne]. apply (Permutation_in _ Hp) in Hx.
    destruct Hx as [-> | Hx]; [contradiction | exact Hx].
Qed.

(** [get_max_box] compares the heads of the two caches. *)
Lemma cached_get_eq (s : t T) :
  get_max_box s =
    (Ret (match hd_error (to_add_cache s), hd_error (max_cache s) with
          | None, m => m
          | Some a, None => Some a
          | Some a, Some m => if Rleb (min_size a) (min_size m) then Some m else Some a
          end), s).
Proof.
  change (get_max_box s) with (CachedStorage.get_max_box s).
  unfold CachedStorage.get_max_box, bind, get, ret.
  rewrite !head_or_none_eq.
  destruct (hd_error (to_add_cache s)) as [a |], (hd_error (max_cache s)) as [m |];
    cbn [_detail_comparator xge0].
  - unfold Rgeb. fold (min_size a). fold (min_size m).
    destruct (Rle_dec (min_size a) (min_size m)) as [H | H].
    + rewrite (proj2 (Rleb_true _ _)) by lra.
      rewrite (proj2 (Rleb_true _ _)) by lra. reflexivity.
    + rewrite (proj2 (Rleb_false _ _)) by lra.
      rewrite (proj2 (Rleb_false _ _)) by lra. reflexivity.
  - reflexivity.
  - reflexivity.
  - unfold Rgeb. rewrite (proj2 (Rleb_true _ _)) by lra. reflexivity.
Qed.

Lemma cached_get_spec (s : t T) (L : list Detail) (N : list string) :
  cached_inv s L N -> exists o, get_max_box s = (Ret o, s) /\ max_of L o.
Proof.
  intros [(Hcs & Hok & HsA & HndA & HtA & Hnames & Hdisj & HN & HDel & HndL & HL)
          (HsM & HndM & HiM & HMD & Htop & Hemp)].
  cbv zeta in *. eexists. split; [apply cached_get_eq |].
  destruct (to_add_cache s) as [| a A] eqn:EA, (max_cache s) as [| m Mx] eqn:EM;
    cbn [hd_error].
  - simpl. destruct L as [| x L]; [reflexivity |]. exfalso.
    destruct (proj1 (HL x) (or_introl eq_refl)) as [[] | [Hx Hd]].
    apply Hd, (Hemp eq_refl), Hx.
  - simpl. split.
    + apply HL. right. split; [apply HiM; left; reflexivity |].
      apply HMD. left. reflexivity.
    + intros x Hx. apply HL in Hx. destruct Hx as [[] | [Hx Hd]].
      destruct (in_dec Detail_eq_dec x (m :: Mx)) as [Hin | Hnin].
      * apply (@sorted_desc_head m Mx HsM x Hin).
      * apply (Htop x m Hx Hd Hnin). left. reflexivity.
  - simpl. split.
    + apply HL. left. left. reflexivity.
    + intros x Hx. apply HL in Hx. destruct Hx as [Hx | [Hx Hd]].
      * apply (@sorted_desc_head a A HsA x Hx).
      * exfalso. apply Hd, (Hemp eq_refl), Hx.
  - assert (Hmax : forall x, In x L ->
              min_size x <= min_size a \/ min_size x <= min_size m).
    { intros x Hx. apply HL in Hx. destruct Hx as [Hx | [Hx Hd]].
      - left. apply (@sorted_desc_head a A HsA x Hx).
      - right. destruct (in_dec Detail_eq_dec x (m :: Mx)) as [Hin | Hnin].
        + apply (@sorted_desc_head m Mx HsM x Hin).
        + apply (Htop x m Hx Hd Hnin). left. reflexivity. }
    destruct (Rle_dec (min_size a) (min_size m)) as [H | H].
    + rewrite (proj2 (Rleb_true _ _)) by exact H. simpl. split.
      * apply HL. right. split; [apply HiM; left; reflexivity |].
        apply HMD. left. reflexivity.
      * intros x Hx. destruct (Hmax x Hx); lra.
    + rewrite (proj2 (Rleb_false _ _)) by lra. simpl. split.
      * apply HL. left. left. reflexivity.
      * intros x Hx. destruct (Hmax x Hx); lra.
Qed.

Lemma cached_add_spec (s : t T) (L : list Detail) (N : list string) (d : Detail) :
  cached_inv s L N -> table_takes d -> ~ In (name d) N ->
  exists s', add_box d s = (Ret tt, s') /\ cached_inv s' (d :: L) (name d :: N).
Proof.
  intros [Hbase Hmx] Htd Hfresh.
  pose proof Hbase as
    (Hcs & Hok & HsA & HndA & HtA & Hnames & Hdisj & HN & HDel & HndL & HL).
  cbv zeta in *.
  set (s1 := set_to_add_cache (SortedSet.add d (to_add_cache s)) s).
  assert (Hold : forall x, In x (to_add_cache s ++ table_details (table s)) -> x <> d).
  { intros x Hx ->. apply Hfresh, HN, Hx. }
  assert (Hb1 : base_inv s1 (d :: L) (name d :: N)).
  { unfold base_inv, s1.
    cbn [table set_table set_to_add_cache set_max_cache
         set_to_delete_cache to_add_cache to_delete_cache cache_size max_cache].
    split; [exact Hcs |]. split; [exact Hok |].
    split; [apply add_sorted, HsA |]. split; [apply add_nodup, HndA |].
    split.
    { apply Forall_forall. intros x Hx. apply add_in in Hx.
      destruct Hx as [-> | Hx]; [exact Htd |].
      rewrite Forall_forall in HtA. apply HtA, Hx. }
    assert (Hsplit : forall x,
              In x (SortedSet.add d (to_add_cache s) ++ table_details (table s)) ->
              x = d \/ In x (to_add_cache s ++ table_details (table s))).
    { intros x Hx. apply in_app_or in Hx. destruct Hx as [Hx | Hx].
      - apply add_in in Hx. destruct Hx as [-> | Hx]; [left; reflexivity |].
        right. apply in_or_app. left. exact Hx.
      - right. apply in_or_app. right. exact Hx. }
    split.
    { intros x y Hx Hy Hxy.
      destruct (Hsplit x Hx) as [-> | Hx'], (Hsplit y Hy) as [-> | Hy'].
      - reflexivity.
      - exfalso. apply Hfresh. rewrite Hxy. apply HN, Hy'.
      - exfalso. apply Hfresh. rewrite <- Hxy. apply HN, Hx'.
      - apply Hnames; assumption. }
    split.
    { intros x Hx HxR. apply add_in in Hx. destruct Hx as [-> | Hx].
      - apply (Hold d); [apply in_or_app; right; exact HxR | reflexivity].
      - exact (Hdisj x Hx HxR). }
    split.
    { intros x Hx. destruct (Hsplit x Hx) as [-> | Hx'];
        [left; reflexivity | right; apply HN, Hx']. }
    split; [exact HDel |].
    split.
    { constructor; [| exact HndL]. intros Hd. apply HL in Hd.
      apply (Hold d); [| reflexivity]. apply in_or_app. tauto. }
    intros x. rewrite add_in. simpl. rewrite HL. split.
    - intros [<- | H]; tauto.
    - intros [[-> | H] | H]; tauto. }
  assert (Hm1 : max_cache_inv s1) by exact Hmx.
  change (add_box d s) with (CachedStorage.add_box d s).
  unfold CachedStorage.add_box, bind, modify, get, ret. fold s1.
  destruct (SortedSet.len (to_add_cache s1) >? cache_size s1)%Z.
  - destruct (@update_caches_spec s1 _ _ Hb1) as (s' & E & Hinv & _).
    exists s'. split; assumption.
  - exists s1. split; [reflexivity | split; assumption].
Qed.

Lemma cached_pop_spec (s : t T) (L : list Detail) (N : list string) (b : Detail) :
  cached_inv s L N -> get_max_box s = (Ret (Some b), s) ->
  exists s', pop_max_box s = (Ret (Some b), s') /\
             cached_inv s' (remove_present b L) N.
Proof.
  intros [Hbase Hmx] Hget.
  pose proof Hbase as
    (Hcs & Hok & HsA & HndA & HtA & Hnames & Hdisj & HN & HDel & HndL & HL).
  pose proof Hmx as (HsM & HndM & HiM & HMD & Htop & Hemp).
  cbv zeta in *.
  destruct (@cached_get_spec s L N (conj Hbase Hmx)) as (o & Hget' & Ho).
  rewrite Hget in Hget'. injection Hget' as <-. destruct Ho as [HbL _].
  destruct (@remove_present_in b L HndL HbL) as [HndL' HL'].
  rewrite cached_get_eq in Hget. injection Hget as Hb.
  change (pop_max_box s) with (CachedStorage.pop_max_box s).
  unfold CachedStorage.pop_max_box, bind, get, ret, modify, zoom, SortedSet.pop0.
  rewrite !head_or_none_eq.
  assert (Hbranch :
    (exists Mx, max_cache s = b :: Mx /\
        xge0 (_detail_comparator (hd_error (to_add_cache s)) (hd_error (max_cache s)))
          = true) \/
    (exists A, to_add_cache s = b :: A /\
        xge0 (_detail_comparator (hd_error (to_add_cache s)) (hd_error (max_cache s)))
          = false)).
  { destruct (to_add_cache s) as [| a A], (max_cache s) as [| m Mx];
      cbn [hd_error] in *; try discriminate.
    - injection Hb as ->. left. exists Mx. split; reflexivity.
    - injection Hb as ->. right. exists A. split; reflexivity.
    - cbn [_detail_comparator xge0]. unfold Rgeb. fold (min_size a). fold (min_size m).
      destruct (Rle_dec (min_size a) (min_size m)) as [H | H].
      + rewrite (proj2 (Rleb_true _ _)) in Hb by exact H. injection Hb as ->.
        left. exists Mx. split; [reflexivity |]. apply Rleb_true. lra.
      + rewrite (proj2 (Rleb_false _ _)) in Hb by lra. injection Hb as ->.
        right. exists A. split; [reflexivity |]. apply Rleb_false. lra. }
  destruct Hbranch as [(Mx & EM & ->) | (A & EA & ->)].
  - rewrite EM in *. cbn [hd_error].
    cbn [table set_table set_to_add_cache set_max_cache
         set_to_delete_cache to_add_cache to_delete_cache cache_size max_cache].
    set (s2 := set_to_delete_cache (to_delete_cache s ++ [b]) (set_max_cache Mx s)).
    assert (HbR : In b (table_details (table s))) by (apply HiM; left; reflexivity).
    assert (HbD : ~ In b (to_delete_cache s)) by (apply HMD; left; reflexivity).
    assert (HbA : ~ In b (to_add_cache s)) by (intros H; exact (Hdisj b H HbR)).
    assert (Hb2 : base_inv s2 (remove_present b L) N).
    { unfold base_inv, s2.
      cbn [table set_table set_to_add_cache set_max_cache
           set_to_delete_cache to_add_cache to_delete_cache cache_size max_cache].
      repeat (split; [assumption |]).
      split.
      { intros x Hx. apply in_app_or in Hx. destruct Hx as [Hx | [<- | []]];
          [apply HDel, Hx | exact HbR]. }
      split; [exact HndL' |].
      intros x. rewrite HL', HL, in_app_iff. simpl. split.
      - intros [[H | [H1 H2]] Hne]; [left; exact H |].
        right. split; [exact H1 |]. intros [H | [H | []]]; [tauto | congruence].
      - intros [H | [H1 H2]].
        + split; [left; exact H |]. intros ->. contradiction.
        + split; [right; split; [exact H1 | tauto] |]. intros ->. tauto. }
    inversion HndM as [| ? ? HbMx HndMx]; subst.
    destruct (SortedSet.len Mx =? 0)%Z eqn:Elen.
    + destruct (@update_caches_spec s2 _ _ Hb2) as (s' & E & Hinv & _).
      rewrite E. exists s'. split; [reflexivity | exact Hinv].
    + exists s2. split; [reflexivity |]. split; [exact Hb2 |].
      unfold max_cache_inv, s2.
      cbn [table set_table set_to_add_cache set_max_cache
           set_to_delete_cache to_add_cache to_delete_cache cache_size max_cache].
      split; [apply (@sorted_desc_tail b Mx HsM) |]. split; [exact HndMx |].
      split; [intros x Hx; apply HiM; right; exact Hx |].
      split.
      { intros x Hx Hd. apply in_app_or in Hd. destruct Hd as [Hd | [<- | []]].
        - apply (HMD x); [right; exact Hx | exact Hd].
        - contradiction. }
      split.
      { intros x y Hx Hd HnM Hy. apply (Htop x y Hx).
        - intros H. apply Hd, in_or_app. left. exact H.
        - intros [<- | H]; [| contradiction].
          apply Hd, in_or_app. right. left. reflexivity.
        - right. exact Hy. }
      intros ->. simpl in Elen. discriminate Elen.
  - rewrite EA in *. cbn [hd_error].
    cbn [table set_table set_to_add_cache set_max_cache
         set_to_delete_cache to_add_cache to_delete_cache cache_size max_cache].
    exists (set_to_add_cache A s). split; [reflexivity |].
    inversion HndA as [| ? ? HbA HndA']; subst.
    assert (HbR : ~ In b (table_details (table s)))
      by (apply Hdisj; left; reflexivity).
    split; [| exact Hmx].
    unfold base_inv.
    cbn [table set_table set_to_add_cache set_max_cache
         set_to_delete_cache to_add_cache to_delete_cache cache_size max_cache].
    split; [exact Hcs |]. split; [exact Hok |].
    split; [apply (@sorted_desc_tail b A HsA) |]. split; [exact HndA' |].
    split; [inversion HtA; assumption |].
    split.
    { intros x y Hx Hy. apply Hnames; simpl; right; assumption. }
    split; [intros x Hx; apply Hdisj; right; exact Hx |].
    split; [intros x Hx; apply HN; simpl; right; exact Hx |].
    split; [exact HDel |]. split; [exact HndL' |].
    intros x. rewrite HL', HL. simpl. split.
    + intros [[[<- | H] | H] Hne]; [congruence | tauto | tauto].
    + intros [H | [H1 H2]].
      * split; [tauto |]. intros ->. contradiction.
      * split; [tauto |]. intros ->. contradiction.
Qed.

Lemma cached_pop_empty (s : t T) (N : list string) :
  cached_inv s [] N ->
  pop_max_box s = (Raise (IndexError "pop index out of range"), s).
Proof.
  intros Hinv. destruct (@cached_get_spec s [] N Hinv) as (o & Hget & Ho).
  destruct Hinv as
    [(Hcs & Hok & HsA & HndA & HtA & Hnames & Hdisj & HN & HDel & HndL & HL)
     (HsM & HndM & HiM & HMD & Htop & Hemp)].
  cbv zeta in *.
  assert (EA : to_add_cache s = []).
  { destruct (to_add_cache s) as [| a A]; [reflexivity |].
    exfalso. apply (proj2 (HL a)). left. left. reflexivity. }
  assert (EM : max_cache s = []).
  { destruct (max_cache s) as [| m Mx]; [reflexivity |].
    exfalso. apply (proj2 (HL m)). right.
    split; [apply HiM; left; reflexivity | apply HMD; left; reflexivity]. }
  change (pop_max_box s) with (CachedStorage.pop_max_box s).
  unfold CachedStorage.pop_max_box, bind, get, ret, modify, zoom, SortedSet.pop0.
  rewrite !head_or_none_eq, EA, EM. cbn [hd_error _detail_comparator xge0].
  unfold Rgeb. rewrite (proj2 (Rleb_true _ _)) by lra.
  rewrite EM. destruct s; simpl in *; subst; reflexivity.
Qed.

Lemma cached_init_inv (cs : Z) (tb : T) :
  (1 <= cs)%Z -> table_ok tb -> table_details tb = [] ->
  cached_inv (init cs tb) [] [].
Proof.
  intros Hcs Hok Hempty. split.
  - unfold base_inv, init. simpl. rewrite Hempty.
    repeat split; try assumption; try (constructor; fail); try (intros ? []; fail).
    + intros x y [].
    + intros [].
    + intros [[] | [[] _]].
  - unfold max_cache_inv, init. simpl. rewrite Hempty.
    repeat split; try (constructor; fail); try (intros ? []; fail).
    + intros x y [].
    + intros _ x [].
Qed.

Lemma cached_reaches_inv (cs : Z) (tb : T) (s : t T) (L : list Detail)
  (N : list string) :
  (1 <= cs)%Z -> table_ok tb -> table_details tb = [] ->
  reaches table_takes (init cs tb) s L N -> cached_inv s L N.
Proof.
  intros Hcs Hok Hempty.
  induction 1 as [| s L N d s' _ IH Htd Hfresh Hadd | s L N o s' _ IH Hget
                  | s L N b s' _ IH Hpop | s N r s' _ IH Hpop].
  - apply cached_init_inv; assumption.
  - change (CachedStorage.add_box d s = (Ret tt, s')) in Hadd.
    destruct (@cached_add_spec s L N d IH Htd Hfresh) as (s'' & E & Hinv).
    rewrite E in Hadd. injection Hadd as <-. exact Hinv.
  - change (CachedStorage.get_max_box s = (Ret o, s')) in Hget.
    rewrite cached_get_eq in Hget. injection Hget as _ <-. exact IH.
  - change (CachedStorage.pop_max_box s = (Ret (Some b), s')) in Hpop.
    destruct (@cached_get_spec s L N IH) as ([b' |] & Hget & Ho).
    + destruct (@cached_pop_spec s L N b' IH Hget) as (s'' & E & Hinv).
      rewrite E in Hpop. injection Hpop as <- <-. exact Hinv.
    + simpl in Ho. subst L. rewrite (@cached_pop_empty s N IH) in Hpop.
      discriminate Hpop.
  - change (CachedStorage.pop_max_box s = (r, s')) in Hpop.
    rewrite (@cached_pop_empty s N IH) in Hpop. injection Hpop as _ <-. exact IH.
Qed.

Lemma cached_refines (cs : Z) (tb : T) :
  (1 <= cs)%Z -> table_ok tb -> table_details tb = [] ->
  refines_max_priority_set table_takes (init cs tb).
Proof.
  intros Hcs Hok Hempty s L N Hr.
  pose proof (@cached_reaches_inv cs tb s L N Hcs Hok Hempty Hr) as Hinv.
  split.
  - destruct (@cached_get_spec s L N Hinv) as (o & Hget & Ho).
    exists o. split; [exact Hget |]. split; [exact Ho |].
    intros HL. destruct o as [b |]; [| contradiction].
    destruct (@cached_pop_spec s L N b Hinv Hget) as (s' & E & _).
    exists s'. exact E.
  - intros d Htd Hfresh.
    destruct (@cached_add_spec s L N d Hinv Htd Hfresh) as (s' & E & _).
    exists s'. exact E.
Qed.

End CachedFacts.
(** ** The table of [HybridBoxStorage] is lawful *)

Definition rows_desc (l : list Row) : Prop :=
  StronglySorted (fun a b => min_size_col b <= min_size_col a) l.

Definition row_consistent (r : Row) : Prop :=
  min_size_col r = min_size (_row_to_detail r).

Lemma row_of_detail_roundtrip (i : Z) (d : Detail) :
  _row_to_detail (row_of_detail i d) = d.
Proof. destruct d as [[x0 y0] [x1 y1] nm ty]. reflexivity. Qed.

Lemma row_of_detail_consistent (i : Z) (d : Detail) :
  row_consistent (row_of_detail i d).
Proof.
  unfold row_consistent. rewrite row_of_detail_roundtrip. reflexivity.
Qed.

Lemma insert_desc_perm (r : Row) (l : list Row) :
  Permutation (insert_desc r l) (r :: l).
Proof.
  induction l as [| y l IH]; simpl; [reflexivity |].
  destruct (Rltb (min_size_col y) (min_size_col r)); [reflexivity |].
  rewrite IH. apply perm_swap.
Qed.

Lemma insert_desc_sorted (r : Row) (l : list Row) :
  rows_desc l -> rows_desc (insert_desc r l).
Proof.
  unfold rows_desc. induction l as [| y l IH]; simpl; intros Hs.
  - constructor; constructor.
  - inversion Hs as [| ? ? Hl Hy]; subst.
    destruct (Rltb (min_size_col y) (min_size_col r)) eqn:E.
    + apply Rltb_true in E. constructor; [assumption |].
      constructor; [lra |].
      rewrite Forall_forall in *. intros z Hz. specialize (Hy z Hz). lra.
    + apply Rltb_false in E. constructor; [apply IH; assumption |].
      rewrite Forall_forall in *. intros z Hz.
      apply (Permutation_in _ (insert_desc_perm r l)) in Hz.
      destruct Hz as [<- | Hz]; [lra | apply Hy; assumption].
Qed.

Lemma order_by_spec (l acc : list Row) :
  rows_desc acc ->
  let r := fold_left (fun a x => insert_desc x a) l acc in
  rows_desc r /\ Permutation r (l ++ acc).
Proof.
  revert acc. induction l as [| x l IH]; intros acc Hs; simpl.
  - split; [exact Hs | reflexivity].
  - destruct (IH (insert_desc x acc) (@insert_desc_sorted x acc Hs)) as [H1 H2].
    split; [exact H1 |]. rewrite H2, insert_desc_perm.
    symmetry. apply Permutation_middle.
Qed.

Lemma order_by_sorted (l : list Row) : rows_desc (order_by_min_size_desc l).
Proof. apply (@order_by_spec l []). constructor. Qed.

Lemma order_by_perm (l : list Row) : Permutation (order_by_min_size_desc l) l.
Proof.
  destruct (@order_by_spec l [] ltac:(constructor)) as [_ H].
  rewrite app_nil_r in H. exact H.
Qed.

Lemma rows_desc_app (l1 l2 : list Row) :
  rows_desc (l1 ++ l2) ->
  forall a b, In a l1 -> In b l2 -> min_size_col b <= min_size_col a.
Proof.
  unfold rows_desc. induction l1 as [| x l1 IH]; simpl; intros Hs a b Ha Hb;
    [contradiction |].
  inversion Hs as [| ? ? Hl Hx]; subst. destruct Ha as [<- | Ha].
  - rewrite Forall_forall in Hx. apply Hx, in_or_app. right. exact Hb.
  - apply (IH Hl a b Ha Hb).
Qed.

(** The rows a [LIMIT n] of the ordered rows leaves out are not larger than
    the rows it keeps. *)
Lemma limit_top (n : Z) (l : list Row) (a b : Row) :
  In a (limit n (order_by_min_size_desc l)) -> In b l ->
  ~ In b (limit n (order_by_min_size_desc l)) ->
  min_size_col b <= min_size_col a.
Proof.
  unfold limit. intros Ha Hb Hnb.
  set (sorted := order_by_min_size_desc l) in *.
  assert (Hs : rows_desc (firstn (Z.to_nat n) sorted ++ skipn (Z.to_nat n) sorted))
    by (rewrite firstn_skipn; apply order_by_sorted).
  apply (rows_desc_app _ _ Hs a b Ha).
  apply (Permutation_in _ (Permutation_sym (order_by_perm l))) in Hb.
  fold sorted in Hb. rewrite <- (firstn_skipn (Z.to_nat n) sorted) in Hb.
  apply in_app_or in Hb. destruct Hb as [Hb | Hb]; [contradiction | exact Hb].
Qed.

Lemma firstn_incl (A : Type) (n : nat) (l : list A) : incl (firstn n l) l.
Proof.
  intros x Hx. rewrite <- (firstn_skipn n l). apply in_or_app. left. exact Hx.
Qed.

Lemma limit_incl (n : Z) (l : list Row) :
  incl (limit n (order_by_min_size_desc l)) l.
Proof.
  intros r Hr. unfold limit in Hr. apply firstn_incl in Hr.
  apply (Permutation_in _ (order_by_perm l)). exact Hr.
Qed.

Lemma limit_nonempty (n : Z) (l : list Row) :
  (1 <= n)%Z -> l <> [] -> limit n (order_by_min_size_desc l) <> [].
Proof.
  intros Hn Hl. unfold limit.
  destruct (order_by_min_size_desc l) as [| x s] eqn:E.
  - exfalso. apply Hl. apply Permutation_nil. rewrite <- E.
    apply order_by_perm.
  - destruct (Z.to_nat n) as [| k] eqn:Ek; [lia |]. simpl. discriminate.
Qed.

Lemma limit_length_full (n : Z) (l : list Row) (b : Row) :
  (0 <= n)%Z -> In b l -> ~ In b (limit n (order_by_min_size_desc l)) ->
  Z.of_nat (List.length (limit n (order_by_min_size_desc l))) = n.
Proof.
  intros Hn Hb Hnb. unfold limit in *.
  set (sorted := order_by_min_size_desc l) in *.
  destruct (Nat.le_gt_cases (Z.to_nat n) (List.length sorted)) as [Hle | Hgt].
  - rewrite firstn_length_le by exact Hle. lia.
  - exfalso. apply Hnb. rewrite firstn_all2 by lia.
    apply (Permutation_in _ (Permutation_sym (order_by_perm l))). exact Hb.
Qed.

Lemma insert_all_rows (ds : list Detail) (tb : Table.t) :
  map _row_to_detail (Table.rows (Table.insert_all ds tb))
    = map _row_to_detail (Table.rows tb) ++ ds /\
  (Forall row_consistent (Table.rows tb) ->
   Forall row_consistent (Table.rows (Table.insert_all ds tb))).
Proof.
  revert tb. induction ds as [| d ds IH]; intros tb; simpl.
  - rewrite app_nil_r. auto.
  - destruct (IH (Table.insert d tb)) as [H1 H2]. unfold Table.insert_all in *.
    rewrite H1. simpl. rewrite map_app. simpl. rewrite row_of_detail_roundtrip.
    rewrite <- app_assoc. split; [reflexivity |].
    intros Hc. apply H2. simpl. apply Forall_app. split; [exact Hc |].
    constructor; [apply row_of_detail_consistent | constructor].
Qed.

Lemma delete_names_details (names : list string) (rows : list Row) (x : Detail) :
  In x (map _row_to_detail (filter (fun r => negb (name_in names r)) rows)) <->
  In x (map _row_to_detail rows) /\ ~ In (name x) names.
Proof.
  rewrite !in_map_iff. split.
  - intros (r & <- & Hr). apply filter_In in Hr. destruct Hr as [Hr Hn].
    split; [exists r; split; [reflexivity | exact Hr] |].
    unfold name_in in Hn. simpl.
    destruct (in_dec string_dec (name_col r) names); [discriminate | assumption].
  - intros [(r & <- & Hr) Hn]. exists r. split; [reflexivity |].
    apply filter_In. split; [exact Hr |]. unfold name_in. simpl in Hn.
    destruct (in_dec string_dec (name_col r) names); [contradiction | reflexivity].
Qed.

#[export, refine] Instance Table_Lawful
  : @LawfulTable Table.t HybridBoxStorage.boxes_table := {
  table_details := fun tb => map _row_to_detail (Table.rows tb);
  table_ok := fun tb => Forall row_consistent (Table.rows tb);
  table_takes := fun _ => True
}.
Proof.
  - intros tb ds Hok _. eexists. split; [reflexivity |].
    destruct (insert_all_rows ds tb) as [H1 H2]. split; [apply H2, Hok |].
    intros x. rewrite H1, in_app_iff. reflexivity.
  - intros tb names Hok. eexists. split; [reflexivity |]. split.
    + simpl. apply Forall_forall. intros r Hr. apply filter_In in Hr.
      rewrite Forall_forall in Hok. apply Hok, Hr.
    + intros x. apply delete_names_details.
  - intros tb n Hok. eexists. split; [reflexivity |]. cbv zeta.
    rewrite Forall_forall in Hok. split; [| split].
    + intros x Hx. apply in_map_iff in Hx. destruct Hx as (r & <- & Hr).
      apply in_map, (@limit_incl n _ r Hr).
    + intros x y Hx Hnx Hy.
      apply in_map_iff in Hx. destruct Hx as (r & <- & Hr).
      apply in_map_iff in Hy. destruct Hy as (r' & <- & Hr').
      rewrite <- (Hok r Hr), <- (Hok r' (@limit_incl n _ r' Hr')).
      apply (@limit_top n _ r' r Hr' Hr). intros H. apply Hnx, in_map, H.
    + intros Hn Hne Hnil. apply map_eq_nil in Hnil.
      apply (@limit_nonempty n (Table.rows tb) Hn); [| exact Hnil].
      intros E. apply Hne. rewrite E. reflexivity.
Defined.
(** ** The table of [HybridPartitionedBoxStorage] is lawful *)

Lemma insert_all_forall (Q : Row -> Prop) (ds : list Detail) (tb : Table.t) :
  (forall i d, In d ds -> Q (row_of_detail i d)) ->
  Forall Q (Table.rows tb) -> Forall Q (Table.rows (Table.insert_all ds tb)).
Proof.
  revert tb. induction ds as [| d ds IH]; intros tb HQ Hall; [exact Hall |].
  unfold Table.insert_all in *. simpl. apply IH.
  - intros i x Hx. apply HQ. right. exact Hx.
  - simpl. apply Forall_app. split; [exact Hall |].
    constructor; [apply HQ; left; reflexivity | constructor].
Qed.

Lemma takes_row_of_detail (rs : list (R * R)) (i j : Z) (d : Detail) :
  takes_row rs (row_of_detail i d) -> takes_row rs (row_of_detail j d).
Proof. intros H. exact H. Qed.

Lemma select_partitions_zero (rs : list (R * R)) (rows : list Row) :
  HybridPartitionedBoxStorage.select_partitions rs 0 rows = [].
Proof. destruct rs; reflexivity. Qed.

Lemma select_partitions_incl (rs : list (R * R)) (n : Z) (rows : list Row) :
  incl (HybridPartitionedBoxStorage.select_partitions rs n rows) rows.
Proof.
  revert n. induction rs as [| rg rest IH]; intros n r Hr; simpl in Hr;
    [contradiction |].
  destruct (n >? 0)%Z; [| contradiction].
  apply in_app_or in Hr. destruct Hr as [Hr | Hr].
  - apply (@limit_incl n _ r) in Hr. apply filter_In in Hr. apply Hr.
  - apply (IH _ r Hr).
Qed.

Lemma select_partitions_top (rs : list (R * R)) (rows : list Row) :
  ranges_desc rs ->
  forall n r r',
    In r rows -> takes_row rs r ->
    ~ In r (HybridPartitionedBoxStorage.select_partitions rs n rows) ->
    In r' (HybridPartitionedBoxStorage.select_partitions rs n rows) ->
    min_size_col r <= min_size_col r'.
Proof.
  unfold ranges_desc, takes_row. induction rs as [| rg rest IH];
    intros Hd n r r' Hr Ht Hnot Hin; simpl in *; [contradiction |].
  inversion Hd as [| ? ? Hrest Hrg]; subst.
  destruct (Z.gtb_spec n 0) as [Hn | Hn]; [| contradiction].
  set (F0 := limit n (order_by_min_size_desc
                        (filter (HybridPartitionedBoxStorage.in_partition rg) rows))) in *.
  assert (HnF : ~ In r F0) by (intros H; apply Hnot, in_or_app; left; exact H).
  apply orb_true_iff in Ht. destruct Ht as [Ht | Ht].
  - assert (Hrf : In r (filter (HybridPartitionedBoxStorage.in_partition rg) rows))
      by (apply filter_In; split; assumption).
    assert (Hlen : Z.of_nat (List.length F0) = n)
      by (apply (@limit_length_full n _ r); [lia | exact Hrf | exact HnF]).
    rewrite Hlen, Z.sub_diag, select_partitions_zero, app_nil_r in Hin.
    apply (@limit_top n _ r' r Hin Hrf HnF).
  - apply in_app_or in Hin. destruct Hin as [Hin | Hin].
    + apply (@limit_incl n _ r') in Hin. apply filter_In in Hin.
      destruct Hin as [_ Hin].
      unfold HybridPartitionedBoxStorage.in_partition in Hin.
      apply andb_true_iff in Hin. destruct Hin as [Hlo _]. apply Rleb_true in Hlo.
      apply existsb_exists in Ht. destruct Ht as (rg' & Hrg' & Hp).
      unfold HybridPartitionedBoxStorage.in_partition in Hp.
      apply andb_true_iff in Hp. destruct Hp as [_ Hhi]. apply Rltb_true in Hhi.
      rewrite Forall_forall in Hrg. specialize (Hrg rg' Hrg'). lra.
    + refine (IH Hrest _ r r' Hr Ht _ Hin).
      intros H. apply Hnot, in_or_app. right. exact H.
Qed.

Lemma select_partitions_nonempty (rs : list (R * R)) (rows : list Row) :
  forall n r,
    (1 <= n)%Z -> In r rows -> takes_row rs r ->
    HybridPartitionedBoxStorage.select_partitions rs n rows <> [].
Proof.
  unfold takes_row. induction rs as [| rg rest IH]; intros n r Hn Hr Ht;
    simpl in *; [discriminate |].
  destruct (Z.gtb_spec n 0) as [_ | Hle]; [| lia].
  apply orb_true_iff in Ht. destruct Ht as [Ht | Ht].
  - intros E. apply app_eq_nil in E. destruct E as [E _].
    apply (@limit_nonempty n (filter (HybridPartitionedBoxStorage.in_partition rg) rows) Hn);
      [| exact E].
    intros Hnil. assert (Hrf : In r (filter (HybridPartitionedBoxStorage.in_partition rg) rows))
      by (apply filter_In; split; assumption).
    rewrite Hnil in Hrf. contradiction.
  - destruct (limit n (order_by_min_size_desc
                (filter (HybridPartitionedBoxStorage.in_partition rg) rows)))
      as [| x F] eqn:E; [| discriminate].
    simpl. rewrite Z.sub_0_r. apply (IH n r Hn Hr Ht).
Qed.

Section PartitionedTable.
Variable rs : list (R * R).
Hypothesis rs_desc : ranges_desc rs.

#[export, refine] Instance Partitioned_Lawful
  : @LawfulTable HybridPartitionedBoxStorage.table
      HybridPartitionedBoxStorage.boxes_table := {
  table_details := fun tb =>
    map _row_to_detail (Table.rows (HybridPartitionedBoxStorage.boxes tb));
  table_ok := fun tb =>
    HybridPartitionedBoxStorage.partition_ranges tb = rs /\
    Forall row_consistent (Table.rows (HybridPartitionedBoxStorage.boxes tb)) /\
    Forall (takes_row rs) (Table.rows (HybridPartitionedBoxStorage.boxes tb));
  table_takes := fun d => takes_row rs (row_of_detail 0 d)
}.
Proof.
  - intros tb ds (Hrs & Hc & Ht) Hds. cbn [execute_insert HybridPartitionedBoxStorage.boxes_table].
    unfold bind, get. rewrite Hrs.
    assert (Hf : forallb (fun d => existsb
                   (fun rg => HybridPartitionedBoxStorage.in_partition rg (row_of_detail 0 d)) rs)
                   ds = true).
    { apply forallb_forall. intros d Hd. rewrite Forall_forall in Hds.
      apply (Hds d Hd). }
    rewrite Hf. eexists. split; [reflexivity |].
    destruct (insert_all_rows ds (HybridPartitionedBoxStorage.boxes tb)) as [H1 H2].
    cbn [HybridPartitionedBoxStorage.partition_ranges HybridPartitionedBoxStorage.boxes].
    split; [split; [reflexivity | split] |].
    + apply H2, Hc.
    + apply insert_all_forall; [| exact Ht].
      intros i d Hd. rewrite Forall_forall in Hds.
      apply (@takes_row_of_detail rs 0 i d), (Hds d Hd).
    + intros x. rewrite H1, in_app_iff. reflexivity.
  - intros tb names (Hrs & Hc & Ht). eexists. split; [reflexivity |].
    cbn [HybridPartitionedBoxStorage.partition_ranges HybridPartitionedBoxStorage.boxes].
    split; [split; [exact Hrs | split] |].
    + simpl. apply Forall_forall. intros r Hr. apply filter_In in Hr.
      rewrite Forall_forall in Hc. apply Hc, Hr.
    + simpl. apply Forall_forall. intros r Hr. apply filter_In in Hr.
      rewrite Forall_forall in Ht. apply Ht, Hr.
    + intros x. apply delete_names_details.
  - intros tb n (Hrs & Hc & Ht). eexists. split; [reflexivity |]. cbv zeta.
    rewrite Hrs. rewrite Forall_forall in Hc, Ht.
    set (rows := Table.rows (HybridPartitionedBoxStorage.boxes tb)) in *.
    split; [| split].
    + intros x Hx. apply in_map_iff in Hx. destruct Hx as (r & <- & Hr).
      apply in_map, (@select_partitions_incl rs n rows r Hr).
    + intros x y Hx Hnx Hy.
      apply in_map_iff in Hx. destruct Hx as (r & <- & Hr).
      apply in_map_iff in Hy. destruct Hy as (r' & <- & Hr').
      rewrite <- (Hc r Hr), <- (Hc r' (@select_partitions_incl rs n rows r' Hr')).
      apply (@select_partitions_top rs rows rs_desc n r r' Hr (Ht r Hr)); [| exact Hr'].
      intros H. apply Hnx, in_map, H.
    + intros Hn Hne Hnil. apply map_eq_nil in Hnil.
      destruct rows as [| r rows'] eqn:E; [apply Hne; reflexivity |].
      apply (@select_partitions_nonempty rs (r :: rows') n r Hn
               ltac:(left; reflexivity) (Ht r ltac:(left; reflexivity))).
      exact Hnil.
Defined.

End PartitionedTable.
(** ** The ranges of the partitions *)

Lemma sorted_map_seq (A : Type) (Rel : A -> A -> Prop) (f : nat -> A) (n a : nat) :
  (forall i j, (a <= i < j)%nat -> (j < a + n)%nat -> Rel (f i) (f j)) ->
  StronglySorted Rel (map f (seq a n)).
Proof.
  revert a. induction n as [| n IH]; intros a H; simpl; constructor.
  - apply IH. intros i j Hij Hj. apply H; lia.
  - apply Forall_forall. intros y Hy. apply in_map_iff in Hy.
    destruct Hy as (j & <- & Hj). apply in_seq in Hj. apply H; lia.
Qed.

Lemma inv_pow_antitone (gamma : R) (k m : Z) :
  0 < gamma -> (1 <= k <= m)%Z ->
  Rpower (1 / IZR m) gamma <= Rpower (1 / IZR k) gamma.
Proof.
  intros Hg Hkm.
  assert (Hk : 0 < IZR k) by (apply IZR_lt; lia).
  assert (Hm : 0 < IZR m) by (apply IZR_lt; lia).
  assert (Hle : IZR k <= IZR m) by (apply IZR_le; lia).
  apply Rle_Rpower_l; [lra |]. unfold Rdiv. rewrite !Rmult_1_l. split.
  - apply Rinv_0_lt_compat, Hm.
  - apply Rinv_le_contravar; assumption.
Qed.

Lemma created_ranges_desc (n0 : Z) (gamma : R) (max_placed B : Z) :
  (1 <= n0)%Z -> 0 < gamma -> (1 <= B)%Z ->
  ranges_desc (created_ranges n0 gamma max_placed B).
Proof.
  intros Hn Hg HB. unfold ranges_desc, created_ranges, range.
  set (P := (max_placed / B + 1)%Z). rewrite map_map.
  apply sorted_map_seq. intros i j Hij Hj. rewrite Z.sub_0_r in Hj.
  unfold expected_range. cbn [fst snd].
  destruct (Z.eqb_spec (0 + Z.of_nat j) 0) as [E | _]; [lia |].
  destruct (Z.eqb_spec (0 + Z.of_nat i) (P - 1)) as [E | _]; [lia |].
  apply inv_pow_antitone; [exact Hg | nia].
Qed.

Lemma range_in (b i : Z) : (0 <= i < b)%Z -> In i (range 0 b).
Proof.
  intros Hi. unfold range. apply in_map_iff. exists (Z.to_nat i).
  split; [lia |]. apply in_seq. lia.
Qed.

(** The ranges cover [[0, 1)]: range 0 ends at 1, the last range starts at 0,
    and each range starts where the next one ends. *)
Lemma expected_ranges_cover (n0 : Z) (gamma : R) (B P : Z) (v : R) (k : nat) :
  forall m, (0 <= m)%Z -> Z.of_nat k = (P - 1 - m)%Z ->
    0 <= v -> v < snd (expected_range n0 gamma B P m) ->
    exists i, (m <= i < P)%Z /\
      fst (expected_range n0 gamma B P i) <= v < snd (expected_range n0 gamma B P i).
Proof.
  induction k as [| k IH]; intros m Hm Hk Hv Hhi.
  - exists m. split; [lia |]. split; [| exact Hhi].
    unfold expected_range. cbn [fst].
    destruct (Z.eqb_spec m (P - 1)) as [_ | E]; [exact Hv | lia].
  - destruct (Rle_lt_dec (fst (expected_range n0 gamma B P m)) v) as [Hlo | Hlo].
    + exists m. split; [lia |]. split; assumption.
    + destruct (IH (m + 1)%Z ltac:(lia) ltac:(lia) Hv) as (i & Hi & Hin).
      * unfold expected_range in *. cbn [fst snd] in *.
        destruct (Z.eqb_spec m (P - 1)) as [E | _]; [lia |].
        destruct (Z.eqb_spec (m + 1) 0) as [E | _]; [lia |]. exact Hlo.
      * exists i. split; [lia | exact Hin].
Qed.

Lemma created_ranges_take (n0 : Z) (gamma : R) (max_placed B : Z) (d : Detail) :
  (0 <= max_placed)%Z -> (1 <= B)%Z -> 0 <= min_size d < 1 ->
  takes_row (created_ranges n0 gamma max_placed B) (row_of_detail 0 d).
Proof.
  intros Hm HB [Hv0 Hv1]. unfold takes_row, created_ranges.
  set (P := (max_placed / B + 1)%Z).
  assert (HP : (1 <= P)%Z).
  { subst P. pose proof (Z.div_pos max_placed B Hm ltac:(lia)). lia. }
  destruct (@expected_ranges_cover n0 gamma B P (min_size d) (Z.to_nat (P - 1)) 0%Z
              ltac:(lia) ltac:(lia) Hv0) as (i & Hi & Hlo & Hhi).
  { unfold expected_range. cbn [snd]. exact Hv1. }
  apply existsb_exists. exists (expected_range n0 gamma B P i). split.
  - apply in_map, range_in. lia.
  - unfold HybridPartitionedBoxStorage.in_partition. apply andb_true_iff. split.
    + apply Rleb_true. exact Hlo.
    + apply Rltb_true. exact Hhi.
Qed.

Lemma create_partition_ranges_eq (n0 : Z) (gamma : R) (max_placed B : Z) :
  (1 <= n0)%Z -> (1 <= B)%Z ->
  HybridPartitionedBoxStorage._create_partition_ranges n0 gamma max_placed B []
    = (Ret tt, created_ranges n0 gamma max_placed B).
Proof.
  intros Hn HB. unfold HybridPartitionedBoxStorage._create_partition_ranges.
  destruct (Z.eqb_spec B 0) as [E | _]; [lia |].
  rewrite (@append_ranges_spec n0 gamma B _ _ [] Hn HB (range_nonneg _)).
  reflexivity.
Qed.

(** ** The three storages *)

Lemma refines_weaken (S : Type) (BS : BoxStorage S) (A1 A2 : Detail -> Prop) (i : S) :
  (forall d, A1 d -> A2 d) ->
  refines_max_priority_set A2 i -> refines_max_priority_set A1 i.
Proof.
  intros Hsub Href s L N Hr.
  assert (Hr2 : reaches A2 i s L N).
  { induction Hr.
    - apply reaches_init.
    - eapply reaches_add; eauto.
    - eapply reaches_get; eauto.
    - eapply reaches_pop; eauto.
    - eapply reaches_pop_empty; eauto. }
  destruct (Href s L N Hr2) as [Hget Hadd]. split; [exact Hget |].
  intros d Hd Hfresh. apply Hadd; [apply Hsub, Hd | exact Hfresh].
Qed.

Lemma hybrid_refines (cs : Z) :
  (1 <= cs)%Z ->
  @refines_max_priority_set HybridBoxStorage.t Hybrid_BoxStorage (fun _ => True)
    (HybridBoxStorage.init cs).
Proof.
  intros Hcs.
  apply (@cached_refines Table.t HybridBoxStorage.boxes_table Table_Lawful cs Table.empty Hcs).
  - constructor.
  - reflexivity.
Qed.

Lemma partitioned_refines (n0 : Z) (gamma : R) (max_placed B cs : Z) :
  (1 <= n0)%Z -> 0 < gamma -> (0 <= max_placed)%Z -> (1 <= B)%Z -> (1 <= cs)%Z ->
  exists s,
    HybridPartitionedBoxStorage.init n0 gamma max_placed B cs = Ret s /\
    @refines_max_priority_set HybridPartitionedBoxStorage.t HybridPartitioned_BoxStorage
      (fun d => 0 <= min_size d < 1) s.
Proof.
  intros Hn Hg Hm HB Hcs. unfold HybridPartitionedBoxStorage.init.
  rewrite (@create_partition_ranges_eq n0 gamma max_placed B Hn HB).
  eexists. split; [reflexivity |].
  set (rs := created_ranges n0 gamma max_placed B).
  pose proof (@created_ranges_desc n0 gamma max_placed B Hn Hg HB) as Hd.
  apply (@refines_weaken _ _ _
           (@table_takes _ _ (Partitioned_Lawful Hd))).
  - intros d Hd01. apply (@created_ranges_take n0 gamma max_placed B d Hm HB Hd01).
  - apply (@cached_refines _ _ (Partitioned_Lawful Hd) cs _ Hcs).
    + split; [reflexivity |]. split; constructor.
    + reflexivity.
Qed.
(** C2 (amended).  Over every sequence of [add_box], [get_max_box] and
    [pop_max_box] the in-memory storage answers like a max-priority set of
    the boxes added and not yet popped: [get_max_box] returns a present box
    of the largest smaller side, or nothing when no box is present, and
    leaves the storage as it is; [pop_max_box] returns that same box, which
    then is no longer present.  The two hybrid storages do so over the
    sequences in which each box is added under a name not used before; they
    need [cache_size >= 1], and the partitioned one is created for
    [n0 >= 1], [gamma > 0], [max_placed >= 0] and [boxes_in_partition >= 1],
    and takes the boxes whose smaller side is in [[0, 1)]. *)
Theorem storages_refine_max_priority_set :
  refines_max_priority_set_freely InMemoryBoxStorage.init /\
  (forall cs, (1 <= cs)%Z ->
     refines_max_priority_set (fun _ => True) (HybridBoxStorage.init cs)) /\
  (forall n0 gamma max_placed B cs,
     (1 <= n0)%Z -> 0 < gamma -> (0 <= max_placed)%Z -> (1 <= B)%Z -> (1 <= cs)%Z ->
     exists s,
       HybridPartitionedBoxStorage.init n0 gamma max_placed B cs = Ret s /\
       refines_max_priority_set (fun d => 0 <= min_size d < 1) s).
Proof.
  split; [exact in_memory_refines_freely |]. split.
  - exact hybrid_refines.
  - exact partitioned_refines.
Qed.

Lemma storages_refine_max_priority_set_witness :
  (1 <= 1)%Z /\
  refines_max_priority_set (fun _ => True) (HybridBoxStorage.init 1) /\
  exists s,
    HybridPartitionedBoxStorage.init 1 1 0 1 1 = Ret s /\
    refines_max_priority_set (fun d => 0 <= min_size d < 1) s.
Proof.
  split; [lia |]. split.
  - apply (proj1 (proj2 storages_refine_max_priority_set)). lia.
  - apply (proj2 (proj2 storages_refine_max_priority_set)); try lia. lra.
Defined.

Lemma hybrid_insert_batches (bs : list (list Detail)) (tb : Table.t) :
  @CachedStorage.insert_batches Table.t HybridBoxStorage.boxes_table bs tb
    = (Ret tt, Table.insert_all (List.concat bs) tb).
Proof.
  revert tb. induction bs as [| b bs IH]; intros tb; [reflexivity |].
  cbn [CachedStorage.insert_batches]. unfold bind.
  cbn [execute_insert HybridBoxStorage.boxes_table]. unfold modify.
  rewrite IH. cbn [List.concat]. unfold Table.insert_all. rewrite fold_left_app. reflexivity.
Qed.

Lemma hybrid_update_caches_eq (cs : Z) (A Mx : SortedSet.t) (Del : list Detail)
  (tb : Table.t) :
  @CachedStorage._update_caches Table.t HybridBoxStorage.boxes_table
    (CachedStorage.mk cs A Mx Del tb) =
    (Ret tt,
     let tb' := Table.delete_names (map name Del) (Table.insert_all A tb) in
     CachedStorage.mk cs []
       (fold_left (fun a d => SortedSet.add d a)
          (map _row_to_detail (limit cs (order_by_min_size_desc (Table.rows tb'))))
          [])
       [] tb').
Proof.
  unfold CachedStorage._update_caches, CachedStorage._update_to_add_cache,
    CachedStorage._update_to_delete_cache, CachedStorage._update_max_cache,
    CachedStorage.session, zoom, bind, modify, get, ret.
  cbn [execute_insert execute_delete fetch_max_rows HybridBoxStorage.boxes_table
    CachedStorage.to_add_cache CachedStorage.set_to_add_cache
    CachedStorage.cache_size CachedStorage.max_cache CachedStorage.to_delete_cache
    CachedStorage.table CachedStorage.set_table CachedStorage.set_to_delete_cache
    CachedStorage.set_max_cache].
  unfold modify, bind, get, ret.
  cbn [CachedStorage.to_add_cache CachedStorage.set_to_add_cache
    CachedStorage.cache_size CachedStorage.max_cache CachedStorage.to_delete_cache
    CachedStorage.table CachedStorage.set_table CachedStorage.set_to_delete_cache
    CachedStorage.set_max_cache].
  rewrite hybrid_insert_batches, (batches_concat A batch_size_pos).
  cbn [CachedStorage.to_add_cache CachedStorage.set_to_add_cache
    CachedStorage.cache_size CachedStorage.max_cache CachedStorage.to_delete_cache
    CachedStorage.table CachedStorage.set_table CachedStorage.set_to_delete_cache
    CachedStorage.set_max_cache].
  rewrite fold_add_rows. reflexivity.
Qed.

Lemma square_box_min_size (side : R) (nm : string) :
  min_size (square_box side nm) = side.
Proof.
  unfold min_size, width, height, square_box. simpl.
  rewrite Rminus_0_r. apply Rmin_left. lra.
Qed.

(** A box smaller than every box of the set goes to its end. *)
Lemma sorted_set_add_last (x : Detail) (s : SortedSet.t) :
  (forall y, In y s -> min_size x < min_size y) ->
  SortedSet.add x s = s ++ [x].
Proof.
  intros H. unfold SortedSet.add.
  destruct (in_dec Detail_eq_dec x s) as [Hin | _].
  - specialize (H x Hin). lra.
  - induction s as [| y s IH]; [reflexivity |]. cbn [SortedSet.insort app].
    unfold SortedSet.cmp.
    rewrite (proj2 (Rltb_false (min_size y - min_size x) 0))
      by (specialize (H y (or_introl eq_refl)); lra).
    rewrite IH; [reflexivity |]. intros z Hz. apply H. right. exact Hz.
Qed.

Lemma insert_desc_last (r : Row) (l : list Row) :
  (forall y, In y l -> min_size_col r <= min_size_col y) ->
  insert_desc r l = l ++ [r].
Proof.
  induction l as [| y l IH]; intros H; [reflexivity |]. cbn [insert_desc app].
  rewrite (proj2 (Rltb_false (min_size_col y) (min_size_col r)))
    by (apply H; left; reflexivity).
  rewrite IH; [reflexivity |]. intros z Hz. apply H. right. exact Hz.
Qed.

Lemma hybrid_pop_from_max_cache (cs : Z) (A Mx : SortedSet.t) (x : Detail)
  (Del : list Detail) (tb : Table.t) :
  xge0 (_detail_comparator (CachedStorage.head_or_none A) (Some x)) = true ->
  @CachedStorage.pop_max_box Table.t HybridBoxStorage.boxes_table
    (CachedStorage.mk cs A (x :: Mx) Del tb) =
  match Mx with
  | [] =>
      match @CachedStorage._update_caches Table.t HybridBoxStorage.boxes_table
              (CachedStorage.mk cs A [] (Del ++ [x]) tb) with
      | (Ret _, s') => (Ret (Some x), s')
      | (Raise e, s') => (Raise e, s')
      end
  | _ :: _ => (Ret (Some x), CachedStorage.mk cs A Mx (Del ++ [x]) tb)
  end.
Proof.
  intros H. unfold CachedStorage.pop_max_box, bind, get.
  cbn [CachedStorage.to_add_cache CachedStorage.max_cache].
  change (CachedStorage.head_or_none (x :: Mx)) with (Some x).
  rewrite H. destruct Mx; reflexivity.
Qed.

(** C2 (as stated) fails on the hybrid storage, here with [cache_size = 2]
    and with names that are never shared by two boxes present at a time.
    Boxes X (side 3), Y (side 2) and Z (side 1) are added and written to the
    table; [pop_max_box] returns X and only marks its row for deletion; a
    new box of side 3/2 is added under the free name X; [pop_max_box]
    returns Y and, the cache being empty, synchronises: the new box is
    written to the table and the rows named X or Y are deleted, the new box
    with them.  [get_max_box] then returns Z of side 1, although the box of
    side 3/2 was added and never popped. *)
Lemma reused_name_loses_box_counterexample :
  let bx := square_box 3 "X" in
  let by_ := square_box 2 "Y" in
  let bz := square_box 1 "Z" in
  let bx' := square_box (3 / 2) "X" in
  exists s1 s2 s3 s4 s5 s6 : HybridBoxStorage.t,
    add_box bx (HybridBoxStorage.init 2) = (Ret tt, s1) /\
    add_box by_ s1 = (Ret tt, s2) /\
    add_box bz s2 = (Ret tt, s3) /\
    pop_max_box s3 = (Ret (Some bx), s4) /\
    add_box bx' s4 = (Ret tt, s5) /\
    pop_max_box s5 = (Ret (Some by_), s6) /\
    get_max_box s6 = (Ret (Some bz), s6) /\
    min_size bz < min_size bx'.
Proof.
  intros bx by_ bz bx'.
  assert (Hx : min_size bx = 3) by apply square_box_min_size.
  assert (Hy : min_size by_ = 2) by apply square_box_min_size.
  assert (Hz : min_size bz = 1) by apply square_box_min_size.
  assert (Hx' : min_size bx' = 3 / 2) by apply square_box_min_size.
  assert (Hxy : SortedSet.add by_ [bx] = [bx; by_]).
  { apply (@sorted_set_add_last by_ [bx]). intros y [<- | []]. lra. }
  assert (Hxyz : SortedSet.add bz [bx; by_] = [bx; by_; bz]).
  { apply (@sorted_set_add_last bz [bx; by_]). intros y [<- | [<- | []]]; lra. }
  set (tb3 := Table.mk [row_of_detail 1 bx; row_of_detail 2 by_; row_of_detail 3 bz] 4).
  exists (CachedStorage.mk 2 [bx] [] [] Table.empty).
  exists (CachedStorage.mk 2 [bx; by_] [] [] Table.empty).
  exists (CachedStorage.mk 2 [] [bx; by_] [] tb3).
  exists (CachedStorage.mk 2 [] [by_] [bx] tb3).
  exists (CachedStorage.mk 2 [bx'] [by_] [bx] tb3).
  exists (CachedStorage.mk 2 [] [bz] [] (Table.mk [row_of_detail 3 bz] 5)).
  split; [reflexivity |]. split; [| split; [| split; [| split; [| split; [| split]]]]].
  - change (add_box by_ (CachedStorage.mk 2 [bx] [] [] Table.empty))
      with ((if (SortedSet.len (SortedSet.add by_ [bx]) >? 2)%Z
             then @CachedStorage._update_caches Table.t HybridBoxStorage.boxes_table
             else ret tt)
              (CachedStorage.mk 2 (SortedSet.add by_ [bx]) [] [] Table.empty)).
    rewrite Hxy. reflexivity.
  - change (add_box bz (CachedStorage.mk 2 [bx; by_] [] [] Table.empty))
      with ((if (SortedSet.len (SortedSet.add bz [bx; by_]) >? 2)%Z
             then @CachedStorage._update_caches Table.t HybridBoxStorage.boxes_table
             else ret tt)
              (CachedStorage.mk 2 (SortedSet.add bz [bx; by_]) [] [] Table.empty)).
    rewrite Hxyz. change (SortedSet.len [bx; by_; bz] >? 2)%Z with true. cbv iota.
    rewrite hybrid_update_caches_eq. cbv zeta.
    change (Table.delete_names (map name []) (Table.insert_all [bx; by_; bz] Table.empty))
      with tb3.
    unfold tb3 at 1. cbn [Table.rows]. unfold order_by_min_size_desc.
    cbn [fold_left]. change (insert_desc (row_of_detail 1 bx) []) with [row_of_detail 1 bx].
    rewrite (@insert_desc_last (row_of_detail 2 by_) [row_of_detail 1 bx]).
    2:{ intros y [<- | []]. change (min_size by_ <= min_size bx). lra. }
    cbn [app].
    rewrite (@insert_desc_last (row_of_detail 3 bz) [row_of_detail 1 bx; row_of_detail 2 by_]).
    2:{ intros y [<- | [<- | []]].
        - change (min_size bz <= min_size bx). lra.
        - change (min_size bz <= min_size by_). lra. }
    cbn [app].
    change (limit 2 [row_of_detail 1 bx; row_of_detail 2 by_; row_of_detail 3 bz])
      with [row_of_detail 1 bx; row_of_detail 2 by_].
    cbn [map fold_left]. rewrite !row_of_detail_roundtrip.
    change (SortedSet.add bx []) with [bx]. rewrite Hxy. reflexivity.
  - change (pop_max_box (CachedStorage.mk 2 [] [bx; by_] [] tb3))
      with (@CachedStorage.pop_max_box Table.t HybridBoxStorage.boxes_table
              (CachedStorage.mk 2 [] [bx; by_] [] tb3)).
    rewrite hybrid_pop_from_max_cache by reflexivity. reflexivity.
  - reflexivity.
  - change (pop_max_box (CachedStorage.mk 2 [bx'] [by_] [bx] tb3))
      with (@CachedStorage.pop_max_box Table.t HybridBoxStorage.boxes_table
              (CachedStorage.mk 2 [bx'] [by_] [bx] tb3)).
    rewrite hybrid_pop_from_max_cache.
    2:{ change (Rgeb (min_size by_ - min_size bx') 0 = true).
        unfold Rgeb. apply Rleb_true. lra. }
    rewrite hybrid_update_caches_eq. cbv zeta.
    change (Table.delete_names (map name ([bx] ++ [by_])) (Table.insert_all [bx'] tb3))
      with (Table.mk [row_of_detail 3 bz] 5).
    cbn [Table.rows].
    change (order_by_min_size_desc [row_of_detail 3 bz]) with [row_of_detail 3 bz].
    change (limit 2 [row_of_detail 3 bz]) with [row_of_detail 3 bz].
    cbn [map fold_left]. rewrite row_of_detail_roundtrip. reflexivity.
  - reflexivity.
  - lra.
Qed.

(** ** The empty storages and the engine *)

Lemma hybrid_get_eq (st : HybridBoxStorage.t) :
  get_max_box st =
    (Ret (match hd_error (CachedStorage.to_add_cache st),
                hd_error (CachedStorage.max_cache st) with
          | None, m => m
          | Some a, None => Some a
          | Some a, Some m => if Rleb (min_size a) (min_size m) then Some m else Some a
          end), st).
Proof. apply cached_get_eq. Qed.

Lemma hybrid_pop_after_get (st : HybridBoxStorage.t) (b : Detail) (st1 : HybridBoxStorage.t) :
  get_max_box st = (Ret (Some b), st1) ->
  exists st', pop_max_box st = (Ret (Some b), st').
Proof.
  rewrite hybrid_get_eq. intros Hget. injection Hget as Hb _.
  destruct st as [cs A Mx Del tb]. cbn [CachedStorage.to_add_cache CachedStorage.max_cache] in Hb.
  change (pop_max_box (CachedStorage.mk cs A Mx Del tb))
    with (@CachedStorage.pop_max_box Table.t HybridBoxStorage.boxes_table
            (CachedStorage.mk cs A Mx Del tb)).
  assert (Hmax : forall m Mx', Mx = m :: Mx' ->
            xge0 (_detail_comparator (CachedStorage.head_or_none A) (Some m)) = true ->
            exists st', @CachedStorage.pop_max_box Table.t HybridBoxStorage.boxes_table
                          (CachedStorage.mk cs A Mx Del tb) = (Ret (Some m), st')).
  { intros m Mx' -> Hge. rewrite (@hybrid_pop_from_max_cache cs A Mx' m Del tb Hge).
    destruct Mx'; [| eexists; reflexivity].
    rewrite hybrid_update_caches_eq. eexists. reflexivity. }
  destruct A as [| a A'], Mx as [| m Mx']; cbn [hd_error] in Hb.
  - discriminate.
  - injection Hb as <-. apply (Hmax m Mx' eq_refl). reflexivity.
  - injection Hb as <-. exists (CachedStorage.mk cs A' [] Del tb). reflexivity.
  - destruct (Rleb (min_size a) (min_size m)) eqn:E; injection Hb as <-.
    + apply (Hmax m Mx' eq_refl). rewrite head_or_none_eq. cbn [hd_error _detail_comparator xge0].
      unfold Rgeb. apply Rleb_true. apply Rleb_true in E. unfold min_size in E. lra.
    + unfold CachedStorage.pop_max_box, bind, get.
      cbn [CachedStorage.to_add_cache CachedStorage.max_cache].
      rewrite !head_or_none_eq. cbn [hd_error _detail_comparator xge0].
      unfold Rgeb. apply Rleb_false in E. unfold min_size in E.
      rewrite (proj2 (Rleb_false _ _)) by lra.
      exists (CachedStorage.mk cs A' (m :: Mx') Del tb). reflexivity.
Qed.

Lemma hybrid_empty_caches (st : HybridBoxStorage.t) :
  CachedStorage.to_add_cache st = [] -> CachedStorage.max_cache st = [] ->
  get_max_box st = (Ret None, st) /\ pop_max_box st = (Raise pop_index_error, st).
Proof.
  intros EA EM. split.
  - rewrite hybrid_get_eq, EA, EM. reflexivity.
  - destruct st as [cs A Mx Del tb]. cbn in EA, EM. subst A Mx.
    change (pop_max_box (CachedStorage.mk cs [] [] Del tb))
      with (@CachedStorage.pop_max_box Table.t HybridBoxStorage.boxes_table
              (CachedStorage.mk cs [] [] Del tb)).
    unfold CachedStorage.pop_max_box, bind, get.
    cbn [CachedStorage.to_add_cache CachedStorage.max_cache].
    rewrite !head_or_none_eq. cbn [hd_error _detail_comparator xge0].
    unfold Rgeb. rewrite (proj2 (Rleb_true 0 0)) by lra. reflexivity.
Qed.

Section ChooseActiveBox.
Context {S : Type} {BS : BoxStorage S}.
Import SlackPackAlgorithm.

(** [_cut_new_strip] makes no call to the storage and raises no [IndexError]. *)
Lemma cut_new_strip_frame (d : R * R) (w : @world S) :
  box_storage (fst (snd (_cut_new_strip d w))) = box_storage (fst w) /\
  forall msg, fst (_cut_new_strip d w) <> Raise (IndexError msg).
Proof.
  destruct w as [s P].
  unfold _cut_new_strip, self, assign, deref, placed_details, set_placed_details,
    list_remove, inv_pow.
  unfold_m.
  destruct (lrp s) as [l |]; simpl; [| split; [reflexivity | discriminate]].
  destruct (last_placed_index s + 1 =? 0)%Z; simpl; [split; [reflexivity | discriminate] |].
  match goal with |- context [if ?c then _ else _] => destruct c end; simpl;
    [split; [reflexivity | discriminate] |].
  destruct (update_placed_details s); simpl; [| split; [reflexivity | discriminate]].
  destruct (remove_first l P); simpl; split; try reflexivity; discriminate.
Qed.

(** [_choose_active_box] up to the choice between the two branches. *)
Lemma choose_active_box_cases (d : R * R) (s : t S) (P : list Detail) :
  let k := (last_placed_index s + 1)%Z in
  let s1 := set_active_box_first_detail_index k s in
  let size_of o := match o with Some b => min_size b | None => -1 end in
  (exists ab, active_box s = Some ab /\
     _choose_active_box d (s, P) = (Ret tt, (s, P))) \/
  (active_box s = None /\ exists e st',
     get_max_box (box_storage s) = (Raise e, st') /\
     _choose_active_box d (s, P) = (Raise e, (set_box_storage s1 st', P))) \/
  (active_box s = None /\ exists o st',
     get_max_box (box_storage s) = (Ret o, st') /\ k = 0%Z /\
     _choose_active_box d (s, P) = (Raise ZeroDivisionError, (set_box_storage s1 st', P))) \/
  (active_box s = None /\ exists o st',
     get_max_box (box_storage s) = (Ret o, st') /\
     snd d + gap (gamma s) k <= size_of o /\
     _choose_active_box d (s, P) =
       _choose_active_box_from_box (set_box_storage s1 st', P)) \/
  (active_box s = None /\ exists o st',
     get_max_box (box_storage s) = (Ret o, st') /\
     size_of o < snd d + gap (gamma s) k /\
     _choose_active_box d (s, P) = _cut_new_strip d (set_box_storage s1 st', P)).
Proof.
  intros k s1 size_of. unfold _choose_active_box, self, assign, storage, inv_pow.
  unfold_m. destruct (active_box s) as [ab |] eqn:Hab.
  - left. exists ab. split; reflexivity.
  - right. simpl. destruct (get_max_box (box_storage s)) as [[o | e] st'] eqn:Hget; simpl.
    2:{ left. split; [reflexivity |]. exists e, st'. split; reflexivity. }
    right. fold k. destruct (Z.eqb_spec k 0) as [Hk | Hk]; simpl.
    { left. split; [reflexivity |]. exists o, st'. repeat split; assumption. }
    right. fold (gap (gamma s) k).
    change (match o with Some b => Rmin (width b) (height b) | None => -1 end)
      with (size_of o).
    destruct (Rleb (snd d + gap (gamma s) k) (size_of o)) eqn:E.
    + left. split; [reflexivity |]. exists o, st'. split; [reflexivity |].
      split; [apply Rleb_true in E; exact E | reflexivity].
    + right. split; [reflexivity |]. exists o, st'. split; [reflexivity |].
      split; [apply Rleb_false in E; exact E | reflexivity].
Qed.

End ChooseActiveBox.
Section LoggedStorage.
Context {S : Type} {BS : BoxStorage S}.
Import SlackPackAlgorithm.

Lemma logged_get_log (sl st' : S * list storage_call) (r : outcome (option Detail)) :
  get_max_box sl = (r, st') -> snd st' = snd sl ++ [Called_get_max_box r].
Proof.
  cbn [get_max_box Logged_BoxStorage]. unfold logged.
  destruct (get_max_box (fst sl)) as [r0 s0]. intros E. injection E as <- <-.
  reflexivity.
Qed.

Lemma choose_from_box_log (s : t (S * list storage_call)) (P : list Detail) :
  exists r,
    snd (box_storage (fst (snd (_choose_active_box_from_box (s, P)))))
      = snd (box_storage s) ++ [Called_pop_max_box r].
Proof.
  unfold _choose_active_box_from_box, self, assign, storage, deref.
  unfold_m. unfold logged.
  destruct (pop_max_box (fst (box_storage s))) as [[[b |] | e] st'] eqn:E;
    simpl; eexists; reflexivity.
Qed.

(** The engine calls [pop_max_box] only after [get_max_box] returned a box
    that the detail fits with its gap. *)
Lemma choose_active_box_log (s : t (S * list storage_call)) (P : list Detail) (w h : R) :
  0 <= h -> snd (box_storage s) = [] ->
  let log := snd (box_storage (fst (snd (_choose_active_box (w, h) (s, P))))) in
  forall r, In (Called_pop_max_box r) log ->
    exists b, log = [Called_get_max_box (Ret (Some b)); Called_pop_max_box r] /\
              h + gap (gamma s) (last_placed_index s + 1) <= min_size b.
Proof.
  intros Hh Hlog log r Hin. subst log.
  pose proof (gap_pos (gamma s) (last_placed_index s + 1)) as Hg.
  destruct (choose_active_box_cases (w, h) s P)
    as [(ab & _ & E) | [(_ & e & st' & Hget & E) | [(_ & o & st' & Hget & _ & E)
        | [(_ & o & st' & Hget & Hfit & E) | (_ & o & st' & Hget & _ & E)]]]];
    rewrite E in Hin |- *; cbn [fst snd] in *.
  - rewrite Hlog in Hin. destruct Hin.
  - apply logged_get_log in Hget. rewrite Hlog in Hget. cbn [box_storage set_box_storage] in Hin.
    rewrite Hget in Hin. destruct Hin as [Hin | []]. discriminate.
  - apply logged_get_log in Hget. rewrite Hlog in Hget. cbn [box_storage set_box_storage] in Hin.
    rewrite Hget in Hin. destruct Hin as [Hin | []]. discriminate.
  - apply logged_get_log in Hget. rewrite Hlog in Hget.
    destruct (choose_from_box_log
                (set_box_storage
                   (set_active_box_first_detail_index (last_placed_index s + 1) s) st') P)
      as (r' & Hr').
    rewrite Hr' in Hin |- *. cbn [box_storage set_box_storage] in Hin |- *.
    rewrite Hget in Hin |- *. cbn [app] in Hin |- *.
    destruct Hin as [Hin | [Hin | []]]; [discriminate |]. injection Hin as ->.
    destruct o as [b |]; [| lra]. exists b. split; [reflexivity | exact Hfit].
  - apply logged_get_log in Hget. rewrite Hlog in Hget.
    rewrite (proj1 (cut_new_strip_frame (w, h) _)) in Hin. cbn [fst box_storage set_box_storage] in Hin.
    rewrite Hget in Hin. destruct Hin as [Hin | []]. discriminate.
Qed.

End LoggedStorage.

Lemma choose_active_box_hybrid (s : SlackPackAlgorithm.t HybridBoxStorage.t)
  (P : list Detail) (w h : R) :
  0 <= h ->
  fst (SlackPackAlgorithm._choose_active_box (w, h) (s, P)) <> Raise pop_index_error.
Proof.
  intros Hh.
  pose proof (gap_pos (SlackPackAlgorithm.gamma s)
                (SlackPackAlgorithm.last_placed_index s + 1)) as Hg.
  destruct (choose_active_box_cases (w, h) s P)
    as [(ab & _ & E) | [(_ & e & st' & Hget & E) | [(_ & o & st' & Hget & _ & E)
        | [(_ & o & st' & Hget & Hfit & E) | (_ & o & st' & Hget & _ & E)]]]];
    rewrite E; cbn [fst snd] in *.
  - discriminate.
  - rewrite hybrid_get_eq in Hget. discriminate.
  - discriminate.
  - destruct o as [b |]; [| lra].
    pose proof Hget as Hget'. rewrite hybrid_get_eq in Hget'. injection Hget' as _ <-.
    destruct (hybrid_pop_after_get _ Hget) as (st'' & Hpop).
    unfold SlackPackAlgorithm._choose_active_box_from_box, SlackPackAlgorithm.self,
      SlackPackAlgorithm.assign, SlackPackAlgorithm.storage, SlackPackAlgorithm.deref.
    unfold_m. rewrite Hpop. simpl. discriminate.
  - apply (proj2 (cut_new_strip_frame (w, h) _)).
Qed.

(** C10.  On an empty storage [get_max_box] returns [None] in the in-memory
    and in the hybrid storage; [pop_max_box] of the in-memory storage returns
    [None], while that of the hybrid storage, both caches being empty, pops
    the empty [max_cache] and raises [IndexError].  The engine, given a
    detail of height [h >= 0], calls [pop_max_box] only right after
    [get_max_box] returned a box whose smaller side is at least [h] plus the
    gap, and over the hybrid storage [_choose_active_box], the only caller of
    [pop_max_box], never raises that error, whatever the state of the engine
    and of the storage. *)
Theorem empty_storage_pop_unreachable :
  (get_max_box InMemoryBoxStorage.init = (Ret None, InMemoryBoxStorage.init) /\
   pop_max_box InMemoryBoxStorage.init = (Ret None, InMemoryBoxStorage.init)) /\
  (forall st : HybridBoxStorage.t,
     CachedStorage.to_add_cache st = [] -> CachedStorage.max_cache st = [] ->
     get_max_box st = (Ret None, st) /\
     pop_max_box st = (Raise pop_index_error, st)) /\
  (forall (S : Type) (BS : BoxStorage S)
          (s : SlackPackAlgorithm.t (S * list storage_call)) (P : list Detail) (w h : R),
     0 <= h -> snd (SlackPackAlgorithm.box_storage s) = [] ->
     let log := snd (SlackPackAlgorithm.box_storage
                       (fst (snd (SlackPackAlgorithm._choose_active_box (w, h) (s, P))))) in
     forall r, In (Called_pop_max_box r) log ->
       exists b, log = [Called_get_max_box (Ret (Some b)); Called_pop_max_box r] /\
                 h + gap (SlackPackAlgorithm.gamma s)
                       (SlackPackAlgorithm.last_placed_index s + 1) <= min_size b) /\
  (forall (s : SlackPackAlgorithm.t HybridBoxStorage.t) (P : list Detail) (w h : R),
     0 <= h ->
     fst (SlackPackAlgorithm._choose_active_box (w, h) (s, P)) <> Raise pop_index_error).
Proof.
  split; [split; reflexivity |]. split; [exact hybrid_empty_caches |]. split.
  - intros S BS s P w h Hh Hlog. apply (@choose_active_box_log S BS s P w h Hh Hlog).
  - exact choose_active_box_hybrid.
Qed.

Lemma empty_storage_pop_unreachable_witness :
  0 <= 1 /\
  (get_max_box (HybridBoxStorage.init 1) = (Ret None, HybridBoxStorage.init 1) /\
   pop_max_box (HybridBoxStorage.init 1) = (Raise pop_index_error, HybridBoxStorage.init 1)) /\
  fst (SlackPackAlgorithm._choose_active_box (1, 1) (hybrid_engine, []))
    <> Raise pop_index_error.
Proof.
  split; [lra |]. split.
  - apply (proj1 (proj2 empty_storage_pop_unreachable)); reflexivity.
  - apply (proj2 (proj2 (proj2 empty_storage_pop_unreachable))). lra.
Defined.

(** ** Cutting a rectangle of the list into pieces *)

Lemma lies_inside_trans (a b c : Detail) :
  lies_inside a b -> lies_inside b c -> lies_inside a c.
Proof. unfold lies_inside. intros H1 H2. lra. Qed.

Lemma lies_inside_refl (a : Detail) :
  fst (bottom_left a) <= fst (top_right a) ->
  snd (bottom_left a) <= snd (top_right a) -> lies_inside a a.
Proof. unfold lies_inside. intros. lra. Qed.

Lemma share_interior_sym (a b : Detail) : share_interior a b -> share_interior b a.
Proof. intros (x & y & Ha & Hb). exists x, y. split; assumption. Qed.

Lemma share_interior_inside (a b c : Detail) :
  lies_inside a c -> share_interior c b -> share_interior a b.
Proof.
  unfold lies_inside, share_interior, interior.
  intros Hin (x & y & Hc & Hb). exists x, y. split; [lra | exact Hb].
Qed.

Lemma total_area_app (l1 l2 : list Detail) :
  total_area (l1 ++ l2) = total_area l1 + total_area l2.
Proof. induction l1 as [| a l1 IH]; simpl; [lra | rewrite IH; lra]. Qed.

Lemma total_area_remove (a : Detail) (l l0 : list Detail) :
  remove_first a l = Some l0 -> total_area l = area a + total_area l0.
Proof.
  revert l0. induction l as [| y l IH]; simpl; intros l0; [discriminate |].
  destruct (Detail_eq_dec a y) as [-> | Hne].
  - intros [= ->]. reflexivity.
  - destruct (remove_first a l) as [r |]; [| discriminate].
    intros [= <-]. simpl. rewrite (IH r eq_refl). lra.
Qed.

Lemma remove_first_incl (a : Detail) (l l0 : list Detail) :
  remove_first a l = Some l0 -> incl l0 l.
Proof.
  intros H x Hx. apply (Permutation_in _ (Permutation_sym (remove_first_some_perm _ _ H))).
  right. exact Hx.
Qed.

Lemma remove_first_in (a : Detail) (l l0 : list Detail) :
  remove_first a l = Some l0 -> In a l.
Proof.
  intros H. apply (Permutation_in _ (Permutation_sym (remove_first_some_perm _ _ H))).
  left. reflexivity.
Qed.

(** Taking an element out of a list of pairwise apart elements: the rest is
    pairwise apart and apart from the element. *)
Lemma remove_first_pairs (Rel : Detail -> Detail -> Prop) (a : Detail) (l l0 : list Detail) :
  (forall x y, Rel x y -> Rel y x) ->
  ForallOrdPairs Rel l -> remove_first a l = Some l0 ->
  ForallOrdPairs Rel l0 /\ forall y, In y l0 -> Rel a y.
Proof.
  intros Hsym. revert l0. induction l as [| z l IH]; simpl; intros l0 Hp; [discriminate |].
  inversion Hp as [| ? ? Hz Hl]; subst.
  destruct (Detail_eq_dec a z) as [-> | Hne].
  - intros [= ->]. split; [exact Hl |]. rewrite Forall_forall in Hz. exact Hz.
  - destruct (remove_first a l) as [r |] eqn:E; [| discriminate].
    intros [= <-]. destruct (IH r Hl eq_refl) as [Hr Ha]. split.
    + constructor; [| exact Hr]. apply Forall_forall. intros y Hy.
      rewrite Forall_forall in Hz. apply Hz. apply (remove_first_incl _ _ E), Hy.
    + intros y [<- | Hy]; [| apply Ha, Hy].
      apply Hsym. rewrite Forall_forall in Hz. apply Hz.
      apply (remove_first_in _ _ E).
Qed.

Lemma pairs_app (Rel : Detail -> Detail -> Prop) (l1 l2 : list Detail) :
  ForallOrdPairs Rel l1 -> ForallOrdPairs Rel l2 ->
  (forall x y, In x l1 -> In y l2 -> Rel x y) ->
  ForallOrdPairs Rel (l1 ++ l2).
Proof.
  induction l1 as [| a l1 IH]; simpl; intros H1 H2 H12; [exact H2 |].
  inversion H1 as [| ? ? Ha Hl1]; subst. constructor.
  - apply Forall_app. split; [exact Ha |].
    apply Forall_forall. intros y Hy. apply H12; [left; reflexivity | exact Hy].
  - apply IH; [exact Hl1 | exact H2 |]. intros x y Hx Hy. apply H12; [right |]; assumption.
Qed.

(** Replacing the rectangle [a] of the list by pieces that lie in it, are
    pairwise apart and have its area keeps I1, I2 and I3. *)
Lemma replace_by_pieces (sheet a : Detail) (P P0 Q : list Detail) :
  disjoint_interiors P -> all_inside sheet P -> area_conserved sheet P ->
  remove_first a P = Some P0 ->
  Forall (lies_inside a) Q -> disjoint_interiors Q -> total_area Q = area a ->
  disjoint_interiors (P0 ++ Q) /\ all_inside sheet (P0 ++ Q) /\
  area_conserved sheet (P0 ++ Q).
Proof.
  unfold disjoint_interiors, all_inside, area_conserved.
  intros H1 H2 H3 Hrem HQin HQd HQa.
  destruct (@remove_first_pairs (fun x y => ~ share_interior x y) a P P0) as [HP0 Ha];
    [intros x y Hn Hs; apply Hn, share_interior_sym, Hs | exact H1 | exact Hrem |].
  rewrite Forall_forall in H2, HQin.
  assert (Hasheet : lies_inside sheet a) by apply H2, (remove_first_in _ _ Hrem).
  split; [| split].
  - apply pairs_app; [exact HP0 | exact HQd |].
    intros x q Hx Hq Hs. apply (Ha x Hx).
    apply (@share_interior_inside a x q (HQin q Hq)).
    apply share_interior_sym, Hs.
  - apply Forall_forall. intros x Hx. apply in_app_or in Hx. destruct Hx as [Hx | Hx].
    + apply H2, (remove_first_incl _ _ Hrem), Hx.
    + apply (@lies_inside_trans sheet a x Hasheet (HQin x Hx)).
  - rewrite total_area_app, HQa. rewrite (total_area_remove _ _ Hrem) in H3. lra.
Qed.
Ltac apart :=
  let x := fresh "x" in let y := fresh "y" in
  let Ha := fresh "Ha" in let Hb := fresh "Hb" in
  intros (x & y & Ha & Hb); unfold interior in Ha, Hb; simpl in Ha, Hb; lra.

Ltac all_in := repeat (apply Forall_cons; [simpl; lra |]); apply Forall_nil.
Ltac all_apart :=
  repeat (apply FOP_cons;
          [repeat (apply Forall_cons; [apart |]); apply Forall_nil |]);
  apply FOP_nil.

(** The three pieces of an active box that is long and wide enough. *)
Lemma pieces_of_active_box (hz : bool) (ab : Detail) (d : R * R) (n e : Z)
  (tyB tyE : string) :
  lies_inside ab ab ->
  0 <= fst d <= major hz ab -> 0 <= snd d <= minor hz ab ->
  let Q := [placed_detail_of hz ab d n; normal_box_of hz ab d n tyB;
            endpoint_of hz ab d e tyE] in
  Forall (lies_inside ab) Q /\ disjoint_interiors Q /\ total_area Q = area ab /\
  minor hz (endpoint_of hz ab d e tyE) = minor hz ab.
Proof.
  destruct ab as [[x0 y0] [x1 y1] nm ty], d as [w h].
  unfold lies_inside, major, minor, width, height, placed_detail_of, normal_box_of,
    endpoint_of, disjoint_interiors, total_area, area.
  simpl. intros Hwf Hw Hh.
  destruct hz; simpl in *; (split; [| split; [| split]]).
  - all_in.
  - all_apart.
  - unfold width, height; simpl; ring.
  - reflexivity.
  - all_in.
  - all_apart.
  - unfold width, height; simpl; ring.
  - reflexivity.
Qed.

(** The stripe and what is left of the LRP. *)
Lemma pieces_of_lrp (l : Detail) (d : R * R) (g : R) (e : Z) :
  lies_inside l l ->
  0 <= snd d + g <= Rmax (width l) (height l) ->
  let hz := Rleb (width l) (height l) in
  let stripe := stripe_of l d g e in
  let Q := [stripe; rest_of_lrp l d g] in
  Forall (lies_inside l) Q /\ disjoint_interiors Q /\ total_area Q = area l /\
  major hz stripe = Rmin (width l) (height l) /\ minor hz stripe = snd d + g.
Proof.
  destruct l as [[x0 y0] [x1 y1] nm ty], d as [w h].
  unfold lies_inside, major, minor, stripe_of, rest_of_lrp,
    disjoint_interiors, total_area, area, width, height.
  simpl. intros Hwf Hh.
  destruct (Rleb (x1 - x0) (y1 - y0)) eqn:E.
  - apply Rleb_true in E. rewrite Rmax_right in Hh by exact E.
    rewrite Rmin_left by exact E. simpl.
    split; [| split; [| split; [| split]]].
    + all_in.
    + all_apart.
    + unfold width, height; simpl; ring.
    + reflexivity.
    + lra.
  - apply Rleb_false in E. rewrite Rmax_left in Hh by lra.
    rewrite Rmin_right by lra. simpl.
    split; [| split; [| split; [| split]]].
    + all_in.
    + all_apart.
    + unfold width, height; simpl; ring.
    + reflexivity.
    + lra.
Qed.
Section GeometrySteps.
Context {S : Type} {BS : BoxStorage S} {LS : LawfulStorage S}.
Import SlackPackAlgorithm.
Variable sheet : Detail.

Lemma inside_sheet_self (P : list Detail) (a : Detail) :
  all_inside sheet P -> In a P -> lies_inside a a.
Proof.
  intros Hall Hin. unfold all_inside in Hall. rewrite Forall_forall in Hall.
  specialize (Hall a Hin). unfold lies_inside in *. lra.
Qed.

(** A box popped for the detail [(w, h)] under the gap [g] takes it. *)
Lemma popped_box_fits (b : Detail) (w h g : R) :
  0 < g -> 0 <= w -> 0 <= h -> w <= h + g -> h + g <= min_size b ->
  let hz := Rgeb (width b) (height b) in
  0 <= w <= major hz b /\ 0 <= h <= minor hz b.
Proof.
  intros Hg Hw Hh Hwg Hfit hz. subst hz. unfold min_size, Rmin in Hfit.
  unfold major, minor, Rgeb, Rleb.
  destruct (Rle_dec (width b) (height b)), (Rle_dec (height b) (width b)); lra.
Qed.

(** Placing a detail into an active box that is long and wide enough. *)
Lemma place_keeps_geometry (s : t S) (P : list Detail) (d : R * R) (ab l : Detail) :
  engine_inv (s, P) -> update_placed_details s = true ->
  disjoint_interiors P -> all_inside sheet P -> area_conserved sheet P ->
  lrp s = Some l -> active_box s = Some ab ->
  0 <= fst d <= major (is_active_box_horizontal s) ab ->
  0 <= snd d <= minor (is_active_box_horizontal s) ab ->
  exists s' P',
    _place_detail_in_active_box d (s, P) = (Ret tt, (s', P')) /\
    geometry_inv sheet (snd d) (s', P') /\
    gamma s' = gamma s /\ last_placed_index s' = (last_placed_index s + 1)%Z.
Proof.
  intros Hinv Hu H1 H2 H3 Hl Hab Hw Hh.
  destruct (@place_phase _ _ _ s P d ab l Hinv Hl Hab) as (st' & P' & Hshape & HC & Hinv').
  cbv zeta in HC, Hinv'. rewrite Hu in Hshape. destruct Hshape as (P0 & Hrem & ->).
  eexists. eexists. split; [exact HC |].
  pose proof (@inside_sheet_self P ab H2 (remove_first_in _ _ Hrem)) as Hwf.
  destruct (@pieces_of_active_box (is_active_box_horizontal s) ab d
              (last_placed_index s + 1) (endpoints_placed s)
              (_get_normal_box_type s) (_get_endpoint_type s) Hwf Hw Hh)
    as (HQin & HQd & HQa & Hminor).
  destruct (@replace_by_pieces sheet ab P P0 _ H1 H2 H3 Hrem HQin HQd HQa)
    as (H1' & H2' & H3').
  split; [| split; reflexivity].
  split; [exact Hinv' |]. split; [exact Hu |]. cbn [fst snd].
  split; [exact H1' |]. split; [exact H2' |]. split; [exact H3' |].
  cbn [active_box is_active_box_horizontal set_box_storage set_active_box
       set_last_placed_index].
  intros ab' [= <-]. rewrite Hminor. lra.
Qed.

(** One successful call of [place_next] on a detail that fits. *)
Lemma geometry_step (cap : R) (s : t S) (P : list Detail) (d : R * R)
  (s' : t S) (P' : list Detail) :
  geometry_inv sheet cap (s, P) ->
  0 <= fst d -> 0 <= snd d -> snd d <= cap ->
  fst d <= snd d + gap (gamma s) (last_placed_index s + 1) ->
  place_next d (s, P) = (Ret tt, (s', P')) ->
  geometry_inv sheet (snd d) (s', P') /\
  gamma s' = gamma s /\ last_placed_index s' = (last_placed_index s + 1)%Z.
Proof.
  intros (Hinv & Hu & H1 & H2 & H3 & Hcap) Hw Hh Hhc Hwg Hcall. cbn [fst snd] in *.
  destruct (@retire_phase _ _ _ s P d Hinv) as (l & s1 & Hl & HA & Hinv1 & Hl1 & Hcase).
  assert (Hpn : place_next d (s, P) =
                bind (_choose_active_box d)
                     (fun _ => _place_detail_in_active_box d) (s1, P)).
  { rewrite place_next_unfold. unfold bind at 1. rewrite HA. reflexivity. }
  rewrite Hpn in Hcall. clear Hpn. unfold bind in Hcall.
  assert (Hs1 : update_placed_details s1 = true /\ gamma s1 = gamma s /\
                last_placed_index s1 = last_placed_index s /\
                (forall ab, active_box s1 = Some ab ->
                   active_box s = Some ab /\
                   is_active_box_horizontal s1 = is_active_box_horizontal s /\
                   fst d + gap (gamma s) (active_box_first_detail_index s)
                     <= major (is_active_box_horizontal s) ab)).
  { destruct Hcase as [[-> Hfit] | (ab & st & Hab & _ & ->)]; simpl.
    - repeat split; auto.
    - repeat split; auto; discriminate. }
  destruct Hs1 as (Hu1 & Hg1 & Hi1 & Hact1).
  pose proof (gap_pos (gamma s) (last_placed_index s + 1)) as Hg.
  destruct (active_box s1) as [ab |] eqn:Hab1.
  - rewrite (@choose_active_box_keep _ _ s1 P d ab Hab1) in Hcall.
    destruct (Hact1 ab eq_refl) as (Hab & Hhz & Hfit).
    pose proof (gap_pos (gamma s) (active_box_first_detail_index s)) as Hg0.
    destruct (@place_keeps_geometry s1 P d ab l Hinv1 Hu1 H1 H2 H3 Hl1 Hab1)
      as (s2 & P2 & HC & HG & Hg2 & Hi2).
    + rewrite Hhz. lra.
    + rewrite Hhz. specialize (Hcap ab Hab). lra.
    + rewrite HC in Hcall. injection Hcall as <- <-.
      split; [exact HG |]. split; congruence.
  - destruct (@choose_phase _ _ _ s1 P d l Hinv1 Hl1 Hh Hab1)
      as (o & Hget & [Hpop | [Hfail | Hcut]]).
    + destruct Hpop as (b & st' & -> & Hfit & HB & Hinv2). cbv zeta in HB, Hinv2.
      rewrite HB in Hcall. rewrite Hg1, Hi1 in Hfit.
      match type of Hinv2 with engine_inv (?x, _) => set (s2 := x) in * end.
      destruct (@popped_box_fits b (fst d) (snd d) _ Hg Hw Hh Hwg Hfit) as [Hbw Hbh].
      destruct (@place_keeps_geometry s2 P d b l Hinv2 Hu1 H1 H2 H3 Hl1 eq_refl Hbw Hbh)
        as (s3 & P3 & HC & HG & Hg3 & Hi3).
      rewrite HC in Hcall. injection Hcall as <- <-.
      split; [exact HG |]. split; [rewrite Hg3; exact Hg1 | rewrite Hi3; simpl; lia].
    + destruct Hfail as (_ & _ & sf & HB). rewrite HB in Hcall. discriminate.
    + destruct Hcut as (_ & Hok1 & Hok2 & P1 & HP1 & HB & Hinv2). cbv zeta in HB, Hinv2.
      rewrite HB in Hcall. rewrite Hu1 in HP1. destruct HP1 as (P0 & Hrem & ->).
      rewrite Hg1, Hi1 in Hok1, Hok2, Hinv2, Hcall.
      set (g := gap (gamma s) (last_placed_index s + 1)) in *.
      pose proof (@inside_sheet_self P l H2 (remove_first_in _ _ Hrem)) as Hwf.
      destruct (@pieces_of_lrp l d g (endpoints_placed s1) Hwf ltac:(lra))
        as (HQin & HQd & HQa & Hmaj & Hmin).
      destruct (@replace_by_pieces sheet l P P0 _ H1 H2 H3 Hrem HQin HQd HQa)
        as (H1' & H2' & H3').
      match type of Hinv2 with engine_inv (?x, _) => set (s2 := x) in * end.
      destruct (@place_keeps_geometry s2 _ d (stripe_of l d g (endpoints_placed s1))
                  (rest_of_lrp l d g) Hinv2 Hu1 H1' H2' H3' eq_refl eq_refl)
        as (s3 & P3 & HC & HG & Hg3 & Hi3).
      * cbn [s2 is_active_box_horizontal set_lrp set_active_box
             set_is_active_box_horizontal]. rewrite Hmaj. lra.
      * cbn [s2 is_active_box_horizontal set_lrp set_active_box
             set_is_active_box_horizontal]. rewrite Hmin. lra.
      * rewrite HC in Hcall. injection Hcall as <- <-.
        split; [exact HG |]. split; [rewrite Hg3; exact Hg1 | rewrite Hi3; simpl; lia].
Qed.

End GeometrySteps.
Section GeometryRuns.
Context {S : Type} {BS : BoxStorage S} {LS : LawfulStorage S}.
Import SlackPackAlgorithm.

Lemma geometry_init (gamma : R) (n0 max_placed : Z) (st : S) (sheet : Detail) (cap : R) :
  (1 <= n0)%Z -> stores st [] -> lies_inside sheet sheet ->
  geometry_inv sheet cap (init gamma n0 max_placed st true, [sheet]).
Proof.
  intros Hn Hst Hsheet. split; [apply engine_inv_init; assumption |].
  split; [reflexivity |]. cbn [fst snd]. split; [| split; [| split]].
  - apply FOP_cons; [apply Forall_nil | apply FOP_nil].
  - apply Forall_cons; [exact Hsheet | apply Forall_nil].
  - unfold area_conserved, total_area. simpl. lra.
  - simpl. discriminate.
Qed.

Lemma geometry_run (sheet : Detail) (ds : list (R * R)) :
  forall (cap : R) (s : t S) (P : list Detail) (s' : t S) (P' : list Detail),
    geometry_inv sheet cap (s, P) ->
    details_fit (gamma s) (last_placed_index s + 1) cap ds ->
    place_all ds (s, P) = (Ret tt, (s', P')) ->
    exists cap', geometry_inv sheet cap' (s', P').
Proof.
  induction ds as [| d rest IH]; intros cap s P s' P' Hinv Hfit Hrun.
  - injection Hrun as <- <-. exists cap. exact Hinv.
  - destruct Hfit as (Hw & Hh & Hcap & Hwg & Hrest).
    cbn [place_all] in Hrun. unfold bind in Hrun.
    destruct (place_next d (s, P)) as [[[] | e] [s1 P1]] eqn:Hcall; [| discriminate].
    destruct (@geometry_step _ _ _ sheet cap s P d s1 P1 Hinv Hw Hh Hcap Hwg Hcall)
      as (Hinv1 & Hg1 & Hi1).
    apply (IH (snd d) s1 P1 s' P' Hinv1); [| exact Hrun].
    rewrite Hg1, Hi1. exact Hrest.
Qed.

End GeometryRuns.

(** C3 (amended).  The engine is constructed with [n0 >= 1] and
    [update_placed_details = true] over a storage that keeps its boxes, and
    called on the list that holds the sheet, for details that are sizes, of
    heights that do not increase, each no wider than its height plus the gap
    [(1/n)^gamma] of its index [n].  After every call of a run in which the
    calls returned, no two rectangles of the list share an interior point,
    every rectangle lies inside the sheet and the areas of the rectangles
    add up to the area of the sheet. *)
Theorem placements_geometry
  (S : Type) (BS : BoxStorage S) (LS : LawfulStorage S)
  (gamma : R) (n0 max_placed : Z) (st : S) (sheet : Detail) (cap : R)
  (ds : list (R * R)) (s' : SlackPackAlgorithm.t S) (P' : list Detail) :
  (1 <= n0)%Z -> stores st [] -> lies_inside sheet sheet ->
  details_fit gamma n0 cap ds ->
  place_all ds (SlackPackAlgorithm.init gamma n0 max_placed st true, [sheet])
    = (Ret tt, (s', P')) ->
  disjoint_interiors P' /\ all_inside sheet P' /\ area_conserved sheet P'.
Proof.
  intros Hn Hst Hsheet Hfit Hrun.
  destruct (@geometry_run S BS LS sheet ds cap _ _ s' P'
              (@geometry_init S BS LS gamma n0 max_placed st sheet cap Hn Hst Hsheet))
    as (cap' & _ & _ & H1 & H2 & H3 & _).
  - simpl. replace (n0 - 1 + 1)%Z with n0 by lia. exact Hfit.
  - exact Hrun.
  - auto.
Qed.
(** ** A run that leaves the list overlapping *)

Ltac detail_eq :=
  simpl; f_equal; try reflexivity; apply injective_projections; simpl; lra.

Lemma gap_half (k : Z) : (0 < k)%Z -> gap 1 k = 1 / IZR k.
Proof.
  intros Hk. unfold gap. apply Rpower_1.
  apply Rdiv_lt_0_compat; [lra | apply IZR_lt; lia].
Qed.

Lemma run_sheet_sides : width sheet_9_2 = 9 / 2 /\ height sheet_9_2 = 9 / 2.
Proof. unfold width, height. simpl. split; lra. Qed.

Lemma run_stripe_eq : stripe_of sheet_9_2 (3, 1) 1 1 = run_stripe.
Proof.
  destruct run_sheet_sides as [Hw Hh]. unfold stripe_of. rewrite Hw, Hh.
  rewrite (proj2 (Rleb_true _ _)) by lra. unfold run_stripe. detail_eq.
Qed.

Lemma run_lrp_eq : rest_of_lrp sheet_9_2 (3, 1) 1 = run_lrp.
Proof.
  destruct run_sheet_sides as [Hw Hh]. unfold rest_of_lrp. rewrite Hw, Hh.
  rewrite (proj2 (Rleb_true _ _)) by lra. unfold run_lrp. detail_eq.
Qed.

Lemma run_pieces_1 :
  placed_detail_of true run_stripe (3, 1) 1 = run_D1 /\
  normal_box_of true run_stripe (3, 1) 1 "normal_box_1" = run_B1 /\
  endpoint_of true run_stripe (3, 1) 1 "endpoint_1" = run_E1.
Proof.
  unfold placed_detail_of, normal_box_of, endpoint_of, run_D1, run_B1, run_E1.
  repeat split; detail_eq.
Qed.

Lemma run_pieces_2 :
  placed_detail_of false run_E1 (5 / 2, 9 / 10) 2 = run_D2 /\
  normal_box_of false run_E1 (5 / 2, 9 / 10) 2 "normal_box_2" = run_B2 /\
  endpoint_of false run_E1 (5 / 2, 9 / 10) 2 "endpoint_1" = run_E2.
Proof.
  unfold placed_detail_of, normal_box_of, endpoint_of, run_D2, run_B2, run_E2.
  repeat split; detail_eq.
Qed.

Lemma run_first_call :
  SlackPackAlgorithm.place_next (3, 1)
    (SlackPackAlgorithm.init 1 1 2 InMemoryBoxStorage.init true, [sheet_9_2])
  = (Ret tt, (run_engine_1, [run_lrp; run_D1; run_B1; run_E1])).
Proof.
  set (s0 := SlackPackAlgorithm.init 1 1 2 InMemoryBoxStorage.init true).
  destruct run_sheet_sides as [Hw Hh].
  rewrite place_next_unfold. unfold bind at 1. unfold bind at 1.
  rewrite (check_if_lrp_none_spec s0 [sheet_9_2] (l := sheet_9_2) eq_refl).
  rewrite check_active_box_size_none by reflexivity.
  unfold bind.
  pose proof (choose_active_box_cut (SlackPackAlgorithm.set_lrp (Some sheet_9_2) s0)
                [sheet_9_2] (3, 1) (o := None) (l := sheet_9_2) eq_refl) as Hcut.
  specialize (Hcut ltac:(simpl; lia) eq_refl).
  cbv zeta in Hcut.
  specialize (Hcut ltac:(unfold s0; cbn -[gap]; pose proof (gap_pos 1 1); lra)
                   eq_refl).
  unfold s0 in *.
  cbn -[stripe_of rest_of_lrp placed_detail_of normal_box_of endpoint_of gap width
        height Rmax Rmin Rleb Rgtb remove_first min_size
        SlackPackAlgorithm._choose_active_box] in Hcut.
  rewrite gap_one, Hw, Hh, run_stripe_eq, run_lrp_eq, remove_first_self in Hcut.
  rewrite Rmax_left, Rmin_left in Hcut by lra.
  unfold Rgtb in Hcut.
  rewrite (proj2 (Rltb_false _ _)) in Hcut by lra.
  rewrite (proj2 (Rltb_false _ _)) in Hcut by lra.
  rewrite (proj2 (Rleb_true _ _)) in Hcut by lra.
  cbn [orb app] in Hcut.
  rewrite Hcut. clear Hcut.
  match goal with
  | |- SlackPackAlgorithm._place_detail_in_active_box ?d (?s, ?P) = _ =>
      rewrite (place_detail_in_active_box_eq s P d (ab := run_stripe) eq_refl)
  end.
  cbn -[placed_detail_of normal_box_of endpoint_of remove_first].
  rewrite remove_first_self.
  destruct run_pieces_1 as (HD & HB & HE).
  change SlackPackAlgorithm.NORMAL_BOX_TYPE_1_NAME with "normal_box_1"%string.
  change SlackPackAlgorithm.ENDPOINT_TYPE_1_NAME with "endpoint_1"%string.
  rewrite HD, HB, HE. reflexivity.
Qed.

Lemma run_E1_sides : width run_E1 = 3 / 2 /\ height run_E1 = 2.
Proof. unfold width, height. simpl. split; lra. Qed.

Lemma run_E1_min_size : min_size run_E1 = 3 / 2.
Proof.
  destruct run_E1_sides as [Hw Hh]. unfold min_size. rewrite Hw, Hh.
  apply Rmin_left. lra.
Qed.

Lemma run_B1_min_size : min_size run_B1 = 1.
Proof.
  unfold min_size, width, height. simpl.
  replace (3 - 0) with 3 by lra. replace (2 - 1) with 1 by lra.
  apply Rmin_right. lra.
Qed.

Lemma run_add_E1 : SortedSet.add run_E1 [run_B1] = [run_E1; run_B1].
Proof.
  unfold SortedSet.add.
  destruct (in_dec Detail_eq_dec run_E1 [run_B1]) as [[E | []] | _];
    [discriminate E |].
  cbn [SortedSet.insort]. unfold SortedSet.cmp.
  rewrite run_E1_min_size, run_B1_min_size.
  rewrite (proj2 (Rltb_true _ _)) by lra. reflexivity.
Qed.

Lemma run_remove_E1 :
  remove_first run_E1 [run_lrp; run_D1; run_B1; run_E1]
    = Some [run_lrp; run_D1; run_B1].
Proof.
  cbn [remove_first].
  destruct (Detail_eq_dec run_E1 run_lrp) as [E | _]; [discriminate E |].
  destruct (Detail_eq_dec run_E1 run_D1) as [E | _]; [discriminate E |].
  destruct (Detail_eq_dec run_E1 run_B1) as [E | _]; [discriminate E |].
  destruct (Detail_eq_dec run_E1 run_E1) as [_ | N]; [reflexivity | contradiction].
Qed.

Lemma run_second_call :
  SlackPackAlgorithm.place_next (5 / 2, 9 / 10)
    (run_engine_1, [run_lrp; run_D1; run_B1; run_E1])
  = (Ret tt, (run_engine_2, [run_lrp; run_D1; run_B1; run_D2; run_B2; run_E2])).
Proof.
  destruct run_E1_sides as [Hw Hh].
  rewrite place_next_unfold. unfold bind at 1. unfold bind at 1.
  rewrite (check_if_lrp_none_spec run_engine_1 _ (l := run_lrp) eq_refl).
  rewrite (check_active_box_size_retire
             (SlackPackAlgorithm.set_lrp (Some run_lrp) run_engine_1)
             [run_lrp; run_D1; run_B1; run_E1] (5 / 2, 9 / 10) (ab := run_E1) eq_refl).
  2:{ cbn. discriminate. }
  2:{ cbn -[gap width]. rewrite gap_one, Hw. lra. }
  cbn -[SortedSet.add]. rewrite run_add_E1. unfold bind.
  match goal with
  | |- context [SlackPackAlgorithm._choose_active_box ?d (?s, ?P)] =>
      pose proof (choose_active_box_pop s P d (b := run_E1)
                    (st' := InMemoryBoxStorage.mk [run_B1]) eq_refl) as Hpop
  end.
  specialize (Hpop ltac:(cbn; lia)). cbv zeta in Hpop.
  specialize (Hpop (in_memory_get _)).
  specialize (Hpop ltac:(cbn -[gap min_size]; rewrite run_E1_min_size,
                          (@gap_half 2) by lia; lra)).
  specialize (Hpop (in_memory_pop _)).
  rewrite Hpop. clear Hpop.
  match goal with
  | |- SlackPackAlgorithm._place_detail_in_active_box ?d (?s, ?P) = _ =>
      rewrite (place_detail_in_active_box_eq s P d (ab := run_E1) eq_refl)
  end.
  cbn -[placed_detail_of normal_box_of endpoint_of remove_first SortedSet.add
        Rgeb width height].
  rewrite run_remove_E1. unfold Rgeb. rewrite Hw, Hh.
  rewrite (proj2 (Rleb_false _ _)) by lra.
  destruct run_pieces_2 as (HD & HB & HE).
  change SlackPackAlgorithm.NORMAL_BOX_TYPE_2_NAME with "normal_box_2"%string.
  change SlackPackAlgorithm.ENDPOINT_TYPE_1_NAME with "endpoint_1"%string.
  rewrite HD, HB, HE. reflexivity.
Qed.

(** C3 (as stated) fails: on the sheet of side 9/2, with [gamma = 1] and
    [n0 = 1], the calls for the details [(3, 1)] and [(5/2, 9/10)] both
    return.  The second one retires the rest [E1] of the first stripe, of
    sides 3/2 and 2, takes it back from the storage, since
    [9/10 + 1/2 <= 3/2], and lays the detail along its side of length 2: the
    placed detail [D2] reaches up to 5/2, into the LRP, which starts at 2. *)
Lemma overlapping_detail_counterexample :
  exists s' P',
    place_all [(3, 1); (5 / 2, 9 / 10)]
      (SlackPackAlgorithm.init 1 1 2 InMemoryBoxStorage.init true, [sheet_9_2])
      = (Ret tt, (s', P')) /\
    SlackPackAlgorithm.update_placed_details s' = true /\
    P' = [run_lrp; run_D1; run_B1; run_D2; run_B2; run_E2] /\
    share_interior run_lrp run_D2 /\
    ~ disjoint_interiors P'.
Proof.
  assert (Hshare : share_interior run_lrp run_D2).
  { exists 4, (9 / 4). unfold interior. simpl. lra. }
  exists run_engine_2, [run_lrp; run_D1; run_B1; run_D2; run_B2; run_E2].
  split; [| split; [reflexivity | split; [reflexivity | split; [exact Hshare |]]]].
  - cbn [place_all]. unfold bind. rewrite run_first_call, run_second_call. reflexivity.
  - intros H. inversion H as [| a l Ha Hl]; subst.
    rewrite Forall_forall in Ha. apply (Ha run_D2); [| exact Hshare].
    right. right. left. reflexivity.
Qed.

Lemma placements_geometry_witness :
  exists s' P',
    place_all [(1, 1)] (fresh_engine, [wide_sheet]) = (Ret tt, (s', P')) /\
    disjoint_interiors P' /\ all_inside wide_sheet P' /\ area_conserved wide_sheet P'.
Proof.
  destruct wide_sheet_sides as [Hw Hh].
  assert (Hst : stores InMemoryBoxStorage.init [])
    by exact (conj (Permutation_refl _) (SSorted_nil _)).
  destruct (first_call_places (LS := InMemory_Lawful) 1 (n0 := 1) 1
              InMemoryBoxStorage.init wide_sheet (1, 1) ltac:(lia) Hst ltac:(simpl; lra))
    as (s' & tyB & tyE & Hrun).
  - rewrite gap_one, Hw, Hh. simpl. rewrite Rmax_left; lra.
  - rewrite gap_one, Hw, Hh. simpl. rewrite Rmin_left; lra.
  - match type of Hrun with
    | _ = (_, (_, ?L)) =>
        exists s', L;
        assert (Hall : place_all [(1, 1)] (fresh_engine, [wide_sheet]) = (Ret tt, (s', L)))
          by (cbn [place_all]; unfold bind, fresh_engine; rewrite Hrun; reflexivity)
    end.
    split; [exact Hall |].
    apply (@placements_geometry _ _ InMemory_Lawful 1 1 1 InMemoryBoxStorage.init
             wide_sheet 1 [(1, 1)] s' _ ltac:(lia) Hst).
    + unfold lies_inside. simpl. lra.
    + simpl. rewrite gap_one. lra.
    + exact Hall.
Defined.

(** ** Runs of the driver on streams that fit *)

Section DriverGeometry.
Context {S : Type} {BS : BoxStorage S} {LS : LawfulStorage S}.
Context {G : Type} {DG : DetailGenerator G}.
Variable sheet : Detail.
Variable gamma0 : R.

(** [J n cap g]: from the state [g] on, the generator yields details that fit
    the engine about to place the detail of index [n] under the bound [cap]
    on heights. *)
Variable J : Z -> R -> G -> Prop.
Hypothesis J_next : forall n cap g,
  J n cap g ->
  exists d g', next g = (Ret d, g') /\
    0 <= fst d /\ 0 <= snd d /\ snd d <= cap /\
    fst d <= snd d + gap gamma0 n /\
    J (n + 1) (snd d) g'.

Lemma loop_keeps_geometry (fuel : nat) (mp : Z) :
  forall (k : Z) (cap : R) (s : SlackPackAlgorithm.t S) (g : G) (P : list Detail),
    geometry_inv sheet cap (s, P) -> SlackPackAlgorithm.gamma s = gamma0 ->
    J (SlackPackAlgorithm.last_placed_index s + 1) cap g ->
    let P' := snd (snd (DetailPlacer.loop fuel mp k (s, g, P))) in
    disjoint_interiors P' /\ all_inside sheet P' /\ area_conserved sheet P'.
Proof.
  induction fuel as [| fuel IH]; intros k cap s g P Hinv Hg HJ.
  - destruct Hinv as (_ & _ & H1 & H2 & H3 & _). simpl. auto.
  - destruct (J_next HJ) as (d & g' & Hd & Hw & Hh & Hcap & Hfit & HJ').
    pose proof Hinv as (Hengine & _ & H1 & H2 & H3 & _). cbn [fst snd] in *.
    destruct (Z.ltb_spec k mp) as [Hlt | Hge].
    + destruct (place_next d (s, P)) as [[[] | e] [s1 P1]] eqn:Hcall.
      * rewrite (loop_place_returns fuel s g P Hd Hlt Hcall).
        rewrite <- Hg in Hfit.
        destruct (@geometry_step _ _ _ sheet cap s P d s1 P1 Hinv Hw Hh Hcap Hfit Hcall)
          as (Hinv1 & Hg1 & Hi1).
        apply (IH (k + 1)%Z (snd d) s1 g' P1 Hinv1); [congruence |].
        rewrite Hi1. exact HJ'.
      * rewrite (loop_place_raises fuel s g P Hd Hlt Hcall).
        cbn [snd].
        change (SlackPackAlgorithm.place_next d (s, P) = (Raise e, (s1, P1))) in Hcall.
        destruct (@place_next_outcome _ _ _ (s, P) d Hengine Hh)
          as [(w' & Hret & _) | (w' & w1 & Hraise & Hsame & _)].
        -- rewrite Hcall in Hret. discriminate.
        -- rewrite Hcall in Hraise. injection Hraise as _ <-. cbn [snd] in Hsame.
           rewrite Hsame. auto.
    + rewrite (loop_breaks fuel s g P Hd Hge). cbn [snd]. auto.
Qed.

End DriverGeometry.

(** The gap of index [d] is at least [1/d - 1/(d+1)] for [gamma <= 2]. *)
Lemma gap_covers_harmonic_step (gamma : R) (d : Z) :
  gamma <= 2 -> (1 <= d)%Z ->
  1 / IZR d <= 1 / IZR (d + 1) + gap gamma d.
Proof.
  intros Hg Hd.
  assert (Hx : 1 <= IZR d) by (apply IZR_le; exact Hd).
  rewrite plus_IZR. set (x := IZR d) in *.
  assert (Hsq : Rpower (1 / x) 2 <= gap gamma d).
  { unfold gap. fold x. unfold Rpower.
    assert (Hln : ln (1 / x) <= 0).
    { rewrite <- ln_1. destruct (Req_dec x 1) as [-> | Hne].
      - replace (1 / 1) with 1 by lra. lra.
      - left. apply ln_increasing.
        + apply Rdiv_lt_0_compat; lra.
        + apply Rmult_lt_reg_r with x; [lra |]. unfold Rdiv.
          rewrite Rmult_assoc, Rinv_l by lra. lra. }
    destruct (Req_dec (2 * ln (1 / x)) (gamma * ln (1 / x))) as [E | Hne].
    - rewrite E. lra.
    - left. apply exp_increasing. nra. }
  assert (Hpow : Rpower (1 / x) 2 = (1 / x) * (1 / x)).
  { replace 2 with (INR 2) by (simpl; lra).
    rewrite Rpower_pow by (apply Rdiv_lt_0_compat; lra). simpl. lra. }
  assert (Hab : 1 / x - 1 / (x + 1) = (1 / x) * (1 / (x + 1))) by (field; lra).
  assert (Hle : 1 / (x + 1) <= 1 / x).
  { unfold Rdiv. rewrite !Rmult_1_l. apply Rinv_le_contravar; lra. }
  assert (Hpos : 0 < 1 / x) by (apply Rdiv_lt_0_compat; lra).
  assert (Hpos' : 0 < 1 / (x + 1)) by (apply Rdiv_lt_0_compat; lra).
  nra.
Qed.

Lemma inv_antitone (d : Z) : (1 <= d)%Z -> 0 < 1 / IZR (d + 1) <= 1 / IZR d.
Proof.
  intros Hd. assert (Hx : 1 <= IZR d) by (apply IZR_le; exact Hd).
  rewrite plus_IZR. split.
  - apply Rdiv_lt_0_compat; lra.
  - unfold Rdiv. rewrite !Rmult_1_l. apply Rinv_le_contravar; lra.
Qed.

(** The harmonic squares fit every engine. *)
Lemma squares_fit (gamma : R) (n : Z) (cap : R) (g : HarmonicSquareDetailGenerator.t) :
  (1 <= HarmonicSquareDetailGenerator.denominator g)%Z /\
  1 / IZR (HarmonicSquareDetailGenerator.denominator g) <= cap ->
  exists d g', next g = (Ret d, g') /\
    0 <= fst d /\ 0 <= snd d /\ snd d <= cap /\
    fst d <= snd d + gap gamma n /\
    ((1 <= HarmonicSquareDetailGenerator.denominator g')%Z /\
     1 / IZR (HarmonicSquareDetailGenerator.denominator g') <= snd d).
Proof.
  destruct g as [n0 d]. cbn [HarmonicSquareDetailGenerator.denominator].
  intros [Hd Hcap]. destruct (inv_antitone Hd) as [Hpos Hle].
  pose proof (gap_pos gamma n) as Hg.
  exists (1 / IZR d, 1 / IZR d), (HarmonicSquareDetailGenerator.mk n0 (d + 1)).
  split; [apply (square_next_eq n0 Hd) |].
  cbn [fst snd HarmonicSquareDetailGenerator.denominator].
  repeat split; try lra; lia.
Qed.

(** The harmonic rectangles fit every engine when the width is the smaller
    side; otherwise they fit the engine that numbers its details by their
    denominators, for [gamma <= 2]. *)
Lemma rectangles_fit (gamma : R) (n : Z) (cap : R) (g : HarmonicRectangleDetailGenerator.t) :
  let d0 := HarmonicRectangleDetailGenerator.denominator g in
  let b := HarmonicRectangleDetailGenerator.is_width_smaller g in
  (1 <= d0)%Z /\ 1 / IZR (if b then d0 else d0 + 1) <= cap /\
  (b = false -> n = d0 /\ gamma <= 2) ->
  exists d g', next g = (Ret d, g') /\
    0 <= fst d /\ 0 <= snd d /\ snd d <= cap /\
    fst d <= snd d + gap gamma n /\
    (let d1 := HarmonicRectangleDetailGenerator.denominator g' in
     let b' := HarmonicRectangleDetailGenerator.is_width_smaller g' in
     (1 <= d1)%Z /\ 1 / IZR (if b' then d1 else d1 + 1) <= snd d /\
     (b' = false -> (n + 1)%Z = d1 /\ gamma <= 2)).
Proof.
  destruct g as [n0 d b].
  cbn [HarmonicRectangleDetailGenerator.denominator
       HarmonicRectangleDetailGenerator.is_width_smaller].
  intros (Hd & Hcap & Hb). destruct (inv_antitone Hd) as [Hpos Hle].
  destruct (@inv_antitone (d + 1) ltac:(lia)) as [Hpos2 Hle2].
  pose proof (gap_pos gamma n) as Hg.
  eexists. eexists. split; [apply (rectangle_next_eq n0 b Hd) |].
  cbn [HarmonicRectangleDetailGenerator.denominator
       HarmonicRectangleDetailGenerator.is_width_smaller].
  destruct b; cbn [fst snd].
  - repeat split; try lra; try lia; discriminate.
  - destruct (Hb eq_refl) as [-> Hg2].
    pose proof (gap_covers_harmonic_step Hg2 Hd) as Hstep.
    repeat split; try lra; try lia.
Qed.

(** On harmonic squares the driver returns a list in which no two rectangles
    share an interior point, every rectangle lies inside the sheet and the
    areas add up to the area of the sheet: whatever [gamma], the number of
    details asked for, the first denominator [m >= 1] and the sheet, for an
    engine constructed with [n0 >= 1] that keeps the list up to date over a
    storage that keeps its boxes.  A call that finds the LRP too small ends
    the run with the list of the call before. *)
Theorem harmonic_squares_run_geometry
  (S : Type) (BS : BoxStorage S) (LS : LawfulStorage S)
  (gamma : R) (n0 mp : Z) (st : S) (sheet : Detail) (m max_placed : Z) :
  (1 <= n0)%Z -> stores st [] -> lies_inside sheet sheet -> (1 <= m)%Z ->
  exists P,
    fst (DetailPlacer.run_algorithm
           (DetailPlacer.mk (SlackPackAlgorithm.init gamma n0 mp st true)
              (HarmonicSquareDetailGenerator.init m) sheet max_placed)) = Some P /\
    disjoint_interiors P /\ all_inside sheet P /\ area_conserved sheet P.
Proof.
  intros Hn Hst Hsheet Hm. eexists. split; [apply run_algorithm_returns |].
  cbn [DetailPlacer.algorithm DetailPlacer.detail_generator DetailPlacer.base_detail
       DetailPlacer.max_placed].
  apply (@loop_keeps_geometry S BS LS _ _ sheet gamma
           (fun _ cap g =>
              (1 <= HarmonicSquareDetailGenerator.denominator g)%Z /\
              1 / IZR (HarmonicSquareDetailGenerator.denominator g) <= cap)
           (@squares_fit gamma) _ max_placed 0%Z (1 / IZR m)).
  - apply geometry_init; assumption.
  - reflexivity.
  - split; [exact Hm | simpl; lra].
Qed.

Lemma harmonic_squares_run_geometry_witness :
  exists P,
    fst (DetailPlacer.run_algorithm one_square_placer) = Some P /\
    disjoint_interiors P /\ all_inside wide_sheet P /\ area_conserved wide_sheet P.
Proof.
  apply (@harmonic_squares_run_geometry _ _ InMemory_Lawful 1 1 1
           InMemoryBoxStorage.init wide_sheet 1 1).
  - lia.
  - exact (conj (Permutation_refl _) (SSorted_nil _)).
  - unfold lies_inside. simpl. lra.
  - lia.
Defined.

(** The same on harmonic rectangles whose width is the smaller side; on those
    whose height is the smaller side, for [gamma <= 2] and an engine that
    starts at the generator's first denominator. *)
Theorem harmonic_rectangles_run_geometry
  (S : Type) (BS : BoxStorage S) (LS : LawfulStorage S)
  (gamma : R) (n0 mp : Z) (st : S) (sheet : Detail) (m max_placed : Z)
  (is_width_smaller : bool) :
  (1 <= n0)%Z -> stores st [] -> lies_inside sheet sheet -> (1 <= m)%Z ->
  (is_width_smaller = false -> m = n0 /\ gamma <= 2) ->
  exists P,
    fst (DetailPlacer.run_algorithm
           (DetailPlacer.mk (SlackPackAlgorithm.init gamma n0 mp st true)
              (HarmonicRectangleDetailGenerator.init m is_width_smaller)
              sheet max_placed)) = Some P /\
    disjoint_interiors P /\ all_inside sheet P /\ area_conserved sheet P.
Proof.
  intros Hn Hst Hsheet Hm Hb. eexists. split; [apply run_algorithm_returns |].
  cbn [DetailPlacer.algorithm DetailPlacer.detail_generator DetailPlacer.base_detail
       DetailPlacer.max_placed].
  apply (@loop_keeps_geometry S BS LS _ _ sheet gamma
           (fun n cap g =>
              let d0 := HarmonicRectangleDetailGenerator.denominator g in
              let b := HarmonicRectangleDetailGenerator.is_width_smaller g in
              (1 <= d0)%Z /\ 1 / IZR (if b then d0 else d0 + 1) <= cap /\
              (b = false -> n = d0 /\ gamma <= 2))
           (@rectangles_fit gamma) _ max_placed 0%Z
           (1 / IZR (if is_width_smaller then m else m + 1))).
  - apply geometry_init; assumption.
  - reflexivity.
  - cbn. split; [exact Hm |]. split; [lra |].
    intros E. destruct (Hb E) as [-> Hg]. split; [lia | exact Hg].
Qed.

Lemma harmonic_rectangles_run_geometry_witness :
  exists P,
    fst (DetailPlacer.run_algorithm
           (DetailPlacer.mk fresh_engine
              (HarmonicRectangleDetailGenerator.init 1 false) wide_sheet 1)) = Some P /\
    disjoint_interiors P /\ all_inside wide_sheet P /\ area_conserved wide_sheet P.
Proof.
  apply (@harmonic_rectangles_run_geometry _ _ InMemory_Lawful 1 1 1
           InMemoryBoxStorage.init wide_sheet 1 1 false).
  - lia.
  - exact (conj (Permutation_refl _) (SSorted_nil _)).
  - unfold lies_inside. simpl. lra.
  - lia.
  - intros _. split; [reflexivity | lra].
Defined.
(** ** The details never outgrow the base sheet *)

Lemma details_area_app (l1 l2 : list (R * R)) :
  details_area (l1 ++ l2) = details_area l1 + details_area l2.
Proof. induction l1 as [| a l1 IH]; simpl; [lra | rewrite IH; lra]. Qed.

Lemma details_area_seq (f : nat -> R * R) (k : nat) :
  details_area (map f (seq 0 k)) = sum_upto (fun j => fst (f j) * snd (f j)) k.
Proof.
  induction k as [| k IH]; [reflexivity |].
  rewrite seq_S, map_app, details_area_app, IH. simpl. lra.
Qed.

Lemma collect_next_shift (f : Z -> R * R) (d : Z) (k : nat) :
  f d :: map (fun j => f (d + 1 + Z.of_nat j)%Z) (seq 0 k)
    = map (fun j => f (d + Z.of_nat j)%Z) (seq 0 (Datatypes.S k)).
Proof.
  cbn [seq map]. rewrite Z.add_0_r. f_equal.
  rewrite <- seq_shift, map_map. apply map_ext. intros j. f_equal. lia.
Qed.

Lemma collect_squares (n0 d : Z) (k : nat) :
  (1 <= d)%Z ->
  collect HarmonicSquareDetailGenerator.next k (HarmonicSquareDetailGenerator.mk n0 d)
    = (Ret (map (fun j => (1 / IZR (d + Z.of_nat j), 1 / IZR (d + Z.of_nat j)))
                (seq 0 k)),
       HarmonicSquareDetailGenerator.mk n0 (d + Z.of_nat k)).
Proof.
  revert d. induction k as [| k IH]; intros d Hd.
  - cbn [collect seq map]. unfold ret. rewrite Z.add_0_r. reflexivity.
  - cbn [collect]. unfold bind. rewrite (square_next_eq n0 Hd).
    rewrite (IH (d + 1)%Z ltac:(lia)). unfold ret.
    rewrite (collect_next_shift (fun z => (1 / IZR z, 1 / IZR z)) d k).
    do 2 f_equal. lia.
Qed.

Lemma collect_rectangles (n0 d : Z) (b : bool) (k : nat) :
  (1 <= d)%Z ->
  collect HarmonicRectangleDetailGenerator.next k
    (HarmonicRectangleDetailGenerator.mk n0 d b)
    = (Ret (map (fun j => if b
                          then (1 / IZR (d + Z.of_nat j + 1), 1 / IZR (d + Z.of_nat j))
                          else (1 / IZR (d + Z.of_nat j), 1 / IZR (d + Z.of_nat j + 1)))
                (seq 0 k)),
       HarmonicRectangleDetailGenerator.mk n0 (d + Z.of_nat k) b).
Proof.
  revert d. induction k as [| k IH]; intros d Hd.
  - cbn [collect seq map]. unfold ret. rewrite Z.add_0_r. reflexivity.
  - cbn [collect]. unfold bind. rewrite (rectangle_next_eq n0 b Hd).
    rewrite (IH (d + 1)%Z ltac:(lia)). unfold ret.
    rewrite (collect_next_shift
               (fun z => if b then (1 / IZR (z + 1), 1 / IZR z)
                         else (1 / IZR z, 1 / IZR (z + 1))) d k).
    do 2 f_equal. lia.
Qed.

(** [1/(d(d+1)) + ... + 1/((d+k-1)(d+k)) = 1/d - 1/(d+k)]. *)
Lemma harmonic_rectangles_telescope (d : Z) (k : nat) :
  (1 <= d)%Z ->
  sum_upto (fun j => 1 / IZR (d + Z.of_nat j) * (1 / IZR (d + Z.of_nat j + 1))) k
    = 1 / IZR d - 1 / IZR (d + Z.of_nat k).
Proof.
  intros Hd. induction k as [| k IH].
  - simpl. rewrite Z.add_0_r. lra.
  - rewrite sum_upto_S, IH.
    replace (d + Z.of_nat (Datatypes.S k))%Z with (d + Z.of_nat k + 1)%Z by lia.
    rewrite (plus_IZR (d + Z.of_nat k) 1).
    assert (Hx : 1 <= IZR (d + Z.of_nat k)) by (apply IZR_le; lia).
    assert (Hx0 : 1 <= IZR d) by (apply IZR_le; lia).
    field. repeat split; lra.
Qed.

Lemma inv_sq_of_index (n0 : Z) (j : nat) :
  (1 <= n0)%Z ->
  1 / IZR (n0 + Z.of_nat j) * (1 / IZR (n0 + Z.of_nat j))
    = inv_sq (Datatypes.S (Z.to_nat (n0 - 1) + j)).
Proof.
  intros Hn. unfold inv_sq.
  replace (INR (Datatypes.S (Z.to_nat (n0 - 1) + j))) with (IZR (n0 + Z.of_nat j)).
  - simpl. lra.
  - rewrite INR_IZR_INZ. f_equal. lia.
Qed.

(** The area of the first [k] harmonic squares is at most the area of the
    sheet [get_base_size] asks for, and that of the first [k] harmonic
    rectangles is [1/n0 - 1/(n0+k)], below the area [1/n0] of their sheet. *)
Theorem details_area_within_base (n0 : Z) (k : nat) :
  (1 <= n0)%Z ->
  (exists ds g' side,
     collect next k (HarmonicSquareDetailGenerator.init n0) = (Ret ds, g') /\
     get_base_size (HarmonicSquareDetailGenerator.init n0)
       = (Ret (side, side), HarmonicSquareDetailGenerator.init n0) /\
     details_area ds <= side * side) /\
  (forall b : bool, exists ds g' side,
     collect next k (HarmonicRectangleDetailGenerator.init n0 b) = (Ret ds, g') /\
     get_base_size (HarmonicRectangleDetailGenerator.init n0 b)
       = (Ret (side, side), HarmonicRectangleDetailGenerator.init n0 b) /\
     side * side = 1 / IZR n0 /\
     details_area ds = 1 / IZR n0 - 1 / IZR (n0 + Z.of_nat k)).
Proof.
  intros Hn. split.
  - eexists. eexists. eexists.
    split; [apply (collect_squares n0 k Hn) |].
    split; [apply square_base_size_eq |].
    set (N := Z.to_nat (n0 - 1)).
    pose proof (inv_sq_sum_bound N) as HbN.
    rewrite sqrt_sqrt by lra. rewrite details_area_seq. cbn [fst snd].
    rewrite (sum_upto_ext _ (fun j => inv_sq (Datatypes.S (N + j))))
      by (intros j _; apply (inv_sq_of_index j Hn)).
    pose proof (inv_sq_sum_bound (N + k)) as Hb. unfold inv_sq_sum in Hb at 1.
    rewrite sum_upto_split in Hb. fold (inv_sq_sum N) in Hb. lra.
  - intros b. eexists. eexists. eexists.
    split; [apply (collect_rectangles n0 b k Hn) |].
    split; [apply (rectangle_base_size_eq n0 b Hn) |].
    assert (Hp : 0 < 1 / IZR n0).
    { apply Rdiv_lt_0_compat; [lra | apply IZR_lt; lia]. }
    split; [apply sqrt_sqrt; lra |].
    rewrite details_area_seq, <- (harmonic_rectangles_telescope k Hn).
    apply sum_upto_ext. intros j _. destruct b; cbn [fst snd]; lra.
Qed.

Lemma details_area_within_base_witness :
  exists ds g' side,
    collect next 3 (HarmonicRectangleDetailGenerator.init 2 true) = (Ret ds, g') /\
    get_base_size (HarmonicRectangleDetailGenerator.init 2 true)
      = (Ret (side, side), HarmonicRectangleDetailGenerator.init 2 true) /\
    side * side = 1 / IZR 2 /\
    details_area ds = 1 / IZR 2 - 1 / IZR (2 + Z.of_nat 3).
Proof.
  apply (proj2 (@details_area_within_base 2 3 ltac:(lia)) true).
Defined.

(** ** The partitions of the partitioned storage *)

Lemma strongly_sorted_nth (A : Type) (Rel : A -> A -> Prop) (l : list A) :
  StronglySorted Rel l ->
  forall i j a b, (i < j)%nat ->
    nth_error l i = Some a -> nth_error l j = Some b -> Rel a b.
Proof.
  induction 1 as [| x l Hl IH Hx]; intros i j a b Hij Hi Hj.
  - destruct i; discriminate.
  - destruct j as [| j]; [lia |]. cbn [nth_error] in Hj.
    destruct i as [| i]; cbn [nth_error] in Hi.
    + injection Hi as <-. rewrite Forall_forall in Hx.
      apply Hx. apply (nth_error_In _ _ Hj).
    + apply (IH i j a b ltac:(lia) Hi Hj).
Qed.

Lemma in_partition_in_range (rg : R * R) (r : Row) :
  HybridPartitionedBoxStorage.in_partition rg r = true <->
  in_range rg (min_size_col r).
Proof.
  unfold HybridPartitionedBoxStorage.in_partition, in_range.
  rewrite andb_true_iff, Rleb_true, Rltb_true. reflexivity.
Qed.

(** The ranges created lie in [[0, 1)]. *)
Lemma created_ranges_within_unit (n0 : Z) (gamma : R) (max_placed B : Z) (v : R)
  (rg : R * R) :
  (1 <= n0)%Z -> 0 < gamma -> (1 <= B)%Z ->
  In rg (created_ranges n0 gamma max_placed B) -> in_range rg v -> 0 <= v < 1.
Proof.
  intros Hn Hg HB Hin [Hlo Hhi]. unfold created_ranges in Hin.
  set (P := (max_placed / B + 1)%Z) in *. apply in_map_iff in Hin.
  destruct Hin as (i & <- & Hi).
  unfold range in Hi. apply in_map_iff in Hi. destruct Hi as (k & <- & Hk).
  apply in_seq in Hk. unfold expected_range in Hlo, Hhi. cbn [fst snd] in Hlo, Hhi.
  split.
  - destruct (Z.eqb_spec (0 + Z.of_nat k) (P - 1)); [lra |].
    pose proof (Rpower_pos (1 / IZR (n0 + (0 + Z.of_nat k + 1) * B)) gamma). lra.
  - destruct (Z.eqb_spec (0 + Z.of_nat k) 0) as [E | Hne]; [lra |].
    assert (Hle : Rpower (1 / IZR (n0 + (0 + Z.of_nat k) * B)) gamma
                  <= Rpower (1 / IZR 1) gamma).
    { apply inv_pow_antitone; [exact Hg | nia]. }
    replace (1 / IZR 1) with 1 in Hle by lra. rewrite Rpower_one_l in Hle. lra.
Qed.

(** For [n0 >= 1], [gamma > 0], [max_placed >= 0] and a partition size
    [B >= 1], the ranges created for the partitions split [[0, 1)]: a
    smaller side in [[0, 1)] lies in exactly one of them, and one outside in
    none; a row goes to the partition whose range its [min_size] is in. *)
Theorem partitions_split_unit_interval
  (n0 : Z) (gamma : R) (max_placed B : Z) :
  (1 <= n0)%Z -> 0 < gamma -> (0 <= max_placed)%Z -> (1 <= B)%Z ->
  exists ranges,
    HybridPartitionedBoxStorage._create_partition_ranges n0 gamma max_placed B []
      = (Ret tt, ranges) /\
    (forall v, 0 <= v < 1 ->
       exists i rg,
         nth_error ranges i = Some rg /\ in_range rg v /\
         forall j rg', nth_error ranges j = Some rg' -> in_range rg' v -> j = i) /\
    (forall v rg, In rg ranges -> in_range rg v -> 0 <= v < 1) /\
    (forall rg (r : Row),
       HybridPartitionedBoxStorage.in_partition rg r = true <->
       in_range rg (min_size_col r)).
Proof.
  intros Hn Hg Hm HB. exists (created_ranges n0 gamma max_placed B).
  split; [apply create_partition_ranges_eq; assumption |].
  pose proof (@created_ranges_desc n0 gamma max_placed B Hn Hg HB) as Hdesc.
  unfold created_ranges in *. set (P := (max_placed / B + 1)%Z) in *.
  assert (HP : (1 <= P)%Z).
  { subst P. pose proof (Z.div_pos max_placed B Hm ltac:(lia)). lia. }
  split; [| split; [| intros rg r; apply in_partition_in_range]].
  - intros v [Hv0 Hv1].
    destruct (@expected_ranges_cover n0 gamma B P v (Z.to_nat (P - 1)) 0%Z
                ltac:(lia) ltac:(lia) Hv0) as (i & Hi & Hlo & Hhi).
    { unfold expected_range. cbn [snd]. exact Hv1. }
    assert (Hnth : nth_error (map (expected_range n0 gamma B P) (range 0 P)) (Z.to_nat i)
                   = Some (expected_range n0 gamma B P i)).
    { apply map_nth_error. rewrite (@range_nth 0 P i) by lia. f_equal. }
    exists (Z.to_nat i), (expected_range n0 gamma B P i).
    split; [exact Hnth |]. split; [split; assumption |].
    intros j rg' Hj [Hlo' Hhi'].
    destruct (Nat.lt_trichotomy j (Z.to_nat i)) as [Hlt | [E | Hgt]]; [| exact E |].
    + pose proof (@strongly_sorted_nth _ _ _ Hdesc j (Z.to_nat i) _ _ Hlt Hj Hnth) as Hs.
      cbv beta in Hs. lra.
    + pose proof (@strongly_sorted_nth _ _ _ Hdesc (Z.to_nat i) j _ _ Hgt Hnth Hj) as Hs.
      cbv beta in Hs. lra.
  - intros v rg Hin Hv.
    apply (@created_ranges_within_unit n0 gamma max_placed B v rg Hn Hg HB Hin Hv).
Qed.

Lemma partitions_split_unit_interval_witness :
  exists ranges,
    HybridPartitionedBoxStorage._create_partition_ranges 1 1 5 2 [] = (Ret tt, ranges) /\
    (forall v, 0 <= v < 1 ->
       exists i rg,
         nth_error ranges i = Some rg /\ in_range rg v /\
         forall j rg', nth_error ranges j = Some rg' -> in_range rg' v -> j = i) /\
    (forall v rg, In rg ranges -> in_range rg v -> 0 <= v < 1) /\
    (forall rg (r : Row),
       HybridPartitionedBoxStorage.in_partition rg r = true <->
       in_range rg (min_size_col r)).
Proof.
  apply (@partitions_split_unit_interval 1 1 5 2); try lia. lra.
Defined.

(** The constructor of the partitioned storage divides by
    [boxes_in_partition] and by the indices [n0 + i * boxes_in_partition]: it
    raises [ZeroDivisionError] for [boxes_in_partition = 0], and for [n0 = 0]
    with at least one partition, before any partition is created. *)
Theorem partitioned_init_zero_division (gamma : R) (max_placed cache_size : Z) :
  (forall n0,
     HybridPartitionedBoxStorage.init n0 gamma max_placed 0 cache_size
       = Raise ZeroDivisionError) /\
  (forall B, (1 <= B)%Z -> (0 <= max_placed)%Z ->
     HybridPartitionedBoxStorage.init 0 gamma max_placed B cache_size
       = Raise ZeroDivisionError).
Proof.
  split.
  - intros n0. reflexivity.
  - intros B HB Hm. unfold HybridPartitionedBoxStorage.init,
      HybridPartitionedBoxStorage._create_partition_ranges.
    destruct (Z.eqb_spec B 0) as [E | _]; [lia |].
    set (P := (max_placed / B + 1)%Z).
    assert (HP : (1 <= P)%Z).
    { subst P. pose proof (Z.div_pos max_placed B Hm ltac:(lia)). lia. }
    unfold range. replace (Z.to_nat (P - 0)) with (Datatypes.S (Z.to_nat (P - 1))) by lia.
    cbn [seq map HybridPartitionedBoxStorage.append_ranges].
    unfold bind, of_outcome, HybridPartitionedBoxStorage.partition_range, inv_pow.
    destruct B as [| p | p]; [lia | reflexivity | lia].
Qed.

Lemma partitioned_init_zero_division_witness :
  (1 <= 2)%Z /\ (0 <= 5)%Z /\
  HybridPartitionedBoxStorage.init 0 1 5 2 10 = Raise ZeroDivisionError.
Proof.
  split; [lia |]. split; [lia |].
  apply (proj2 (partitioned_init_zero_division 1 5 10)); lia.
Defined.

(** ** The database storage keeps its boxes *)

(** The table of the database storage holds the boxes [C], one row with an
    [id] of its own for every box. *)
Definition database_stores (s : DatabaseBoxStorage.t) (C : list Detail) : Prop :=
  NoDup (map id (Table.rows s)) /\
  Forall (fun r => (id r < Table.next_id s)%Z) (Table.rows s) /\
  Forall row_consistent (Table.rows s) /\
  Permutation (map _row_to_detail (Table.rows s)) C.

Lemma delete_id_perm (l : list Row) (r : Row) :
  NoDup (map id l) -> In r l ->
  Permutation l (r :: filter (fun x => negb (id x =? id r)%Z) l).
Proof.
  induction l as [| y l IH]; intros Hnd Hin; [contradiction |].
  cbn [map] in Hnd. inversion Hnd as [| ? ? Hy Hl]; subst. cbn [filter].
  destruct Hin as [-> | Hin].
  - rewrite Z.eqb_refl. cbn [negb]. apply perm_skip.
    rewrite (forallb_filter_id _ l); [reflexivity |].
    apply forallb_forall. intros x Hx. apply negb_true_iff, Z.eqb_neq.
    intros E. apply Hy. rewrite <- E. apply in_map, Hx.
  - destruct (Z.eqb_spec (id y) (id r)) as [E | Hne]; cbn [negb].
    + exfalso. apply Hy. rewrite E. apply in_map, Hin.
    + rewrite (IH Hl Hin) at 1. apply perm_swap.
Qed.

Lemma first_by_min_size_spec (s : DatabaseBoxStorage.t) :
  match DatabaseBoxStorage.first_by_min_size s with
  | None => Table.rows s = []
  | Some r => In r (Table.rows s) /\
              forall x, In x (Table.rows s) -> min_size_col x <= min_size_col r
  end.
Proof.
  unfold DatabaseBoxStorage.first_by_min_size.
  pose proof (order_by_perm (Table.rows s)) as Hp.
  pose proof (order_by_sorted (Table.rows s)) as Hs.
  destruct (order_by_min_size_desc (Table.rows s)) as [| r l] eqn:E.
  - apply Permutation_nil. exact Hp.
  - change (hd_error (limit 1 (r :: l))) with (Some r). split.
    + apply (Permutation_in _ Hp). left. reflexivity.
    + intros x Hx. apply (Permutation_in _ (Permutation_sym Hp)) in Hx.
      destruct Hx as [<- | Hx]; [lra |].
      inversion Hs as [| ? ? _ Hr]; subst. rewrite Forall_forall in Hr. apply Hr, Hx.
Qed.

Lemma database_init_stores : database_stores DatabaseBoxStorage.init [].
Proof. repeat split; constructor. Qed.

Lemma database_add_spec (s : DatabaseBoxStorage.t) (C : list Detail) (d : Detail) :
  database_stores s C ->
  exists s', add_box d s = (Ret tt, s') /\ database_stores s' (d :: C).
Proof.
  intros (Hnd & Hlt & Hc & Hp). eexists. split; [reflexivity |].
  unfold database_stores. cbn [Table.insert Table.rows Table.next_id].
  rewrite !map_app. cbn [map]. rewrite row_of_detail_roundtrip.
  split; [| split; [| split]].
  - apply NoDup_app; [exact Hnd | repeat constructor; intros [] | ].
    intros i Hi [<- | []]. apply in_map_iff in Hi. destruct Hi as (r & E & Hr).
    rewrite Forall_forall in Hlt. specialize (Hlt r Hr). cbn in E. lia.
  - apply Forall_app. split.
    + apply Forall_forall. intros r Hr. rewrite Forall_forall in Hlt.
      specialize (Hlt r Hr). lia.
    + repeat constructor. cbn. lia.
  - apply Forall_app. split; [exact Hc |].
    constructor; [apply row_of_detail_consistent | constructor].
  - rewrite <- Permutation_cons_append. apply perm_skip, Hp.
Qed.

Lemma database_get_spec (s : DatabaseBoxStorage.t) (C : list Detail) :
  database_stores s C ->
  exists o, get_max_box s = (Ret o, s) /\
    match o with
    | None => C = []
    | Some b => In b C /\ forall x, In x C -> min_size x <= min_size b
    end.
Proof.
  intros (Hnd & Hlt & Hc & Hp).
  change (get_max_box s) with (DatabaseBoxStorage.get_max_box s).
  unfold DatabaseBoxStorage.get_max_box, bind, get, ret.
  pose proof (first_by_min_size_spec s) as Hf.
  destruct (DatabaseBoxStorage.first_by_min_size s) as [r |].
  - destruct Hf as [Hr Hmax]. eexists. split; [reflexivity |]. split.
    + apply (Permutation_in _ Hp), in_map, Hr.
    + intros x Hx. apply (Permutation_in _ (Permutation_sym Hp)) in Hx.
      apply in_map_iff in Hx. destruct Hx as (rx & <- & Hrx).
      rewrite Forall_forall in Hc. rewrite <- (Hc rx Hrx), <- (Hc r Hr).
      apply Hmax, Hrx.
  - eexists. split; [reflexivity |]. rewrite Hf in Hp. cbn in Hp.
    apply Permutation_nil. exact Hp.
Qed.

Lemma database_pop_spec (s : DatabaseBoxStorage.t) (C : list Detail) (b : Detail) :
  database_stores s C ->
  get_max_box s = (Ret (Some b), s) ->
  exists s' C', pop_max_box s = (Ret (Some b), s') /\
                database_stores s' C' /\ Permutation C (b :: C').
Proof.
  intros (Hnd & Hlt & Hc & Hp).
  change (get_max_box s) with (DatabaseBoxStorage.get_max_box s).
  change (pop_max_box s) with (DatabaseBoxStorage.pop_max_box s).
  unfold DatabaseBoxStorage.get_max_box, DatabaseBoxStorage.pop_max_box,
    bind, get, ret, modify.
  pose proof (first_by_min_size_spec s) as Hf.
  destruct (DatabaseBoxStorage.first_by_min_size s) as [r |]; [| discriminate].
  destruct Hf as [Hr _]. intros [= <-].
  pose proof (delete_id_perm _ r Hnd Hr) as Hrows.
  eexists. eexists. split; [reflexivity |]. split.
  - unfold database_stores. cbn [DatabaseBoxStorage.delete_id Table.rows Table.next_id].
    split; [| split; [| split; [| reflexivity]]].
    + apply (Permutation_map id) in Hrows. cbn [map] in Hrows.
      apply (Permutation_NoDup Hrows) in Hnd. inversion Hnd; assumption.
    + apply Forall_forall. intros x Hx. apply filter_In in Hx.
      rewrite Forall_forall in Hlt. apply Hlt, Hx.
    + apply Forall_forall. intros x Hx. apply filter_In in Hx.
      rewrite Forall_forall in Hc. apply Hc, Hx.
  - rewrite <- Hp. cbn [DatabaseBoxStorage.delete_id Table.rows].
    apply (Permutation_map _row_to_detail) in Hrows. exact Hrows.
Qed.

(** The database storage is a storage the engine can rely on. *)
#[export, refine] Instance Database_Lawful : LawfulStorage DatabaseBoxStorage.t := {
  stores := database_stores
}.
Proof.
  - intros s C d H. destruct (database_add_spec d H) as (s' & E & H').
    exists s'. split; [exact E | left; exact H'].
  - exact database_get_spec.
  - exact database_pop_spec.
Defined.

(** The database storage keeps, for every box added and not yet popped, a
    row of its own, boxes added twice included: [add_box] always adds a row,
    [get_max_box] returns a box of the largest smaller side and nothing only
    from the empty table, and [pop_max_box] returns the same box and deletes
    its row alone. *)
Theorem database_storage_keeps_boxes :
  database_stores DatabaseBoxStorage.init [] /\
  (forall s C d, database_stores s C ->
     exists s', add_box d s = (Ret tt, s') /\ database_stores s' (d :: C)) /\
  (forall s C, database_stores s C ->
     exists o, get_max_box s = (Ret o, s) /\
       match o with
       | None => C = []
       | Some b => In b C /\ forall x, In x C -> min_size x <= min_size b
       end) /\
  (forall s C b, database_stores s C ->
     get_max_box s = (Ret (Some b), s) ->
     exists s' C', pop_max_box s = (Ret (Some b), s') /\
                   database_stores s' C' /\ Permutation C (b :: C')).
Proof.
  split; [exact database_init_stores |].
  split; [intros s C d; apply database_add_spec |].
  split; [exact database_get_spec | exact database_pop_spec].
Qed.

Lemma database_storage_keeps_boxes_witness :
  database_stores DatabaseBoxStorage.init [] /\
  exists s', add_box unit_box DatabaseBoxStorage.init = (Ret tt, s') /\
             database_stores s' [unit_box].
Proof.
  split; [exact (proj1 database_storage_keeps_boxes) |].
  apply (proj1 (proj2 database_storage_keeps_boxes) DatabaseBoxStorage.init []).
  exact (proj1 database_storage_keeps_boxes).
Defined.

(** ** The in-memory storage is a set *)

Lemma in_memory_add_eq (d : Detail) (s : InMemoryBoxStorage.t) :
  add_box d s = (Ret tt, InMemoryBoxStorage.mk (SortedSet.add d (InMemoryBoxStorage.boxes s))).
Proof. reflexivity. Qed.

Lemma sorted_set_add_twice (d : Detail) (s : SortedSet.t) :
  SortedSet.add d (SortedSet.add d s) = SortedSet.add d s.
Proof.
  destruct (add_cases d (SortedSet.add d s)) as [[_ E] | [Hn _]]; [exact E |].
  exfalso. apply Hn. apply add_in. left. reflexivity.
Qed.

Lemma in_memory_after_operations (s : InMemoryBoxStorage.t) :
  after_operations InMemoryBoxStorage.init s ->
  sorted_desc (InMemoryBoxStorage.boxes s) /\ NoDup (InMemoryBoxStorage.boxes s).
Proof.
  induction 1 as [| s d r s' _ [IHs IHn] Hadd | s r s' _ IH Hget | s r s' _ [IHs IHn] Hpop].
  - split; constructor.
  - rewrite in_memory_add_eq in Hadd. injection Hadd as _ <-.
    cbn [InMemoryBoxStorage.boxes]. split; [apply add_sorted, IHs | apply add_nodup, IHn].
  - rewrite in_memory_get in Hget. injection Hget as _ <-. exact IH.
  - rewrite in_memory_pop in Hpop. injection Hpop as _ <-.
    cbn [InMemoryBoxStorage.boxes].
    destruct (InMemoryBoxStorage.boxes s) as [| b l]; [split; constructor |].
    cbn [tl]. split; [apply (@sorted_desc_tail b l IHs) | inversion IHn; assumption].
Qed.

(** After any sequence of operations the in-memory storage holds its boxes
    in descending order of the smaller side, each once; [get_max_box] returns
    the first of them, which no box exceeds; and [add_box] of a box that is
    stored changes nothing, so that adding a box twice is adding it once. *)
Theorem in_memory_storage_is_a_set :
  (forall s, after_operations InMemoryBoxStorage.init s ->
     sorted_desc (InMemoryBoxStorage.boxes s) /\
     NoDup (InMemoryBoxStorage.boxes s) /\
     get_max_box s = (Ret (hd_error (InMemoryBoxStorage.boxes s)), s) /\
     forall b x, hd_error (InMemoryBoxStorage.boxes s) = Some b ->
                 In x (InMemoryBoxStorage.boxes s) -> min_size x <= min_size b) /\
  (forall s d,
     exists s', add_box d s = (Ret tt, s') /\
                In d (InMemoryBoxStorage.boxes s') /\
                add_box d s' = (Ret tt, s')).
Proof.
  split.
  - intros s Hs. destruct (in_memory_after_operations Hs) as [Hsorted Hnd].
    split; [exact Hsorted |]. split; [exact Hnd |]. split; [apply in_memory_get |].
    intros b x Hb Hx. destruct (InMemoryBoxStorage.boxes s) as [| b' l]; [discriminate |].
    injection Hb as ->. apply (@sorted_desc_head b l Hsorted x Hx).
  - intros s d. eexists. split; [apply in_memory_add_eq |].
    cbn [InMemoryBoxStorage.boxes]. split; [apply add_in; left; reflexivity |].
    rewrite in_memory_add_eq. cbn [InMemoryBoxStorage.boxes].
    rewrite sorted_set_add_twice. reflexivity.
Qed.

Lemma in_memory_storage_is_a_set_witness :
  sorted_desc (InMemoryBoxStorage.boxes (InMemoryBoxStorage.mk [unit_box])) /\
  NoDup (InMemoryBoxStorage.boxes (InMemoryBoxStorage.mk [unit_box])).
Proof.
  assert (H : after_operations InMemoryBoxStorage.init (InMemoryBoxStorage.mk [unit_box])).
  { apply (@after_add_box _ _ InMemoryBoxStorage.init InMemoryBoxStorage.init unit_box
             (Ret tt) _ (after_init _)). reflexivity. }
  destruct (proj1 in_memory_storage_is_a_set _ H) as (H1 & H2 & _). split; assumption.
Defined.

(** ** The caches of the hybrid storage stay within [cache_size] *)

Lemma sorted_set_add_length (d : Detail) (s : SortedSet.t) :
  (List.length (SortedSet.add d s) <= Datatypes.S (List.length s))%nat.
Proof.
  destruct (add_cases d s) as [[_ ->] | [_ ->]]; [lia |].
  rewrite (Permutation_length (insort_perm d s)). simpl. lia.
Qed.

Lemma fold_add_length (ds : list Detail) (acc : SortedSet.t) :
  (List.length (fold_left (fun a d => SortedSet.add d a) ds acc)
   <= List.length acc + List.length ds)%nat.
Proof.
  revert acc. induction ds as [| d ds IH]; intros acc; simpl; [lia |].
  specialize (IH (SortedSet.add d acc)).
  pose proof (sorted_set_add_length d acc). lia.
Qed.

Lemma hybrid_update_caches_bounded (cs : Z) (A Mx : SortedSet.t) (Del : list Detail)
  (tb : Table.t) :
  (0 <= cs)%Z ->
  exists s', @CachedStorage._update_caches Table.t HybridBoxStorage.boxes_table
               (CachedStorage.mk cs A Mx Del tb) = (Ret tt, s') /\
             hybrid_bounded cs s'.
Proof.
  intros Hcs. rewrite hybrid_update_caches_eq. eexists. split; [reflexivity |].
  cbv zeta. unfold hybrid_bounded, SortedSet.len.
  cbn [CachedStorage.cache_size CachedStorage.to_add_cache CachedStorage.max_cache
       CachedStorage.to_delete_cache List.length].
  split; [reflexivity |]. split; [lia |].
  match goal with
  | |- context [fold_left _ (map _ (limit cs ?l)) []] =>
      pose proof (fold_add_length (map _row_to_detail (limit cs l)) []) as Hlen;
      pose proof (firstn_le_length (Z.to_nat cs) l) as Hlim
  end.
  rewrite length_map in Hlen. unfold limit in *. cbn [List.length] in Hlen. lia.
Qed.

Lemma hybrid_add_bounded (cs : Z) (s : HybridBoxStorage.t) (d : Detail)
  (r : outcome unit) (s' : HybridBoxStorage.t) :
  (0 <= cs)%Z -> hybrid_bounded cs s -> add_box d s = (r, s') -> hybrid_bounded cs s'.
Proof.
  intros Hcs (Ec & HA & HM) Hadd. destruct s as [c A Mx Del tb].
  cbn [CachedStorage.cache_size CachedStorage.to_add_cache CachedStorage.max_cache
       CachedStorage.to_delete_cache] in Ec, HA, HM. subst c.
  change (add_box d (CachedStorage.mk cs A Mx Del tb))
    with ((if (SortedSet.len (SortedSet.add d A) >? cs)%Z
           then @CachedStorage._update_caches Table.t HybridBoxStorage.boxes_table
           else ret tt) (CachedStorage.mk cs (SortedSet.add d A) Mx Del tb)) in Hadd.
  destruct (SortedSet.len (SortedSet.add d A) >? cs)%Z eqn:E.
  - destruct (@hybrid_update_caches_bounded cs (SortedSet.add d A) Mx Del tb Hcs)
      as (s1 & E1 & B1).
    rewrite E1 in Hadd. injection Hadd as _ <-. exact B1.
  - injection Hadd as _ <-. unfold hybrid_bounded.
    cbn [CachedStorage.cache_size CachedStorage.to_add_cache CachedStorage.max_cache
         CachedStorage.to_delete_cache].
    split; [reflexivity |]. split; [| exact HM].
    rewrite Z.gtb_ltb in E. apply Z.ltb_ge in E. exact E.
Qed.

Lemma hybrid_pop_bounded (cs : Z) (s : HybridBoxStorage.t)
  (r : outcome (option Detail)) (s' : HybridBoxStorage.t) :
  (0 <= cs)%Z -> hybrid_bounded cs s -> pop_max_box s = (r, s') -> hybrid_bounded cs s'.
Proof.
  intros Hcs B Hpop. pose proof B as (Ec & HA & HM). destruct s as [c A Mx Del tb].
  cbn [CachedStorage.cache_size CachedStorage.to_add_cache CachedStorage.max_cache
       CachedStorage.to_delete_cache] in Ec, HA, HM. subst c.
  change (pop_max_box (CachedStorage.mk cs A Mx Del tb))
    with (@CachedStorage.pop_max_box Table.t HybridBoxStorage.boxes_table
            (CachedStorage.mk cs A Mx Del tb)) in Hpop.
  destruct (xge0 (_detail_comparator (CachedStorage.head_or_none A)
                                     (CachedStorage.head_or_none Mx))) eqn:E.
  - destruct Mx as [| x Mx'].
    + unfold CachedStorage.pop_max_box, bind, get in Hpop.
      cbn [CachedStorage.to_add_cache CachedStorage.max_cache] in Hpop.
      rewrite E in Hpop. cbn in Hpop. injection Hpop as _ <-. exact B.
    + change (CachedStorage.head_or_none (x :: Mx')) with (Some x) in E.
      rewrite (@hybrid_pop_from_max_cache cs A Mx' x Del tb E) in Hpop.
      destruct Mx' as [| y Mx''].
      * destruct (@hybrid_update_caches_bounded cs A [] (Del ++ [x]) tb Hcs)
          as (s1 & E1 & B1).
        rewrite E1 in Hpop. injection Hpop as _ <-. exact B1.
      * injection Hpop as _ <-. unfold hybrid_bounded, SortedSet.len in *.
        cbn [CachedStorage.cache_size CachedStorage.to_add_cache CachedStorage.max_cache
             CachedStorage.to_delete_cache].
        split; [reflexivity |]. split; [exact HA |].
        rewrite length_app. cbn [List.length] in *. lia.
  - unfold CachedStorage.pop_max_box, bind, get in Hpop.
    cbn [CachedStorage.to_add_cache CachedStorage.max_cache] in Hpop.
    rewrite E in Hpop. destruct A as [| a A'].
    + cbn in Hpop. injection Hpop as _ <-. exact B.
    + cbn in Hpop. injection Hpop as _ <-. unfold hybrid_bounded, SortedSet.len in *.
      cbn [CachedStorage.cache_size CachedStorage.to_add_cache CachedStorage.max_cache
           CachedStorage.to_delete_cache].
      split; [reflexivity |]. split; [| exact HM]. cbn [List.length] in HA. cbn. lia.
Qed.

(** With a cache size that is not negative, the hybrid storage keeps at most
    [cache_size] boxes in [to_add_cache], and at most [cache_size] boxes in
    [max_cache] and [to_delete_cache] together, after any sequence of
    [add_box], [get_max_box] and [pop_max_box]; the rest is in the table. *)
Theorem hybrid_caches_stay_bounded (cs : Z) (s : HybridBoxStorage.t) :
  (0 <= cs)%Z ->
  after_operations (HybridBoxStorage.init cs) s ->
  CachedStorage.cache_size s = cs /\
  (SortedSet.len (CachedStorage.to_add_cache s) <= cs)%Z /\
  (SortedSet.len (CachedStorage.max_cache s)
   + Z.of_nat (List.length (CachedStorage.to_delete_cache s)) <= cs)%Z.
Proof.
  intros Hcs Hs. change (hybrid_bounded cs s).
  induction Hs as [| s d r s' _ IH Hadd | s r s' _ IH Hget | s r s' _ IH Hpop].
  - unfold hybrid_bounded. cbn. lia.
  - exact (hybrid_add_bounded d Hcs IH Hadd).
  - rewrite hybrid_get_eq in Hget. injection Hget as _ <-. exact IH.
  - exact (hybrid_pop_bounded Hcs IH Hpop).
Qed.

Lemma hybrid_caches_stay_bounded_witness :
  exists s, add_box unit_box (HybridBoxStorage.init 0) = (Ret tt, s) /\
            CachedStorage.cache_size s = 0%Z /\
            (SortedSet.len (CachedStorage.to_add_cache s) <= 0)%Z /\
            (SortedSet.len (CachedStorage.max_cache s)
             + Z.of_nat (List.length (CachedStorage.to_delete_cache s)) <= 0)%Z.
Proof.
  destruct (add_box unit_box (HybridBoxStorage.init 0)) as [r s] eqn:E.
  assert (Hr : r = Ret tt).
  { change (add_box unit_box (HybridBoxStorage.init 0))
      with (@CachedStorage._update_caches Table.t HybridBoxStorage.boxes_table
              (CachedStorage.mk 0 (SortedSet.add unit_box []) [] [] Table.empty)) in E.
    rewrite hybrid_update_caches_eq in E. injection E as <- _. reflexivity. }
  subst r. exists s. split; [reflexivity |].
  apply (@hybrid_caches_stay_bounded 0 s); [lia |].
  apply (@after_add_box _ _ (HybridBoxStorage.init 0) (HybridBoxStorage.init 0) unit_box
           (Ret tt) s (after_init _) E).
Defined.

(** ** Neighbours of a detail *)

Lemma find_all_neighbours_in (details : list Detail) (t d : Detail) :
  In d (find_all_neighbours details t) <->
  In d details /\
  (fst (bottom_left t) <= fst (top_right d) /\ fst (bottom_left d) <= fst (top_right t)) /\
  (snd (bottom_left t) <= snd (top_right d) /\ snd (bottom_left d) <= snd (top_right t)).
Proof.
  unfold find_all_neighbours.
  destruct (bottom_left t) as [tx ty] eqn:Eb, (top_right t) as [ux uy] eqn:Et.
  rewrite filter_In, !andb_true_iff. unfold Rgeb. rewrite !Rleb_true.
  cbn [fst snd]. tauto.
Qed.

Lemma share_point_iff (t d : Detail) :
  corners_in_order t -> corners_in_order d ->
  share_point t d <->
  (fst (bottom_left t) <= fst (top_right d) /\ fst (bottom_left d) <= fst (top_right t)) /\
  (snd (bottom_left t) <= snd (top_right d) /\ snd (bottom_left d) <= snd (top_right t)).
Proof.
  intros [Ht1 Ht2] [Hd1 Hd2]. split.
  - intros (x & y & [Hx Hy] & [Hx' Hy']). lra.
  - intros [[H1 H2] [H3 H4]].
    exists (Rmax (fst (bottom_left t)) (fst (bottom_left d))),
           (Rmax (snd (bottom_left t)) (snd (bottom_left d))).
    unfold point_of.
    pose proof (Rmax_l (fst (bottom_left t)) (fst (bottom_left d))).
    pose proof (Rmax_r (fst (bottom_left t)) (fst (bottom_left d))).
    pose proof (Rmax_l (snd (bottom_left t)) (snd (bottom_left d))).
    pose proof (Rmax_r (snd (bottom_left t)) (snd (bottom_left d))).
    assert (Rmax (fst (bottom_left t)) (fst (bottom_left d)) <= fst (top_right t))
      by (apply Rmax_lub; lra).
    assert (Rmax (fst (bottom_left t)) (fst (bottom_left d)) <= fst (top_right d))
      by (apply Rmax_lub; lra).
    assert (Rmax (snd (bottom_left t)) (snd (bottom_left d)) <= snd (top_right t))
      by (apply Rmax_lub; lra).
    assert (Rmax (snd (bottom_left t)) (snd (bottom_left d)) <= snd (top_right d))
      by (apply Rmax_lub; lra).
    lra.
Qed.

(** [find_all_neighbours] returns details of the list only, and the relation
    is symmetric on them.  For rectangles whose corners are in order, the
    neighbours of the target are the details that have a point in common
    with it, the border included.  The target itself is returned exactly when
    it is in the list and its corners are in order. *)
Theorem neighbours_share_a_point (details : list Detail) (t : Detail) :
  (forall d, In d (find_all_neighbours details t) -> In d details) /\
  (forall d, In d details -> In t details ->
     (In d (find_all_neighbours details t) <-> In t (find_all_neighbours details d))) /\
  (forall d, corners_in_order t -> corners_in_order d ->
     (In d (find_all_neighbours details t) <-> In d details /\ share_point t d)) /\
  (In t (find_all_neighbours details t) <-> In t details /\ corners_in_order t).
Proof.
  split; [| split; [| split]].
  - intros d H. apply find_all_neighbours_in in H. tauto.
  - intros d Hd Ht. rewrite !find_all_neighbours_in. split; intros [_ H]; (split; [assumption | lra]).
  - intros d Ht Hd. rewrite find_all_neighbours_in, (share_point_iff Ht Hd). tauto.
  - rewrite find_all_neighbours_in. unfold corners_in_order. split.
    + intros [Hin H]. split; [exact Hin | lra].
    + intros [Hin H]. split; [exact Hin | lra].
Qed.

Lemma neighbours_share_a_point_witness :
  In unit_box (find_all_neighbours [unit_box] unit_box) <->
  In unit_box [unit_box] /\ share_point unit_box unit_box.
Proof.
  apply (proj1 (proj2 (proj2 (neighbours_share_a_point [unit_box] unit_box))) unit_box);
    unfold corners_in_order; simpl; lra.
Defined.

(** ** Neighbours up to a depth *)

Lemma set_add_in (x y : Detail) (s : list Detail) :
  In y (set_add x s) <-> In y s \/ y = x.
Proof.
  unfold set_add. destruct (in_dec Detail_eq_dec x s) as [Hin | Hn].
  - split; [tauto |]. intros [H | ->]; assumption.
  - rewrite in_app_iff. simpl. intuition congruence.
Qed.

Lemma set_add_nodup (x : Detail) (s : list Detail) : NoDup s -> NoDup (set_add x s).
Proof.
  intros Hs. unfold set_add. destruct (in_dec Detail_eq_dec x s) as [Hin | Hn]; [exact Hs |].
  apply NoDup_app; [exact Hs | repeat constructor; intros [] |].
  intros y Hy [<- | []]. exact (Hn Hy).
Qed.

Lemma set_update_in (y : Detail) (xs s : list Detail) :
  In y (set_update s xs) <-> In y s \/ In y xs.
Proof.
  unfold set_update. revert s. induction xs as [| x xs IH]; intros s; simpl; [tauto |].
  rewrite IH, set_add_in. intuition congruence.
Qed.

Lemma set_update_nodup (xs s : list Detail) : NoDup s -> NoDup (set_update s xs).
Proof.
  unfold set_update. revert s. induction xs as [| x xs IH]; intros s Hs; simpl; [exact Hs |].
  apply IH, set_add_nodup, Hs.
Qed.

Lemma update_all_in (details : list Detail) (y : Detail) (l s : list Detail) :
  In y (fold_left (fun acc d => set_update acc (find_all_neighbours details d)) l s) <->
  In y s \/ exists d, In d l /\ In y (find_all_neighbours details d).
Proof.
  revert s. induction l as [| d l IH]; intros s; simpl.
  - split; [tauto |]. intros [H | (d & [] & _)]. exact H.
  - rewrite IH, set_update_in. split.
    + intros [[H | H] | (d' & Hd' & H)]; [tauto | right; exists d; tauto |].
      right. exists d'. tauto.
    + intros [H | (d' & [<- | Hd'] & H)]; [tauto | tauto |]. right. exists d'. tauto.
Qed.

Lemma update_all_nodup (details : list Detail) (l s : list Detail) :
  NoDup s ->
  NoDup (fold_left (fun acc d => set_update acc (find_all_neighbours details d)) l s).
Proof.
  revert s. induction l as [| d l IH]; intros s Hs; simpl; [exact Hs |].
  apply IH, set_update_nodup, Hs.
Qed.

Lemma iter_neighbours_in (details : list Detail) (t : Detail) (n : nat) (x : Detail) :
  In x (Nat.iter n
          (fun sel => fold_left (fun acc d => set_update acc (find_all_neighbours details d))
                        sel sel) [t]) <->
  exists k, (k <= n)%nat /\ neighbour_chain details t k x.
Proof.
  revert x. induction n as [| n IH]; intros x.
  - simpl. split.
    + intros [<- | []]. exists O. split; [lia | constructor].
    + intros (k & Hk & Hc). assert (k = O) by lia. subst k. inversion Hc. left. reflexivity.
  - rewrite Nat.iter_succ. cbv beta. rewrite update_all_in. split.
    + intros [H | (d & Hd & H)].
      * apply IH in H. destruct H as (k & Hk & Hc). exists k. split; [lia | exact Hc].
      * apply IH in Hd. destruct Hd as (k & Hk & Hc). exists (Datatypes.S k).
        split; [lia |]. exact (@chain_step details t k d x Hc H).
    + intros (k & Hk & Hc). destruct (Nat.eq_dec k (Datatypes.S n)) as [-> | Hne].
      * inversion Hc as [| k' d y Hc' Hy]; subst. right. exists d. split; [| exact Hy].
        apply IH. exists n. split; [lia | exact Hc'].
      * left. apply IH. exists k. split; [lia | exact Hc].
Qed.

Lemma iter_neighbours_nodup (details : list Detail) (t : Detail) (n : nat) :
  NoDup (Nat.iter n
           (fun sel => fold_left (fun acc d => set_update acc (find_all_neighbours details d))
                         sel sel) [t]).
Proof.
  induction n as [| n IH].
  - repeat constructor. intros [].
  - rewrite Nat.iter_succ. apply update_all_nodup, IH.
Qed.

(** [find_neighbours_of_depth] returns, each once, the details reached from
    the target by at most [max(0, depth)] steps from a detail to one of its
    neighbours; so for a depth of [0] or below it returns the target alone,
    whether the target is in the list or not, and a larger depth never
    loses a detail. *)
Theorem neighbours_of_depth_are_chains (details : list Detail) (t : Detail) (depth : Z) :
  NoDup (find_neighbours_of_depth details t depth) /\
  (forall x, In x (find_neighbours_of_depth details t depth) <->
             exists k, (Z.of_nat k <= Z.max 0 depth)%Z /\ neighbour_chain details t k x) /\
  ((depth <= 0)%Z -> find_neighbours_of_depth details t depth = [t]) /\
  (forall depth' x, (depth <= depth')%Z ->
     In x (find_neighbours_of_depth details t depth) ->
     In x (find_neighbours_of_depth details t depth')).
Proof.
  assert (Hin : forall dp x, In x (find_neighbours_of_depth details t dp) <->
             exists k, (Z.of_nat k <= Z.max 0 dp)%Z /\ neighbour_chain details t k x).
  { intros dp x. unfold find_neighbours_of_depth. rewrite iter_neighbours_in.
    split; intros (k & Hk & Hc); exists k; (split; [lia | exact Hc]). }
  split; [apply iter_neighbours_nodup |]. split; [apply Hin |]. split.
  - intros Hd. unfold find_neighbours_of_depth.
    replace (Z.to_nat depth) with O by lia. reflexivity.
  - intros depth' x Hle Hx. apply Hin. apply Hin in Hx. destruct Hx as (k & Hk & Hc).
    exists k. split; [lia | exact Hc].
Qed.

Lemma neighbours_of_depth_are_chains_witness :
  find_neighbours_of_depth [unit_box] unit_box 0 = [unit_box].
Proof.
  apply (proj1 (proj2 (proj2 (neighbours_of_depth_are_chains [unit_box] unit_box 0)))).
  lia.
Defined.

(** ** Counting the types of the details *)

Lemma dict_get_set (k k' : string) (v : Z) (d : list (string * Z)) :
  dict_get k (dict_set k' v d) = if string_dec k k' then Some v else dict_get k d.
Proof.
  induction d as [| [k0 v0] d IH]; simpl.
  - destruct (string_dec k k'); reflexivity.
  - destruct (string_dec k' k0) as [-> | Hne]; simpl.
    + destruct (string_dec k k0); reflexivity.
    + rewrite IH. destruct (string_dec k k0) as [-> | Hne0]; [| reflexivity].
      destruct (string_dec k0 k'); [congruence | reflexivity].
Qed.

Lemma dict_get_none (k : string) (d : list (string * Z)) :
  dict_get k d = None <-> ~ In k (dict_keys d).
Proof.
  induction d as [| [k0 v0] d IH]; simpl; [tauto |].
  destruct (string_dec k k0) as [-> | Hne].
  - split; [discriminate | tauto].
  - rewrite IH. intuition congruence.
Qed.

Lemma dict_set_keys (k : string) (v : Z) (d : list (string * Z)) :
  dict_keys (dict_set k v d) =
    if in_dec string_dec k (dict_keys d) then dict_keys d else dict_keys d ++ [k].
Proof.
  induction d as [| [k0 v0] d IH]; simpl; [reflexivity |].
  destruct (string_dec k k0) as [-> | Hne]; simpl.
  - destruct (string_dec k0 k0); [reflexivity | congruence].
  - rewrite IH. destruct (string_dec k0 k); [congruence |].
    destruct (in_dec string_dec k (dict_keys d)); reflexivity.
Qed.

Lemma dict_set_sum (k : string) (v : Z) (d : list (string * Z)) :
  sum_values (dict_set k v d) =
    (sum_values d + v - match dict_get k d with Some n => n | None => 0 end)%Z.
Proof.
  unfold sum_values, dict_values.
  induction d as [| [k0 v0] d IH]; simpl; [lia |].
  destruct (string_dec k k0) as [-> | Hne]; simpl; [lia |]. rewrite IH. lia.
Qed.

(** One round of the loop of [count_detail_types]. *)
Lemma count_step (ty : string) (acc : list (string * Z)) :
  match dict_get ty acc with
  | Some n => dict_set ty (n + 1)%Z acc
  | None => dict_set ty 1%Z acc
  end = dict_set ty (match dict_get ty acc with Some n => n | None => 0 end + 1)%Z acc.
Proof. destruct (dict_get ty acc); reflexivity. Qed.

Lemma count_fold (details : list Detail) (acc : list (string * Z)) :
  let r := fold_left (fun detail_counts detail =>
               match dict_get (detail_type detail) detail_counts with
               | Some n => dict_set (detail_type detail) (n + 1)%Z detail_counts
               | None => dict_set (detail_type detail) 1%Z detail_counts
               end) details acc in
  (forall ty, (match dict_get ty r with Some n => n | None => 0 end
               = match dict_get ty acc with Some n => n | None => 0 end
                 + details_of_type ty details)%Z) /\
  (forall ty, dict_get ty r = None <->
              dict_get ty acc = None /\ details_of_type ty details = 0%Z) /\
  dict_keys r = dict_keys acc ++ first_occurrences (dict_keys acc) (map detail_type details) /\
  sum_values r = (sum_values acc + Z.of_nat (List.length details))%Z.
Proof.
  revert acc. induction details as [| d ds IH]; intros acc.
  - cbn zeta. unfold details_of_type. simpl. repeat split; try tauto; try lia.
    symmetry. apply app_nil_r.
  - cbn [fold_left]. rewrite count_step.
    specialize (IH (dict_set (detail_type d)
                      (match dict_get (detail_type d) acc with Some n => n | None => 0 end + 1)
                      acc)).
    cbn zeta in IH |- *. destruct IH as (IH1 & IH2 & IH3 & IH4).
    assert (Hocc : forall ty, details_of_type ty (d :: ds) =
              ((if string_dec (detail_type d) ty then 1 else 0) + details_of_type ty ds)%Z).
    { intros ty. unfold details_of_type. simpl.
      destruct (string_dec (detail_type d) ty); lia. }
    assert (Hpos : forall ty, (0 <= details_of_type ty ds)%Z)
      by (intros ty; unfold details_of_type; lia).
    split; [| split; [| split]].
    + intros ty. rewrite IH1, dict_get_set, Hocc.
      destruct (string_dec ty (detail_type d)) as [-> | Hne].
      * destruct (string_dec (detail_type d) (detail_type d)); [lia | congruence].
      * destruct (string_dec (detail_type d) ty); [congruence | lia].
    + intros ty. rewrite IH2, dict_get_set, Hocc. specialize (Hpos ty).
      destruct (string_dec ty (detail_type d)) as [-> | Hne].
      * destruct (string_dec (detail_type d) (detail_type d)); [| congruence].
        split; [intros [? _]; discriminate | intros [_ ?]; lia].
      * destruct (string_dec (detail_type d) ty); [congruence |].
        split; intros [? ?]; (split; [assumption | lia]).
    + rewrite IH3, dict_set_keys. cbn [map first_occurrences].
      destruct (in_dec string_dec (detail_type d) (dict_keys acc)); [reflexivity |].
      rewrite <- app_assoc. reflexivity.
    + rewrite IH4, dict_set_sum. cbn [List.length]. lia.
Qed.

(** [count_detail_types] maps each type that occurs to the number of the
    details of that type, which is at least 1; a type that does not occur
    is no key of the result.  The keys are in the order of their first
    occurrence, and the counts add up to the length of the list. *)
Theorem count_detail_types_counts (details : list Detail) :
  (forall ty, dict_get ty (count_detail_types details) =
              if (details_of_type ty details =? 0)%Z then None
              else Some (details_of_type ty details)) /\
  dict_keys (count_detail_types details) = first_occurrences [] (map detail_type details) /\
  sum_values (count_detail_types details) = Z.of_nat (List.length details).
Proof.
  pose proof (count_fold details []) as H. cbn zeta in H.
  fold (count_detail_types details) in H. destruct H as (H1 & H2 & H3 & H4).
  split; [| split; [exact H3 | exact H4]].
  intros ty. specialize (H1 ty). specialize (H2 ty). cbn [dict_get] in H1, H2.
  destruct (details_of_type ty details =? 0)%Z eqn:E.
  - apply Z.eqb_eq in E. apply H2. split; [reflexivity | exact E].
  - apply Z.eqb_neq in E. destruct (dict_get ty (count_detail_types details)) as [n |].
    + f_equal. lia.
    + exfalso. apply E. apply H2. reflexivity.
Qed.

(** ** Boxes the partitioned table has no partition for *)

Lemma sorted_set_add_self (d : Detail) (A : SortedSet.t) : In d (SortedSet.add d A).
Proof. apply add_in. left. reflexivity. Qed.

Lemma slice_to_nonpos (A : Type) (k : Z) (l : list A) :
  (k <= 0)%Z -> slice_to k l = [] /\ slice_from k l = l.
Proof.
  intros Hk. destruct l as [| x l]; [split; reflexivity |].
  cbn [slice_to slice_from]. destruct (Z.ltb_spec 0 k) as [H | _]; [lia |].
  split; reflexivity.
Qed.

Lemma slice_add (A : Type) (k m : Z) (l : list A) :
  (0 <= k)%Z -> (0 <= m)%Z ->
  slice_to (k + m) l = slice_to k l ++ slice_to m (slice_from k l) /\
  slice_from (k + m) l = slice_from m (slice_from k l).
Proof.
  intros Hk Hm. revert k Hk. induction l as [| x l IH]; intros k Hk.
  - split; reflexivity.
  - destruct (Z.eq_dec k 0) as [-> | Hne].
    + destruct (@slice_to_nonpos A 0 (x :: l) ltac:(lia)) as [-> ->].
      split; reflexivity.
    + cbn [slice_to slice_from].
      destruct (Z.ltb_spec 0 (k + m)) as [_ | H]; [| lia].
      destruct (Z.ltb_spec 0 k) as [_ | H]; [| lia].
      destruct (IH (k - 1)%Z ltac:(lia)) as [E1 E2].
      replace (k + m - 1)%Z with (k - 1 + m)%Z by lia.
      rewrite E1, E2. split; reflexivity.
Qed.

Lemma forallb_false_exists (A : Type) (f : A -> bool) (l : list A) :
  forallb f l = false -> exists x, In x l /\ f x = false.
Proof.
  induction l as [| y l IH]; cbn [forallb]; [discriminate |].
  destruct (f y) eqn:E; cbn [andb]; intros H.
  - destruct (IH H) as (x & Hx & Hf). exists x. split; [right; exact Hx | exact Hf].
  - exists y. split; [left; reflexivity | exact E].
Qed.

Lemma insert_all_app (l1 l2 : list Detail) (tb : Table.t) :
  Table.insert_all (l1 ++ l2) tb = Table.insert_all l2 (Table.insert_all l1 tb).
Proof. unfold Table.insert_all. apply fold_left_app. Qed.

(** The flush of the partitioned table stops at the first batch with a row
    that no partition takes; the batches before it are in the table. *)
Lemma partitioned_flush_stops (ranges : list (R * R)) (k : Z) (rounds : nat)
  (l : list Detail) (tb : Table.t) :
  (1 <= k)%Z -> (List.length l <= rounds)%nat ->
  (exists x, In x l /\ ~ takes_row ranges (row_of_detail 0 x)) ->
  exists j : Z, (0 <= j)%Z /\
    Forall (fun x => takes_row ranges (row_of_detail 0 x)) (slice_to (j * k) l) /\
    (exists x, In x (slice_to k (slice_from (j * k) l)) /\
               ~ takes_row ranges (row_of_detail 0 x)) /\
    @CachedStorage.insert_batches _ HybridPartitionedBoxStorage.boxes_table
      (batches_upto rounds k l) (HybridPartitionedBoxStorage.mkTable ranges tb)
    = (Raise (DatabaseError "no partition of relation found for row"),
       HybridPartitionedBoxStorage.mkTable ranges (Table.insert_all (slice_to (j * k) l) tb)).
Proof.
  intros Hk. revert l tb. induction rounds as [| rounds IH]; intros l tb Hl (x & Hx & Hbad).
  - destruct l; [destruct Hx | cbn [List.length] in Hl; lia].
  - destruct l as [| y l]; [destruct Hx |].
    set (values := y :: l) in *.
    change (batches_upto (Datatypes.S rounds) k values)
      with (slice_to k values :: batches_upto rounds k (slice_from k values)).
    cbn [CachedStorage.insert_batches]. unfold bind at 1.
    cbn [execute_insert HybridPartitionedBoxStorage.boxes_table].
    unfold bind at 1, get. cbn [HybridPartitionedBoxStorage.partition_ranges
      HybridPartitionedBoxStorage.boxes].
    destruct (forallb (fun d => existsb (fun rg =>
                HybridPartitionedBoxStorage.in_partition rg (row_of_detail 0 d)) ranges)
                (slice_to k values)) eqn:Eall.
    + rewrite forallb_forall in Eall.
      assert (Hrest : In x (slice_from k values)).
      { pose proof (slice_to_from k values) as E. rewrite <- E in Hx.
        apply in_app_or in Hx. destruct Hx as [Hx | Hx]; [| exact Hx].
        exfalso. apply Hbad. apply (Eall x Hx). }
      assert (Hlen : (List.length (slice_from k values) <= rounds)%nat).
      { subst values. cbn [slice_from]. destruct (Z.ltb_spec 0 k) as [_ | H]; [| lia].
        pose proof (slice_from_length (k - 1) l). cbn [List.length] in Hl. lia. }
      destruct (IH (slice_from k values) (Table.insert_all (slice_to k values) tb) Hlen
                  (ex_intro _ x (conj Hrest Hbad))) as (j & Hj & Hpre & Hfail & Hrun).
      exists (j + 1)%Z. split; [lia |].
      destruct (@slice_add Detail k (j * k) values ltac:(lia) ltac:(nia)) as [E1 E2].
      replace ((j + 1) * k)%Z with (k + j * k)%Z by lia. rewrite E1, E2.
      split; [| split; [exact Hfail |]].
      * apply Forall_app. split; [| exact Hpre]. apply Forall_forall. exact Eall.
      * unfold put. cbn beta iota. rewrite Hrun. rewrite insert_all_app. reflexivity.
    + exists 0%Z. split; [lia |].
      destruct (@slice_to_nonpos Detail (0 * k) values ltac:(lia)) as [-> ->].
      split; [constructor |]. split; [| reflexivity].
      destruct (forallb_false_exists _ _ Eall) as (z & Hz & Hf).
      exists z. split; [exact Hz |]. unfold takes_row. rewrite Hf. discriminate.
Qed.

(** [add_box] on the partitioned storage when the box brings [to_add_cache]
    over [cache_size] and some box of the cache has no partition. *)
Lemma partitioned_add_overflow (ranges : list (R * R)) (cs : Z) (A Mx : SortedSet.t)
  (Del : list Detail) (tb : Table.t) (d : Detail) :
  (cs < SortedSet.len (SortedSet.add d A))%Z ->
  (exists x, In x (SortedSet.add d A) /\ ~ takes_row ranges (row_of_detail 0 x)) ->
  exists j : Z, (0 <= j)%Z /\
    Forall (fun x => takes_row ranges (row_of_detail 0 x))
      (slice_to (j * CachedStorage.BATCH_SIZE) (SortedSet.add d A)) /\
    (exists x, In x (slice_to CachedStorage.BATCH_SIZE
                       (slice_from (j * CachedStorage.BATCH_SIZE) (SortedSet.add d A))) /\
               ~ takes_row ranges (row_of_detail 0 x)) /\
    add_box d (CachedStorage.mk cs A Mx Del (HybridPartitionedBoxStorage.mkTable ranges tb)) =
      (Raise (DatabaseError "no partition of relation found for row"),
       CachedStorage.mk cs (SortedSet.add d A) Mx Del
         (HybridPartitionedBoxStorage.mkTable ranges
            (Table.insert_all
               (slice_to (j * CachedStorage.BATCH_SIZE) (SortedSet.add d A)) tb))).
Proof.
  intros Hlen Hbad. set (values := SortedSet.add d A) in *.
  destruct (@partitioned_flush_stops ranges CachedStorage.BATCH_SIZE (List.length values)
              values tb batch_size_pos (le_n _) Hbad) as (j & Hj & Hpre & Hfail & Hrun).
  exists j. split; [exact Hj |]. split; [exact Hpre |]. split; [exact Hfail |].
  change (add_box d (CachedStorage.mk cs A Mx Del
            (HybridPartitionedBoxStorage.mkTable ranges tb)))
    with ((if (SortedSet.len values >? cs)%Z
           then @CachedStorage._update_caches HybridPartitionedBoxStorage.table
                  HybridPartitionedBoxStorage.boxes_table
           else ret tt)
            (CachedStorage.mk cs values Mx Del
               (HybridPartitionedBoxStorage.mkTable ranges tb))).
  replace (SortedSet.len values >? cs)%Z with true
    by (symmetry; apply Z.gtb_lt; lia).
  unfold CachedStorage._update_caches, CachedStorage._update_to_add_cache,
    CachedStorage.session, zoom, bind, get.
  cbn [CachedStorage.to_add_cache CachedStorage.table].
  fold (batches CachedStorage.BATCH_SIZE values) in Hrun.
  rewrite Hrun. reflexivity.
Qed.

(** No partition takes a box whose smaller side is not in [[0, 1)]. *)
Lemma created_ranges_refuse (n0 : Z) (gamma : R) (max_placed B : Z) (x : Detail) :
  (1 <= n0)%Z -> 0 < gamma -> (1 <= B)%Z -> ~ (0 <= min_size x < 1) ->
  ~ takes_row (created_ranges n0 gamma max_placed B) (row_of_detail 0 x).
Proof.
  intros Hn Hg HB Hout Ht. apply Hout.
  apply existsb_exists in Ht. destruct Ht as (rg & Hrg & Hin).
  apply in_partition_in_range in Hin.
  apply (@created_ranges_within_unit n0 gamma max_placed B _ rg Hn Hg HB Hrg Hin).
Qed.

(** Outside [[0, 1)] there is no partition.  [add_box] of a box whose
    smaller side is not in [[0, 1)], when it brings [to_add_cache] over
    [cache_size], raises the error of the database.  The flush inserts
    [to_add_cache] in batches of [BATCH_SIZE], each one committed: the batches
    before the first one with a row that has no partition are in the table
    (their rows all have a smaller side in [[0, 1)]), that batch and the later
    ones are not, and every box stays in [to_add_cache]; a cache of at most
    [BATCH_SIZE] boxes leaves the table as before. *)
Theorem partitioned_rejects_outside_unit (n0 : Z) (gamma : R) (max_placed B : Z) :
  (1 <= n0)%Z -> 0 < gamma -> (0 <= max_placed)%Z -> (1 <= B)%Z ->
  exists ranges,
    HybridPartitionedBoxStorage._create_partition_ranges n0 gamma max_placed B []
      = (Ret tt, ranges) /\
    forall (cs : Z) (A Mx : SortedSet.t) (Del : list Detail) (tb : Table.t) (d : Detail),
      ~ (0 <= min_size d < 1) ->
      (cs < SortedSet.len (SortedSet.add d A))%Z ->
      let s := CachedStorage.mk cs A Mx Del (HybridPartitionedBoxStorage.mkTable ranges tb) in
      let values := SortedSet.add d A in
      exists j : Z,
        (0 <= j)%Z /\
        let committed := slice_to (j * CachedStorage.BATCH_SIZE) values in
        let failing :=
          slice_to CachedStorage.BATCH_SIZE
            (slice_from (j * CachedStorage.BATCH_SIZE) values) in
        Forall (fun x => 0 <= min_size x < 1) committed /\
        Exists (fun x => ~ (0 <= min_size x < 1)) failing /\
        add_box d s =
          (Raise (DatabaseError "no partition of relation found for row"),
           CachedStorage.mk cs values Mx Del
             (HybridPartitionedBoxStorage.mkTable ranges
                (Table.insert_all committed tb))) /\
        ((SortedSet.len values <= CachedStorage.BATCH_SIZE)%Z -> committed = []).
Proof.
  intros Hn Hg Hm HB. exists (created_ranges n0 gamma max_placed B).
  split; [apply create_partition_ranges_eq; assumption |].
  intros cs A Mx Del tb d Hout Hlen s values. subst s.
  set (ranges := created_ranges n0 gamma max_placed B).
  destruct (@partitioned_add_overflow ranges cs A Mx Del tb d Hlen)
    as (j & Hj & Hpre & Hfail & Hadd).
  { exists d. split; [apply sorted_set_add_self |].
    apply created_ranges_refuse; assumption. }
  exists j. split; [exact Hj |]. cbv zeta.
  split; [| split; [| split; [exact Hadd |]]].
  - eapply Forall_impl; [| exact Hpre]. intros x Ht.
    apply existsb_exists in Ht. destruct Ht as (rg & Hrg & Hin).
    apply in_partition_in_range in Hin.
    apply (@created_ranges_within_unit n0 gamma max_placed B _ rg Hn Hg HB Hrg Hin).
  - destruct Hfail as (x & Hx & Hno). apply Exists_exists. exists x.
    split; [exact Hx |]. intros H01. apply Hno.
    apply (@created_ranges_take n0 gamma max_placed B x Hm HB H01).
  - intros Hone. destruct (Z.eq_dec j 0) as [-> | Hne].
    + destruct (@slice_to_nonpos Detail (0 * CachedStorage.BATCH_SIZE) values ltac:(lia))
        as [E _]. exact E.
    + exfalso. destruct Hfail as (x & Hx & _).
      destruct (@slice_to_all Detail (j * CachedStorage.BATCH_SIZE) values) as [_ E].
      { unfold SortedSet.len in Hone. pose proof batch_size_pos. nia. }
      fold values in Hx. rewrite E in Hx. destruct Hx.
Qed.

Lemma unit_box_outside : ~ (0 <= min_size unit_box < 1).
Proof.
  unfold min_size, width, height, unit_box. cbn [top_right bottom_left fst snd].
  replace (1 - 0) with 1 by lra. rewrite Rmin_left by lra. lra.
Qed.

Lemma partitioned_rejects_outside_unit_witness :
  exists ranges,
    HybridPartitionedBoxStorage._create_partition_ranges 1 1 5 2 [] = (Ret tt, ranges) /\
    add_box unit_box
      (CachedStorage.mk 0 [] [] [] (HybridPartitionedBoxStorage.mkTable ranges Table.empty)) =
      (Raise (DatabaseError "no partition of relation found for row"),
       CachedStorage.mk 0 (SortedSet.add unit_box []) [] []
         (HybridPartitionedBoxStorage.mkTable ranges Table.empty)).
Proof.
  destruct (@partitioned_rejects_outside_unit 1 1 5 2 ltac:(lia) ltac:(lra) ltac:(lia)
              ltac:(lia)) as (ranges & Hr & H).
  exists ranges. split; [exact Hr |].
  destruct (H 0%Z [] [] [] Table.empty unit_box unit_box_outside ltac:(reflexivity))
    as (j & Hj & _ & _ & Hadd & Hone).
  rewrite Hadd. rewrite Hone; [reflexivity |].
  unfold CachedStorage.BATCH_SIZE. cbn. lia.
Defined.

(** ** A run that ends with an error of the storage *)

Lemma squares_stripe_eq : stripe_of wide_sheet (1, 1) 1 1 = squares_stripe.
Proof.
  destruct wide_sheet_sides as [Hw Hh]. unfold stripe_of. rewrite Hw, Hh.
  rewrite (proj2 (Rleb_true _ _)) by lra. unfold squares_stripe. detail_eq.
Qed.

Lemma squares_lrp_eq : rest_of_lrp wide_sheet (1, 1) 1 = squares_lrp.
Proof.
  destruct wide_sheet_sides as [Hw Hh]. unfold rest_of_lrp. rewrite Hw, Hh.
  rewrite (proj2 (Rleb_true _ _)) by lra. unfold squares_lrp. detail_eq.
Qed.

Lemma squares_pieces_1 :
  placed_detail_of true squares_stripe (1, 1) 1 = squares_D1 /\
  normal_box_of true squares_stripe (1, 1) 1 "normal_box_1" = squares_B1 /\
  endpoint_of true squares_stripe (1, 1) 1 "endpoint_1" = squares_E1.
Proof.
  unfold placed_detail_of, normal_box_of, endpoint_of, squares_D1, squares_B1, squares_E1.
  repeat split; detail_eq.
Qed.

Lemma squares_pieces_2 :
  placed_detail_of true squares_E1 (1 / 2, 1 / 2) 2 = squares_D2 /\
  normal_box_of true squares_E1 (1 / 2, 1 / 2) 2 "normal_box_1" = squares_B2 /\
  endpoint_of true squares_E1 (1 / 2, 1 / 2) 1 "endpoint_1" = squares_E2.
Proof.
  unfold placed_detail_of, normal_box_of, endpoint_of, squares_D2, squares_B2, squares_E2.
  repeat split; detail_eq.
Qed.

Lemma squares_B1_min_size : min_size squares_B1 = 1.
Proof.
  unfold min_size, width, height. simpl.
  replace (1 - 0) with 1 by lra. replace (2 - 1) with 1 by lra.
  apply Rmin_left. lra.
Qed.

Section CutAfterGet.
Context {S : Type} {BS : BoxStorage S}.
Import SlackPackAlgorithm.

(** Cutting a stripe, or failing to, after a [get_max_box] that may leave the
    storage in another state. *)
Lemma choose_active_box_cut_after_get
  (s : t S) (P : list Detail) (d : R * R) (o : option Detail) (l : Detail) (st : S) :
  active_box s = None ->
  (0 <= last_placed_index s)%Z ->
  let k := (last_placed_index s + 1)%Z in
  let g := gap (gamma s) k in
  get_max_box (box_storage s) = (Ret o, st) ->
  match o with Some b => min_size b | None => -1 end < snd d + g ->
  lrp s = Some l ->
  let s1 := set_active_box_from (Some (detail_type l))
              (set_box_storage (set_active_box_first_detail_index k s) st) in
  let s2 := set_is_active_box_horizontal (Rleb (width l) (height l)) s1 in
  let s3 := set_lrp (Some (rest_of_lrp l d g))
              (set_active_box (Some (stripe_of l d g (endpoints_placed s))) s2) in
  _choose_active_box d (s, P) =
    if Rgtb (snd d + g) (Rmax (width l) (height l))
       || Rgtb (fst d + g) (Rmin (width l) (height l))
    then (Raise LRPTooSmall, (s1, P))
    else if update_placed_details s then
      match remove_first l P with
      | Some P0 =>
          (Ret tt, (s3, P0 ++ [stripe_of l d g (endpoints_placed s); rest_of_lrp l d g]))
      | None => (Raise (ValueError "list.remove(x): x not in list"), (s2, P))
      end
    else (Ret tt, (s3, P)).
Proof.
  intros Hab Hlp k g Hget Hsmall Hl s1 s2 s3.
  unfold _choose_active_box, _cut_new_strip, self, assign, storage, deref,
    placed_details, set_placed_details, list_remove.
  unfold_m. rewrite Hab. simpl. rewrite Hget. simpl.
  rewrite inv_pow_pos by lia. simpl. fold k. fold g.
  assert (Hno : Rleb (snd d + g)
                  match o with Some b => Rmin (width b) (height b) | None => -1 end
                = false).
  { apply Rleb_false. destruct o; exact Hsmall. }
  rewrite Hno. simpl. rewrite Hl. simpl.
  rewrite inv_pow_pos by lia. simpl. fold k. fold g.
  destruct (Rgtb (snd d + g) (Rmax (width l) (height l))
            || Rgtb (fst d + g) (Rmin (width l) (height l))); [reflexivity |].
  simpl. subst s3 s2 s1. unfold stripe_of, rest_of_lrp.
  destruct (update_placed_details s) eqn:Hupd; simpl.
  - destruct (remove_first l P) eqn:Hrem; simpl.
    + destruct (Rleb (width l) (height l)); reflexivity.
    + reflexivity.
  - destruct (Rleb (width l) (height l)); reflexivity.
Qed.

End CutAfterGet.

Section SquaresRun.
Context {S : Type} {BS : BoxStorage S}.

(** The first call, for the square of side 1, over a storage that answers
    [get_max_box] with no box: a stripe of height 2 is cut, and the box above
    the square goes to the storage. *)
Lemma squares_first_call (st st0 : S) :
  get_max_box st = (Ret None, st0) ->
  SlackPackAlgorithm.place_next (1, 1)
    (SlackPackAlgorithm.init 1 1 2 st true, [wide_sheet])
  = (let (r, st') := add_box squares_B1 st0 in
     (r, (squares_engine_1 st', [squares_lrp; squares_D1; squares_B1; squares_E1]))).
Proof.
  intros Hget.
  set (s0 := SlackPackAlgorithm.init 1 1 2 st true).
  destruct wide_sheet_sides as [Hw Hh].
  rewrite place_next_unfold. unfold bind at 1. unfold bind at 1.
  rewrite (check_if_lrp_none_spec s0 [wide_sheet] (l := wide_sheet) eq_refl).
  rewrite check_active_box_size_none by reflexivity.
  unfold bind.
  pose proof (choose_active_box_cut_after_get
                (SlackPackAlgorithm.set_lrp (Some wide_sheet) s0)
                [wide_sheet] (1, 1) (o := None) (l := wide_sheet) (st := st0)
                eq_refl) as Hcut.
  specialize (Hcut ltac:(simpl; lia) Hget).
  cbv zeta in Hcut.
  specialize (Hcut ltac:(unfold s0; cbn -[gap]; pose proof (gap_pos 1 1); lra)
                   eq_refl).
  unfold s0 in *.
  cbn -[stripe_of rest_of_lrp placed_detail_of normal_box_of endpoint_of gap width
        height Rmax Rmin Rleb Rgtb remove_first min_size
        SlackPackAlgorithm._choose_active_box] in Hcut.
  rewrite gap_one, Hw, Hh, squares_stripe_eq, squares_lrp_eq, remove_first_self in Hcut.
  rewrite Rmax_left, Rmin_left in Hcut by lra.
  unfold Rgtb in Hcut.
  rewrite (proj2 (Rltb_false _ _)) in Hcut by lra.
  rewrite (proj2 (Rleb_true _ _)) in Hcut by lra.
  cbn [orb app] in Hcut.
  rewrite Hcut. clear Hcut.
  match goal with
  | |- SlackPackAlgorithm._place_detail_in_active_box ?d (?s, ?P) = _ =>
      rewrite (place_detail_in_active_box_eq s P d (ab := squares_stripe) eq_refl)
  end.
  cbn -[placed_detail_of normal_box_of endpoint_of remove_first add_box].
  rewrite remove_first_self.
  destruct squares_pieces_1 as (HD & HB & HE).
  change SlackPackAlgorithm.NORMAL_BOX_TYPE_1_NAME with "normal_box_1"%string.
  change SlackPackAlgorithm.ENDPOINT_TYPE_1_NAME with "endpoint_1"%string.
  rewrite HD, HB, HE. destruct (add_box squares_B1 st0) as [r st']. reflexivity.
Qed.

Lemma squares_remove_E1 :
  remove_first squares_E1 [squares_lrp; squares_D1; squares_B1; squares_E1]
    = Some [squares_lrp; squares_D1; squares_B1].
Proof.
  cbn [remove_first].
  destruct (Detail_eq_dec squares_E1 squares_lrp) as [E | _]; [discriminate E |].
  destruct (Detail_eq_dec squares_E1 squares_D1) as [E | _]; [discriminate E |].
  destruct (Detail_eq_dec squares_E1 squares_B1) as [E | _]; [discriminate E |].
  destruct (Detail_eq_dec squares_E1 squares_E1) as [_ | N]; [reflexivity | contradiction].
Qed.

(** The second call, for the square of side 1/2: the rest of the stripe
    accepts it, and what the storage answers to the box above the square is
    what the call answers. *)
Lemma squares_second_call (st : S) :
  SlackPackAlgorithm.place_next (1 / 2, 1 / 2)
    (squares_engine_1 st, [squares_lrp; squares_D1; squares_B1; squares_E1])
  = (let (r, st') := add_box squares_B2 st in
     (r, (SlackPackAlgorithm.mk 1 1 2 st' true (Some squares_lrp) (Some squares_E2)
            1 true 2 1 (Some "lrp"%string),
          [squares_lrp; squares_D1; squares_B1; squares_D2; squares_B2; squares_E2]))).
Proof.
  rewrite place_next_unfold. unfold bind at 1. unfold bind at 1.
  rewrite (check_if_lrp_none_spec (squares_engine_1 st) _ (l := squares_lrp) eq_refl).
  rewrite (check_active_box_size_keep
             (SlackPackAlgorithm.set_lrp (Some squares_lrp) (squares_engine_1 st))
             [squares_lrp; squares_D1; squares_B1; squares_E1] (1 / 2, 1 / 2)
             (ab := squares_E1) eq_refl).
  2:{ cbn. lia. }
  2:{ cbn -[gap width]. rewrite gap_one. unfold width. simpl. lra. }
  unfold bind.
  match goal with
  | |- context [SlackPackAlgorithm._choose_active_box ?d (?s, ?P)] =>
      rewrite (choose_active_box_keep s P d (ab := squares_E1) eq_refl)
  end.
  match goal with
  | |- SlackPackAlgorithm._place_detail_in_active_box ?d (?s, ?P) = _ =>
      rewrite (place_detail_in_active_box_eq s P d (ab := squares_E1) eq_refl)
  end.
  cbn -[placed_detail_of normal_box_of endpoint_of remove_first add_box].
  rewrite squares_remove_E1.
  destruct squares_pieces_2 as (HD & HB & HE).
  change SlackPackAlgorithm.NORMAL_BOX_TYPE_1_NAME with "normal_box_1"%string.
  change SlackPackAlgorithm.ENDPOINT_TYPE_1_NAME with "endpoint_1"%string.
  rewrite HD, HB, HE. destruct (add_box squares_B2 st) as [r st']. reflexivity.
Qed.

(** Both calls of the run over a storage that takes the two boxes. *)
Lemma squares_run (st st0 st1 st2 : S) :
  get_max_box st = (Ret None, st0) ->
  add_box squares_B1 st0 = (Ret tt, st1) ->
  add_box squares_B2 st1 = (Ret tt, st2) ->
  place_all [(1, 1); (1 / 2, 1 / 2)]
    (SlackPackAlgorithm.init 1 1 2 st true, [wide_sheet])
  = (Ret tt,
     (squares_engine_2 st2,
      [squares_lrp; squares_D1; squares_B1; squares_D2; squares_B2; squares_E2])).
Proof.
  intros Hget Hadd1 Hadd2. cbn [place_all]. unfold bind.
  rewrite (@squares_first_call st st0 Hget), Hadd1.
  rewrite squares_second_call, Hadd2. reflexivity.
Qed.

End SquaresRun.

Lemma squares_B2_min_size : min_size squares_B2 = 1 / 2.
Proof.
  unfold min_size, width, height. simpl.
  replace (3 / 2 - 1) with (1 / 2) by lra. replace (2 - 1 / 2) with (3 / 2) by lra.
  apply Rmin_left. lra.
Qed.

Lemma squares_add_B2 : SortedSet.add squares_B2 [squares_B1] = [squares_B1; squares_B2].
Proof.
  apply (@sorted_set_add_last squares_B2 [squares_B1]).
  intros y [<- | []]. rewrite squares_B1_min_size, squares_B2_min_size. lra.
Qed.

(** The run over the in-memory storage with its log: the storage is asked
    for its largest box once and is given the boxes [B1] and [B2]. *)
Lemma squares_run_logged :
  place_all [(1, 1); (1 / 2, 1 / 2)]
    (SlackPackAlgorithm.init 1 1 2 (InMemoryBoxStorage.init, []) true, [wide_sheet])
  = (Ret tt,
     (squares_engine_2
        (InMemoryBoxStorage.mk [squares_B1; squares_B2],
         [Called_get_max_box (Ret None); Called_add_box squares_B1;
          Called_add_box squares_B2]),
      [squares_lrp; squares_D1; squares_B1; squares_D2; squares_B2; squares_E2])).
Proof.
  apply (@squares_run _ Logged_BoxStorage (InMemoryBoxStorage.init, [])
           (InMemoryBoxStorage.init, [Called_get_max_box (Ret None)])
           (InMemoryBoxStorage.mk [squares_B1],
            [Called_get_max_box (Ret None); Called_add_box squares_B1])).
  - reflexivity.
  - reflexivity.
  - cbn [add_box Logged_BoxStorage]. unfold logged. cbn [fst snd].
    cbn [add_box InMemory_BoxStorage]. unfold InMemoryBoxStorage.add_box, modify.
    cbn [InMemoryBoxStorage.boxes]. rewrite squares_add_B2. reflexivity.
Qed.

(** The run over the hybrid storage with [cache_size = 2]: both boxes are in
    [to_add_cache]. *)
Lemma squares_run_hybrid :
  place_all [(1, 1); (1 / 2, 1 / 2)]
    (SlackPackAlgorithm.init 1 1 2 (HybridBoxStorage.init 2) true, [wide_sheet])
  = (Ret tt,
     (squares_engine_2 (CachedStorage.mk 2 [squares_B1; squares_B2] [] [] Table.empty),
      [squares_lrp; squares_D1; squares_B1; squares_D2; squares_B2; squares_E2])).
Proof.
  apply (@squares_run _ Hybrid_BoxStorage (HybridBoxStorage.init 2)
           (HybridBoxStorage.init 2)
           (CachedStorage.mk 2 [squares_B1] [] [] Table.empty)).
  - exact (@cached_get_eq _ (HybridBoxStorage.init 2)).
  - reflexivity.
  - change (add_box squares_B2 (CachedStorage.mk 2 [squares_B1] [] [] Table.empty))
      with ((if (SortedSet.len (SortedSet.add squares_B2 [squares_B1]) >? 2)%Z
             then @CachedStorage._update_caches Table.t HybridBoxStorage.boxes_table
             else ret tt)
              (CachedStorage.mk 2 (SortedSet.add squares_B2 [squares_B1]) [] []
                 Table.empty)).
    rewrite squares_add_B2. reflexivity.
Qed.

(** C4 (as stated) fails: [place_next] raises an error that is not "LRP is
    too small", with an active box that accepts the detail.  The engine is
    made for [gamma = 1], [n0 = 1] and two details over the partitioned
    storage with one box per partition and [cache_size = 1], and is given
    the sheet of side 3 and the harmonic squares [(1, 1)] and [(1/2, 1/2)].
    The first call cuts the stripe of height [1 + 1 = 2], places the square
    and adds the box [B1] above it, of sides 1 and 1, which stays in
    [to_add_cache].  The second call keeps the rest of the stripe, of length
    [2 >= 1/2 + 1], places the square and adds the box [B2] above it:
    [to_add_cache] has two boxes now, more than [cache_size], so it is
    written to the table, where no partition takes [B1], its smaller side 1
    not being in a range within [[0, 1)]; the error of the database comes out
    of [place_next]. *)
Lemma storage_error_counterexample :
  exists (st : HybridPartitionedBoxStorage.t) w1 w2,
    HybridPartitionedBoxStorage.init 1 1 2 1 1 = Ret st /\
    SlackPackAlgorithm.place_next (1, 1)
      (SlackPackAlgorithm.init 1 1 2 st true, [wide_sheet]) = (Ret tt, w1) /\
    ~ no_active_box_accepts (1 / 2, 1 / 2) w1 /\
    SlackPackAlgorithm.place_next (1 / 2, 1 / 2) w1
      = (Raise (DatabaseError "no partition of relation found for row"), w2) /\
    DatabaseError "no partition of relation found for row" <> LRPTooSmall.
Proof.
  set (ranges := created_ranges 1 1 2 1).
  set (tb := HybridPartitionedBoxStorage.mkTable ranges Table.empty).
  assert (Hinit : HybridPartitionedBoxStorage.init 1 1 2 1 1
                  = Ret (CachedStorage.init 1 tb)).
  { unfold HybridPartitionedBoxStorage.init.
    rewrite (@create_partition_ranges_eq 1 1 2 1 ltac:(lia) ltac:(lia)). reflexivity. }
  assert (Hadd1 : @add_box _ HybridPartitioned_BoxStorage squares_B1
                    (CachedStorage.init 1 tb)
                  = (Ret tt, CachedStorage.mk 1 [squares_B1] [] [] tb)).
  { reflexivity. }
  assert (Hout : ~ takes_row ranges (row_of_detail 0 squares_B1)).
  { apply created_ranges_refuse; try lia; try lra. rewrite squares_B1_min_size. lra. }
  destruct (@partitioned_add_overflow ranges 1 [squares_B1] [] [] Table.empty squares_B2)
    as (j & _ & _ & _ & Hadd2).
  { rewrite squares_add_B2. reflexivity. }
  { exists squares_B1. split; [| exact Hout]. apply add_in. right. left. reflexivity. }
  fold tb in Hadd2.
  change (@add_box _ HybridPartitioned_BoxStorage squares_B2
            (CachedStorage.mk 1 [squares_B1] [] [] tb) = 
          (Raise (DatabaseError "no partition of relation found for row"),
           CachedStorage.mk 1 (SortedSet.add squares_B2 [squares_B1]) [] []
             (HybridPartitionedBoxStorage.mkTable ranges
                (Table.insert_all
                   (slice_to (j * CachedStorage.BATCH_SIZE)
                      (SortedSet.add squares_B2 [squares_B1])) Table.empty)))) in Hadd2.
  pose proof (@squares_first_call _ HybridPartitioned_BoxStorage (CachedStorage.init 1 tb)
                (CachedStorage.init 1 tb) (@cached_get_eq _ (CachedStorage.init 1 tb))) as H1.
  rewrite Hadd1 in H1.
  pose proof (@squares_second_call _ HybridPartitioned_BoxStorage
                (CachedStorage.mk 1 [squares_B1] [] [] tb)) as H2.
  rewrite Hadd2 in H2.
  eexists. eexists. eexists.
  split; [exact Hinit |]. split; [exact H1 |]. split.
  { unfold no_active_box_accepts. intros Hno.
    specialize (Hno squares_E1 eq_refl). cbn -[gap width] in Hno.
    rewrite gap_one in Hno. unfold width in Hno. simpl in Hno. lra. }
  split; [exact H2 | discriminate].
Qed.

(** ** The boxes the engine gives to its storage *)

Lemma to_int_not_nil (z : Z) :
  Z.to_int z <> Decimal.Pos Decimal.Nil /\ Z.to_int z <> Decimal.Neg Decimal.Nil.
Proof.
  split; intros E; pose proof (DecimalZ.of_to z) as H; rewrite E in H;
    cbn in H; subst z; discriminate.
Qed.

Lemma str_inj (a b : Z) : str a = str b -> a = b.
Proof.
  unfold str. intros E. apply DecimalZ.to_int_inj.
  destruct (to_int_not_nil a) as [Ha1 Ha2], (to_int_not_nil b) as [Hb1 Hb2].
  pose proof (NilZero.isi (Z.to_int a) Ha1 Ha2) as Ia.
  pose proof (NilZero.isi (Z.to_int b) Hb1 Hb2) as Ib.
  rewrite E in Ia. rewrite Ia in Ib. injection Ib as Ib. exact Ib.
Qed.

Lemma added_boxes_app (l1 l2 : list storage_call) :
  added_boxes (l1 ++ l2) = added_boxes l1 ++ added_boxes l2.
Proof. unfold added_boxes. apply flat_map_app. Qed.

Lemma added_names_snoc (l : list storage_call) (d : Detail) :
  added_names (l ++ [Called_add_box d]) = added_names l ++ [name d].
Proof. unfold added_names. rewrite added_boxes_app, map_app. reflexivity. Qed.

Lemma nodup_snoc (l : list string) (x : string) :
  NoDup l -> ~ In x l -> NoDup (l ++ [x]).
Proof.
  intros Hl Hx. apply NoDup_app; [exact Hl | repeat constructor; intros [] |].
  intros y Hy [<- | []]. exact (Hx Hy).
Qed.

Lemma names_known_add_box (L : list string) (last ep : Z) :
  names_known L last ep ->
  names_known (L ++ [(SlackPackAlgorithm.NORMAL_BOX_PREFIX ++ str (last + 1))%string])
    (last + 1) ep.
Proof.
  intros [Hnd Hk]. split.
  - apply nodup_snoc; [exact Hnd |]. intros Hin.
    destruct (Hk _ Hin) as [(i & Hi & E) | (k & _ & E)].
    + cbn in E. injection E as E. apply str_inj in E. lia.
    + cbn in E. discriminate.
  - intros nm Hin. apply in_app_or in Hin. destruct Hin as [Hin | [<- | []]].
    + destruct (Hk _ Hin) as [(i & Hi & E) | (k & Hk' & E)].
      * left. exists i. split; [lia | exact E].
      * right. exists k. split; [exact Hk' | exact E].
    + left. exists (last + 1)%Z. split; [lia | reflexivity].
Qed.

Lemma names_known_add_endpoint (L : list string) (last ep : Z) :
  names_known L last ep ->
  names_known (L ++ [(SlackPackAlgorithm.ENDPOINT_PREFIX ++ str ep)%string])
    last (ep + 1).
Proof.
  intros [Hnd Hk]. split.
  - apply nodup_snoc; [exact Hnd |]. intros Hin.
    destruct (Hk _ Hin) as [(i & _ & E) | (k & Hk' & E)].
    + cbn in E. discriminate.
    + cbn in E. injection E as E. apply str_inj in E. lia.
  - intros nm Hin. apply in_app_or in Hin. destruct Hin as [Hin | [<- | []]].
    + destruct (Hk _ Hin) as [(i & Hi & E) | (k & Hk' & E)].
      * left. exists i. split; [exact Hi | exact E].
      * right. exists k. split; [lia | exact E].
    + right. exists ep. split; [lia | reflexivity].
Qed.

Ltac boxes_done :=
  repeat split; try reflexivity;
  unfold added_boxes; rewrite ?flat_map_app; simpl; rewrite ?app_nil_r; reflexivity.

Section EngineBoxes.
Context {S : Type} {BS : BoxStorage S}.
Import SlackPackAlgorithm.

Lemma normal_box_type_cases (s : t (S * list storage_call)) :
  _get_normal_box_type s = NORMAL_BOX_TYPE_1_NAME \/
  _get_normal_box_type s = NORMAL_BOX_TYPE_2_NAME.
Proof.
  unfold _get_normal_box_type. destruct (active_box_from s) as [from |]; [| right; reflexivity].
  destruct (String.eqb from LRP_NAME); [left | right]; reflexivity.
Qed.

Lemma endpoint_type_cases (s : t (S * list storage_call)) :
  _get_endpoint_type s = ENDPOINT_TYPE_1_NAME \/
  _get_endpoint_type s = ENDPOINT_TYPE_2_NAME.
Proof.
  unfold _get_endpoint_type. destruct (active_box_from s) as [from |]; [| right; reflexivity].
  destruct (String.eqb from LRP_NAME || String.eqb from ENDPOINT_TYPE_1_NAME)%bool;
    [left | right]; reflexivity.
Qed.

(** The first step reads and sets the LRP only. *)
Lemma check_if_lrp_none_boxes (s : t (S * list storage_call)) (P : list Detail) :
  let w' := snd (_check_if_lrp_none (s, P)) in
  box_storage (fst w') = box_storage s /\
  last_placed_index (fst w') = last_placed_index s /\
  endpoints_placed (fst w') = endpoints_placed s /\
  active_box (fst w') = active_box s.
Proof.
  unfold _check_if_lrp_none, self, assign, placed_details. unfold_m.
  destruct (lrp s); simpl; [repeat split |].
  destruct P; simpl; repeat split.
Qed.

(** The second step either leaves the storage, the counters and the active
    box as they are, or gives the active box to the storage. *)
Lemma check_active_box_size_boxes (d : R * R) (s : t (S * list storage_call))
  (P : list Detail) :
  let r := fst (_check_active_box_size d (s, P)) in
  let s' := fst (snd (_check_active_box_size d (s, P))) in
  (box_storage s' = box_storage s /\ last_placed_index s' = last_placed_index s /\
   endpoints_placed s' = endpoints_placed s /\ active_box s' = active_box s) \/
  (exists ab,
     active_box s = Some ab /\
     snd (box_storage s') = snd (box_storage s) ++ [Called_add_box ab] /\
     last_placed_index s' = last_placed_index s /\
     (r = Ret tt -> active_box s' = None /\
                    endpoints_placed s' = (endpoints_placed s + 1)%Z)).
Proof.
  unfold _check_active_box_size, self, assign, storage, inv_pow. unfold_m.
  destruct (active_box s) as [ab |] eqn:Hab; simpl; [| left; repeat split; assumption].
  destruct (active_box_first_detail_index s =? 0)%Z; simpl;
    [left; repeat split; assumption |].
  match goal with |- context [if ?c then _ else _] => destruct c end; simpl;
    [| left; repeat split; assumption].
  right. exists ab. split; [reflexivity |]. unfold logged.
  destruct (add_box ab (fst (box_storage s))) as [[[] | e] st']; simpl.
  - repeat split.
  - split; [reflexivity |]. split; [reflexivity |]. discriminate.
Qed.

(** The third step gives no box to the storage and leaves the counters. *)
Lemma choose_active_box_boxes (d : R * R) (s : t (S * list storage_call))
  (P : list Detail) :
  let s' := fst (snd (_choose_active_box d (s, P))) in
  added_boxes (snd (box_storage s')) = added_boxes (snd (box_storage s)) /\
  last_placed_index s' = last_placed_index s /\
  endpoints_placed s' = endpoints_placed s.
Proof.
  unfold _choose_active_box, _choose_active_box_from_box, _cut_new_strip,
    self, assign, storage, deref, placed_details, set_placed_details, list_remove, inv_pow.
  unfold_m. unfold logged.
  destruct (active_box s) as [ab |]; simpl; [boxes_done |].
  destruct (get_max_box (fst (box_storage s))) as [[o | e] st1]; simpl; [| boxes_done].
  destruct (last_placed_index s + 1 =? 0)%Z eqn:Ez; simpl; [boxes_done |].
  match goal with |- context [if ?c then _ else _] => destruct c end; simpl.
  - destruct (pop_max_box st1) as [[[b |] | e] st2]; simpl; boxes_done.
  - destruct (lrp s) as [l |]; simpl; [| boxes_done].
    rewrite ?Ez. simpl.
    destruct (Rgtb (snd d + Rpower (1 / IZR (last_placed_index s + 1)) (gamma s))
                   (Rmax (width l) (height l))
              || Rgtb (fst d + Rpower (1 / IZR (last_placed_index s + 1)) (gamma s))
                      (Rmin (width l) (height l)))%bool; simpl; [boxes_done |].
    destruct (update_placed_details s); simpl; [| boxes_done].
    destruct (remove_first l P); simpl; boxes_done.
Qed.

(** The last step, once it has an active box and has updated the list,
    gives the normal box of the new index to the storage and makes the
    endpoint of the current count the active box. *)
Lemma place_detail_boxes (d : R * R) (s : t (S * list storage_call)) (P : list Detail) :
  let r := fst (_place_detail_in_active_box d (s, P)) in
  let s' := fst (snd (_place_detail_in_active_box d (s, P))) in
  (added_boxes (snd (box_storage s')) = added_boxes (snd (box_storage s)) /\
   r <> Ret tt) \/
  (exists nb ep,
     name nb = (NORMAL_BOX_PREFIX ++ str (last_placed_index s + 1))%string /\
     detail_type nb = _get_normal_box_type s /\
     snd (box_storage s') = snd (box_storage s) ++ [Called_add_box nb] /\
     last_placed_index s' = (last_placed_index s + 1)%Z /\
     endpoints_placed s' = endpoints_placed s /\
     active_box s' = Some ep /\
     name ep = (ENDPOINT_PREFIX ++ str (endpoints_placed s))%string /\
     detail_type ep = _get_endpoint_type s).
Proof.
  unfold _place_detail_in_active_box, self, assign, storage, deref,
    placed_details, set_placed_details, list_remove.
  unfold_m.
  destruct (active_box s) as [ab |]; simpl; [| left; split; [reflexivity | discriminate]].
  destruct (cut_pieces (is_active_box_horizontal s) ab d) as [[pd nb] ep] eqn:Ecut.
  destruct (update_placed_details s); simpl.
  - destruct (remove_first ab P) as [P0 |]; simpl;
      [| left; split; [reflexivity | discriminate]].
    unfold logged; simpl.
    match goal with |- context [add_box ?B (fst (box_storage s))] =>
      destruct (add_box B (fst (box_storage s))) as [r0 st'] end.
    simpl. right. eexists. eexists. repeat split; reflexivity.
  - unfold logged; simpl.
    match goal with |- context [add_box ?B (fst (box_storage s))] =>
      destruct (add_box B (fst (box_storage s))) as [r0 st'] end.
    simpl. right. eexists. eexists. repeat split; reflexivity.
Qed.

(** One call of [place_next]: the boxes given to the storage are normal
    boxes and endpoints of names that differ, and when the call returns the
    names are in order again. *)
Lemma place_next_boxes (d : R * R) (s : t (S * list storage_call)) (P : list Detail) :
  names_in_order s ->
  let s' := fst (snd (place_next d (s, P))) in
  (NoDup (added_names (snd (box_storage s'))) /\
   Forall (fun b => is_normal_box b \/ is_endpoint b) (added_boxes (snd (box_storage s')))) /\
  (fst (place_next d (s, P)) = Ret tt -> names_in_order s').
Proof.
  intros (Hk & Hty & Hact). cbv zeta. unfold place_next, bind.
  pose proof (check_if_lrp_none_boxes s P) as HA. cbv zeta in HA.
  destruct (_check_if_lrp_none (s, P)) as [rA [sA PA]]. cbn [fst snd] in HA.
  destruct HA as (HA1 & HA2 & HA3 & HA4).
  destruct rA as [[] | e]; cbn [fst snd];
    [| rewrite HA1; split; [split; [exact (proj1 Hk) | exact Hty] | discriminate]].
  pose proof (check_active_box_size_boxes d sA PA) as HB. cbv zeta in HB.
  destruct (_check_active_box_size d (sA, PA)) as [rB [sB PB]]. cbn [fst snd] in HB.
  assert (HmidB : (NoDup (added_names (snd (box_storage sB))) /\
                   Forall (fun b => is_normal_box b \/ is_endpoint b)
                     (added_boxes (snd (box_storage sB)))) /\
                  (rB = Ret tt ->
                   names_known (added_names (snd (box_storage sB)))
                     (last_placed_index sB) (endpoints_placed sB))).
  { destruct HB as [(HB1 & HB2 & HB3 & _) | (ab & Hab & HB1 & HB2 & HB3)].
    - rewrite HB1, HB2, HB3, HA1, HA2, HA3.
      split; [split; [exact (proj1 Hk) | exact Hty] | intros _; exact Hk].
    - rewrite HA4 in Hab. destruct (Hact ab Hab) as [Hnm Hep].
      rewrite HB1, added_names_snoc, added_boxes_app, HA1. rewrite Hnm.
      pose proof (names_known_add_endpoint Hk) as Hk'. split.
      + split; [exact (proj1 Hk') |]. apply Forall_app. split; [exact Hty |].
        constructor; [right; exact Hep | constructor].
      + intros Hr. destruct (HB3 Hr) as [_ HB4]. rewrite HB2, HB4, HA2, HA3. exact Hk'. }
  clear HB. destruct HmidB as [[HndB HtyB] HkB].
  destruct rB as [[] | e]; cbn [fst snd]; [| split; [split; assumption | discriminate]].
  specialize (HkB eq_refl).
  pose proof (choose_active_box_boxes d sB PB) as HC. cbv zeta in HC.
  destruct (_choose_active_box d (sB, PB)) as [rC [sC PC]]. cbn [fst snd] in HC.
  destruct HC as (HC1 & HC2 & HC3).
  assert (HC1' : added_names (snd (box_storage sC)) = added_names (snd (box_storage sB)))
    by (unfold added_names; rewrite HC1; reflexivity).
  rewrite <- HC1', <- HC2, <- HC3 in HkB. rewrite <- HC1 in HtyB.
  destruct rC as [[] | e]; cbn [fst snd];
    [| split; [split; [exact (proj1 HkB) | exact HtyB] | discriminate]].
  pose proof (place_detail_boxes d sC PC) as HD. cbv zeta in HD.
  destruct (_place_detail_in_active_box d (sC, PC)) as [rD [sD PD]]. cbn [fst snd] in HD |- *.
  destruct HD as [[HD1 HD2] | (nb & ep & Hnb & Tnb & HD1 & HD2 & HD3 & HD4 & Hep & Tep)].
  - assert (HD1' : added_names (snd (box_storage sD)) = added_names (snd (box_storage sC)))
      by (unfold added_names; rewrite HD1; reflexivity).
    rewrite HD1, HD1'.
    split; [split; [exact (proj1 HkB) | exact HtyB] | intros Hr; contradiction].
  - pose proof (names_known_add_box HkB) as Hk'.
    assert (E : added_names (snd (box_storage sD)) =
                added_names (snd (box_storage sC))
                ++ [(NORMAL_BOX_PREFIX ++ str (last_placed_index sC + 1))%string]).
    { rewrite HD1, added_names_snoc, Hnb. reflexivity. }
    assert (Hty' : Forall (fun b => is_normal_box b \/ is_endpoint b)
                     (added_boxes (snd (box_storage sD)))).
    { rewrite HD1, added_boxes_app. apply Forall_app. split; [exact HtyB |].
      constructor; [| constructor]. left. split; [eexists; exact Hnb |].
      rewrite Tnb. apply normal_box_type_cases. }
    split; [split; [rewrite E; exact (proj1 Hk') | exact Hty'] |].
    intros _. split; [| split].
    + rewrite E, HD2, HD3. exact Hk'.
    + exact Hty'.
    + intros ab Hab. rewrite HD4 in Hab. injection Hab as <-. rewrite HD3.
      split; [exact Hep |]. split; [eexists; exact Hep |].
      rewrite Tep. apply endpoint_type_cases.
Qed.

Lemma place_all_boxes (ds : list (R * R)) (s : t (S * list storage_call))
  (P : list Detail) :
  names_in_order s ->
  let s' := fst (snd (place_all ds (s, P))) in
  NoDup (added_names (snd (box_storage s'))) /\
  Forall (fun b => is_normal_box b \/ is_endpoint b) (added_boxes (snd (box_storage s'))).
Proof.
  revert s P. induction ds as [| d ds IH]; intros s P Hs.
  - destruct Hs as (Hk & Hty & _). split; [exact (proj1 Hk) | exact Hty].
  - cbn [place_all]. unfold bind.
    destruct (place_next_boxes d P Hs) as [Hnd Hret]. cbv zeta in Hnd, Hret.
    destruct (place_next d (s, P)) as [[[] | e] [s' P']]; cbn [fst snd] in *.
    + apply IH. apply Hret. reflexivity.
    + exact Hnd.
Qed.

Lemma names_in_order_init (gamma : R) (n0 max_placed : Z) (st : S) (flag : bool) :
  names_in_order (init gamma n0 max_placed (st, []) flag).
Proof.
  split; [split; [constructor | intros nm []] |]. split; [constructor |].
  intros ab Hab. discriminate.
Qed.

End EngineBoxes.

(** Started with [n0 >= 1], whatever the storage answers and whatever details
    come, the engine never gives two boxes to its storage under the same
    name: over all the calls of [place_next] of a run, up to and including
    one that raises, the names of the boxes passed to [add_box] differ from
    each other. *)
Theorem engine_gives_fresh_names (S : Type) (BS : BoxStorage S) (gamma : R)
  (n0 max_placed : Z) (st : S) (flag : bool) (P : list Detail) (ds : list (R * R)) :
  (1 <= n0)%Z ->
  NoDup (added_names
           (snd (SlackPackAlgorithm.box_storage
                   (fst (snd (place_all ds
                                (SlackPackAlgorithm.init gamma n0 max_placed (st, []) flag,
                                 P))))))).
Proof.
  intros _.
  apply (proj1 (place_all_boxes ds P (names_in_order_init gamma n0 max_placed st flag))).
Qed.

(** On the sheet of side 3 the squares of sides 1 and 1/2 are placed, and
    the storage is given the boxes named [B1] and [B2]. *)
Lemma engine_gives_fresh_names_witness :
  added_names
    (snd (SlackPackAlgorithm.box_storage
            (fst (snd (place_all [(1, 1); (1 / 2, 1 / 2)]
                         (SlackPackAlgorithm.init 1 1 2 (InMemoryBoxStorage.init, []) true,
                          [wide_sheet]))))))
    = ["B1"%string; "B2"%string] /\
  NoDup (added_names
           (snd (SlackPackAlgorithm.box_storage
                   (fst (snd (place_all [(1, 1); (1 / 2, 1 / 2)]
                                (SlackPackAlgorithm.init 1 1 2 (InMemoryBoxStorage.init, []) true,
                                 [wide_sheet]))))))).
Proof.
  split; [rewrite squares_run_logged; reflexivity |].
  apply engine_gives_fresh_names. lia.
Defined.

(** Started with [n0 >= 1], the engine gives only normal boxes and endpoints
    to its storage, whatever the storage answers: a box passed to [add_box]
    is named [B] with an index and of type [normal_box_1] or [normal_box_2],
    or named [E] with a count and of type [endpoint_1] or [endpoint_2]; a
    placed detail or the LRP is never stored. *)
Theorem engine_stores_boxes_and_endpoints (S : Type) (BS : BoxStorage S) (gamma : R)
  (n0 max_placed : Z) (st : S) (flag : bool) (P : list Detail) (ds : list (R * R)) :
  (1 <= n0)%Z ->
  forall b,
    In b (added_boxes
            (snd (SlackPackAlgorithm.box_storage
                    (fst (snd (place_all ds
                                 (SlackPackAlgorithm.init gamma n0 max_placed (st, []) flag,
                                  P))))))) ->
    (is_normal_box b \/ is_endpoint b) /\
    detail_type b <> SlackPackAlgorithm.DETAIL_NAME /\
    detail_type b <> SlackPackAlgorithm.LRP_NAME.
Proof.
  intros _ b Hb.
  pose proof (proj2 (place_all_boxes ds P (names_in_order_init gamma n0 max_placed st flag)))
    as H.
  cbv zeta in H. rewrite Forall_forall in H. specialize (H b Hb).
  split; [exact H |].
  destruct H as [[_ [E | E]] | [_ [E | E]]]; rewrite E; split; discriminate.
Qed.

(** The same run: the storage is given the two normal boxes above the
    squares. *)
Lemma engine_stores_boxes_and_endpoints_witness :
  added_boxes
    (snd (SlackPackAlgorithm.box_storage
            (fst (snd (place_all [(1, 1); (1 / 2, 1 / 2)]
                         (SlackPackAlgorithm.init 1 1 2
                            (InMemoryBoxStorage.init, []) true,
                          [wide_sheet]))))))
    = [squares_B1; squares_B2] /\
  Forall (fun b => (is_normal_box b \/ is_endpoint b) /\
                   detail_type b <> SlackPackAlgorithm.DETAIL_NAME /\
                   detail_type b <> SlackPackAlgorithm.LRP_NAME)
    (added_boxes
       (snd (SlackPackAlgorithm.box_storage
               (fst (snd (place_all [(1, 1); (1 / 2, 1 / 2)]
                            (SlackPackAlgorithm.init 1 1 2
                               (InMemoryBoxStorage.init, []) true,
                             [wide_sheet]))))))).
Proof.
  split; [rewrite squares_run_logged; reflexivity |].
  apply Forall_forall. intros b Hb.
  apply (@engine_stores_boxes_and_endpoints _ _ 1 1 2 InMemoryBoxStorage.init true
           [wide_sheet] [(1, 1); (1 / 2, 1 / 2)] ltac:(lia) b Hb).
Defined.

(** ** The file handler *)

Lemma string_app_assoc (a b c : string) : ((a ++ b) ++ c = a ++ (b ++ c))%string.
Proof. induction a as [| x a IH]; simpl; [reflexivity | rewrite IH; reflexivity]. Qed.

Lemma string_app_nil_r (a : string) : (a ++ "" = a)%string.
Proof. induction a as [| x a IH]; simpl; [reflexivity | rewrite IH; reflexivity]. Qed.

Lemma append_file_at (path text : string) (fs : files) :
  append_file path text fs path = Some (content fs path ++ text)%string.
Proof.
  unfold append_file, content. rewrite String.eqb_refl.
  destruct (fs path); reflexivity.
Qed.

Lemma append_file_other (path text : string) (fs : files) (p : string) :
  p <> path -> append_file path text fs p = fs p.
Proof.
  intros Hne. unfold append_file. apply String.eqb_neq in Hne. rewrite Hne. reflexivity.
Qed.

Lemma write_file_other (path text : string) (fs : files) (p : string) :
  p <> path -> write_file path text fs p = fs p.
Proof.
  intros Hne. unfold write_file. apply String.eqb_neq in Hne. rewrite Hne. reflexivity.
Qed.

(** Writes that append: in mode [append], and in mode [overwrite] after the
    first write. *)
Lemma write_all_appending (messages : list string) (h : FileOutputHandler.t) (fs : files) :
  FileOutputHandler.mode h = FileOutputHandler.APPEND \/
  (FileOutputHandler.mode h = FileOutputHandler.OVERWRITE /\
   FileOutputHandler.first_write h = false) ->
  exists fs',
    write_all messages (h, fs) = (Ret tt, (h, fs')) /\
    (messages <> [] ->
     fs' (FileOutputHandler.file_path h)
       = Some (content fs (FileOutputHandler.file_path h) ++ lines_of messages)%string) /\
    (messages = [] -> fs' = fs) /\
    forall p, p <> FileOutputHandler.file_path h -> fs' p = fs p.
Proof.
  intros Hmode. revert fs. induction messages as [| m rest IH]; intros fs.
  - exists fs. split; [reflexivity |]. split; [congruence |]. split; reflexivity.
  - set (fs1 := append_file (FileOutputHandler.file_path h) (m ++ newline) fs).
    assert (E1 : FileOutputHandler.write m (h, fs) = (Ret tt, (h, fs1))).
    { unfold FileOutputHandler.write, bind, get, put. cbn [fst snd].
      destruct Hmode as [-> | [-> ->]]; reflexivity. }
    destruct (IH fs1) as (fs' & Erest & Hc & Hnil & Ho).
    exists fs'. split; [| split; [| split]].
    + cbn [write_all]. unfold bind. rewrite E1. exact Erest.
    + intros _. destruct rest as [| m' rest'].
      * rewrite (Hnil eq_refl). subst fs1. rewrite append_file_at.
        cbn [lines_of]. rewrite string_app_nil_r. reflexivity.
      * rewrite Hc by discriminate. f_equal. unfold content at 1. subst fs1.
        rewrite append_file_at. cbn [lines_of]. apply string_app_assoc.
    + discriminate.
    + intros p Hp. rewrite (Ho p Hp). subst fs1. apply append_file_other, Hp.
Qed.

(** A handler made in mode [overwrite] replaces the content of its file by
    its messages, each on its line, as soon as there is one message; with no
    message the file is as before.  In mode [append] the lines come after
    the old content, which is empty when the file is created.  Other files
    are never touched.  Any other mode is accepted by the constructor and
    fails at each [write] with [ValueError], leaving the files as they are. *)
Theorem file_handler_contents (path : string) (fs : files) (messages : list string) :
  (exists h' fs',
     write_all messages
       (FileOutputHandler.init path FileOutputHandler.OVERWRITE, fs) = (Ret tt, (h', fs')) /\
     (messages <> [] -> fs' path = Some (lines_of messages)) /\
     (messages = [] -> fs' = fs) /\
     forall p, p <> path -> fs' p = fs p) /\
  (exists h' fs',
     write_all messages
       (FileOutputHandler.init path FileOutputHandler.APPEND, fs) = (Ret tt, (h', fs')) /\
     (messages <> [] -> fs' path = Some (content fs path ++ lines_of messages)%string) /\
     (messages = [] -> fs' = fs) /\
     forall p, p <> path -> fs' p = fs p) /\
  (forall mode m,
     mode <> FileOutputHandler.APPEND -> mode <> FileOutputHandler.OVERWRITE ->
     FileOutputHandler.write m (FileOutputHandler.init path mode, fs)
       = (Raise (ValueError ("Invalid mode: " ++ mode)),
          (FileOutputHandler.init path mode, fs))).
Proof.
  split; [| split].
  - destruct messages as [| m rest].
    + eexists. exists fs. split; [reflexivity |]. split; [congruence |]. split; reflexivity.
    + set (h1 := FileOutputHandler.mk path FileOutputHandler.OVERWRITE false).
      set (fs1 := write_file path (m ++ newline) fs).
      destruct (@write_all_appending rest h1 fs1) as (fs' & Erest & Hc & Hnil & Ho);
        [right; split; reflexivity |].
      exists h1, fs'. split; [| split; [| split]].
      * cbn [write_all]. unfold bind. exact Erest.
      * intros _. cbn [lines_of]. destruct rest as [| m' rest'].
        -- rewrite (Hnil eq_refl). subst fs1. unfold write_file.
           rewrite String.eqb_refl. cbn [lines_of]. rewrite string_app_nil_r. reflexivity.
        -- cbn [FileOutputHandler.file_path h1] in Hc. rewrite Hc by discriminate.
           f_equal. unfold content, fs1, write_file. rewrite String.eqb_refl. reflexivity.
      * discriminate.
      * intros p Hp. cbn [FileOutputHandler.file_path h1] in Ho. rewrite (Ho p Hp).
        subst fs1. apply write_file_other, Hp.
  - destruct (@write_all_appending messages
                (FileOutputHandler.init path FileOutputHandler.APPEND) fs)
      as (fs' & E & Hc & Hnil & Ho); [left; reflexivity |].
    eexists. exists fs'. split; [exact E |]. split; [exact Hc |]. split; assumption.
  - intros mode m Ha Ho. unfold FileOutputHandler.write, bind, get, raise. cbn [fst snd].
    cbn [FileOutputHandler.mode FileOutputHandler.init].
    apply String.eqb_neq in Ha, Ho. rewrite Ha, Ho. reflexivity.
Qed.

Lemma file_handler_contents_witness :
  FileOutputHandler.write "x" (FileOutputHandler.init "f" "w", fun _ => None)
    = (Raise (ValueError "Invalid mode: w"), (FileOutputHandler.init "f" "w", fun _ => None)).
Proof.
  apply (proj2 (proj2 (file_handler_contents "f" (fun _ => None) [])) "w"%string "x"%string);
    discriminate.
Defined.

(** ** Boxes of equal size in the in-memory storage *)

Lemma insort_split (x : Detail) (l : list Detail) :
  sorted_desc l ->
  exists l1 l2,
    l = l1 ++ l2 /\ SortedSet.insort x l = l1 ++ x :: l2 /\
    Forall (fun y => min_size x <= min_size y) l1 /\
    Forall (fun y => min_size y < min_size x) l2.
Proof.
  induction l as [| y l IH]; intros Hs.
  - exists [], []. repeat split; constructor.
  - cbn [SortedSet.insort]. unfold SortedSet.cmp.
    destruct (Rltb (min_size y - min_size x) 0) eqn:E.
    + apply Rltb_true in E. exists [], (y :: l).
      split; [reflexivity |]. split; [reflexivity |]. split; [constructor |].
      constructor; [lra |]. apply Forall_forall. intros z Hz.
      pose proof (@sorted_desc_head y l Hs z (or_intror Hz)). lra.
    + apply Rltb_false in E.
      destruct (IH (@sorted_desc_tail y l Hs)) as (l1 & l2 & -> & -> & H1 & H2).
      exists (y :: l1), l2. split; [reflexivity |]. split; [reflexivity |].
      split; [constructor; [lra | exact H1] | exact H2].
Qed.

(** In the in-memory storage a new box is put behind the stored boxes whose
    smaller side is at least its own and before the smaller ones: boxes of
    the same smaller side keep the order of their arrival, and the first of
    them to come is the first to be returned and popped. *)
Theorem in_memory_ties_keep_arrival_order (s : InMemoryBoxStorage.t) (x : Detail) :
  after_operations InMemoryBoxStorage.init s ->
  ~ In x (InMemoryBoxStorage.boxes s) ->
  exists l1 l2 s',
    InMemoryBoxStorage.boxes s = l1 ++ l2 /\
    add_box x s = (Ret tt, s') /\
    InMemoryBoxStorage.boxes s' = l1 ++ x :: l2 /\
    Forall (fun y => min_size x <= min_size y) l1 /\
    Forall (fun y => min_size y < min_size x) l2 /\
    get_max_box s' = (Ret (hd_error (l1 ++ [x])), s').
Proof.
  intros Hs Hx. destruct (in_memory_after_operations Hs) as [Hsorted _].
  destruct (insort_split x Hsorted) as (l1 & l2 & E1 & E2 & H1 & H2).
  exists l1, l2. eexists. split; [exact E1 |]. split; [apply in_memory_add_eq |].
  cbn [InMemoryBoxStorage.boxes].
  assert (E : SortedSet.add x (InMemoryBoxStorage.boxes s) = l1 ++ x :: l2).
  { destruct (add_cases x (InMemoryBoxStorage.boxes s)) as [[Hin _] | [_ ->]];
      [contradiction | exact E2]. }
  split; [exact E |]. split; [exact H1 |]. split; [exact H2 |].
  rewrite in_memory_get. cbn [InMemoryBoxStorage.boxes]. rewrite E.
  destruct l1; reflexivity.
Qed.

Lemma in_memory_ties_keep_arrival_order_witness :
  exists l1 l2 s',
    InMemoryBoxStorage.boxes InMemoryBoxStorage.init = l1 ++ l2 /\
    add_box unit_box InMemoryBoxStorage.init = (Ret tt, s') /\
    InMemoryBoxStorage.boxes s' = l1 ++ unit_box :: l2 /\
    Forall (fun y => min_size unit_box <= min_size y) l1 /\
    Forall (fun y => min_size y < min_size unit_box) l2 /\
    get_max_box s' = (Ret (hd_error (l1 ++ [unit_box])), s').
Proof.
  apply (@in_memory_ties_keep_arrival_order InMemoryBoxStorage.init unit_box).
  - apply after_init.
  - intros [].
Defined.

(** ** The placements list by type *)

Lemma details_of_type_app (ty : string) (l1 l2 : list Detail) :
  details_of_type ty (l1 ++ l2) = (details_of_type ty l1 + details_of_type ty l2)%Z.
Proof. unfold details_of_type. rewrite map_app, count_occ_app. lia. Qed.

Lemma details_of_type_cons (ty : string) (a : Detail) (l : list Detail) :
  details_of_type ty (a :: l) =
    ((if string_dec (detail_type a) ty then 1 else 0) + details_of_type ty l)%Z.
Proof.
  unfold details_of_type. cbn [map count_occ].
  destruct (string_dec (detail_type a) ty); lia.
Qed.

Lemma details_of_type_remove (ty : string) (a : Detail) (l l0 : list Detail) :
  remove_first a l = Some l0 ->
  details_of_type ty l =
    ((if string_dec (detail_type a) ty then 1 else 0) + details_of_type ty l0)%Z.
Proof.
  intros H. apply remove_first_some_perm in H. rewrite <- details_of_type_cons.
  unfold details_of_type. f_equal.
  apply (proj1 (Permutation_count_occ string_dec _ _)).
  apply Permutation_map. exact H.
Qed.

Lemma is_box_not_detail (d : Detail) :
  is_box d ->
  detail_type d <> SlackPackAlgorithm.DETAIL_NAME /\
  detail_type d <> SlackPackAlgorithm.LRP_NAME.
Proof.
  unfold is_box. intros [E | [E | [E | [E | []]]]]; rewrite <- E; split; discriminate.
Qed.

Lemma details_of_type_box (ty : string) (d : Detail) (l : list Detail) :
  is_box d -> ty = SlackPackAlgorithm.DETAIL_NAME \/ ty = SlackPackAlgorithm.LRP_NAME ->
  details_of_type ty (d :: l) = details_of_type ty l.
Proof.
  intros Hd Hty. rewrite details_of_type_cons.
  destruct (is_box_not_detail Hd) as [H1 H2].
  destruct (string_dec (detail_type d) ty) as [E | _]; [| lia].
  destruct Hty as [-> | ->]; contradiction.
Qed.

Lemma details_of_type_remove_lrp (l : Detail) (P P0 : list Detail) :
  remove_first l P = Some P0 -> detail_type l = SlackPackAlgorithm.LRP_NAME ->
  details_of_type SlackPackAlgorithm.DETAIL_NAME P0
    = details_of_type SlackPackAlgorithm.DETAIL_NAME P /\
  details_of_type SlackPackAlgorithm.LRP_NAME P0
    = (details_of_type SlackPackAlgorithm.LRP_NAME P - 1)%Z.
Proof.
  intros Hrem Tl.
  rewrite (@details_of_type_remove SlackPackAlgorithm.DETAIL_NAME l P P0 Hrem).
  rewrite (@details_of_type_remove SlackPackAlgorithm.LRP_NAME l P P0 Hrem).
  rewrite Tl.
  destruct (string_dec SlackPackAlgorithm.LRP_NAME SlackPackAlgorithm.DETAIL_NAME)
    as [E | _]; [discriminate E |].
  destruct (string_dec SlackPackAlgorithm.LRP_NAME SlackPackAlgorithm.LRP_NAME)
    as [_ | E]; [| congruence].
  lia.
Qed.

Lemma details_of_type_remove_box (ab : Detail) (P P0 : list Detail) :
  remove_first ab P = Some P0 -> is_box ab ->
  details_of_type SlackPackAlgorithm.DETAIL_NAME P0
    = details_of_type SlackPackAlgorithm.DETAIL_NAME P /\
  details_of_type SlackPackAlgorithm.LRP_NAME P0
    = details_of_type SlackPackAlgorithm.LRP_NAME P.
Proof.
  intros Hrem Hab. destruct (is_box_not_detail Hab) as [H1 H2].
  rewrite (@details_of_type_remove SlackPackAlgorithm.DETAIL_NAME ab P P0 Hrem).
  rewrite (@details_of_type_remove SlackPackAlgorithm.LRP_NAME ab P P0 Hrem).
  destruct (string_dec (detail_type ab) SlackPackAlgorithm.DETAIL_NAME) as [E | _];
    [contradiction |].
  destruct (string_dec (detail_type ab) SlackPackAlgorithm.LRP_NAME) as [E | _];
    [contradiction |].
  lia.
Qed.

Lemma count_detail_types_get (details : list Detail) (ty : string) :
  dict_get ty (count_detail_types details) =
    if (details_of_type ty details =? 0)%Z then None
    else Some (details_of_type ty details).
Proof.
  pose proof (count_fold details []) as H. cbn zeta in H.
  fold (count_detail_types details) in H. destruct H as (H1 & H2 & _ & _).
  specialize (H1 ty). specialize (H2 ty). cbn [dict_get] in H1, H2.
  destruct (details_of_type ty details =? 0)%Z eqn:E.
  - apply Z.eqb_eq in E. apply H2. split; [reflexivity | exact E].
  - apply Z.eqb_neq in E. destruct (dict_get ty (count_detail_types details)) as [n |].
    + f_equal. lia.
    + exfalso. apply E. apply H2. reflexivity.
Qed.

Section TypedRuns.
Context {S : Type} {BS : BoxStorage S} {LS : LawfulStorage S}.
Import SlackPackAlgorithm.

Lemma normal_box_is_box (s : t S) (hz : bool) (ab : Detail) (d : R * R) (n : Z) :
  is_box (normal_box_of hz ab d n (_get_normal_box_type s)).
Proof.
  unfold is_box, normal_box_of, _get_normal_box_type.
  destruct hz; cbn [detail_type];
    (destruct (active_box_from s) as [from |]; [destruct (String.eqb from LRP_NAME) |]);
    simpl; tauto.
Qed.

Lemma endpoint_is_box (s : t S) (hz : bool) (ab : Detail) (d : R * R) (e : Z) :
  is_box (endpoint_of hz ab d e (_get_endpoint_type s)).
Proof.
  unfold is_box, endpoint_of, _get_endpoint_type.
  destruct hz; cbn [detail_type];
    (destruct (active_box_from s) as [from |];
     [destruct (String.eqb from LRP_NAME || String.eqb from ENDPOINT_TYPE_1_NAME)%bool |]);
    simpl; tauto.
Qed.

Lemma stripe_is_box (l : Detail) (d : R * R) (g : R) (e : Z) :
  is_box (stripe_of l d g e).
Proof.
  unfold is_box, stripe_of. destruct (Rleb (width l) (height l)); simpl; tauto.
Qed.

Lemma rest_of_lrp_type (l : Detail) (d : R * R) (g : R) :
  detail_type (rest_of_lrp l d g) = LRP_NAME.
Proof. unfold rest_of_lrp. destruct (Rleb (width l) (height l)); reflexivity. Qed.

Lemma placed_detail_type (hz : bool) (ab : Detail) (d : R * R) (n : Z) :
  detail_type (placed_detail_of hz ab d n) = DETAIL_NAME.
Proof. unfold placed_detail_of. destruct hz; reflexivity. Qed.


(** The first two steps keep the typed world; afterwards [self.lrp] is set. *)
Lemma typed_retire (n0 : Z) (n : nat) (s : t S) (P : list Detail) (d : R * R) :
  typed_inv n0 n (s, P) ->
  exists l s1,
    bind _check_if_lrp_none (fun _ => _check_active_box_size d) (s, P)
      = (Ret tt, (s1, P)) /\
    typed_inv n0 n (s1, P) /\ lrp s1 = Some l.
Proof.
  intros (Hu & Hn0 & Hlast & Hidx & (l & Hl & Tl) & (C & Hst & HC) & Hact & Hd & Hlrp & HP).
  cbn [fst snd] in *. exists l. unfold bind.
  rewrite (check_if_lrp_none_spec s P Hl). set (s0 := set_lrp (Some l) s).
  assert (Hinv0 : forall s' C',
            lrp s' = Some l -> stores (box_storage s') C' -> Forall is_box C' ->
            update_placed_details s' = update_placed_details s ->
            last_placed_index s' = last_placed_index s ->
            (active_box s' = active_box s /\
             active_box_first_detail_index s' = active_box_first_detail_index s
             \/ active_box s' = None) ->
            typed_inv n0 n (s', P)).
  { intros s' C' E1 Hst' HC' E2 E3 E4. unfold typed_inv. cbn [fst snd].
    rewrite E2, E3. split; [exact Hu |]. split; [exact Hn0 |]. split; [exact Hlast |].
    split; [| split; [| split; [| split; [| split; [| split]]]]].
    - destruct E4 as [[E4 E5] | E4]; rewrite E4; [rewrite E5; exact Hidx | congruence].
    - exists l. unfold current_lrp. cbn [fst]. rewrite E1. split; [reflexivity | exact Tl].
    - exists C'. split; assumption.
    - destruct E4 as [[E4 _] | E4]; rewrite E4; [exact Hact | discriminate].
    - exact Hd.
    - exact Hlrp.
    - exact HP. }
  destruct (active_box s) as [ab |] eqn:Hab.
  - specialize (Hidx ltac:(discriminate)).
    destruct (Rle_dec (fst d + gap (gamma s) (active_box_first_detail_index s))
                      (major (is_active_box_horizontal s) ab)) as [Hfit | Hbig].
    + exists s0. split.
      { apply (@check_active_box_size_keep _ _ s0 P d ab); [exact Hab | exact Hidx | exact Hfit]. }
      split; [| reflexivity].
      apply (Hinv0 s0 C); try reflexivity; try assumption. left. split; [exact Hab | reflexivity].
    + apply Rnot_le_gt in Hbig.
      destruct (add_box_lawful _ _ ab Hst) as (st' & Eadd & Hst').
      eexists. split.
      { rewrite (@check_active_box_size_retire _ _ s0 P d ab);
          [| exact Hab | simpl; lia | exact Hbig].
        simpl. rewrite Eadd. reflexivity. }
      split; [| reflexivity].
      destruct Hst' as [Hst' | [_ Hst']].
      * apply (Hinv0 _ (ab :: C)); try reflexivity; try assumption; [| right; reflexivity].
        constructor; [apply Hact; reflexivity | exact HC].
      * apply (Hinv0 _ C); try reflexivity; try assumption. right; reflexivity.
  - exists s0. split; [apply check_active_box_size_none; exact Hab |].
    split; [| reflexivity].
    apply (Hinv0 s0 C); try reflexivity; try assumption. left. split; [exact Hab | reflexivity].
Qed.


Lemma typed_inv_lrp (n0 : Z) (n : nat) (s : t S) (P : list Detail) (l : Detail) :
  typed_inv n0 n (s, P) -> lrp s = Some l -> detail_type l = LRP_NAME.
Proof.
  intros (_ & _ & _ & _ & (l0 & Hl0 & Tl0) & _) Hl.
  unfold current_lrp in Hl0. cbn [fst] in Hl0. rewrite Hl in Hl0.
  injection Hl0 as ->. exact Tl0.
Qed.

(** Building the typed world of another engine state and list. *)
Lemma typed_inv_build (n0 : Z) (n : nat) (s' : t S) (P' : list Detail)
  (l' : Detail) (C' : list Detail) :
  update_placed_details s' = true -> (1 <= n0)%Z ->
  last_placed_index s' = (n0 - 1 + Z.of_nat n)%Z ->
  (active_box s' <> None -> (0 < active_box_first_detail_index s')%Z) ->
  lrp s' = Some l' -> detail_type l' = LRP_NAME ->
  stores (box_storage s') C' -> Forall is_box C' ->
  (forall ab, active_box s' = Some ab -> is_box ab) ->
  details_of_type DETAIL_NAME P' = Z.of_nat n ->
  details_of_type LRP_NAME P' = 1%Z ->
  Forall known_type P' ->
  typed_inv n0 n (s', P').
Proof.
  intros H1 H2 H3 H4 H5 H6 H7 H8 H9 H10 H11 H12. unfold typed_inv. cbn [fst snd].
  split; [exact H1 |]. split; [exact H2 |]. split; [exact H3 |]. split; [exact H4 |].
  split; [exists l'; unfold current_lrp; cbn [fst]; rewrite H5; split; [reflexivity | exact H6] |].
  split; [exists C'; split; assumption |].
  split; [exact H9 |]. split; [exact H10 |]. split; assumption.
Qed.

(** The third step keeps the typed world and leaves an active box. *)
Lemma typed_choose (n0 : Z) (n : nat) (s : t S) (P : list Detail) (d : R * R)
  (l : Detail) (s2 : t S) (P2 : list Detail) :
  typed_inv n0 n (s, P) -> lrp s = Some l -> 0 <= snd d ->
  _choose_active_box d (s, P) = (Ret tt, (s2, P2)) ->
  typed_inv n0 n (s2, P2) /\
  (exists ab, active_box s2 = Some ab) /\ (exists l', lrp s2 = Some l').
Proof.
  intros Hinv Hl Hh H. pose proof (typed_inv_lrp Hinv Hl) as Tl.
  destruct Hinv as (Hu & Hn0 & Hlast & Hidx & _ & (C & Hst & HC) & Hact & Hd & Hlrp & HP).
  cbn [fst snd] in *.
  destruct (active_box s) as [ab |] eqn:Hab.
  - rewrite (@choose_active_box_keep _ _ s P d ab Hab) in H. injection H as <- <-.
    split; [| split; [exists ab; exact Hab | exists l; exact Hl]].
    apply (@typed_inv_build n0 n s P l C); try assumption.
    + rewrite Hab. exact Hidx.
    + rewrite Hab. exact Hact.
  - assert (Hlp : (0 <= last_placed_index s)%Z) by lia.
    destruct (get_max_box_lawful _ _ Hst) as (o & Hget & Ho).
    set (k := (last_placed_index s + 1)%Z) in *.
    pose proof (gap_pos (gamma s) k) as Hg.
    destruct (Rle_dec (snd d + gap (gamma s) k)
                (match o with Some b => min_size b | None => -1 end)) as [Hfit | Hsmall].
    + destruct o as [b |]; [| lra]. destruct Ho as [Hin Hmax].
      destruct (pop_max_box_lawful C Hst Hget) as (st' & C' & Hpop & Hst' & Hperm).
      rewrite (@choose_active_box_pop _ _ s P d b st' Hab Hlp Hget Hfit Hpop) in H.
      injection H as <- <-.
      assert (HbC : Forall is_box (b :: C')).
      { apply (Permutation_Forall Hperm). exact HC. }
      inversion HbC as [| ? ? Hb HC']; subst.
      split; [| split; [eexists; reflexivity | exists l; exact Hl]].
      apply (@typed_inv_build n0 n _ P l C'); try assumption; try reflexivity.
      * intros _. cbn. lia.
      * intros ab [= <-]. exact Hb.
    + apply Rnot_le_lt in Hsmall.
      rewrite (@choose_active_box_cut _ _ s P d o l Hab Hlp Hget Hsmall Hl) in H.
      cbv zeta in H.
      destruct (Rgtb (snd d + gap (gamma s) (last_placed_index s + 1))
                     (Rmax (width l) (height l))
                || Rgtb (fst d + gap (gamma s) (last_placed_index s + 1))
                        (Rmin (width l) (height l)))%bool; [discriminate |].
      rewrite Hu in H. destruct (remove_first l P) as [P0 |] eqn:Hrem; [| discriminate].
      injection H as <- <-.
      split; [| split; [eexists; reflexivity | eexists; reflexivity]].
      destruct (@details_of_type_remove_lrp l P P0 Hrem Tl) as [Hd0 Hl0].
      pose proof (stripe_is_box l d (gap (gamma s) (last_placed_index s + 1))
                    (endpoints_placed s)) as Hstripe.
      destruct (is_box_not_detail Hstripe) as [Hs1 Hs2].
      pose proof (rest_of_lrp_type l d (gap (gamma s) (last_placed_index s + 1))) as Hrest.
      apply (@typed_inv_build n0 n _ _ (rest_of_lrp l d (gap (gamma s) (last_placed_index s + 1))) C).
      * exact Hu.
      * exact Hn0.
      * exact Hlast.
      * intros _. cbn. lia.
      * reflexivity.
      * exact Hrest.
      * exact Hst.
      * exact HC.
      * intros ab [= <-]. exact Hstripe.
      * rewrite details_of_type_app, !details_of_type_cons, Hrest, Hd0, Hd.
        destruct (string_dec _ DETAIL_NAME) as [E | _]; [contradiction |].
        destruct (string_dec LRP_NAME DETAIL_NAME) as [E | _]; [discriminate E |].
        unfold details_of_type. cbn [map count_occ]. lia.
      * rewrite details_of_type_app, !details_of_type_cons, Hrest, Hl0, Hlrp.
        destruct (string_dec _ LRP_NAME) as [E | _]; [contradiction |].
        destruct (string_dec LRP_NAME LRP_NAME) as [_ | E]; [| congruence].
        unfold details_of_type. cbn [map count_occ]. lia.
      * apply Forall_app. split.
        -- rewrite Forall_forall in HP |- *. intros x Hx.
           apply HP, (remove_first_incl _ _ Hrem), Hx.
        -- constructor; [right; right; exact Hstripe |].
           constructor; [right; left; exact Hrest | constructor].
Qed.

(** The last step adds a rectangle of type [detail] to the typed world. *)
Lemma typed_place (n0 : Z) (n : nat) (s : t S) (P : list Detail) (d : R * R)
  (ab l : Detail) (s' : t S) (P' : list Detail) :
  typed_inv n0 n (s, P) -> active_box s = Some ab -> lrp s = Some l ->
  _place_detail_in_active_box d (s, P) = (Ret tt, (s', P')) ->
  typed_inv n0 (Datatypes.S n) (s', P').
Proof.
  intros Hinv Hab Hl H. pose proof (typed_inv_lrp Hinv Hl) as Tl.
  destruct Hinv as (Hu & Hn0 & Hlast & Hidx & _ & (C & Hst & HC) & Hact & Hd & Hlrp & HP).
  cbn [fst snd] in *.
  rewrite (@place_detail_in_active_box_eq _ _ s P d ab Hab) in H. cbv zeta in H.
  rewrite Hu in H. destruct (remove_first ab P) as [P0 |] eqn:Hrem; [| discriminate].
  set (B := normal_box_of (is_active_box_horizontal s) ab d (last_placed_index s + 1)
              (_get_normal_box_type s)) in *.
  set (E := endpoint_of (is_active_box_horizontal s) ab d (endpoints_placed s)
              (_get_endpoint_type s)) in *.
  set (D := placed_detail_of (is_active_box_horizontal s) ab d (last_placed_index s + 1)) in *.
  destruct (add_box_lawful _ _ B Hst) as (st' & Eadd & Hst').
  rewrite Eadd in H. injection H as <- <-.
  assert (HB : is_box B) by apply normal_box_is_box.
  assert (HE : is_box E) by apply endpoint_is_box.
  assert (HD : detail_type D = DETAIL_NAME) by apply placed_detail_type.
  destruct (is_box_not_detail HB) as [HB1 HB2].
  destruct (is_box_not_detail HE) as [HE1 HE2].
  destruct (@details_of_type_remove_box ab P P0 Hrem (Hact ab Hab)) as [Hd0 Hl0].
  assert (HC' : exists C', stores st' C' /\ Forall is_box C').
  { destruct Hst' as [Hst' | [_ Hst']].
    - exists (B :: C). split; [exact Hst' | constructor; assumption].
    - exists C. split; assumption. }
  destruct HC' as (C' & HstC' & HC').
  apply (@typed_inv_build n0 (Datatypes.S n) _ _ l C').
  - exact Hu.
  - exact Hn0.
  - cbn. rewrite Hlast. lia.
  - intros _. cbn. apply Hidx. rewrite Hab. discriminate.
  - exact Hl.
  - exact Tl.
  - exact HstC'.
  - exact HC'.
  - intros ab' [= <-]. exact HE.
  - rewrite details_of_type_app, !details_of_type_cons, HD, Hd0, Hd.
    destruct (string_dec DETAIL_NAME DETAIL_NAME) as [_ | X]; [| congruence].
    destruct (string_dec (detail_type B) DETAIL_NAME) as [X | _]; [contradiction |].
    destruct (string_dec (detail_type E) DETAIL_NAME) as [X | _]; [contradiction |].
    unfold details_of_type. cbn [map count_occ]. lia.
  - rewrite details_of_type_app, !details_of_type_cons, HD, Hl0, Hlrp.
    destruct (string_dec DETAIL_NAME LRP_NAME) as [X | _]; [discriminate X |].
    destruct (string_dec (detail_type B) LRP_NAME) as [X | _]; [contradiction |].
    destruct (string_dec (detail_type E) LRP_NAME) as [X | _]; [contradiction |].
    unfold details_of_type. cbn [map count_occ]. lia.
  - apply Forall_app. split.
    + rewrite Forall_forall in HP |- *. intros x Hx.
      apply HP, (remove_first_incl _ _ Hrem), Hx.
    + constructor; [left; exact HD |].
      constructor; [right; right; exact HB |].
      constructor; [right; right; exact HE | constructor].
Qed.

(** A call of [place_next] that returns. *)
Lemma typed_step (n0 : Z) (n : nat) (s : t S) (P : list Detail) (d : R * R)
  (s' : t S) (P' : list Detail) :
  typed_inv n0 n (s, P) -> 0 <= snd d ->
  place_next d (s, P) = (Ret tt, (s', P')) ->
  typed_inv n0 (Datatypes.S n) (s', P').
Proof.
  intros Hinv Hh H.
  destruct (typed_retire d Hinv) as (l & s1 & HA & Hinv1 & Hl1).
  rewrite place_next_unfold in H. unfold bind at 1 in H. rewrite HA in H.
  unfold bind in H.
  destruct (_choose_active_box d (s1, P)) as [[[] | e] [s2 P2]] eqn:HC; [| discriminate].
  destruct (@typed_choose n0 n s1 P d l s2 P2 Hinv1 Hl1 Hh HC) as (Hinv2 & (ab & Hab) & (l2 & Hl2)).
  apply (@typed_place n0 n s2 P2 d ab l2 s' P' Hinv2 Hab Hl2 H).
Qed.

Lemma typed_place_all (n0 : Z) (ds : list (R * R)) :
  forall (n : nat) (w w' : @world S),
    typed_inv n0 n w -> Forall (fun d => 0 <= snd d) ds ->
    place_all ds w = (Ret tt, w') ->
    typed_inv n0 (n + List.length ds) w'.
Proof.
  induction ds as [| d ds IH]; intros n w w' Hinv Hds H.
  - cbn in H. injection H as <-. rewrite Nat.add_0_r. exact Hinv.
  - inversion Hds as [| ? ? Hd Hrest]; subst.
    cbn [place_all] in H. unfold bind in H. destruct w as [s P].
    destruct (place_next d (s, P)) as [[[] | e] [s1 P1]] eqn:Hcall; [| discriminate].
    cbn [List.length]. rewrite Nat.add_succ_r.
    apply (IH (Datatypes.S n) (s1, P1) w' (@typed_step n0 n s P d s1 P1 Hinv Hd Hcall) Hrest H).
Qed.

Lemma typed_inv_init (gamma : R) (n0 max_placed : Z) (st : S) (sheet : Detail) :
  (1 <= n0)%Z -> stores st [] -> detail_type sheet = LRP_NAME ->
  typed_inv n0 0 (init gamma n0 max_placed st true, [sheet]).
Proof.
  intros Hn Hst Ty. unfold typed_inv. cbn [fst snd init update_placed_details
    last_placed_index active_box box_storage].
  split; [reflexivity |]. split; [exact Hn |]. split; [lia |].
  split; [intros X; contradiction |].
  split; [exists sheet; split; [reflexivity | exact Ty] |].
  split; [exists []; split; [exact Hst | constructor] |].
  split; [intros ab X; discriminate |].
  rewrite !details_of_type_cons, Ty.
  destruct (string_dec LRP_NAME DETAIL_NAME) as [X | _]; [discriminate X |].
  destruct (string_dec LRP_NAME LRP_NAME) as [_ | X]; [| congruence].
  split; [reflexivity |]. split; [reflexivity |].
  constructor; [right; left; exact Ty | constructor].
Qed.

End TypedRuns.

(** Started with [n0 >= 1] over a storage that keeps its boxes and is empty,
    on a sheet of type [lrp] and with the list kept up to date: when all the
    calls of [place_next] for the details [ds], of heights that are not
    negative, return, [count_detail_types] of the list counts [len(ds)]
    rectangles of type [detail] (no such key when there is no detail),
    exactly one of type [lrp], and otherwise only normal boxes and
    endpoints; the engine's [last_placed_index] is [n0 - 1 + len(ds)]. *)
Theorem placements_counted_by_type (S : Type) (BS : BoxStorage S) (LS : LawfulStorage S)
  (gamma : R) (n0 max_placed : Z) (st : S) (sheet : Detail) (ds : list (R * R))
  (s' : SlackPackAlgorithm.t S) (P' : list Detail) :
  (1 <= n0)%Z -> stores st [] ->
  detail_type sheet = SlackPackAlgorithm.LRP_NAME ->
  Forall (fun d => 0 <= snd d) ds ->
  place_all ds (SlackPackAlgorithm.init gamma n0 max_placed st true, [sheet])
    = (Ret tt, (s', P')) ->
  dict_get SlackPackAlgorithm.DETAIL_NAME (count_detail_types P')
    = (if (Z.of_nat (List.length ds) =? 0)%Z then None
       else Some (Z.of_nat (List.length ds))) /\
  dict_get SlackPackAlgorithm.LRP_NAME (count_detail_types P') = Some 1%Z /\
  (forall ty, dict_get ty (count_detail_types P') <> None ->
     In ty [SlackPackAlgorithm.DETAIL_NAME; SlackPackAlgorithm.LRP_NAME;
            SlackPackAlgorithm.NORMAL_BOX_TYPE_1_NAME;
            SlackPackAlgorithm.NORMAL_BOX_TYPE_2_NAME;
            SlackPackAlgorithm.ENDPOINT_TYPE_1_NAME;
            SlackPackAlgorithm.ENDPOINT_TYPE_2_NAME]) /\
  SlackPackAlgorithm.last_placed_index s' = (n0 - 1 + Z.of_nat (List.length ds))%Z.
Proof.
  intros Hn Hst Ty Hds H.
  pose proof (@typed_place_all S BS LS n0 ds 0%nat _ _
                (@typed_inv_init S BS LS gamma n0 max_placed st sheet Hn Hst Ty) Hds H) as Hinv.
  cbn [Nat.add] in Hinv.
  destruct Hinv as (_ & _ & Hlast & _ & _ & _ & _ & Hd & Hl & HP). cbn [fst snd] in *.
  split; [| split; [| split]].
  - rewrite count_detail_types_get, Hd. reflexivity.
  - rewrite count_detail_types_get, Hl. reflexivity.
  - intros ty Hty. rewrite count_detail_types_get in Hty.
    destruct (details_of_type ty P' =? 0)%Z eqn:E; [contradiction |].
    apply Z.eqb_neq in E. unfold details_of_type in E.
    assert (Hin : In ty (map detail_type P')).
    { apply (count_occ_In string_dec). lia. }
    apply in_map_iff in Hin. destruct Hin as (x & <- & Hx).
    rewrite Forall_forall in HP. destruct (HP x Hx) as [X | [X | X]].
    + left. symmetry. exact X.
    + right. left. symmetry. exact X.
    + right. right. unfold is_box in X. cbn [In] in X |- *. tauto.
  - exact Hlast.
Qed.

Lemma placements_counted_by_type_witness :
  dict_get SlackPackAlgorithm.DETAIL_NAME
    (count_detail_types [run_lrp; run_D1; run_B1; run_E1]) = Some 1%Z /\
  dict_get SlackPackAlgorithm.LRP_NAME
    (count_detail_types [run_lrp; run_D1; run_B1; run_E1]) = Some 1%Z.
Proof.
  assert (Hrun : place_all [(3, 1)]
                   (SlackPackAlgorithm.init 1 1 2 InMemoryBoxStorage.init true, [sheet_9_2])
                 = (Ret tt, (run_engine_1, [run_lrp; run_D1; run_B1; run_E1]))).
  { cbn [place_all]. unfold bind. rewrite run_first_call. reflexivity. }
  assert (Hst : stores InMemoryBoxStorage.init []).
  { split; [reflexivity | constructor]. }
  assert (Hds : Forall (fun d : R * R => 0 <= snd d) [(3, 1)]).
  { constructor; [simpl; lra | constructor]. }
  destruct (@placements_counted_by_type _ _ _ 1 1 2 InMemoryBoxStorage.init sheet_9_2
              [(3, 1)] run_engine_1 [run_lrp; run_D1; run_B1; run_E1]
              ltac:(lia) Hst eq_refl Hds Hrun) as (H1 & H2 & _).
  split; [exact H1 | exact H2].
Defined.

(** ** The engine keeps to the contract of its storage *)

Lemma names_known_cons_box (N : list string) (last ep : Z) :
  names_known N last ep ->
  ~ In (SlackPackAlgorithm.NORMAL_BOX_PREFIX ++ str (last + 1))%string N /\
  names_known ((SlackPackAlgorithm.NORMAL_BOX_PREFIX ++ str (last + 1))%string :: N)
    (last + 1) ep.
Proof.
  intros [Hnd Hk].
  assert (Hfresh : ~ In (SlackPackAlgorithm.NORMAL_BOX_PREFIX ++ str (last + 1))%string N).
  { intros Hin. destruct (Hk _ Hin) as [(i & Hi & E) | (k & _ & E)].
    - cbn in E. injection E as E. apply str_inj in E. lia.
    - cbn in E. discriminate. }
  split; [exact Hfresh |]. split; [constructor; assumption |].
  intros nm [<- | Hin].
  - left. exists (last + 1)%Z. split; [lia | reflexivity].
  - destruct (Hk _ Hin) as [(i & Hi & E) | (k & Hk' & E)].
    + left. exists i. split; [lia | exact E].
    + right. exists k. split; [exact Hk' | exact E].
Qed.

Lemma names_known_cons_endpoint (N : list string) (last ep : Z) :
  names_known N last ep ->
  ~ In (SlackPackAlgorithm.ENDPOINT_PREFIX ++ str ep)%string N /\
  names_known ((SlackPackAlgorithm.ENDPOINT_PREFIX ++ str ep)%string :: N) last (ep + 1).
Proof.
  intros [Hnd Hk].
  assert (Hfresh : ~ In (SlackPackAlgorithm.ENDPOINT_PREFIX ++ str ep)%string N).
  { intros Hin. destruct (Hk _ Hin) as [(i & _ & E) | (k & Hk' & E)].
    - cbn in E. discriminate.
    - cbn in E. injection E as E. apply str_inj in E. lia. }
  split; [exact Hfresh |]. split; [constructor; assumption |].
  intros nm [<- | Hin].
  - right. exists ep. split; [lia | reflexivity].
  - destruct (Hk _ Hin) as [(i & Hi & E) | (k & Hk' & E)].
    + left. exists i. split; [exact Hi | exact E].
    + right. exists k. split; [lia | exact E].
Qed.

Section EngineContract.
Context {S : Type} {BS : BoxStorage S}.
Variable i : S.
Hypothesis Href : refines_max_priority_set (fun _ => True) i.
Import SlackPackAlgorithm.

Lemma names_reached_storage (s : t S) : names_reached i s -> storage_reached i s.
Proof. intros (L & N & Hr & _). exists L, N. exact Hr. Qed.

(** The first step reads and sets the LRP only. *)
Lemma check_if_lrp_none_frame (s : t S) (P : list Detail) :
  let w' := snd (_check_if_lrp_none (s, P)) in
  box_storage (fst w') = box_storage s /\
  last_placed_index (fst w') = last_placed_index s /\
  endpoints_placed (fst w') = endpoints_placed s /\
  active_box (fst w') = active_box s.
Proof.
  unfold _check_if_lrp_none, self, assign, placed_details. unfold_m.
  destruct (lrp s); simpl; [repeat split |].
  destruct P; simpl; repeat split.
Qed.

(** The second step: the active box goes to the storage under its name, which
    is new. *)
Lemma contract_retire (d : R * R) (s : t S) (P : list Detail) :
  contract_inv i s ->
  storage_reached i (fst (snd (_check_active_box_size d (s, P)))) /\
  (fst (_check_active_box_size d (s, P)) = Ret tt ->
   names_reached i (fst (snd (_check_active_box_size d (s, P))))).
Proof.
  intros [(L & N & Hr & Hk) Hact].
  assert (Hsame : storage_reached i s /\ names_reached i s).
  { split; exists L, N; [exact Hr | split; assumption]. }
  assert (Hfr : forall ab, active_box s = Some ab ->
            ~ In (name ab) N /\
            names_known (name ab :: N) (last_placed_index s) (endpoints_placed s + 1)).
  { intros ab Hab. rewrite (Hact ab Hab). apply names_known_cons_endpoint, Hk. }
  clear Hact.
  unfold _check_active_box_size, self, assign, storage, inv_pow. unfold_m.
  destruct (active_box s) as [ab |] eqn:Hab; simpl;
    [| split; [exact (proj1 Hsame) | intros _; exact (proj2 Hsame)]].
  destruct (active_box_first_detail_index s =? 0)%Z; simpl;
    [split; [exact (proj1 Hsame) | intros _; exact (proj2 Hsame)] |].
  match goal with |- context [if ?c then _ else _] => destruct c end; simpl;
    [| split; [exact (proj1 Hsame) | intros _; exact (proj2 Hsame)]].
  destruct (Hfr ab eq_refl) as [Hfresh Hk'].
  destruct (proj2 (Href Hr) ab I Hfresh) as (st' & Hadd).
  rewrite Hadd. simpl.
  pose proof (reaches_add ab Hr I Hfresh Hadd) as Hr'.
  split; [exists (ab :: L), (name ab :: N); exact Hr' |].
  intros _. exists (ab :: L), (name ab :: N). split; [exact Hr' | exact Hk'].
Qed.

(** The third step asks the storage and may pop its largest box; the names
    and the counters stay. *)
Lemma contract_choose (d : R * R) (s : t S) (P : list Detail) :
  names_reached i s ->
  names_reached i (fst (snd (_choose_active_box d (s, P)))).
Proof.
  intros (L & N & Hr & Hk).
  assert (Hsame : forall s', box_storage s' = box_storage s ->
            last_placed_index s' = last_placed_index s ->
            endpoints_placed s' = endpoints_placed s -> names_reached i s').
  { intros s' E1 E2 E3. exists L, N. rewrite E1, E2, E3. split; assumption. }
  assert (Hpopped : forall s' st' L', reaches (fun _ => True) i st' L' N ->
            box_storage s' = st' ->
            last_placed_index s' = last_placed_index s ->
            endpoints_placed s' = endpoints_placed s -> names_reached i s').
  { intros s' st' L' Hr' E1 E2 E3. exists L', N. rewrite E1, E2, E3. split; assumption. }
  destruct (proj1 (Href Hr)) as (o & Hget & Hmax & Hpop).
  unfold _choose_active_box, _choose_active_box_from_box, _cut_new_strip,
    self, assign, storage, deref, placed_details, set_placed_details, list_remove, inv_pow.
  unfold_m.
  destruct (active_box s) as [ab |]; simpl; [apply Hsame; reflexivity |].
  rewrite Hget. simpl.
  destruct (last_placed_index s + 1 =? 0)%Z eqn:Ez; simpl; [apply Hsame; reflexivity |].
  match goal with |- context [if ?c then _ else _] => destruct c end; simpl.
  - destruct L as [| x L0].
    + destruct (pop_max_box (box_storage s)) as [r st'] eqn:Epop.
      pose proof (reaches_pop_empty Hr Epop) as Hr'.
      destruct r as [[b |] | e]; simpl; apply (Hpopped _ st' [] Hr'); reflexivity.
    + destruct (Hpop ltac:(discriminate)) as (s1 & E1).
      destruct o as [b |]; [| discriminate Hmax].
      pose proof (reaches_pop Hr E1) as Hr'.
      rewrite E1. simpl. apply (Hpopped _ s1 _ Hr'); reflexivity.
  - destruct (lrp s) as [l |]; simpl; [| apply Hsame; reflexivity].
    rewrite ?Ez. simpl.
    destruct (Rgtb (snd d + Rpower (1 / IZR (last_placed_index s + 1)) (gamma s))
                   (Rmax (width l) (height l))
              || Rgtb (fst d + Rpower (1 / IZR (last_placed_index s + 1)) (gamma s))
                      (Rmin (width l) (height l)))%bool; simpl; [apply Hsame; reflexivity |].
    destruct (update_placed_details s); simpl; [| apply Hsame; reflexivity].
    destruct (remove_first l P); simpl; apply Hsame; reflexivity.
Qed.

(** The last step gives the normal box of the new index to the storage, under
    a new name, and makes the endpoint of the current count the active box. *)
Lemma contract_place (d : R * R) (s : t S) (P : list Detail) :
  names_reached i s ->
  storage_reached i (fst (snd (_place_detail_in_active_box d (s, P)))) /\
  (fst (_place_detail_in_active_box d (s, P)) = Ret tt ->
   contract_inv i (fst (snd (_place_detail_in_active_box d (s, P))))).
Proof.
  intros (L & N & Hr & Hk).
  assert (Hsame : forall s', box_storage s' = box_storage s -> storage_reached i s').
  { intros s' E1. exists L, N. rewrite E1. exact Hr. }
  destruct (names_known_cons_box Hk) as [Hfresh Hk'].
  assert (Hadd : forall B : Detail,
            name B = (NORMAL_BOX_PREFIX ++ str (last_placed_index s + 1))%string ->
            exists st', add_box B (box_storage s) = (Ret tt, st') /\
                        reaches (fun _ => True) i st' (B :: L) (name B :: N) /\
                        names_known (name B :: N) (last_placed_index s + 1)
                          (endpoints_placed s)).
  { intros B HB. rewrite <- HB in Hfresh, Hk'.
    destruct (proj2 (Href Hr) B I Hfresh) as (st' & E).
    exists st'. split; [exact E |]. split; [apply (reaches_add B Hr I Hfresh E) | exact Hk']. }
  clear Hfresh Hk'.
  unfold _place_detail_in_active_box, self, assign, storage, deref,
    placed_details, set_placed_details, list_remove.
  unfold_m.
  destruct (active_box s) as [ab |]; simpl;
    [| split; [apply Hsame; reflexivity | discriminate]].
  destruct (cut_pieces (is_active_box_horizontal s) ab d) as [[pd nb] ep] eqn:Ecut.
  destruct (update_placed_details s); simpl.
  - destruct (remove_first ab P) as [P0 |]; simpl;
      [| split; [apply Hsame; reflexivity | discriminate]].
    match goal with |- context [add_box ?B (box_storage s)] =>
      destruct (Hadd B eq_refl) as (st' & E & Hr' & Hk') end.
    rewrite E. simpl. split; [eexists; eexists; exact Hr' |].
    intros _. split; [eexists; eexists; split; [exact Hr' | exact Hk'] |].
    intros ab' [= <-]. reflexivity.
  - match goal with |- context [add_box ?B (box_storage s)] =>
      destruct (Hadd B eq_refl) as (st' & E & Hr' & Hk') end.
    rewrite E. simpl. split; [eexists; eexists; exact Hr' |].
    intros _. split; [eexists; eexists; split; [exact Hr' | exact Hk'] |].
    intros ab' [= <-]. reflexivity.
Qed.


(** One call of [place_next]: the storage stays reached, and when the call
    returns the names are in order again. *)
Lemma contract_step (d : R * R) (s : t S) (P : list Detail) :
  contract_inv i s ->
  storage_reached i (fst (snd (place_next d (s, P)))) /\
  (fst (place_next d (s, P)) = Ret tt ->
   contract_inv i (fst (snd (place_next d (s, P))))).
Proof.
  intros Hinv. unfold place_next, bind.
  pose proof (check_if_lrp_none_frame s P) as HA. cbv zeta in HA.
  destruct (_check_if_lrp_none (s, P)) as [rA [sA PA]]. cbn [fst snd] in HA.
  destruct HA as (HA1 & HA2 & HA3 & HA4).
  assert (HinvA : contract_inv i sA).
  { destruct Hinv as [(L & N & Hr & Hk) Hact]. split.
    - exists L, N. rewrite HA1, HA2, HA3. split; assumption.
    - rewrite HA3, HA4. exact Hact. }
  clear Hinv.
  destruct rA as [[] | e]; cbn [fst snd];
    [| split; [apply names_reached_storage, HinvA | discriminate]].
  pose proof (contract_retire d PA HinvA) as HB.
  destruct (_check_active_box_size d (sA, PA)) as [rB [sB PB]]. cbn [fst snd] in HB.
  destruct HB as [HB1 HB2].
  destruct rB as [[] | e]; cbn [fst snd]; [| split; [exact HB1 | discriminate]].
  specialize (HB2 eq_refl).
  pose proof (contract_choose d PB HB2) as HC.
  destruct (_choose_active_box d (sB, PB)) as [rC [sC PC]]. cbn [fst snd] in HC.
  destruct rC as [[] | e]; cbn [fst snd];
    [| split; [apply names_reached_storage, HC | discriminate]].
  pose proof (contract_place d PC HC) as HD.
  destruct (_place_detail_in_active_box d (sC, PC)) as [rD [sD PD]]. cbn [fst snd] in HD |- *.
  exact HD.
Qed.

Lemma contract_place_all (ds : list (R * R)) (s : t S) (P : list Detail) :
  contract_inv i s ->
  storage_reached i (fst (snd (place_all ds (s, P)))).
Proof.
  revert s P. induction ds as [| d ds IH]; intros s P Hs.
  - apply names_reached_storage, Hs.
  - cbn [place_all]. unfold bind.
    destruct (contract_step d P Hs) as [Hreach Hret].
    destruct (place_next d (s, P)) as [[[] | e] [s' P']]; cbn [fst snd] in *.
    + apply IH. apply Hret. reflexivity.
    + exact Hreach.
Qed.

Lemma contract_inv_init (gamma : R) (n0 max_placed : Z) (flag : bool) :
  contract_inv i (init gamma n0 max_placed i flag).
Proof.
  split.
  - exists [], []. split; [apply reaches_init |]. split; [constructor | intros nm []].
  - intros ab Hab. discriminate.
Qed.

Lemma engine_storage_answers (gamma : R) (n0 max_placed : Z) (flag : bool)
  (P : list Detail) (ds : list (R * R)) :
  exists L N,
    reaches (fun _ => True) i
      (box_storage (fst (snd (place_all ds (init gamma n0 max_placed i flag, P))))) L N /\
    answers_like_set (fun _ => True)
      (box_storage (fst (snd (place_all ds (init gamma n0 max_placed i flag, P))))) L N.
Proof.
  destruct (contract_place_all ds P (contract_inv_init gamma n0 max_placed flag))
    as (L & N & Hr).
  exists L, N. split; [exact Hr | apply (Href Hr)].
Qed.

End EngineContract.

(** The engine meets the condition under which its storages are max-priority
    sets.  Started with [n0 >= 1] over a storage that answers like a
    max-priority set as long as every box comes under a new name, the engine
    adds every box under a new name: after the calls of [place_next] of a
    run, up to and including one that raises, the storage is in a state of
    such a sequence of calls and answers like the max-priority set of the
    boxes added and not popped.  [HybridBoxStorage] with a cache size of at
    least 1 is such a storage. *)
Theorem engine_keeps_storage_contract :
  (forall (S : Type) (BS : BoxStorage S) (i : S) (gamma : R) (n0 max_placed : Z)
          (flag : bool) (P : list Detail) (ds : list (R * R)),
     (1 <= n0)%Z ->
     refines_max_priority_set (fun _ => True) i ->
     exists L N,
       reaches (fun _ => True) i
         (SlackPackAlgorithm.box_storage
            (fst (snd (place_all ds
                         (SlackPackAlgorithm.init gamma n0 max_placed i flag, P))))) L N /\
       answers_like_set (fun _ => True)
         (SlackPackAlgorithm.box_storage
            (fst (snd (place_all ds
                         (SlackPackAlgorithm.init gamma n0 max_placed i flag, P))))) L N) /\
  (forall (cs : Z) (gamma : R) (n0 max_placed : Z) (flag : bool) (P : list Detail)
          (ds : list (R * R)),
     (1 <= n0)%Z -> (1 <= cs)%Z ->
     exists L N,
       reaches (fun _ => True) (HybridBoxStorage.init cs)
         (SlackPackAlgorithm.box_storage
            (fst (snd (place_all ds
                         (SlackPackAlgorithm.init gamma n0 max_placed
                            (HybridBoxStorage.init cs) flag, P))))) L N /\
       answers_like_set (fun _ => True)
         (SlackPackAlgorithm.box_storage
            (fst (snd (place_all ds
                         (SlackPackAlgorithm.init gamma n0 max_placed
                            (HybridBoxStorage.init cs) flag, P))))) L N).
Proof.
  split.
  - intros S BS i gamma n0 max_placed flag P ds _ Href.
    apply (@engine_storage_answers S BS i Href gamma n0 max_placed flag P ds).
  - intros cs gamma n0 max_placed flag P ds _ Hcs.
    apply (@engine_storage_answers _ _ _ (@hybrid_refines cs Hcs) gamma n0 max_placed flag P ds).
Qed.

(** The run of the two squares over the hybrid storage with
    [cache_size = 2], which then holds both boxes in [to_add_cache]. *)
Lemma engine_keeps_storage_contract_witness :
  CachedStorage.to_add_cache
    (SlackPackAlgorithm.box_storage
       (fst (snd (place_all [(1, 1); (1 / 2, 1 / 2)]
                    (SlackPackAlgorithm.init 1 1 2 (HybridBoxStorage.init 2) true,
                     [wide_sheet])))))
    = [squares_B1; squares_B2] /\
  exists L N,
    reaches (fun _ => True) (HybridBoxStorage.init 2)
      (SlackPackAlgorithm.box_storage
         (fst (snd (place_all [(1, 1); (1 / 2, 1 / 2)]
                      (SlackPackAlgorithm.init 1 1 2 (HybridBoxStorage.init 2) true,
                       [wide_sheet]))))) L N /\
    answers_like_set (fun _ => True)
      (SlackPackAlgorithm.box_storage
         (fst (snd (place_all [(1, 1); (1 / 2, 1 / 2)]
                      (SlackPackAlgorithm.init 1 1 2 (HybridBoxStorage.init 2) true,
                       [wide_sheet]))))) L N.
Proof.
  split; [rewrite squares_run_hybrid; reflexivity |].
  apply (proj2 engine_keeps_storage_contract 2%Z 1 1%Z 2%Z true [wide_sheet]
           [(1, 1); (1 / 2, 1 / 2)]); lia.
Defined.

(** ** The first call on an empty list and with [n0 = 0] *)

(** Two inputs the constructor accepts and the first call of [place_next]
    fails on.  On an empty list of placed details the call raises the
    [IndexError] of [placed_details[0]] and changes nothing.  With [n0 = 0]
    the first detail has the index 0: once the storage has answered
    [get_max_box], the gap [pow(1 / 0, gamma)] raises [ZeroDivisionError];
    the sheet has become the LRP, nothing is cut or placed and the list is
    as before. *)
Theorem first_call_edge_errors (S : Type) (BS : BoxStorage S) (gamma : R)
  (max_placed : Z) (st : S) (flag : bool) (d : R * R) :
  (forall n0,
     SlackPackAlgorithm.place_next d
       (SlackPackAlgorithm.init gamma n0 max_placed st flag, [])
     = (Raise (IndexError "list index out of range"),
        (SlackPackAlgorithm.init gamma n0 max_placed st flag, []))) /\
  (forall sheet P o st',
     get_max_box st = (Ret o, st') ->
     SlackPackAlgorithm.place_next d
       (SlackPackAlgorithm.init gamma 0 max_placed st flag, sheet :: P)
     = (Raise ZeroDivisionError,
        (SlackPackAlgorithm.set_box_storage
           (SlackPackAlgorithm.set_active_box_first_detail_index 0
              (SlackPackAlgorithm.set_lrp (Some sheet)
                 (SlackPackAlgorithm.init gamma 0 max_placed st flag))) st',
         sheet :: P))).
Proof.
  split.
  - intros n0. reflexivity.
  - intros sheet P o st' Hget.
    unfold SlackPackAlgorithm.place_next, bind.
    change (SlackPackAlgorithm._check_if_lrp_none
              (SlackPackAlgorithm.init gamma 0 max_placed st flag, sheet :: P))
      with (@Ret unit tt,
            (SlackPackAlgorithm.set_lrp (Some sheet)
               (SlackPackAlgorithm.init gamma 0 max_placed st flag), sheet :: P)).
    cbv iota beta.
    change (SlackPackAlgorithm._check_active_box_size d
              (SlackPackAlgorithm.set_lrp (Some sheet)
                 (SlackPackAlgorithm.init gamma 0 max_placed st flag), sheet :: P))
      with (@Ret unit tt,
            (SlackPackAlgorithm.set_lrp (Some sheet)
               (SlackPackAlgorithm.init gamma 0 max_placed st flag), sheet :: P)).
    cbv iota beta.
    unfold SlackPackAlgorithm._choose_active_box, SlackPackAlgorithm.self,
      SlackPackAlgorithm.assign, SlackPackAlgorithm.storage, inv_pow.
    unfold bind, modify, zoom, of_outcome.
    cbn [fst snd SlackPackAlgorithm.active_box SlackPackAlgorithm.set_lrp
         SlackPackAlgorithm.init SlackPackAlgorithm.box_storage
         SlackPackAlgorithm.set_active_box_first_detail_index
         SlackPackAlgorithm.last_placed_index SlackPackAlgorithm.gamma
         SlackPackAlgorithm.set_box_storage].
    rewrite Hget. reflexivity.
Qed.

Lemma first_call_edge_errors_witness :
  SlackPackAlgorithm.place_next (1, 1)
    (SlackPackAlgorithm.init 1 0 1 InMemoryBoxStorage.init true, [unit_sheet])
  = (Raise ZeroDivisionError,
     (SlackPackAlgorithm.set_box_storage
        (SlackPackAlgorithm.set_active_box_first_detail_index 0
           (SlackPackAlgorithm.set_lrp (Some unit_sheet)
              (SlackPackAlgorithm.init 1 0 1 InMemoryBoxStorage.init true)))
        InMemoryBoxStorage.init,
      [unit_sheet])).
Proof.
  apply (proj2 (@first_call_edge_errors _ _ 1 1 InMemoryBoxStorage.init true (1, 1))
           unit_sheet [] None InMemoryBoxStorage.init).
  reflexivity.
Defined.
